(** * depot-fs: entity addresses, bitmap allocators, segment merger and the
      Vfile stream, embedded from the Go sources.

    Integers of the Go code are modelled as [Z]; a fixed-width value carries
    its wrap-around explicitly ([u8], [u32], [u64]).  A Go slice of bytes is a
    [list Z] whose elements lie in [0, 256).  A Go panic (index out of range,
    explicit [panic]) is an explicit outcome of the functions that can reach
    one. *)

From Stdlib Require Import ZArith List Lia Bool.
From coqutil Require Import Z.bitblast.
Import ListNotations.
Local Open Scope Z_scope.

Ltac Zify.zify_post_hook ::= Z.to_euclidean_division_equations.

(* ------------------------------------------------------------------ *)
(** ** Fixed-width arithmetic *)

Definition u8 (x : Z) : Z := x mod 2 ^ 8.
Definition u16 (x : Z) : Z := x mod 2 ^ 16.
Definition u32 (x : Z) : Z := x mod 2 ^ 32.
Definition u64 (x : Z) : Z := x mod 2 ^ 64.
(** [int32(x)]: two's complement reading of the low 32 bits. *)
Definition i32 (x : Z) : Z := (x + 2 ^ 31) mod 2 ^ 32 - 2 ^ 31.

Definition is_u8 (x : Z) : Prop := 0 <= x < 2 ^ 8.
Definition is_u32 (x : Z) : Prop := 0 <= x < 2 ^ 32.
Definition is_u64 (x : Z) : Prop := 0 <= x < 2 ^ 64.

(* ------------------------------------------------------------------ *)
(** ** ent.go: the packed 32-bit entity address *)

Module EntAddr.

(** [func (b EntAddr) IsBigBlock() uint32] *)
Definition IsBigBlock (b : Z) : Z := Z.shiftr (Z.land b 0x80000000) 31.

(** [func (b EntAddr) GetAddr() (uint32, uint32, uint32)]: idx, group, isbig. *)
Definition GetAddr (b : Z) : Z * Z * Z :=
  let idx := Z.land b 0x000FFFFF in
  let b := Z.shiftr b 20 in
  let group := Z.land b 0x7FF in
  (idx, group, Z.shiftr b 11).

(** [func MakeEntAddr(idx, group uint32, isBigBlock bool) uint32].  The shift
    is a [uint32] shift: bits pushed past bit 31 are lost. *)
Definition MakeEntAddr (idx group : Z) (isBigBlock : bool) : Z :=
  let addr := Z.lor (u32 (Z.shiftl group 20)) idx in
  if isBigBlock then Z.lor addr 0x80000000 else addr.

(** What a call of the packing operation can produce.  The Go function has
    the single result type [uint32]: no [error] result and no [panic] in its
    body, so every call ends in [Packed]. *)
Inductive make_result : Type :=
| Packed (w : Z)
| DomainError.

Definition make (idx group : Z) (big : bool) : make_result :=
  Packed (MakeEntAddr idx group big).

Definition idx_of (a : Z) : Z := fst (fst (GetAddr a)).
Definition group_of (a : Z) : Z := snd (fst (GetAddr a)).
Definition big_of (a : Z) : Z := snd (GetAddr a).

End EntAddr.

(* ------------------------------------------------------------------ *)
(** ** Slices, [math/bits] and the little-endian word view *)

(** [s[i]] for an index the source keeps in range. *)
Definition get (s : list Z) (i : Z) : Z := nth (Z.to_nat i) s 0.

(** [s[i] = v] for an index the source keeps in range. *)
Fixpoint set_nat (s : list Z) (i : nat) (v : Z) : list Z :=
  match s, i with
  | [], _ => []
  | _ :: t, O => v :: t
  | h :: t, S i' => h :: set_nat t i' v
  end.
Definition set (s : list Z) (i : Z) (v : Z) : list Z := set_nat s (Z.to_nat i) v.

Definition len (s : list Z) : Z := Z.of_nat (length s).

(** Number of trailing zero bits of a [w]-bit value; [w] when the value is 0
    ([bits.TrailingZeros8], [bits.TrailingZeros64]). *)
Fixpoint tz_from (w : nat) (i : Z) (x : Z) : Z :=
  match w with
  | O => i
  | S w' => if Z.testbit x i then i else tz_from w' (i + 1) x
  end.
Definition TrailingZeros8 (x : Z) : Z := tz_from 8 0 x.
Definition TrailingZeros64 (x : Z) : Z := tz_from 64 0 x.

(** Number of one bits among the low [w] bits ([bits.OnesCount8],
    [bits.OnesCount64]). *)
Fixpoint ones_from (w : nat) (i : Z) (x : Z) : Z :=
  match w with
  | O => 0
  | S w' => Z.b2z (Z.testbit x i) + ones_from w' (i + 1) x
  end.
Definition OnesCount8 (x : Z) : Z := ones_from 8 0 x.
Definition OnesCount64 (x : Z) : Z := ones_from 64 0 x.

(** [^x] on [uint8] and on [uint64]. *)
Definition not8 (x : Z) : Z := Z.lxor x 0xFF.
Definition not64 (x : Z) : Z := Z.lxor x 0xFFFFFFFFFFFFFFFF.

(** The [[]uint64] view that [unsafe.Slice] lays over the byte buffer of a
    [Bitmap64] (little-endian host): word [p] is bytes [8p .. 8p+7]. *)
Fixpoint le_combine (l : list Z) : Z :=
  match l with
  | [] => 0
  | b :: t => Z.lor b (Z.shiftl (le_combine t) 8)
  end.
Fixpoint le_split (n : nat) (w : Z) : list Z :=
  match n with
  | O => []
  | S n' => Z.land w 0xFF :: le_split n' (Z.shiftr w 8)
  end.
Definition get_word (buf : list Z) (p : Z) : Z :=
  le_combine (firstn 8 (skipn (Z.to_nat (8 * p)) buf)).
Definition set_word (buf : list Z) (p : Z) (w : Z) : list Z :=
  firstn (Z.to_nat (8 * p)) buf ++ le_split 8 w ++ skipn (Z.to_nat (8 * p) + 8) buf.

(** Outcome of a function whose body can panic. *)
Inductive outcome (A : Type) : Type :=
| Done (a : A)
| Panic.
Arguments Done {A} a.
Arguments Panic {A}.

(* ------------------------------------------------------------------ *)
(** ** bitmap.go: helpers shared by the two bitmap implementations *)

Module Bitmap.

(** [x &^ m] on [uint8]. *)
Definition andnot8 (x m : Z) : Z := Z.land x (not8 m).

(** [func checkBit(groupId uint32, bitmap []uint8, inodeptr uint32) bool] *)
Definition checkBit (groupId : Z) (bitmap : list Z) (inodeptr : Z) : outcome bool :=
  let '(idx, g, _) := EntAddr.GetAddr inodeptr in
  if negb (g =? groupId) then Panic
  else if idx / 8 <? len bitmap
  then Done (negb (Z.land (get bitmap (idx / 8)) (u8 (Z.shiftl 1 (idx mod 8))) =? 0))
  else Panic.

(** [for i := startByte + 1; i < endByte; i++ { bitmap[i] = 0 }] *)
Fixpoint zero_bytes (bitmap : list Z) (i : Z) (n : nat) : list Z :=
  match n with
  | O => bitmap
  | S n' => zero_bytes (set bitmap i 0) (i + 1) n'
  end.

(** [func clearBits(bitmap []uint8, from, to uint32)] *)
Definition clearBits (bitmap : list Z) (from to : Z) : outcome (list Z) :=
  let startByte := from / 8 in
  let startBit := from mod 8 in
  let endByte := to / 8 in
  let endBit := to mod 8 in
  if startByte =? endByte then
    if startByte <? len bitmap then
      let mask := u8 (Z.shiftl (u8 (u8 (Z.shiftl 1 (u32 (endBit - startBit))) - 1)) startBit) in
      Done (set bitmap startByte (andnot8 (get bitmap startByte) mask))
    else Panic
  else
    if startByte <? len bitmap then
      let startMask := u8 (Z.shiftl 0xFF startBit) in
      let bitmap := set bitmap startByte (andnot8 (get bitmap startByte) startMask) in
      if endByte <? len bitmap then
        let endMask := u8 (u8 (Z.shiftl 1 endBit) - 1) in
        let bitmap := set bitmap endByte (andnot8 (get bitmap endByte) endMask) in
        Done (zero_bytes bitmap (startByte + 1) (Z.to_nat (endByte - (startByte + 1))))
      else Panic
    else Panic.

(** [func batchClearBits(groupId uint32, bitmap []uint8, ptrs []uint32) int];
    [c] is the running count, 0 at the call. *)
Fixpoint batchClearBits_from (groupId : Z) (bitmap : list Z) (ptrs : list Z) (c : Z)
  : outcome (list Z * Z) :=
  match ptrs with
  | [] => Done (bitmap, c)
  | p :: rest =>
      let '(idx, g, isBig) := EntAddr.GetAddr p in
      if negb (g =? groupId) then Panic
      else
        let startByte := idx / 8 in
        let startBit := idx mod 8 in
        if isBig >? 0 then
          match clearBits bitmap idx (u32 (idx + 64)) with
          | Panic => Panic
          | Done bitmap' => batchClearBits_from groupId bitmap' rest (c + 64)
          end
        else if startByte <? len bitmap then
          let mask := u8 (Z.shiftl 1 startBit) in
          batchClearBits_from groupId
            (set bitmap startByte (andnot8 (get bitmap startByte) mask)) rest (c + 1)
        else Panic
  end.
Definition batchClearBits (groupId : Z) (bitmap : list Z) (ptrs : list Z)
  : outcome (list Z * Z) :=
  batchClearBits_from groupId bitmap ptrs 0.

(** The locals of [AllocBits] that its loops update: the bitmap memory,
    [freeBits], [allocatedPositions] and [cnt]. *)
Record scan : Type := mkScan {
  s_bits : list Z;
  s_free : Z;
  s_acc : list Z;
  s_cnt : Z
}.

(** How the inner [for { ... }] of [AllocBits] is left: by [return] or by
    [break]. *)
Inductive leave : Type := ByReturn | ByBreak.

(** [cnt >= numBits || len(allocatedPositions) >= hlimit] *)
Definition enough (numBits hlimit : Z) (s : scan) : bool :=
  (s_cnt s >=? numBits) || (len (s_acc s) >=? hlimit).

End Bitmap.

(* ------------------------------------------------------------------ *)
(** ** bitmap.go: [BitmapBase], one byte at a time *)

Module Base.
Import Bitmap.

Record t : Type := mk {
  bits : list Z;
  freeBits : Z;
  GroupId : Z;
  lastPos : Z
}.

Definition FreeBits (b : t) : Z := freeBits b.

Definition CheckBit (b : t) (ptr : Z) : outcome bool :=
  checkBit (GroupId b) (bits b) ptr.

Definition ClearBits (b : t) (ptrs : list Z) : outcome t :=
  match batchClearBits (GroupId b) (bits b) ptrs with
  | Panic => Panic
  | Done (bits', c) => Done (mk bits' (freeBits b + c) (GroupId b) (lastPos b))
  end.

Definition TotalBits (b : t) : Z := len (bits b) * 8.

(** [func (b *BitmapBase) GetData(offset int, length int) []uint8] *)
Definition GetData (b : t) (offset length : Z) : outcome (list Z) :=
  if offset <? 0 then Done (bits b)
  else if (0 <=? length) && (offset + length <=? len (bits b))
  then Done (firstn (Z.to_nat length) (skipn (Z.to_nat offset) (bits b)))
  else Panic.

Definition CountFreeBitsOf (data : list Z) : Z :=
  len data * 8 - fold_left (fun count v => count + OnesCount8 v) data 0.
Definition CountFreeBits (b : t) : Z := CountFreeBitsOf (bits b).

Definition Init (groupId : Z) (data : list Z) : t :=
  mk data (CountFreeBitsOf data) groupId 0.

(** The test of the first loop of [trySet64Bits] at index [i]; [true] when
    the loop goes on. *)
Definition try_check (bits : list Z) (pos ofs mask i : Z) : bool :=
  let byteValue := get bits (pos + i) in
  if i =? 0 then Z.shiftr byteValue ofs =? 0
  else if i =? 8 then Z.land byteValue mask =? 0
  else byteValue =? 0.

(** The body of the second loop of [trySet64Bits] at index [i]. *)
Definition try_set (pos ofs mask : Z) (bits : list Z) (i : Z) : list Z :=
  if i =? 0 then
    set bits (pos + i) (Z.lor (get bits (pos + i)) (not8 (u8 (u8 (Z.shiftl 1 ofs) - 1))))
  else if i =? 8 then set bits (pos + i) (Z.lor (get bits (pos + i)) mask)
  else set bits (pos + i) 0xFF.

Definition zero_to_eight : list Z := map Z.of_nat (seq 0 9).

(** [func (b *BitmapBase) trySet64Bits(pos int, of int) bool]: [None] for
    [false], [Some bits'] for [true] with the bytes it has written.  The
    source's [of] is a keyword here and is written [ofs] throughout. *)
Definition trySet64Bits (bits : list Z) (pos ofs : Z) : option (list Z) :=
  if pos + 8 >=? len bits then None
  else
    let mask := u8 (u8 (Z.shiftl 1 ofs) - 1) in
    if forallb (try_check bits pos ofs mask) zero_to_eight
    then Some (fold_left (try_set pos ofs mask) zero_to_eight bits)
    else None.

(** The single-bit allocation at the end of the inner loop body. *)
Definition take_one (groupId pos ofs : Z) (s : scan) : scan :=
  mkScan (set (s_bits s) pos (Z.lor (get (s_bits s) pos) (u8 (Z.shiftl 1 ofs))))
         (s_free s - 1)
         (s_acc s ++ [EntAddr.MakeEntAddr (u32 (pos * 8 + ofs)) groupId false])
         (s_cnt s + 1).

(** The inner [for { ... }] of [AllocBits] at byte [pos].  Every pass that
    does not leave the loop sets one more bit of the byte, so nine passes are
    enough; [None] stands for running out of [fuel]. *)
Fixpoint inner (fuel : nat) (groupId numBits hlimit : Z) (bigAlloc : bool)
  (pos : Z) (s : scan) : option (leave * scan) :=
  match fuel with
  | O => None
  | S fuel' =>
      let ofs := TrailingZeros8 (not8 (get (s_bits s) pos)) in
      if ofs =? 8 then Some (ByBreak, s)
      else
        let single :=
          let s1 := take_one groupId pos ofs s in
          if enough numBits hlimit s1 then Some (ByReturn, s1)
          else inner fuel' groupId numBits hlimit bigAlloc pos s1 in
        if bigAlloc && (numBits - s_cnt s >=? 64) then
          match trySet64Bits (s_bits s) pos ofs with
          | Some bits' =>
              let s1 := mkScan bits' (s_free s - 64)
                          (s_acc s ++ [EntAddr.MakeEntAddr (u32 (pos * 8 + ofs)) groupId true])
                          (s_cnt s + 64) in
              if enough numBits hlimit s1 then Some (ByReturn, s1)
              else Some (ByBreak, s1)
          | None => single
          end
        else single
  end.

(** [for pos := bpos; pos < bml; pos++ { b.lastPos = pos; for { ... } }],
    with [n] the number of passes left; the result carries [b.lastPos]. *)
Fixpoint outer (n : nat) (groupId numBits hlimit : Z) (bigAlloc : bool)
  (pos lastPos : Z) (s : scan) : option (leave * Z * scan) :=
  match n with
  | O => Some (ByBreak, lastPos, s)
  | S n' =>
      match inner 9 groupId numBits hlimit bigAlloc pos s with
      | None => None
      | Some (ByReturn, s') => Some (ByReturn, pos, s')
      | Some (ByBreak, s') => outer n' groupId numBits hlimit bigAlloc (pos + 1) pos s'
      end
  end.

(** [func (b *BitmapBase) AllocBits(numBits int, hlimit int, bigAlloc bool)
    ([]uint32, int)].  The recursive call runs with [lastPos = 0] and so
    cannot recurse again: [depth] 2 is enough. *)
Fixpoint AllocBits_depth (depth : nat) (b : t) (numBits hlimit : Z) (bigAlloc : bool)
  : option (list Z * Z * t) :=
  match depth with
  | O => None
  | S depth' =>
      let bml := len (bits b) in
      let bpos := lastPos b in
      match outer (Z.to_nat (bml - bpos)) (GroupId b) numBits hlimit bigAlloc bpos bpos
                  (mkScan (bits b) (freeBits b) [] 0) with
      | None => None
      | Some (ByReturn, lp, s) =>
          Some (s_acc s, s_cnt s, mk (s_bits s) (s_free s) (GroupId b) lp)
      | Some (ByBreak, lp, s) =>
          if negb (bpos =? 0) && (s_free s >? 0) then
            match AllocBits_depth depth' (mk (s_bits s) (s_free s) (GroupId b) 0)
                                  (numBits - s_cnt s) hlimit bigAlloc with
            | None => None
            | Some (lst, n, b') => Some (s_acc s ++ lst, s_cnt s + n, b')
            end
          else Some (s_acc s, s_cnt s, mk (s_bits s) (s_free s) (GroupId b) lp)
      end
  end.
Definition AllocBits (b : t) (numBits hlimit : Z) (bigAlloc : bool)
  : option (list Z * Z * t) :=
  AllocBits_depth 2 b numBits hlimit bigAlloc.

End Base.

(* ------------------------------------------------------------------ *)
(** ** bitmap.go: [Bitmap64], one 64-bit word at a time *)

Module B64.
Import Bitmap.

(** [buffer] is the byte slice; the source's [bits []uint64] is the word view
    of the same memory, read with [get_word] and written with [set_word], so
    a write through either is seen through the other. *)
Record t : Type := mk {
  buffer : list Z;
  freeBits : Z;
  GroupId : Z;
  lastPos : Z
}.

(** [len(b.bits)] *)
Definition nwords (buf : list Z) : Z := len buf / 8.

Definition FreeBits (b : t) : Z := freeBits b.

Definition CheckBit (b : t) (ptr : Z) : outcome bool :=
  checkBit (GroupId b) (buffer b) ptr.

Definition ClearBits (b : t) (ptrs : list Z) : outcome t :=
  match batchClearBits (GroupId b) (buffer b) ptrs with
  | Panic => Panic
  | Done (buf', c) => Done (mk buf' (freeBits b + c) (GroupId b) (lastPos b))
  end.

Definition TotalBits (b : t) : Z := nwords (buffer b) * 64.

(** [func (b *Bitmap64) GetData(offset int, length int) []uint8] *)
Definition GetData (b : t) (offset length : Z) : outcome (list Z) :=
  if offset <? 0 then Done (buffer b)
  else if (0 <=? length) && (offset + length <=? len (buffer b))
  then Done (firstn (Z.to_nat length) (skipn (Z.to_nat offset) (buffer b)))
  else Panic.

Definition words (buf : list Z) : list Z :=
  map (fun p => get_word buf (Z.of_nat p)) (seq 0 (Z.to_nat (nwords buf))).

Definition CountFreeBitsOf (data : list Z) : Z :=
  nwords data * 64 - fold_left (fun count w => count + OnesCount64 w) (words data) 0.
Definition CountFreeBits (b : t) : Z := CountFreeBitsOf (buffer b).

(** [func (b *Bitmap64) Init(groupId uint32, data []uint8)] *)
Definition Init (groupId : Z) (data : list Z) : outcome t :=
  if negb (len data mod 8 =? 0) then Panic
  else Done (mk data (CountFreeBitsOf data) groupId 0).

(** The single-bit allocation at the end of the inner loop body. *)
Definition take_one (groupId pos ofs : Z) (s : scan) : scan :=
  mkScan (set_word (s_bits s) pos (Z.lor (get_word (s_bits s) pos) (u64 (Z.shiftl 1 ofs))))
         (s_free s - 1)
         (s_acc s ++ [EntAddr.MakeEntAddr (u32 (Z.shiftl pos 6 + ofs)) groupId false])
         (s_cnt s + 1).

(** The 64-bit allocation: the upper [64 - ofs] bits of word [pos] and the
    lower [ofs] bits of word [pos + 1]. *)
Definition take_big (groupId pos ofs mask : Z) (s : scan) : scan :=
  let b1 := set_word (s_bits s) pos
              (Z.lor (get_word (s_bits s) pos) (not64 (u64 (u64 (Z.shiftl 1 ofs) - 1)))) in
  let b2 := set_word b1 (pos + 1) (Z.lor (get_word b1 (pos + 1)) mask) in
  mkScan b2 (s_free s - 64)
         (s_acc s ++ [EntAddr.MakeEntAddr (u32 (Z.shiftl pos 6 + ofs)) groupId true])
         (s_cnt s + 64).

(** The inner [for { ... }] of [AllocBits] at word [pos]; sixty-five passes
    are enough, [None] stands for running out of [fuel]. *)
Fixpoint inner (fuel : nat) (groupId numBits hlimit : Z) (bigAlloc : bool)
  (bml pos : Z) (s : scan) : option (leave * scan) :=
  match fuel with
  | O => None
  | S fuel' =>
      let ofs := TrailingZeros64 (not64 (get_word (s_bits s) pos)) in
      if ofs =? 64 then Some (ByBreak, s)
      else
        let single :=
          let s1 := take_one groupId pos ofs s in
          if enough numBits hlimit s1 then Some (ByReturn, s1)
          else inner fuel' groupId numBits hlimit bigAlloc bml pos s1 in
        if bigAlloc && (numBits - s_cnt s >=? 64)
           && (Z.shiftr (get_word (s_bits s) pos) ofs =? 0) && (pos <? bml - 1) then
          let mask := u64 (u64 (Z.shiftl 1 ofs) - 1) in
          if Z.land (get_word (s_bits s) (pos + 1)) mask =? 0 then
            let s1 := take_big groupId pos ofs mask s in
            if enough numBits hlimit s1 then Some (ByReturn, s1)
            else Some (ByBreak, s1)
          else single
        else single
  end.

(** [for pos := bpos; pos < bml; pos++ { b.lastPos = pos; for { ... } }] *)
Fixpoint outer (n : nat) (groupId numBits hlimit : Z) (bigAlloc : bool)
  (bml pos lastPos : Z) (s : scan) : option (leave * Z * scan) :=
  match n with
  | O => Some (ByBreak, lastPos, s)
  | S n' =>
      match inner 65 groupId numBits hlimit bigAlloc bml pos s with
      | None => None
      | Some (ByReturn, s') => Some (ByReturn, pos, s')
      | Some (ByBreak, s') => outer n' groupId numBits hlimit bigAlloc bml (pos + 1) pos s'
      end
  end.

(** [func (b *Bitmap64) AllocBits(numBits int, hlimit int, bigAlloc bool)
    ([]uint32, int)]; [depth] as for [BitmapBase]. *)
Fixpoint AllocBits_depth (depth : nat) (b : t) (numBits hlimit : Z) (bigAlloc : bool)
  : option (list Z * Z * t) :=
  match depth with
  | O => None
  | S depth' =>
      let bml := nwords (buffer b) in
      let bpos := lastPos b in
      match outer (Z.to_nat (bml - bpos)) (GroupId b) numBits hlimit bigAlloc bml bpos bpos
                  (mkScan (buffer b) (freeBits b) [] 0) with
      | None => None
      | Some (ByReturn, lp, s) =>
          Some (s_acc s, s_cnt s, mk (s_bits s) (s_free s) (GroupId b) lp)
      | Some (ByBreak, lp, s) =>
          if negb (bpos =? 0) && (s_free s >? 0) then
            match AllocBits_depth depth' (mk (s_bits s) (s_free s) (GroupId b) 0)
                                  (numBits - s_cnt s) hlimit bigAlloc with
            | None => None
            | Some (lst, n, b') => Some (s_acc s ++ lst, s_cnt s + n, b')
            end
          else Some (s_acc s, s_cnt s, mk (s_bits s) (s_free s) (GroupId b) lp)
      end
  end.
Definition AllocBits (b : t) (numBits hlimit : Z) (bigAlloc : bool)
  : option (list Z * Z * t) :=
  AllocBits_depth 2 b numBits hlimit bigAlloc.

End B64.

(* ------------------------------------------------------------------ *)
(** ** bitmap.go: [type Bitmap interface] and its two implementations *)

Module Iface.

Class Bitmap (T : Type) : Type := {
  Init : Z -> list Z -> outcome T;
  GetData : T -> Z -> Z -> outcome (list Z);
  FreeBits : T -> Z;
  TotalBits : T -> Z;
  AllocBits : T -> Z -> Z -> bool -> option (list Z * Z * T);
  ClearBits : T -> list Z -> outcome T;
  CheckBit : T -> Z -> outcome bool
}.

#[global] Instance BitmapBase : Bitmap Base.t := {|
  Init := fun groupId data => Done (Base.Init groupId data);
  GetData := Base.GetData;
  FreeBits := Base.FreeBits;
  TotalBits := Base.TotalBits;
  AllocBits := Base.AllocBits;
  ClearBits := Base.ClearBits;
  CheckBit := Base.CheckBit
|}.

#[global] Instance Bitmap64 : Bitmap B64.t := {|
  Init := B64.Init;
  GetData := B64.GetData;
  FreeBits := B64.FreeBits;
  TotalBits := B64.TotalBits;
  AllocBits := B64.AllocBits;
  ClearBits := B64.ClearBits;
  CheckBit := B64.CheckBit
|}.

End Iface.

(* ------------------------------------------------------------------ *)
(** ** seg.go: merging changed bitmap bytes into spans *)

Module Seg.

Record Seg : Type := mkSeg { offset : Z; length : Z }.

(** The loop state of [mergeSeg]: [segs], [lastof], [lastLen], [bits]. *)
Record acc : Type := mkAcc {
  segs : list Seg;
  lastof : Z;
  lastLen : Z;
  bits : Z
}.

(** One pass of [for _, e := range addr]. *)
Definition step (a : acc) (e : Z) : acc :=
  let '(idx, _, isBig) := EntAddr.GetAddr e in
  let bits := bits a + 1 in
  let bits := if isBig >? 0 then bits + 63 else bits in
  let ofs := idx / 8 in
  if lastof a <? 0 then
    mkAcc (segs a) ofs (if isBig >? 0 then 8 else lastLen a) bits
  else if lastof a + lastLen a >? ofs then
    mkAcc (segs a) (lastof a) (if isBig >? 0 then lastLen a + 8 else lastLen a) bits
  else if lastof a + lastLen a =? ofs then
    mkAcc (segs a) (lastof a) (if isBig >? 0 then lastLen a + 8 else lastLen a + 1) bits
  else
    mkAcc (segs a ++ [mkSeg (lastof a) (lastLen a)]) ofs 1 bits.

(** [func mergeSeg(addr []uint32) ([]Seg, int)] *)
Definition mergeSeg (addr : list Z) : list Seg * Z :=
  let a := fold_left step addr (mkAcc [] (-1) 1 0) in
  if lastof a >=? 0 then (segs a ++ [mkSeg (lastof a) (lastLen a)], bits a)
  else (segs a, bits a).

End Seg.

(* ================================================================== *)
(** * meta.go, file_key.go, volume.go, cache.go, fs.go: the file system

    A Go function that returns [(value, error)] returns the pair here, the
    error as an [option]; what it changes (the file system, the open
    [Vfile]) is threaded through as state, and stays changed when the call
    returns an error, as in Go.  A volume file is the list of its bytes
    together with the position of its handle.  [int] and [int64] values are
    [Z]; unsigned fields wrap where the source computes in them. *)

(** The [error] values that the modelled functions return. *)
Inductive error : Type :=
| io_EOF
| io_ErrUnexpectedEOF
| os_ErrInvalid
| os_ErrNotExist
| hex_InvalidByte
| invalid_key_length
| Bad_File_name_len
| Invalid_inode
| meta_overlimit
| File_meta_overlimit
| No_free_inodes
| Not_enough_free_blocks
| alloc_block_failed
| bad_offset
| bad_blockptrs_length
| Bad_pointer_offset
| Bad_group_id
| FNF
| Bad_meta_size
| read_from_unallocated_block
| bad_indirect_block_id
| system_full
| Fill_system_full
| Inner_err_Wrong_inode_Blocks
| system_error.

(** How a call ends: it returns, it panics, or a loop of the model has used
    up its fuel. *)
Inductive result (A : Type) : Type :=
| Value (a : A)
| Panics
| NoFuel.
Arguments Value {A} a.
Arguments Panics {A}.
Arguments NoFuel {A}.

(** Computations over a state [S]. *)
Definition M (S A : Type) : Type := S -> result (A * S).

Definition ret {S A : Type} (a : A) : M S A := fun s => Value (a, s).
Definition bind {S A B : Type} (m : M S A) (k : A -> M S B) : M S B :=
  fun s =>
    match m s with
    | Value (a, s') => k a s'
    | Panics => Panics
    | NoFuel => NoFuel
    end.
Definition panic {S A : Type} : M S A := fun _ => Panics.
Definition starve {S A : Type} : M S A := fun _ => NoFuel.
Definition gets {S A : Type} (f : S -> A) : M S A := fun s => Value (f s, s).
Definition modify {S : Type} (f : S -> S) : M S unit := fun s => Value (tt, f s).
Definition of_outcome {S A : Type} (o : outcome A) : M S A :=
  match o with
  | Done a => ret a
  | Panic => panic
  end.

Declare Scope fs_scope.
Delimit Scope fs_scope with fs.
Notation "x <- m ;; k" := (bind m (fun x => k))
  (at level 61, m at next level, right associativity) : fs_scope.
Notation "' pat <- m ;; k" := (bind m (fun x => match x with pat => k end))
  (at level 61, pat pattern, m at next level, right associativity) : fs_scope.
Notation "m ;;; k" := (bind m (fun _ => k))
  (at level 61, right associativity) : fs_scope.
Local Open Scope fs_scope.

(** [s[i]] with the bounds check of Go. *)
Definition index {S A : Type} (l : list A) (i : Z) : M S A :=
  if (0 <=? i) && (i <? Z.of_nat (length l)) then
    match nth_error l (Z.to_nat i) with
    | Some a => ret a
    | None => panic
    end
  else panic.

Fixpoint update_nat {A : Type} (l : list A) (i : nat) (a : A) : list A :=
  match l, i with
  | [], _ => []
  | _ :: t, O => a :: t
  | h :: t, S i' => h :: update_nat t i' a
  end.
Definition update {A : Type} (l : list A) (i : Z) (a : A) : list A :=
  update_nat l (Z.to_nat i) a.

(** [s[lo:hi]] of a byte slice, and [copy(dst[at:], src)]. *)
Definition slice (s : list Z) (lo hi : Z) : list Z :=
  firstn (Z.to_nat (hi - lo)) (skipn (Z.to_nat lo) s).
Definition from (s : list Z) (lo : Z) : list Z := skipn (Z.to_nat lo) s.
Definition copy_at (dst : list Z) (at_ : Z) (src : list Z) : list Z :=
  let n := Z.min (len src) (len dst - at_) in
  if n <=? 0 then dst
  else firstn (Z.to_nat at_) dst ++ firstn (Z.to_nat n) src
       ++ skipn (Z.to_nat (at_ + n)) dst.

(** [binary.BigEndian] reading of a byte string. *)
Definition be_combine (l : list Z) : Z := fold_left (fun acc b => acc * 256 + b) l 0.

Definition bytes_eqb (a b : list Z) : bool :=
  (len a =? len b) && forallb (fun p => fst p =? snd p) (combine a b).

(* ------------------------------------------------------------------ *)
(** ** meta.go: the super block *)

Module SuperBlock.

Record t : Type := mk {
  BlockSize : Z;
  TotalGroups : Z;
  BlocksInGroup : Z;
  InodesRatio : Z;
  ShardId : Z;
  Attr : Z;
  Magic : Z;
  Crc : Z
}.

Definition SuperBlockMagic : Z := 0x55AA.
Definition DefaultBlockSize : Z := 8192.
Definition DefaultInodesRatio : Z := 4.
Definition DefaultBlocksInGroup : Z := 1024 * 1024.
Definition AttrBigAlloc : Z := 0.

(** [binary.Size(SuperBlock{})] *)
Definition Size : Z := 32.

Definition EnableBigAlloc (s : t) : t :=
  mk (BlockSize s) (TotalGroups s) (BlocksInGroup s) (InodesRatio s) (ShardId s)
     (Z.lor (Attr s) (Z.shiftl 1 AttrBigAlloc)) (Magic s) (Crc s).

Definition IsBigAllocEnabled (s : t) : bool :=
  negb (Z.land (Attr s) (Z.shiftl 1 AttrBigAlloc) =? 0).

(** The digits of [x] in [base], as [fmt] prints them for [%d] and [%x]. *)
Definition digit (d : Z) : Z := if d <? 10 then 48 + d else 87 + d.
Fixpoint digits (fuel : nat) (base x : Z) (acc : list Z) : list Z :=
  match fuel with
  | O => acc
  | S fuel' =>
      let acc' := digit (x mod base) :: acc in
      if x / base =? 0 then acc' else digits fuel' base (x / base) acc'
  end.

(** [hash/crc64] with the ECMA polynomial. *)
Definition ECMA : Z := 0xC96C5795D7870F42.
Fixpoint crc_shift (n : nat) (crc : Z) : Z :=
  match n with
  | O => crc
  | S n' =>
      crc_shift n' (if Z.testbit crc 0 then Z.lxor (Z.shiftr crc 1) ECMA
                    else Z.shiftr crc 1)
  end.
Definition crc64_Checksum (data : list Z) : Z :=
  not64 (fold_left
           (fun crc v => Z.lxor (crc_shift 8 (Z.lxor (Z.land crc 0xFF) v)) (Z.shiftr crc 8))
           data (not64 0)).

(** [func (s *SuperBlock) Checksum() uint64] *)
Definition Checksum (s : t) : Z :=
  let us := [95] in
  crc64_Checksum
    (digits 10 10 (BlockSize s) [] ++ us ++ digits 10 10 (TotalGroups s) [] ++ us
     ++ digits 10 10 (BlocksInGroup s) [] ++ us ++ digits 10 10 (InodesRatio s) [] ++ us
     ++ digits 10 10 (ShardId s) [] ++ us ++ digits 10 10 (Attr s) [] ++ us
     ++ digits 8 16 (Magic s) []).

(** [func (s *SuperBlock) Sign()] *)
Definition Sign (s : t) : t :=
  let s1 := mk (BlockSize s) (TotalGroups s) (BlocksInGroup s) (InodesRatio s) (ShardId s)
               (Attr s) SuperBlockMagic (Crc s) in
  mk (BlockSize s1) (TotalGroups s1) (BlocksInGroup s1) (InodesRatio s1) (ShardId s1)
     (Attr s1) (Magic s1) (Checksum s1).

(** [binary.Write(w, binary.LittleEndian, s)] *)
Definition bytes (s : t) : list Z :=
  le_split 4 (BlockSize s) ++ le_split 4 (TotalGroups s) ++ le_split 4 (BlocksInGroup s)
  ++ le_split 4 (InodesRatio s) ++ le_split 2 (ShardId s) ++ le_split 2 (Attr s)
  ++ le_split 4 (Magic s) ++ le_split 8 (Crc s).

End SuperBlock.

(* ------------------------------------------------------------------ *)
(** ** file_key.go: the key of a file *)

Module FileKey.

Record t : Type := mk {
  Shard : Z;
  Inodeptr : Z;
  Seq : Z;
  Stamp : Z
}.

(** [n] hexadecimal digits of [x], the most significant first ([%04x],
    [%08x] of a value that has no more digits than that). *)
Fixpoint hex (n : nat) (x : Z) : list Z :=
  match n with
  | O => []
  | S n' => SuperBlock.digit (Z.shiftr x (4 * Z.of_nat n') mod 16) :: hex n' x
  end.

(** [func (k *FileKey) ToString() string] *)
Definition ToString (k : t) : list Z :=
  hex 4 (Shard k) ++ hex 8 (Inodeptr k) ++ hex 8 (Seq k) ++ hex 8 (Stamp k).

Definition fromHexChar (c : Z) : option Z :=
  if (48 <=? c) && (c <=? 57) then Some (c - 48)
  else if (97 <=? c) && (c <=? 102) then Some (c - 97 + 10)
  else if (65 <=? c) && (c <=? 70) then Some (c - 65 + 10)
  else None.

(** [hex.DecodeString] *)
Fixpoint DecodeString (s : list Z) : option (list Z) :=
  match s with
  | [] => Some []
  | [_] => None
  | a :: b :: rest =>
      match fromHexChar a, fromHexChar b, DecodeString rest with
      | Some x, Some y, Some r => Some (x * 16 + y :: r)
      | _, _, _ => None
      end
  end.

(** [func (k *FileKey) ParseKey(key string) error] *)
Definition ParseKey (key : list Z) : t * option error :=
  if negb (len key =? 28) then (mk 0 0 0 0, Some invalid_key_length)
  else
    match DecodeString key with
    | None => (mk 0 0 0 0, Some hex_InvalidByte)
    | Some bytes =>
        (mk (be_combine (slice bytes 0 2)) (be_combine (slice bytes 2 6))
            (be_combine (slice bytes 6 10)) (be_combine (slice bytes 10 14)), None)
    end.

End FileKey.

(* ------------------------------------------------------------------ *)
(** ** fs.go: file meta and inodes *)

Definition DirectBlocks : Z := 8.
Definition SingleIndirectLv : Z := 1.
Definition DoubleIndirectLv : Z := 2.
Definition TripleIndirectLv : Z := 3.
Definition MaxFileMetaSize : Z := 2048.
Definition FileMetaAlign : Z := 16.
Definition BlockCacheSize : Z := 128.

Module FileMeta.

(** A Go string is the sequence of its bytes. *)
Record t : Type := mk {
  Name : list Z;
  ExtMetas : list Z
}.

(** [func (m *FileMeta) ToBytes() ([]byte, error)].  Writes to a
    [bytes.Buffer] return no error, so the [error] result is always [nil]
    and is left out. *)
Definition ToBytes (m : t) : list Z :=
  let nameLen := i32 (len (Name m)) in
  let buf := le_split 4 nameLen in
  let buf := if nameLen >? 0 then buf ++ Name m else buf in
  let extMetasLen := i32 (len (ExtMetas m)) in
  let buf := buf ++ le_split 4 extMetasLen in
  let buf := if extMetasLen >? 0 then buf ++ ExtMetas m else buf in
  let padding := FileMetaAlign - len buf mod FileMetaAlign in
  if negb (padding =? FileMetaAlign) then buf ++ repeat 0 (Z.to_nat padding)
  else buf.

(** [binary.Read(buf, binary.LittleEndian, &v)] of an [int32] from what is
    left of a [bytes.Reader]: the value and the rest. *)
Definition read_i32 (rest : list Z) : option (Z * list Z) * option error :=
  if len rest =? 0 then (None, Some io_EOF)
  else if len rest <? 4 then (None, Some io_ErrUnexpectedEOF)
  else (Some (i32 (le_combine (firstn 4 rest)), skipn 4 rest), None).

(** [buf.Read(p)] for a [p] of [n] bytes: [p] afterwards and the rest. *)
Definition read_n (rest : list Z) (n : Z) : option (list Z * list Z) * option error :=
  if len rest =? 0 then (None, Some io_EOF)
  else
    let got := firstn (Z.to_nat n) rest in
    (Some (got ++ repeat 0 (Z.to_nat (n - len got)), skipn (Z.to_nat n) rest), None).

(** [func (m *FileMeta) FromBytes(data []byte) error] *)
Definition FromBytes (data : list Z) : t * option error :=
  match read_i32 data with
  | (None, e) => (mk [] [], e)
  | (Some (nameLen, rest), _) =>
      if nameLen >=? MaxFileMetaSize then (mk [] [], Some Bad_File_name_len)
      else
        let named :=
          if nameLen >? 0 then
            match read_n rest nameLen with
            | (None, e) => (None, e)
            | (Some (name, rest'), _) => (Some (name, rest'), None)
            end
          else (Some ([], rest), None) in
        match named with
        | (None, e) => (mk [] [], e)
        | (Some (name, rest), _) =>
            match read_i32 rest with
            | (None, e) => (mk name [], e)
            | (Some (extMetasLen, rest), _) =>
                if extMetasLen >? 0 then
                  match read_n rest extMetasLen with
                  | (None, e) => (mk name (repeat 0 (Z.to_nat extMetasLen)), e)
                  | (Some (ext, _), _) => (mk name ext, None)
                  end
                else (mk name [], None)
            end
        end
  end.

End FileMeta.

Module Inode.

Record t : Type := mk {
  Seq : Z;
  Attr : Z;
  MetaSize : Z;
  Blocks : Z;
  FileSize : Z;
  CTime : Z;
  MTime : Z;
  DirectPointers : list Z;
  SingleIndirect : Z;
  DoubleIndirect : Z;
  TripleIndirect : Z
}.

(** [Inode{}] *)
Definition zero : t := mk 0 0 0 0 0 0 0 (repeat 0 8) 0 0 0.

(** [binary.Size(Inode{})] *)
Definition InodeSize : Z := 80.

(** [func (i *Inode) DataSize() uint64] *)
Definition DataSize (i : t) : Z := u64 (MetaSize i + FileSize i).

Definition with_MetaSize (i : t) (v : Z) : t :=
  mk (Seq i) (Attr i) v (Blocks i) (FileSize i) (CTime i) (MTime i)
     (DirectPointers i) (SingleIndirect i) (DoubleIndirect i) (TripleIndirect i).
Definition with_Blocks (i : t) (v : Z) : t :=
  mk (Seq i) (Attr i) (MetaSize i) v (FileSize i) (CTime i) (MTime i)
     (DirectPointers i) (SingleIndirect i) (DoubleIndirect i) (TripleIndirect i).
Definition with_FileSize (i : t) (v : Z) : t :=
  mk (Seq i) (Attr i) (MetaSize i) (Blocks i) v (CTime i) (MTime i)
     (DirectPointers i) (SingleIndirect i) (DoubleIndirect i) (TripleIndirect i).
Definition with_DirectPointers (i : t) (v : list Z) : t :=
  mk (Seq i) (Attr i) (MetaSize i) (Blocks i) (FileSize i) (CTime i) (MTime i)
     v (SingleIndirect i) (DoubleIndirect i) (TripleIndirect i).
Definition with_SingleIndirect (i : t) (v : Z) : t :=
  mk (Seq i) (Attr i) (MetaSize i) (Blocks i) (FileSize i) (CTime i) (MTime i)
     (DirectPointers i) v (DoubleIndirect i) (TripleIndirect i).
Definition with_DoubleIndirect (i : t) (v : Z) : t :=
  mk (Seq i) (Attr i) (MetaSize i) (Blocks i) (FileSize i) (CTime i) (MTime i)
     (DirectPointers i) (SingleIndirect i) v (TripleIndirect i).
Definition with_TripleIndirect (i : t) (v : Z) : t :=
  mk (Seq i) (Attr i) (MetaSize i) (Blocks i) (FileSize i) (CTime i) (MTime i)
     (DirectPointers i) (SingleIndirect i) (DoubleIndirect i) v.

(** [binary.Write(w, binary.LittleEndian, node)] and [binary.Read]: the
    fields in order, little-endian, without padding. *)
Definition bytes (i : t) : list Z :=
  le_split 4 (Seq i) ++ le_split 2 (Attr i) ++ le_split 2 (MetaSize i)
  ++ le_split 4 (Blocks i) ++ le_split 8 (FileSize i) ++ le_split 8 (CTime i)
  ++ le_split 8 (MTime i) ++ flat_map (le_split 4) (DirectPointers i)
  ++ le_split 4 (SingleIndirect i) ++ le_split 4 (DoubleIndirect i)
  ++ le_split 4 (TripleIndirect i).

Definition of_bytes (b : list Z) : t :=
  let w := fun lo n => le_combine (slice b lo (lo + n)) in
  mk (w 0 4) (w 4 2) (w 6 2) (w 8 4) (w 12 8) (w 20 8) (w 28 8)
     (map (fun k => w (36 + 4 * Z.of_nat k) 4) (seq 0 8))
     (w 68 4) (w 72 4) (w 76 4).

End Inode.

(* ------------------------------------------------------------------ *)
(** ** cache.go: the cache of pointer blocks *)

Module Cache.

(** A [CacheLayer]: the entries of its list, the front first.  The map of
    the source indexes the same entries. *)
Definition CacheLayer : Type := list (Z * list Z).

Fixpoint find (c : CacheLayer) (blockPtr : Z) : option (list Z) :=
  match c with
  | [] => None
  | (p, d) :: rest => if p =? blockPtr then Some d else find rest blockPtr
  end.
Definition remove (c : CacheLayer) (blockPtr : Z) : CacheLayer :=
  filter (fun e => negb (fst e =? blockPtr)) c.

(** [func (c *CacheLayer) Get(blockPtr uint32) (any, bool)] *)
Definition Get (c : CacheLayer) (blockPtr : Z) : option (list Z) * CacheLayer :=
  match find c blockPtr with
  | Some d => (Some d, (blockPtr, d) :: remove c blockPtr)
  | None => (None, c)
  end.

(** [func (c *CacheLayer) Put(blockPtr uint32, data any)] *)
Definition Put (c : CacheLayer) (blockPtr : Z) (data : list Z) : CacheLayer :=
  match find c blockPtr with
  | Some _ => (blockPtr, data) :: remove c blockPtr
  | None =>
      let c' := if Z.of_nat (length c) =? BlockCacheSize then removelast c else c in
      (blockPtr, data) :: c'
  end.

Record BlockCache : Type := mk {
  lv1 : CacheLayer;
  lv2 : CacheLayer;
  lv3 : CacheLayer
}.

(** [func NewBlockCache() *BlockCache] *)
Definition NewBlockCache : BlockCache := mk [] [] [].

(** [func (m *BlockCache) Get(level int, blockPtr uint32) (any, bool)] *)
Definition BlockCache_Get (m : BlockCache) (level blockPtr : Z)
  : option (list Z) * BlockCache :=
  if level =? SingleIndirectLv then
    let '(d, c) := Get (lv1 m) blockPtr in (d, mk c (lv2 m) (lv3 m))
  else if level =? DoubleIndirectLv then
    let '(d, c) := Get (lv2 m) blockPtr in (d, mk (lv1 m) c (lv3 m))
  else if level =? TripleIndirectLv then
    let '(d, c) := Get (lv3 m) blockPtr in (d, mk (lv1 m) (lv2 m) c)
  else (None, m).

(** [func (m *BlockCache) Put(level int, blockPtr uint32, data any)] *)
Definition BlockCache_Put (m : BlockCache) (level blockPtr : Z) (data : list Z)
  : BlockCache :=
  if level =? SingleIndirectLv then mk (Put (lv1 m) blockPtr data) (lv2 m) (lv3 m)
  else if level =? DoubleIndirectLv then mk (lv1 m) (Put (lv2 m) blockPtr data) (lv3 m)
  else if level =? TripleIndirectLv then mk (lv1 m) (lv2 m) (Put (lv3 m) blockPtr data)
  else m.

End Cache.

(* ------------------------------------------------------------------ *)
(** ** volume.go: volume files and block groups *)

Module Volume.

(** An open [*os.File]: the bytes of the file and the position of the
    handle. *)
Record File : Type := mkFile {
  content : list Z;
  fpos : Z
}.

(** The bytes of a file after [data] has been written at [off]; a gap
    between the end of the file and [off] reads as zeros, and writing no
    byte leaves the file as it is. *)
Definition pwrite (content data : list Z) (off : Z) : list Z :=
  if len data =? 0 then content
  else
    let padded := content ++ repeat 0 (Z.to_nat (off - len content)) in
    firstn (Z.to_nat off) padded ++ data ++ skipn (Z.to_nat (off + len data)) padded.

(** [Status], [Id] and [file] of the source; [Fn], the name of the file in
    the directory, has no counterpart. *)
Record t : Type := mk {
  Status : Z;
  Id : Z;
  file : option File
}.

Record BlockGroup : Type := mkGroup {
  gmeta : Z;
  inodeBitmap : B64.t;
  blockBitmap : B64.t
}.

(** The package variables that [initParas] sets. *)
Record Paras : Type := mkParas {
  InodeBitmapOffset : Z;
  BlockBitmapOffset : Z;
  InodeOffset : Z;
  BlockOffset : Z;
  BlockPointers : Z
}.

End Volume.

(* ------------------------------------------------------------------ *)
(** ** fs.go: the file system *)

Module FS.
Import Volume.

(** [FileSystem] with the [VolumeFiles] it points to: [blockGroups] is the
    slice that [device.groups] is, [dev_smeta] is [device.smeta]. *)
Record FileSystem : Type := mk {
  Smeta : SuperBlock.t;
  curBlockGroups : Z;
  blockGroups : list BlockGroup;
  dev_smeta : SuperBlock.t;
  volumes : list Volume.t;
  ibCache : Cache.BlockCache;
  paras : Paras
}.

Definition with_curBlockGroups (fs : FileSystem) (v : Z) : FileSystem :=
  mk (Smeta fs) v (blockGroups fs) (dev_smeta fs) (volumes fs) (ibCache fs) (paras fs).
Definition with_blockGroups (fs : FileSystem) (v : list BlockGroup) : FileSystem :=
  mk (Smeta fs) (curBlockGroups fs) v (dev_smeta fs) (volumes fs) (ibCache fs) (paras fs).
Definition with_dev_smeta (fs : FileSystem) (v : SuperBlock.t) : FileSystem :=
  mk (Smeta fs) (curBlockGroups fs) (blockGroups fs) v (volumes fs) (ibCache fs) (paras fs).
Definition with_volumes (fs : FileSystem) (v : list Volume.t) : FileSystem :=
  mk (Smeta fs) (curBlockGroups fs) (blockGroups fs) (dev_smeta fs) v (ibCache fs) (paras fs).
Definition with_ibCache (fs : FileSystem) (v : Cache.BlockCache) : FileSystem :=
  mk (Smeta fs) (curBlockGroups fs) (blockGroups fs) (dev_smeta fs) (volumes fs) v (paras fs).

Definition FSM (A : Type) : Type := M FileSystem A.

Definition BlockSize : FSM Z := gets (fun fs => SuperBlock.BlockSize (Smeta fs)).
Definition TotalGroups : FSM Z := gets (fun fs => SuperBlock.TotalGroups (Smeta fs)).
Definition para (f : Paras -> Z) : FSM Z := gets (fun fs => f (paras fs)).

(** [fs.blockGroups[i]] and [fs.device.volumes[i]] *)
Definition group_at (i : Z) : FSM BlockGroup :=
  gs <- gets blockGroups ;; index gs i.
Definition set_group (i : Z) (g : BlockGroup) : FSM unit :=
  modify (fun fs => with_blockGroups fs (update (blockGroups fs) i g)).
Definition volume_at (i : Z) : FSM Volume.t :=
  vs <- gets volumes ;; index vs i.
Definition set_volume (i : Z) (v : Volume.t) : FSM unit :=
  modify (fun fs => with_volumes fs (update (volumes fs) i v)).

(** *** The calls on [volumes[i].file] *)

(** [file.Seek(offset, io.SeekStart)] *)
Definition file_Seek (i : Z) (offset : Z) : FSM (option error) :=
  v <- volume_at i ;;
  match file v with
  | None => ret (Some os_ErrInvalid)
  | Some f =>
      if offset <? 0 then ret (Some os_ErrInvalid)
      else set_volume i (Volume.mk (Status v) (Id v) (Some (mkFile (content f) offset))) ;;;
           ret None
  end.

(** [file.Write(data)], at the position of the handle *)
Definition file_Write (i : Z) (data : list Z) : FSM (option error) :=
  v <- volume_at i ;;
  match file v with
  | None => ret (Some os_ErrInvalid)
  | Some f =>
      set_volume i (Volume.mk (Status v) (Id v)
                      (Some (mkFile (pwrite (content f) data (fpos f))
                                    (fpos f + len data)))) ;;;
      ret None
  end.

(** [file.WriteAt(data, off)] *)
Definition file_WriteAt (i : Z) (data : list Z) (off : Z) : FSM (Z * option error) :=
  v <- volume_at i ;;
  match file v with
  | None => ret (0, Some os_ErrInvalid)
  | Some f =>
      if off <? 0 then ret (0, Some os_ErrInvalid)
      else set_volume i (Volume.mk (Status v) (Id v)
                           (Some (mkFile (pwrite (content f) data off) (fpos f)))) ;;;
           ret (len data, None)
  end.

(** [file.ReadAt(p, off)] for a [p] of [n] bytes: the bytes read *)
Definition file_ReadAt (i : Z) (n : Z) (off : Z) : FSM (list Z * option error) :=
  v <- volume_at i ;;
  match file v with
  | None => ret ([], Some os_ErrInvalid)
  | Some f =>
      if off <? 0 then ret ([], Some os_ErrInvalid)
      else
        let got := slice (content f) off (off + n) in
        ret (got, if len got <? n then Some io_EOF else None)
  end.

(** [io.ReadFull] of [n] bytes at the position of the handle, as
    [binary.Read] does it *)
Definition file_ReadFull (i : Z) (n : Z) : FSM (list Z * option error) :=
  v <- volume_at i ;;
  match file v with
  | None => ret ([], Some os_ErrInvalid)
  | Some f =>
      let got := slice (content f) (fpos f) (fpos f + n) in
      set_volume i (Volume.mk (Status v) (Id v)
                      (Some (mkFile (content f) (fpos f + len got)))) ;;;
      ret (got, if len got =? 0 then Some io_EOF
                else if len got <? n then Some io_ErrUnexpectedEOF else None)
  end.

(** *** volume.go *)

(** [func (v *VolumeFiles) checkReady(idx uint32, g *BlockGroup) error].
    [os.Create] gives an empty file; a volume with [Status > 0] and no
    handle has no file to open here. *)
Definition checkReady (idx : Z) (g : BlockGroup) : FSM (option error) :=
  vv <- volume_at idx ;;
  if Status vv =? 0 then
    set_volume idx (Volume.mk (Status vv) (Id vv) (Some (mkFile [] 0))) ;;;
    modify (fun fs => with_dev_smeta fs (SuperBlock.Sign (dev_smeta fs))) ;;;
    smeta <- gets dev_smeta ;;
    e <- file_Write idx (SuperBlock.bytes smeta) ;;
    match e with Some _ => ret e | None =>
    e <- file_Write idx (le_split 4 (gmeta g)) ;;
    match e with Some _ => ret e | None =>
    dataI <- of_outcome (B64.GetData (inodeBitmap g) (-1) 0) ;;
    e <- file_Write idx dataI ;;
    match e with Some _ => ret e | None =>
    dataB <- of_outcome (B64.GetData (blockBitmap g) (-1) 0) ;;
    e <- file_Write idx dataB ;;
    match e with Some _ => ret e | None =>
    e <- file_Write idx (repeat 0 (Z.to_nat (Inode.InodeSize * (8 * len dataI)))) ;;
    match e with Some _ => ret e | None =>
    vv <- volume_at idx ;;
    set_volume idx (Volume.mk 1 (Id vv) (file vv)) ;;;
    ret None
    end end end end end
  else
    match file vv with
    | None => ret (Some os_ErrNotExist)
    | Some _ => ret None
    end.

(** [func (v *VolumeFiles) initGroups()] *)
Definition initGroups (smeta : SuperBlock.t) : outcome (list Volume.t * list BlockGroup) :=
  let n := Z.to_nat (SuperBlock.TotalGroups smeta) in
  let vols := map (fun i => Volume.mk 0 (Z.of_nat i + 1) None) (seq 0 n) in
  if SuperBlock.InodesRatio smeta =? 0 then Panic
  else
    let ninode := SuperBlock.BlocksInGroup smeta / SuperBlock.InodesRatio smeta in
    let group := fun i : nat =>
      match B64.Init (Z.of_nat i + 1) (repeat 0 (Z.to_nat (SuperBlock.BlocksInGroup smeta / 8))),
            B64.Init (Z.of_nat i + 1) (repeat 0 (Z.to_nat (ninode / 8))) with
      | Done bb, Done ib => Done (mkGroup (Z.of_nat i + 1) ib bb)
      | _, _ => Panic
      end in
    let fix all (l : list nat) : outcome (list BlockGroup) :=
      match l with
      | [] => Done []
      | i :: rest =>
          match group i, all rest with
          | Done g, Done gs => Done (g :: gs)
          | _, _ => Panic
          end
      end in
    match all (seq 0 n) with
    | Done gs => Done (vols, gs)
    | Panic => Panic
    end.

(** [func (v *VolumeFiles) initParas()] *)
Definition initParas (smeta : SuperBlock.t) (groups : list BlockGroup) : outcome Paras :=
  match groups with
  | [] => Panic
  | g0 :: _ =>
      let InodeBitmapOffset := SuperBlock.Size + 4 in
      let BlockBitmapOffset :=
        InodeBitmapOffset
        + (SuperBlock.BlocksInGroup smeta / SuperBlock.InodesRatio smeta) / 8 in
      let InodeOffset := BlockBitmapOffset + B64.TotalBits (blockBitmap g0) / 8 in
      let inodecap :=
        Inode.InodeSize * (SuperBlock.BlocksInGroup smeta / SuperBlock.InodesRatio smeta) in
      Done (mkParas InodeBitmapOffset BlockBitmapOffset InodeOffset
                    (InodeOffset + inodecap) (SuperBlock.BlockSize smeta / 4))
  end.

(** [func MakeFileSystem(groupNum, blocksInGroup uint32, root, pattern, tpl
    string, shardId uint16, enableBigAlloc bool) ( *FileSystem, error)] on a
    root directory that holds no volume file: [scanFiles] finds nothing to
    load, and [Init] comes to [initGroups] and [initParas]. *)
Definition MakeFileSystem (groupNum blocksInGroup shardId : Z) (enableBigAlloc : bool)
  : outcome FileSystem :=
  let blocksInGroup :=
    if blocksInGroup =? 0 then SuperBlock.DefaultBlocksInGroup else blocksInGroup in
  let smeta := SuperBlock.mk SuperBlock.DefaultBlockSize groupNum blocksInGroup
                 SuperBlock.DefaultInodesRatio shardId 0 0 0 in
  let smeta := if enableBigAlloc then SuperBlock.EnableBigAlloc smeta else smeta in
  match initGroups smeta with
  | Panic => Panic
  | Done (vols, groups) =>
      match initParas smeta groups with
      | Panic => Panic
      | Done p => Done (mk smeta 0 groups smeta vols Cache.NewBlockCache p)
      end
  end.

(** *** fs.go: inodes *)

(** [lst, n := bitmap.AllocBits(numBits, hlimit, bigAlloc)] *)
Definition AllocBits (b : B64.t) (numBits hlimit : Z) (bigAlloc : bool)
  : FSM (list Z * Z * B64.t) :=
  match B64.AllocBits b numBits hlimit bigAlloc with
  | Some r => ret r
  | None => starve
  end.

(** The loop of [allocInode], with [n] passes left. *)
Fixpoint allocInode_loop (n : nat) (cur : Z) : FSM (Z * option error) :=
  match n with
  | O => ret (0, Some No_free_inodes)
  | S n' =>
      g <- group_at cur ;;
      total <- TotalGroups ;;
      if B64.FreeBits (inodeBitmap g) >? 0 then
        '(lst, _, ib) <- AllocBits (inodeBitmap g) 1 1 false ;;
        set_group cur (mkGroup (gmeta g) ib (blockBitmap g)) ;;;
        match lst with
        | p :: _ =>
            let '(idx, _, _) := EntAddr.GetAddr p in
            data <- of_outcome (B64.GetData ib (idx / 8) 1) ;;
            off <- para InodeBitmapOffset ;;
            _ <- file_WriteAt cur data (idx / 8 + off) ;;
            ret (p, None)
        | [] => allocInode_loop n' ((cur + 1) mod total)
        end
      else allocInode_loop n' ((cur + 1) mod total)
  end.

(** [func (fs *FileSystem) allocInode() (uint32, error)] *)
Definition allocInode : FSM (Z * option error) :=
  cur <- gets curBlockGroups ;;
  total <- TotalGroups ;;
  allocInode_loop (Z.to_nat total) cur.

(** [func (fs *FileSystem) syncInode(p uint32, node *Inode) error] *)
Definition syncInode (p : Z) (node : Inode.t) : FSM (option error) :=
  let '(idx, group, _) := EntAddr.GetAddr p in
  g <- group_at (u32 (group - 1)) ;;
  e <- checkReady (u32 (group - 1)) g ;;
  match e with Some _ => ret e | None =>
  base <- para InodeOffset ;;
  let offset := base + u32 (idx * Inode.InodeSize) in
  e <- file_Seek (u32 (group - 1)) offset ;;
  match e with Some _ => ret e | None =>
  file_Write (u32 (group - 1)) (Inode.bytes node)
  end end.

(** [func (fs *FileSystem) readInode(p uint32) ( *Inode, error)] *)
Definition readInode (p : Z) : FSM (option Inode.t * option error) :=
  let '(idx, group, _) := EntAddr.GetAddr p in
  total <- TotalGroups ;;
  if (group <=? 0) || (group >? total) then ret (None, Some Bad_group_id)
  else
    g <- group_at (u32 (group - 1)) ;;
    e <- checkReady (u32 (group - 1)) g ;;
    match e with Some _ => ret (None, e) | None =>
    base <- para InodeOffset ;;
    let offset := base + u32 (idx * Inode.InodeSize) in
    e <- file_Seek (u32 (group - 1)) offset ;;
    match e with Some _ => ret (None, e) | None =>
    '(b, e) <- file_ReadFull (u32 (group - 1)) Inode.InodeSize ;;
    match e with
    | Some _ => ret (None, e)
    | None => ret (Some (Inode.of_bytes b), None)
    end
    end end.

(** *** fs.go: blocks *)

(** The loop of [haveFreeBlocks]. *)
Fixpoint haveFreeBlocks_loop (fuel : nat) (idx cnt numBlocks : Z) : FSM bool :=
  match fuel with
  | O => starve
  | S fuel' =>
      g <- group_at idx ;;
      total <- TotalGroups ;;
      let numBlocks := numBlocks - B64.FreeBits (blockBitmap g) in
      if numBlocks <=? 0 then ret true
      else
        let cnt := cnt + 1 in
        if total =? 0 then panic
        else
          let idx := (idx + 1) mod total in
          if cnt >=? total then ret false
          else haveFreeBlocks_loop fuel' idx cnt numBlocks
  end.

(** [func (fs *FileSystem) haveFreeBlocks(numBlocks int) bool] *)
Definition haveFreeBlocks (numBlocks : Z) : FSM bool :=
  idx <- gets curBlockGroups ;;
  total <- TotalGroups ;;
  haveFreeBlocks_loop (S (Z.to_nat total)) idx 0 numBlocks.

(** The loop of [syncBlockAlloc]; the result of [WriteAt] is dropped. *)
Fixpoint syncBlockAlloc_loop (idx : Z) (segs : list Seg.Seg) : FSM unit :=
  match segs with
  | [] => ret tt
  | s :: rest =>
      g <- group_at idx ;;
      data <- of_outcome (B64.GetData (blockBitmap g) (Seg.offset s) (Seg.length s)) ;;
      off <- para BlockBitmapOffset ;;
      _ <- file_WriteAt idx data (Seg.offset s + off) ;;
      syncBlockAlloc_loop idx rest
  end.

(** [func (fs *FileSystem) syncBlockAlloc(idx uint32, blks []uint32) error] *)
Definition syncBlockAlloc (idx : Z) (blks : list Z) : FSM (option error) :=
  g <- group_at idx ;;
  e <- checkReady idx g ;;
  match e with Some _ => ret e | None =>
  syncBlockAlloc_loop idx (fst (Seg.mergeSeg blks)) ;;;
  ret None
  end.

(** The [for { ... }] of [allocBlocks]; it leaves [allocatedBlocks] and
    [numBlocks], and an error when [syncBlockAlloc] returned one. *)
Fixpoint allocBlocks_loop (fuel : nat) (hlimit : Z) (bigAlloc : bool)
  (allocatedBlocks : list Z) (numBlocks idx cnt : Z)
  : FSM (list Z * Z * option error) :=
  match fuel with
  | O => starve
  | S fuel' =>
      group <- group_at idx ;;
      total <- TotalGroups ;;
      let limit := hlimit - len allocatedBlocks in
      if limit =? 0 then ret (allocatedBlocks, numBlocks, None)
      else
        let next (allocatedBlocks : list Z) (numBlocks : Z) :=
          let cnt := cnt + 1 in
          if total =? 0 then panic
          else
            let idx := (idx + 1) mod total in
            modify (fun fs => with_curBlockGroups fs idx) ;;;
            if cnt >=? total then ret (allocatedBlocks, numBlocks, None)
            else allocBlocks_loop fuel' hlimit bigAlloc allocatedBlocks numBlocks idx cnt in
        if B64.FreeBits (blockBitmap group) >? 0 then
          '(blks, n, bb) <- AllocBits (blockBitmap group) numBlocks limit bigAlloc ;;
          set_group idx (mkGroup (gmeta group) (inodeBitmap group) bb) ;;;
          let numBlocks := numBlocks - n in
          let allocatedBlocks := allocatedBlocks ++ blks in
          e <- syncBlockAlloc idx blks ;;
          match e with
          | Some _ => ret (allocatedBlocks, numBlocks, e)
          | None =>
              if (numBlocks <=? 0) || (len allocatedBlocks =? hlimit)
              then ret (allocatedBlocks, numBlocks, None)
              else next allocatedBlocks numBlocks
          end
        else next allocatedBlocks numBlocks
  end.

(** [func (fs *FileSystem) allocBlocks(numBlocks int, hlimit int, bigAlloc
    bool) ([]uint32, int, error)] *)
Definition allocBlocks (numBlocks hlimit : Z) (bigAlloc : bool)
  : FSM (list Z * Z * option error) :=
  smeta <- gets Smeta ;;
  let bigAlloc := if negb (SuperBlock.IsBigAllocEnabled smeta) then false else bigAlloc in
  ok <- haveFreeBlocks numBlocks ;;
  if negb ok then ret ([], 0, Some Not_enough_free_blocks)
  else
    let need := numBlocks in
    idx <- gets curBlockGroups ;;
    total <- TotalGroups ;;
    '(allocatedBlocks, numBlocks, e) <-
      allocBlocks_loop (S (Z.to_nat total)) hlimit bigAlloc [] numBlocks idx 0 ;;
    match e with
    | Some _ => ret (allocatedBlocks, need - numBlocks, e)
    | None =>
        if (numBlocks >? 0) && (len allocatedBlocks <? hlimit)
        then ret (allocatedBlocks, need - numBlocks, Some Not_enough_free_blocks)
        else ret (allocatedBlocks, need - numBlocks, None)
    end.

(** [func (fs *FileSystem) allocOneBlock() (uint32, error)] *)
Definition allocOneBlock : FSM (Z * option error) :=
  '(blks, _, e) <- allocBlocks 1 1 false ;;
  match e with
  | Some _ => ret (0, e)
  | None =>
      match blks with
      | [] => ret (0, Some alloc_block_failed)
      | b :: _ => ret (b, None)
      end
  end.

(** [func (fs *FileSystem) readBlock(blkptr uint32, offset int, data []byte)
    (int, int, error)] for a [data] of [n] bytes: the bytes that the call
    puts at the start of [data] (their number is the first result of the
    source), [left] and the error. *)
Definition readBlock (blkptr : Z) (offset : Z) (n : Z)
  : FSM (list Z * Z * option error) :=
  let '(idx, group, isBig) := EntAddr.GetAddr blkptr in
  bs <- BlockSize ;;
  let blksize := if isBig >? 0 then 64 * bs else bs in
  let size := blksize - offset in
  let size := if size >? n then n else size in
  let left_ := blksize - size - offset in
  g <- group_at (u32 (group - 1)) ;;
  e <- checkReady (u32 (group - 1)) g ;;
  match e with Some _ => ret ([], left_, e) | None =>
  base <- para BlockOffset ;;
  let pos := base + idx * bs + offset in
  e <- file_Seek (u32 (group - 1)) pos ;;
  match e with Some _ => ret ([], left_, e) | None =>
  if size <? 0 then panic
  else
    '(got, e) <- file_ReadAt (u32 (group - 1)) size pos ;;
    ret (got, left_, e)
  end end.

(** [func (fs *FileSystem) writeBlock(blkptr uint32, data []byte, offset int)
    (int, int, error)] *)
Definition writeBlock (blkptr : Z) (data : list Z) (offset : Z)
  : FSM (Z * Z * option error) :=
  let '(idx, group, isBig) := EntAddr.GetAddr blkptr in
  bs <- BlockSize ;;
  let size := if isBig >? 0 then 64 * bs else bs in
  if offset >=? size then ret (0, 0, Some bad_offset)
  else
    let '(size, broff) :=
      if len data >=? size - offset then (size - offset, 0)
      else (len data, offset + len data) in
    base <- para BlockOffset ;;
    let pos := base + offset + idx * bs in
    e <- file_Seek (u32 (group - 1)) pos ;;
    match e with Some _ => ret (0, 0, e) | None =>
    if size <? 0 then panic
    else
      '(wtn, e) <- file_WriteAt (u32 (group - 1)) (slice data 0 size) pos ;;
      match e with
      | Some _ => ret (0, 0, e)
      | None => ret (wtn, broff, None)
      end
    end.

(** [func (fs *FileSystem) writePointer(block uint32, blockptrs []uint32,
    offset int) error] *)
Definition writePointer (block : Z) (blockptrs : list Z) (offset : Z)
  : FSM (option error) :=
  '(_, _, e) <- writeBlock block (flat_map (le_split 4) blockptrs) (offset * 4) ;;
  ret e.

(** [copy(data.([]uint32)[offset:], blockptrs)] on a slice of pointers *)
Definition copy_ptrs (dst : list Z) (at_ : Z) (src : list Z) : list Z :=
  copy_at dst at_ src.

(** [func (fs *FileSystem) writePointerWithCache(block uint32, blockptrs
    []uint32, offset int, lv int) error] *)
Definition writePointerWithCache (block : Z) (blockptrs : list Z) (offset lv : Z)
  : FSM (option error) :=
  e <- writePointer block blockptrs offset ;;
  match e with Some _ => ret e | None =>
  cache <- gets ibCache ;;
  bp <- para BlockPointers ;;
  match Cache.BlockCache_Get cache lv block with
  | (Some data, cache') =>
      (if offset + len blockptrs <=? len data
       then modify (fun fs => with_ibCache fs
                      (Cache.BlockCache_Put cache' lv block (copy_ptrs data offset blockptrs)))
       else modify (fun fs => with_ibCache fs cache')) ;;;
      ret None
  | (None, _) =>
      (if len blockptrs =? bp
       then modify (fun fs => with_ibCache fs (Cache.BlockCache_Put cache lv block blockptrs))
       else ret tt) ;;;
      ret None
  end
  end.

(** The pointers in [data], four bytes each. *)
Fixpoint decode_ptrs (n : nat) (data : list Z) : list Z :=
  match n with
  | O => []
  | S n' => le_combine (firstn 4 data) :: decode_ptrs n' (skipn 4 data)
  end.

(** [func (fs *FileSystem) readPointer(blkptr uint32, blockptrs []uint32,
    offset int) error] for a [blockptrs] of [n] zeros: the slice afterwards *)
Definition readPointer (blkptr : Z) (n : Z) (offset : Z)
  : FSM (list Z * option error) :=
  let zeros := repeat 0 (Z.to_nat n) in
  '(got, _, e) <- readBlock blkptr (4 * offset) (4 * n) ;;
  match e with
  | Some _ => ret (zeros, e)
  | None =>
      if negb (len got =? 4 * n) then ret (zeros, Some bad_blockptrs_length)
      else ret (decode_ptrs (Z.to_nat n) got, None)
  end.

(** [func (fs *FileSystem) readPointerWithCache(blkptr uint32, blockptrs
    []uint32, offset int, lv int) error], as [readPointer] *)
Definition readPointerWithCache (blkptr : Z) (n : Z) (offset lv : Z)
  : FSM (list Z * option error) :=
  cache <- gets ibCache ;;
  bp <- para BlockPointers ;;
  match Cache.BlockCache_Get cache lv blkptr with
  | (Some data, cache') =>
      modify (fun fs => with_ibCache fs cache') ;;;
      if offset + n <=? len data
      then ret (copy_at (repeat 0 (Z.to_nat n)) 0 (from data offset), None)
      else ret (repeat 0 (Z.to_nat n), Some Bad_pointer_offset)
  | (None, _) =>
      '(ptrs, e) <- readPointer blkptr n offset ;;
      match e with
      | Some _ => ret (ptrs, e)
      | None =>
          (if (offset =? 0) && (n =? bp)
           then modify (fun fs => with_ibCache fs
                          (Cache.BlockCache_Put (ibCache fs) lv blkptr ptrs))
           else ret tt) ;;;
          ret (ptrs, None)
      end
  end.

(** [func pow(base, exp int) int] *)
Fixpoint pow_nat (base : Z) (exp : nat) : Z :=
  match exp with
  | O => 1
  | S e => base * pow_nat base e
  end.
Definition pow (base exp : Z) : Z := pow_nat base (Z.to_nat exp).

(** [func (fs *FileSystem) inode2Uid(inodeptr uint32, inode *Inode) string] *)
Definition inode2Uid (fs : FileSystem) (inodeptr : Z) (inode : Inode.t) : list Z :=
  FileKey.ToString
    (FileKey.mk (SuperBlock.ShardId (Smeta fs)) inodeptr (Inode.Seq inode)
                (u32 (Inode.CTime inode))).

(** *** fs.go: [Vfile] *)

Record VfileOffset : Type := mkOffset {
  offset : Z;
  blockIdx : Z;
  blkRemOffset : Z
}.

(** [Vfile]; its [fs] pointer is the file system of the state a method runs
    in. *)
Record Vfile : Type := mkVfile {
  FileId : Z;
  Meta : FileMeta.t;
  Inodeptr : Z;
  Inode_ : option Inode.t;
  offset_ : VfileOffset
}.

(** The state of a method of [Vfile]: the file system and the [Vfile]. *)
Definition VS : Type := (FileSystem * Vfile)%type.
Definition VM (A : Type) : Type := M VS A.

Definition lift {A : Type} (m : FSM A) : VM A :=
  fun s =>
    match m (fst s) with
    | Value (a, fs') => Value (a, (fs', snd s))
    | Panics => Panics
    | NoFuel => NoFuel
    end.

(** [vf.Inode], a nil pointer dereference when there is none *)
Definition inode : VM Inode.t :=
  i <- gets (fun s : VS => Inode_ (snd s)) ;;
  match i with
  | Some n => ret n
  | None => panic
  end.
Definition set_inode (f : Inode.t -> Inode.t) : VM unit :=
  modify (fun s : VS =>
            let vf := snd s in
            (fst s, mkVfile (FileId vf) (Meta vf) (Inodeptr vf)
                            (option_map f (Inode_ vf)) (offset_ vf))).
Definition off : VM VfileOffset := gets (fun s : VS => offset_ (snd s)).
Definition set_off (f : VfileOffset -> VfileOffset) : VM unit :=
  modify (fun s : VS =>
            let vf := snd s in
            (fst s, mkVfile (FileId vf) (Meta vf) (Inodeptr vf) (Inode_ vf)
                            (f (offset_ vf)))).
Definition add_offset (n : Z) (o : VfileOffset) : VfileOffset :=
  mkOffset (offset o + n) (blockIdx o) (blkRemOffset o).
Definition with_offset (v : Z) (o : VfileOffset) : VfileOffset :=
  mkOffset v (blockIdx o) (blkRemOffset o).
Definition with_blockIdx (v : Z) (o : VfileOffset) : VfileOffset :=
  mkOffset (offset o) v (blkRemOffset o).
Definition with_blkRemOffset (v : Z) (o : VfileOffset) : VfileOffset :=
  mkOffset (offset o) (blockIdx o) v.
(** [vf.offset.blockIdx++] *)
Definition next_block (o : VfileOffset) : VfileOffset :=
  mkOffset (offset o) (u32 (blockIdx o + 1)) (blkRemOffset o).

(** [vf.fs.syncInode(vf.Inodeptr, vf.Inode)] *)
Definition sync : VM (option error) :=
  node <- inode ;;
  p <- gets (fun s : VS => Inodeptr (snd s)) ;;
  lift (syncInode p node).

(** [func (vf *Vfile) aliginBlock(size int) int] *)
Definition aliginBlock (size : Z) : VM Z :=
  bs <- lift BlockSize ;;
  if bs =? 0 then panic else ret (Z.quot (size + bs - 1) bs).

(** [func (fs *FileSystem) CreateFile(name string, meta []byte) ( *Vfile,
    string, error)]; [now] is [time.Now().Unix()]. *)
Definition CreateFile (name : list Z) (meta : list Z) (now : Z)
  : FSM (option Vfile * list Z * option error) :=
  if len meta >? MaxFileMetaSize then ret (None, [], Some meta_overlimit)
  else
    let m := FileMeta.mk name meta in
    let mbuff := FileMeta.ToBytes m in
    bs <- BlockSize ;;
    if len mbuff >=? bs then ret (None, [], Some File_meta_overlimit)
    else
      '(inodeptr, e) <- allocInode ;;
      match e with Some _ => ret (None, [], e) | None =>
      '(oldnode, e) <- readInode inodeptr ;;
      match oldnode, e with
      | _, Some _ => ret (None, [], e)
      | None, None => panic
      | Some oldnode, None =>
          let inode := Inode.mk (u32 (Inode.Seq oldnode + 1)) 0 0 0 0 (u64 now) 0
                         (repeat 0 8) 0 0 0 in
          fs <- gets (fun fs => fs) ;;
          let uid := inode2Uid fs inodeptr inode in
          let inode := Inode.with_MetaSize inode (u16 (len mbuff)) in
          let inode := Inode.with_Blocks inode 1 in
          '(n, e) <- allocOneBlock ;;
          match e with Some _ => ret (None, uid, e) | None =>
          '(_, _, e) <- writeBlock n mbuff 0 ;;
          match e with Some _ => ret (None, uid, e) | None =>
          let inode := Inode.with_DirectPointers inode
                         (update (Inode.DirectPointers inode) 0 n) in
          let vf := mkVfile 0 m inodeptr (Some inode) (mkOffset 0 0 (len mbuff)) in
          e <- syncInode inodeptr inode ;;
          match e with
          | Some _ => ret (None, uid, e)
          | None => ret (Some vf, uid, None)
          end
          end end
      end
      end.

(** [func (fs *FileSystem) loadMeta(node *Inode) (FileMeta, error)] *)
Definition loadMeta (node : Inode.t) : FSM (FileMeta.t * option error) :=
  p <- index (Inode.DirectPointers node) 0 ;;
  '(got, _, e) <- readBlock p 0 (Inode.MetaSize node) ;;
  match e with
  | Some _ => ret (FileMeta.mk [] [], e)
  | None =>
      ret (FileMeta.FromBytes
             (copy_at (repeat 0 (Z.to_nat (Inode.MetaSize node))) 0 got))
  end.

(** [func (fs *FileSystem) OpenFile(uid string) ( *Vfile, error)] *)
Definition OpenFile (uid : list Z) : FSM (option Vfile * option error) :=
  match FileKey.ParseKey uid with
  | (_, Some e) => ret (None, Some e)
  | (key, None) =>
      '(node, e) <- readInode (FileKey.Inodeptr key) ;;
      match node, e with
      | _, Some _ => ret (None, Some FNF)
      | None, None => panic
      | Some node, None =>
          fs <- gets (fun fs => fs) ;;
          if negb (bytes_eqb (inode2Uid fs (FileKey.Inodeptr key) node) uid)
          then ret (None, Some FNF)
          else
            bs <- BlockSize ;;
            if Inode.MetaSize node >? u16 bs then ret (None, Some Bad_meta_size)
            else
              '(meta, e) <- loadMeta node ;;
              match e with
              | Some _ => ret (None, e)
              | None =>
                  ret (Some (mkVfile 0 meta (FileKey.Inodeptr key) (Some node)
                               (mkOffset 0 0 (Inode.MetaSize node))), None)
              end
      end
  end.

(** *** Reading *)

(** [levels] of [readIndirectBlocks], [writeIndirectBlocks] and [SeekPos]:
    the pointer of the inode and the number of indirections. *)
Definition levels (node : Inode.t) : list (Z * Z) :=
  [(Inode.SingleIndirect node, SingleIndirectLv);
   (Inode.DoubleIndirect node, DoubleIndirectLv);
   (Inode.TripleIndirect node, TripleIndirectLv)].

(** After [readBlock]: [if left == 0 { blockIdx++; blkRemOffset = 0 } else
    { blkRemOffset += rd }] *)
Definition after_read (left_ rd : Z) (o : VfileOffset) : VfileOffset :=
  if left_ =? 0 then with_blkRemOffset 0 (next_block o)
  else with_blkRemOffset (blkRemOffset o + rd) o.

(** The loop of [readFromIndirect] at depth 1, over [blockptrs[i]] for [n]
    more values of [i]; [buf] is what has been read so far and [want] is
    [len(data)]. *)
Fixpoint read_leaves (n : nat) (blockptrs : list Z) (i : Z) (want : Z) (buf : list Z)
  : VM (list Z * Z * option error) :=
  match n with
  | O => ret (buf, len buf, None)
  | S n' =>
      p <- index blockptrs i ;;
      o <- off ;;
      '(got, left_, e) <- lift (readBlock p (blkRemOffset o) (want - len buf)) ;;
      match e with
      | Some _ => ret (buf ++ got, len got, e)
      | None =>
          set_off (after_read left_ (len got)) ;;;
          let buf := buf ++ got in
          if len buf >=? want then ret (buf, len buf, None)
          else read_leaves n' blockptrs (i + 1) want buf
      end
  end.

(** [func (vf *Vfile) readFromIndirect(blockptr uint32, blockIndex uint32,
    data []byte, depth int) (int, error)] for a [data] of [want] bytes and
    [depth = S d]: the bytes put into [data], the count returned and the
    error. *)
Fixpoint readFromIndirect (d : nat) (blockptr blockIndex want : Z)
  : VM (list Z * Z * option error) :=
  bp <- lift (para BlockPointers) ;;
  let depth := Z.of_nat (S d) in
  let unit_ := u32 (pow bp (depth - 1)) in
  if unit_ =? 0 then panic
  else
    let blkIdx := blockIndex / unit_ in
    '(blockptrs, e) <- lift (readPointerWithCache blockptr bp 0 depth) ;;
    match e with
    | Some _ => ret ([], 0, e)
    | None =>
        match d with
        | O => read_leaves (Z.to_nat (bp - blkIdx)) blockptrs blkIdx want []
        | S d' =>
            (fix children (n : nat) (i : Z) (buf : list Z) {struct n}
               : VM (list Z * Z * option error) :=
               match n with
               | O => ret (buf, len buf, None)
               | S n' =>
                   p <- index blockptrs i ;;
                   if p =? 0 then ret (buf, 0, Some read_from_unallocated_block)
                   else
                     let offset := if i =? blkIdx then blockIndex mod unit_ else 0 in
                     '(got, _, e) <- readFromIndirect d' p offset (want - len buf) ;;
                     match e with
                     | Some _ => ret (buf ++ got, len buf, e)
                     | None =>
                         let buf := buf ++ got in
                         if len buf >=? want then ret (buf, len buf, None)
                         else children n' (i + 1) buf
                     end
               end) (Z.to_nat (bp - blkIdx)) blkIdx []
        end
    end.

(** [func (vf *Vfile) readIndirectBlocks(blockIndex uint32, data []byte)
    (int, error)] *)
Fixpoint readIndirectBlocks_levels (lv : list (Z * Z)) (blockIndex want : Z)
  : VM (list Z * Z * option error) :=
  match lv with
  | [] => ret ([], 0, Some system_full)
  | (blkptr, indirects) :: rest =>
      bp <- lift (para BlockPointers) ;;
      if blockIndex <? u32 (pow bp indirects) then
        if blkptr =? 0 then ret ([], 0, Some bad_indirect_block_id)
        else readFromIndirect (Z.to_nat (indirects - 1)) blkptr blockIndex want
      else
        let blockIndex :=
          if negb (indirects =? TripleIndirectLv)
          then u32 (blockIndex - u32 (pow bp indirects)) else blockIndex in
        readIndirectBlocks_levels rest blockIndex want
  end.
Definition readIndirectBlocks (blockIndex want : Z) : VM (list Z * Z * option error) :=
  node <- inode ;;
  readIndirectBlocks_levels (levels node) blockIndex want.

(** The first loop of [Read], over [DirectPointers[i]]; [buf] is what has
    been read and [want] is [len(data)].  The last component tells whether
    the function has returned from inside the loop. *)
Fixpoint read_direct (n : nat) (i : Z) (want : Z) (buf : list Z)
  : VM (list Z * option (Z * option error)) :=
  match n with
  | O => ret (buf, None)
  | S n' =>
      node <- inode ;;
      p <- index (Inode.DirectPointers node) i ;;
      if p =? 0 then ret (buf, None)
      else
        o <- off ;;
        '(got, left_, e) <- lift (readBlock p (blkRemOffset o) (want - len buf)) ;;
        set_off (with_blockIdx i) ;;;
        set_off (after_read left_ (len got)) ;;;
        match e with
        | Some _ => ret (buf ++ got, Some (len got, e))
        | None =>
            let buf := buf ++ got in
            if len buf =? want then ret (buf, None)
            else read_direct n' (u32 (i + 1)) want buf
        end
  end.

(** The second loop of [Read]. *)
Fixpoint read_indirect (fuel : nat) (want : Z) (buf : list Z)
  : VM (list Z * option (Z * option error)) :=
  match fuel with
  | O => starve
  | S fuel' =>
      if len buf <? want then
        o <- off ;;
        '(got, rd, e) <- readIndirectBlocks (u32 (blockIdx o - DirectBlocks))
                                            (want - len buf) ;;
        match e with
        | Some _ => ret (buf ++ got, Some (len buf, e))
        | None =>
            if rd =? 0 then ret (buf ++ got, None)
            else read_indirect fuel' want (buf ++ got)
        end
      else ret (buf, None)
  end.

(** [func (vf *Vfile) Read(data []byte) (int, error)] for a [data] of [n]
    bytes: the bytes put at the start of [data], the count and the error. *)
Definition Read (n : Z) : VM (list Z * Z * option error) :=
  node <- inode ;;
  o <- off ;;
  if u64 (offset o) >=? Inode.FileSize node then ret ([], 0, Some io_EOF)
  else
    let want :=
      if u64 (offset o + n) >? Inode.FileSize node
      then Inode.FileSize node - u64 (offset o) else n in
    '(buf, r) <- read_direct (Z.to_nat (DirectBlocks - blockIdx o)) (blockIdx o) want [] ;;
    match r with
    | Some (rd, e) => ret (buf, rd, e)
    | None =>
        '(buf, r) <- read_indirect (S (Z.to_nat want)) want buf ;;
        match r with
        | Some (rdn, e) => ret (buf, rdn, e)
        | None =>
            set_off (add_offset (len buf)) ;;;
            ret (buf, len buf, None)
        end
    end.

(** *** Writing *)

(** After [writeBlock] in [Write] and [batchWriteNewBlk]: the offset moves
    by [wtn], [blkRemOffset = broff], and [blockIdx++] when [broff == 0]. *)
Definition after_write (wtn broff : Z) (o : VfileOffset) : VfileOffset :=
  let o := with_blkRemOffset broff (add_offset wtn o) in
  if broff =? 0 then next_block o else o.

(** [for i := 0; i < len(nb); i++ { ... }] of the allocating branch of
    [Write]; [None] when the loop has run through, the results of the
    function when it has returned from inside. *)
Fixpoint write_new_direct (nb : list Z) (data : list Z) (totalWtn : Z)
  : VM (list Z * Z * option (Z * option error)) :=
  match nb with
  | [] => ret (data, totalWtn, None)
  | b :: rest =>
      o <- off ;;
      node <- inode ;;
      if blockIdx o >=? DirectBlocks then panic
      else
        set_inode (fun i => Inode.with_DirectPointers i
                              (update (Inode.DirectPointers i) (blockIdx o) b)) ;;;
        '(wtn, broff, e) <- lift (writeBlock b data 0) ;;
        match e with
        | Some _ => ret (data, totalWtn, Some (0, e))
        | None =>
            set_inode (fun i => Inode.with_FileSize i (u64 (Inode.FileSize i + wtn))) ;;;
            set_inode (fun i => Inode.with_Blocks i (u32 (Inode.Blocks i + 1))) ;;;
            set_off (after_write wtn broff) ;;;
            write_new_direct rest (from data wtn) (totalWtn + wtn)
        end
  end.

(** [for vf.offset.blockIdx < DirectBlocks { ... }] of [Write]. *)
Fixpoint write_direct (fuel : nat) (data : list Z) (totalWtn : Z)
  : VM (list Z * Z * option (Z * option error)) :=
  match fuel with
  | O => starve
  | S fuel' =>
      o <- off ;;
      if blockIdx o <? DirectBlocks then
        node <- inode ;;
        p <- index (Inode.DirectPointers node) (blockIdx o) ;;
        '(data, totalWtn, r) <-
          (if negb (p =? 0) then
             '(wtn, broff, e) <- lift (writeBlock p data (blkRemOffset o)) ;;
             match e with
             | Some _ => ret (data, totalWtn, Some (totalWtn, e))
             | None =>
                 set_inode (fun i => Inode.with_FileSize i (u64 (Inode.FileSize i + wtn))) ;;;
                 set_off (after_write wtn broff) ;;;
                 e <- sync ;;
                 match e with
                 | Some _ => ret (from data wtn, totalWtn + wtn, Some (0, e))
                 | None => ret (from data wtn, totalWtn + wtn, None)
                 end
             end
           else
             allocNum <- aliginBlock (len data) ;;
             '(nb, _, e) <- lift (allocBlocks allocNum (u32 (DirectBlocks - blockIdx o)) true) ;;
             match e with
             | Some _ => ret (data, totalWtn, Some (totalWtn, e))
             | None =>
                 '(data, totalWtn, r) <- write_new_direct nb data totalWtn ;;
                 match r with
                 | Some _ => ret (data, totalWtn, r)
                 | None =>
                     e <- sync ;;
                     match e with
                     | Some _ => ret (data, totalWtn, Some (0, e))
                     | None => ret (data, totalWtn, None)
                     end
                 end
             end) ;;
        match r with
        | Some _ => ret (data, totalWtn, r)
        | None =>
            if len data =? 0 then ret (data, totalWtn, Some (totalWtn, None))
            else write_direct fuel' data totalWtn
        end
      else ret (data, totalWtn, None)
  end.

(** [for i := 0; i < len(blks); i++ { ... }] of [batchWriteNewBlk]; [data]
    is [data[totalWtn:]]. *)
Fixpoint write_new_batch (blks : list Z) (data : list Z) (totalWtn : Z)
  : VM (Z * option (Z * option error)) :=
  match blks with
  | [] => ret (totalWtn, None)
  | b :: rest =>
      '(wtn, broff, e) <- lift (writeBlock b data 0) ;;
      match e with
      | Some _ => ret (totalWtn, Some (wtn, e))
      | None =>
          set_inode (fun i => Inode.with_FileSize i (u64 (Inode.FileSize i + wtn))) ;;;
          set_inode (fun i => Inode.with_Blocks i (u32 (Inode.Blocks i + 1))) ;;;
          set_off (after_write wtn broff) ;;;
          write_new_batch rest (from data wtn) (totalWtn + wtn)
      end
  end.

(** [func (vf *Vfile) batchWriteNewBlk(blockptr uint32, blockIndex uint32,
    data []byte) (int, error)] *)
Definition batchWriteNewBlk (blockptr blockIndex : Z) (data : list Z)
  : VM (Z * option error) :=
  bp <- lift (para BlockPointers) ;;
  let batchLimit := bp - blockIndex in
  allocNum <- aliginBlock (len data) ;;
  '(blks, _, e) <- lift (allocBlocks allocNum batchLimit true) ;;
  match e with Some _ => ret (0, e) | None =>
  e <- lift (writePointerWithCache blockptr blks blockIndex 1) ;;
  match e with Some _ => ret (0, e) | None =>
  '(totalWtn, r) <- write_new_batch blks data 0 ;;
  match r with
  | Some (wtn, e) => ret (wtn, e)
  | None =>
      e <- sync ;;
      match e with
      | Some _ => ret (0, e)
      | None => ret (totalWtn, None)
      end
  end
  end end.

(** [func (vf *Vfile) writeToIndirect(blockptr uint32, blockIndex uint32,
    data []byte, depth int) (int, error)] with [depth = Z.of_nat d] *)
Fixpoint writeToIndirect (d : nat) (blockptr blockIndex : Z) (data : list Z)
  : VM (Z * option error) :=
  o <- off ;;
  node <- inode ;;
  let depth := Z.of_nat d in
  if (depth =? 1) && (blockIdx o >=? Inode.Blocks node)
  then batchWriteNewBlk blockptr blockIndex data
  else
    match d with
    | O =>
        '(wtn, bloff, e) <- lift (writeBlock blockptr data (blkRemOffset o)) ;;
        match e with
        | Some _ => ret (wtn, e)
        | None =>
            (if blkRemOffset o =? 0
             then set_inode (fun i => Inode.with_Blocks i (u32 (Inode.Blocks i + 1)))
             else ret tt) ;;;
            set_off (add_offset wtn) ;;;
            o <- off ;;
            node <- inode ;;
            (if offset o >? Inode.FileSize node
             then set_inode (fun i => Inode.with_FileSize i (u64 (offset o)))
             else ret tt) ;;;
            (if bloff =? 0 then set_off next_block else ret tt) ;;;
            set_off (with_blkRemOffset bloff) ;;;
            e <- sync ;;
            match e with
            | Some _ => ret (0, e)
            | None => ret (wtn, None)
            end
        end
    | S d' =>
        bp <- lift (para BlockPointers) ;;
        let unit_ := u32 (pow bp (depth - 1)) in
        if unit_ =? 0 then panic
        else
          let indirectIndex := blockIndex / unit_ in
          '(blockptrs, e) <- lift (readPointerWithCache blockptr 1 indirectIndex depth) ;;
          match e with
          | Some io_EOF | None =>
              p <- index blockptrs 0 ;;
              if p =? 0 then
                '(nb, e) <- lift allocOneBlock ;;
                match e with Some _ => ret (0, e) | None =>
                e <- lift (writePointerWithCache nb (repeat 0 (Z.to_nat bp)) 0 (depth - 1)) ;;
                match e with Some _ => ret (0, e) | None =>
                e <- lift (writePointerWithCache blockptr [nb] indirectIndex depth) ;;
                match e with Some _ => ret (0, e) | None =>
                writeToIndirect d' nb (blockIndex mod unit_) data
                end end end
              else writeToIndirect d' p (blockIndex mod unit_) data
          | Some _ => ret (0, e)
          end
    end.

(** The pointer of the inode that [level.blkptr] points to. *)
Definition set_level (indirects : Z) (nb : Z) (i : Inode.t) : Inode.t :=
  if indirects =? SingleIndirectLv then Inode.with_SingleIndirect i nb
  else if indirects =? DoubleIndirectLv then Inode.with_DoubleIndirect i nb
  else Inode.with_TripleIndirect i nb.

(** [func (vf *Vfile) writeIndirectBlocks(blockIndex uint32, data []byte)
    (int, error)] *)
Fixpoint writeIndirectBlocks_levels (lv : list (Z * Z)) (blockIndex : Z) (data : list Z)
  : VM (Z * option error) :=
  match lv with
  | [] => ret (0, Some system_full)
  | (blkptr, indirects) :: rest =>
      bp <- lift (para BlockPointers) ;;
      if blockIndex <? u32 (pow bp indirects) then
        if blkptr =? 0 then
          '(nb, e) <- lift allocOneBlock ;;
          match e with Some _ => ret (0, e) | None =>
          e <- lift (writePointerWithCache nb (repeat 0 (Z.to_nat bp)) 0 indirects) ;;
          match e with Some _ => ret (0, e) | None =>
          set_inode (set_level indirects nb) ;;;
          e <- sync ;;
          match e with Some _ => ret (0, e) | None =>
          writeToIndirect (Z.to_nat indirects) nb blockIndex data
          end end end
        else writeToIndirect (Z.to_nat indirects) blkptr blockIndex data
      else
        let blockIndex :=
          if negb (indirects =? TripleIndirectLv)
          then u32 (blockIndex - u32 (pow bp indirects)) else blockIndex in
        writeIndirectBlocks_levels rest blockIndex data
  end.
Definition writeIndirectBlocks (blockIndex : Z) (data : list Z) : VM (Z * option error) :=
  node <- inode ;;
  writeIndirectBlocks_levels (levels node) blockIndex data.

(** [for len(data) > 0 { ... }] of [Write]. *)
Fixpoint write_indirect (fuel : nat) (data : list Z) (totalWtn : Z)
  : VM (list Z * Z * option (Z * option error)) :=
  match fuel with
  | O => starve
  | S fuel' =>
      if len data >? 0 then
        o <- off ;;
        if blockIdx o <? DirectBlocks
        then ret (data, totalWtn, Some (totalWtn, Some Inner_err_Wrong_inode_Blocks))
        else
          '(wtn, e) <- writeIndirectBlocks (u32 (blockIdx o - DirectBlocks)) data ;;
          match e with
          | Some _ => ret (data, totalWtn, Some (totalWtn, e))
          | None =>
              if wtn =? 0 then ret (data, totalWtn, None)
              else write_indirect fuel' (from data wtn) (totalWtn + wtn)
          end
      else ret (data, totalWtn, None)
  end.

(** [func (vf *Vfile) Write(data []byte) (int, error)].  Every pass of the
    first loop that does not return moves [blockIdx] on, and every pass of
    the second one that does not leave it writes a byte: the fuel given is
    enough. *)
Definition Write (data : list Z) : VM (Z * option error) :=
  i <- gets (fun s : VS => Inode_ (snd s)) ;;
  match i with
  | None => ret (0, Some Invalid_inode)
  | Some _ =>
      '(data, totalWtn, r) <- write_direct 16 data 0 ;;
      match r with
      | Some res => ret res
      | None =>
          '(data, totalWtn, r) <- write_indirect (S (Z.to_nat (len data))) data totalWtn ;;
          match r with
          | Some res => ret res
          | None =>
              if len data >? 0 then ret (totalWtn, Some Fill_system_full)
              else ret (totalWtn, None)
          end
      end
  end.

(** *** Seeking *)

(** The block size that a pointer stands for. *)
Definition blksize_of (bs v : Z) : Z :=
  let '(_, _, isBig) := EntAddr.GetAddr v in
  if isBig >? 0 then 64 * bs else bs.

(** [for _, v := range blockptrs { ... }] of [escapeBlock] at depth 1;
    [Some] when the function returns from inside the loop. *)
Fixpoint escape_leaves (blockptrs : list Z) (pos : Z)
  : VM (option (bool * option error)) :=
  match blockptrs with
  | [] => ret None
  | v :: rest =>
      if v =? 0 then ret (Some (false, Some io_EOF))
      else
        bs <- lift BlockSize ;;
        let blksize := blksize_of bs v in
        set_off next_block ;;;
        o <- off ;;
        if offset o + blksize >? pos then
          set_off (with_blkRemOffset (pos - offset o)) ;;;
          set_off (fun o => add_offset (blkRemOffset o) o) ;;;
          ret (Some (true, None))
        else if offset o + blksize =? pos then
          set_off next_block ;;;
          set_off (with_offset pos) ;;;
          ret (Some (true, None))
        else
          set_off (add_offset blksize) ;;;
          escape_leaves rest pos
  end.

(** [func (vf *Vfile) escapeBlock(ptr uint32, depth int, pos int64) (bool,
    error)] with [depth = Z.of_nat d]; at depth 0 and below the source takes
    the branch of the inner nodes again, with [depth - 1], without end. *)
Fixpoint escapeBlock (d : nat) (ptr : Z) (pos : Z) : VM (bool * option error) :=
  bp <- lift (para BlockPointers) ;;
  '(blockptrs, e) <- lift (readPointer ptr bp 0) ;;
  match e with
  | Some _ => ret (false, e)
  | None =>
      match d with
      | O => starve
      | S O =>
          r <- escape_leaves blockptrs pos ;;
          match r with
          | Some res => ret res
          | None => ret (false, None)
          end
      | S d' =>
          (fix children (l : list Z) : VM (bool * option error) :=
             match l with
             | [] => ret (false, None)
             | v :: rest =>
                 '(ok, e) <- escapeBlock d' v pos ;;
                 match e with
                 | Some _ => ret (ok, e)
                 | None => if ok then ret (ok, e) else children rest
                 end
             end) blockptrs
      end
  end.

(** The loop of [SeekPos] over the direct pointers; [Some] when the
    function returns from inside the loop. *)
Fixpoint seek_direct (n : nat) (i : Z) (pos : Z) : VM (option (VfileOffset * option error)) :=
  match n with
  | O => ret None
  | S n' =>
      node <- inode ;;
      p <- index (Inode.DirectPointers node) i ;;
      if p =? 0 then o <- off ;; ret (Some (o, None))
      else
        set_off (with_blockIdx i) ;;;
        bs <- lift BlockSize ;;
        o <- off ;;
        let blksize := blksize_of bs p in
        let blksize := if negb (blkRemOffset o =? 0) then blksize - blkRemOffset o
                       else blksize in
        if offset o + blksize >? pos then
          set_off (with_blkRemOffset (blkRemOffset o + (pos - offset o))) ;;;
          set_off (with_offset pos) ;;;
          o <- off ;; ret (Some (o, None))
        else if offset o + blksize =? pos then
          set_off (with_blkRemOffset 0) ;;;
          set_off next_block ;;;
          set_off (with_offset pos) ;;;
          o <- off ;; ret (Some (o, None))
        else
          set_off (add_offset blksize) ;;;
          set_off (with_blkRemOffset 0) ;;;
          seek_direct n' (u32 (i + 1)) pos
  end.

(** The loop of [SeekPos] over the indirect levels. *)
Fixpoint seek_levels (lv : list (Z * Z)) (pos : Z) : VM (VfileOffset * option error) :=
  match lv with
  | [] => o <- off ;; ret (o, Some system_error)
  | (blkptr, indirects) :: rest =>
      '(ok, e) <- escapeBlock (Z.to_nat indirects) blkptr pos ;;
      match e with
      | Some _ => o <- off ;; ret (o, e)
      | None => if ok then o <- off ;; ret (o, e) else seek_levels rest pos
      end
  end.

(** [func (vf *Vfile) SeekPos(pos int64) (VfileOffset, error)] *)
Definition SeekPos (pos : Z) : VM (VfileOffset * option error) :=
  node <- inode ;;
  bs <- lift BlockSize ;;
  (if pos >=? Inode.FileSize node then
     if bs =? 0 then panic
     else set_off (fun _ => mkOffset (Inode.FileSize node) (u32 (Inode.Blocks node - 1))
                                     (Inode.DataSize node mod bs))
   else ret tt) ;;;
  set_off (with_blkRemOffset (Inode.MetaSize node)) ;;;
  set_off (with_offset 0) ;;;
  set_off (with_blockIdx 0) ;;;
  r <- seek_direct (Z.to_nat DirectBlocks) 0 pos ;;
  match r with
  | Some res => ret res
  | None => seek_levels (levels node) pos
  end.

(** [func (vf *Vfile) GetOffset() VfileOffset] *)
Definition GetOffset : VM VfileOffset := off.

(** [func (vf *Vfile) Seek(off VfileOffset)] *)
Definition Seek (o : VfileOffset) : VM unit := set_off (fun _ => o).

End FS.

(* ================================================================== *)
(** * More of meta.go, volume.go and fs.go *)

(** [int64(x)]: two's complement reading of the low 64 bits. *)
Definition i64 (x : Z) : Z := (x + 2 ^ 63) mod 2 ^ 64 - 2 ^ 63.

(* ------------------------------------------------------------------ *)
(** ** meta.go: checking a super block *)

Module SuperBlockOps.
Import SuperBlock.

(** The errors that [Verify] makes with [errors.New]. *)
Inductive verify_error : Type :=
| Bad_magic
| Invalid_BlockSize
| Invalid_BlocksInGroup
| Invalid_InodesRatio
| Invalid_InodesRatio_64
| Bad_Crc.

(** [func (s *SuperBlock) Verify() error]; the division by [s.InodesRatio]
    panics when that is 0. *)
Definition Verify (s : t) : outcome (option verify_error) :=
  if negb (Magic s =? SuperBlockMagic) then Done (Some Bad_magic)
  else if negb (BlockSize s mod 4096 =? 0) then Done (Some Invalid_BlockSize)
  else if negb (BlocksInGroup s mod 1024 =? 0) then Done (Some Invalid_BlocksInGroup)
  else if negb (InodesRatio s mod DefaultInodesRatio =? 0)
       then Done (Some Invalid_InodesRatio)
  else if InodesRatio s =? 0 then Panic
  else if negb ((BlocksInGroup s / InodesRatio s) mod 64 =? 0)
       then Done (Some Invalid_InodesRatio_64)
  else if negb (Crc s =? Checksum s) then Done (Some Bad_Crc)
  else Done None.

(** [func (s *SuperBlock) TotalBlocks() int64] *)
Definition TotalBlocks (s : t) : Z := i64 (TotalGroups s * BlocksInGroup s).

(** [func (s *SuperBlock) TotalInodes() int64]; as [Verify], it divides by
    [s.InodesRatio]. *)
Definition TotalInodes (s : t) : outcome Z :=
  if InodesRatio s =? 0 then Panic
  else Done (i64 (TotalGroups s * (BlocksInGroup s / InodesRatio s))).

(** [func (s *SuperBlock) TotalSpace() int64] *)
Definition TotalSpace (s : t) : Z := i64 (TotalBlocks s * BlockSize s).

End SuperBlockOps.

(* ------------------------------------------------------------------ *)
(** ** volume.go: [align] *)

Module VolumeOps.

(** [func align(value, alignment int64) int64] *)
Definition align (value alignment : Z) : outcome Z :=
  if (alignment =? 0) || negb (Z.land alignment (i64 (alignment - 1)) =? 0) then Panic
  else Done (Z.land (i64 (value + i64 (alignment - 1))) (Z.lnot (i64 (alignment - 1)))).

(** [func countBits(data []byte) int] *)
Definition countBits (data : list Z) : Z :=
  fold_left (fun count b => count + OnesCount8 b) data 0.

End VolumeOps.

(* ------------------------------------------------------------------ *)
(** ** package dpfs: [AddUnique] *)

Module Util.

(** [for i := len(v) - 1; i >= 0; i-- { if v[i] == newElem { return } }]:
    whether the loop returns. *)
Fixpoint seen (v : list Z) (i : nat) (newElem : Z) : bool :=
  match i with
  | O => false
  | S i' => if nth i' v 0 =? newElem then true else seen v i' newElem
  end.

(** [func AddUnique(array *[]uint32, newElem uint32)]: the slice that
    [*array] is afterwards. *)
Definition AddUnique (array : list Z) (newElem : Z) : list Z :=
  if seen array (length array) newElem then array else array ++ [newElem].

End Util.

(* ================================================================== *)
(** * Specification vocabulary and invariants *)

(** Closes the boolean side goals that [Z.bitblast] leaves. *)
Ltac bool_cases :=
  repeat match goal with
         | |- context [?a =? ?b] => destruct (Z.eqb_spec a b); try lia
         | |- context [?a <? ?b] => destruct (Z.ltb_spec a b); try lia
         | |- context [?a <=? ?b] => destruct (Z.leb_spec a b); try lia
         end;
  rewrite ?andb_false_r, ?orb_false_r, ?andb_true_r, ?orb_true_r;
  cbn [andb orb negb]; try reflexivity.

(* ------------------------------------------------------------------ *)
(** ** Entity addresses *)

(** The claim as the specification words it: packing fails whenever a field
    is out of its range. *)
Definition make_fails_out_of_range : Prop :=
  forall idx group big,
    is_u32 idx -> is_u32 group ->
    group > 2047 \/ idx >= 2 ^ 20 ->
    EntAddr.make idx group big = EntAddr.DomainError.

(* ------------------------------------------------------------------ *)
(** ** The segment merger *)

Module AddrSpec.

(** Bits an address stands for: 64 when it carries the big flag, 1
    otherwise. *)
Definition nbits (e : Z) : Z := if EntAddr.big_of e >? 0 then 64 else 1.

Fixpoint total_bits (addr : list Z) : Z :=
  match addr with
  | [] => 0
  | e :: t => nbits e + total_bits t
  end.

End AddrSpec.

Module SegSpec.
Import Seg AddrSpec.

(** Byte [k] lies in one of the spans. *)
Definition covers (l : list Seg) (k : Z) : Prop :=
  exists s, In s l /\ offset s <= k < offset s + length s.

(** Bytes [mergeSeg] reserves for an address, and the first of them. *)
Definition width (e : Z) : Z := if EntAddr.big_of e >? 0 then 8 else 1.
Definition first_byte (e : Z) : Z := EntAddr.idx_of e / 8.

(** Sorted by bit index. *)
Fixpoint sorted_by_idx (addr : list Z) : Prop :=
  match addr with
  | a :: (b :: _) as t => EntAddr.idx_of a <= EntAddr.idx_of b /\ sorted_by_idx t
  | _ => True
  end.

(** No big address opens a span after a gap: each one but the first starts
    within, or right after, the bytes of the address before it. *)
Fixpoint big_follows (addr : list Z) : Prop :=
  match addr with
  | a :: (b :: _) as t =>
      (EntAddr.big_of b > 0 -> first_byte b <= first_byte a + width a) /\ big_follows t
  | _ => True
  end.

(** Consecutive spans are apart: at least one byte lies between them. *)
Fixpoint separated (l : list Seg) : Prop :=
  match l with
  | s1 :: (s2 :: _) as t => offset s1 + length s1 < offset s2 /\ separated t
  | _ => True
  end.

Definition finish (a : acc) : list Seg :=
  if lastof a >=? 0 then segs a ++ [mkSeg (lastof a) (lastLen a)] else segs a.

(** The loop state once an address [prev] has been read: the open span
    starts at or before the byte of [prev] and, when [tight] holds, reaches
    past the bytes reserved for it. *)
Record good (a : acc) (prev : Z) : Prop := mkGood {
  g_lastof : 0 <= lastof a;
  g_len : 1 <= lastLen a;
  g_start : lastof a <= first_byte prev;
  g_end : first_byte prev + width prev <= lastof a + lastLen a;
  g_sep : separated (segs a);
  g_before : forall s, In s (segs a) -> offset s + length s < lastof a
}.

(** The relation between an address and the rest of the list that the two
    sortedness conditions give. *)
Fixpoint chain (prev : Z) (rest : list Z) : Prop :=
  match rest with
  | [] => True
  | e :: t =>
      EntAddr.idx_of prev <= EntAddr.idx_of e
      /\ (EntAddr.big_of e > 0 -> first_byte e <= first_byte prev + width prev)
      /\ chain e t
  end.

End SegSpec.

(** The claim as worded: for a list sorted by bit index the spans contain
    every byte that holds a bit of a listed address, a big address standing
    for the 64 bits from its index on. *)
Definition mergeSeg_covers_every_bit : Prop :=
  forall addr, SegSpec.sorted_by_idx addr ->
    forall e q, In e addr ->
      EntAddr.idx_of e <= q < EntAddr.idx_of e + AddrSpec.nbits e ->
      SegSpec.covers (fst (Seg.mergeSeg addr)) (q / 8).

(* ------------------------------------------------------------------ *)
(** ** Bitmaps read bit by bit *)

Module Bits.

(** Bit [i] of the bitmap: bit [i mod 8] of byte [i / 8]; there is no bit
    below bit 0. *)
Definition bit (buf : list Z) (i : Z) : bool :=
  (0 <=? i) && Z.testbit (get buf (i / 8)) (i mod 8).

Definition wf (buf : list Z) : Prop := Forall is_u8 buf.

(** Number of bits of the bitmap. *)
Definition size (buf : list Z) : Z := 8 * len buf.

Definition range_set (buf : list Z) (lo hi : Z) : Prop :=
  forall i, lo <= i < hi -> bit buf i = true.
Definition range_clear (buf : list Z) (lo hi : Z) : Prop :=
  forall i, lo <= i < hi -> bit buf i = false.

(** Clear bits among the [n] bits from [i] on. *)
Fixpoint clear_from (buf : list Z) (i : Z) (n : nat) : Z :=
  match n with
  | O => 0
  | S n' => (if bit buf i then 0 else 1) + clear_from buf (i + 1) n'
  end.
Definition clear_count (buf : list Z) : Z :=
  clear_from buf 0 (Z.to_nat (size buf)).

(** Set bits among the [n] bits from [i] on, and in the whole bitmap. *)
Fixpoint set_from (buf : list Z) (i : Z) (n : nat) : Z :=
  match n with
  | O => 0
  | S n' => (if bit buf i then 1 else 0) + set_from buf (i + 1) n'
  end.
Definition popcount (buf : list Z) : Z :=
  set_from buf 0 (Z.to_nat (size buf)).

(** [buf'] is [buf] with the bits [lo .. hi-1] set and nothing else
    changed. *)
Definition sets (buf buf' : list Z) (lo hi : Z) : Prop :=
  length buf' = length buf /\ wf buf'
  /\ forall i, 0 <= i < size buf ->
       bit buf' i = bit buf i || ((lo <=? i) && (i <? hi)).

(** [buf'] is [buf] with the bits [lo .. hi-1] cleared and nothing else
    changed. *)
Definition clears (buf buf' : list Z) (lo hi : Z) : Prop :=
  length buf' = length buf /\ wf buf'
  /\ forall i, 0 <= i < size buf ->
       bit buf' i = bit buf i && negb ((lo <=? i) && (i <? hi)).

End Bits.

(* ------------------------------------------------------------------ *)
(** ** What both [AllocBits] scans do, bit by bit *)

Module Alloc.
Import Bitmap Bits.

Section Run.

Variables (gid numBits hlimit : Z) (bigAlloc : bool).

(** [f] is the first clear bit at or after [start]. *)
Definition first_clear (buf : list Z) (start f : Z) : Prop :=
  start <= f < size buf /\ bit buf f = false /\ range_set buf start f.

(** The allocation at [f] is a big one: big allocations are allowed, 64 bits
    or more are still wanted, and the 64 bits from [f] on are clear and end
    before the last bit of the bitmap. *)
Definition big_here (s : scan) (f : Z) : Prop :=
  bigAlloc = true /\ numBits - s_cnt s >= 64
  /\ f + 64 < size (s_bits s) /\ range_clear (s_bits s) f (f + 64).

Definition picks (s : scan) (start f : Z) (big : bool) : Prop :=
  first_clear (s_bits s) start f /\ (big = true <-> big_here s f).

(** [s1] is [s] after the allocation at [f]. *)
Definition allocated (s s1 : scan) (f : Z) (big : bool) : Prop :=
  sets (s_bits s) (s_bits s1) f (f + (if big then 64 else 1))
  /\ s_free s1 = s_free s - (if big then 64 else 1)
  /\ s_cnt s1 = s_cnt s + (if big then 64 else 1)
  /\ s_acc s1 = s_acc s ++ [EntAddr.MakeEntAddr (u32 f) gid big].

(** A scan from bit [start]: it ends with no clear bit left ([None]) or
    returns after the allocation at some bit ([Some f]). *)
Inductive run (start : Z) : scan -> option Z -> scan -> Prop :=
| run_end s :
    range_set (s_bits s) start (size (s_bits s)) ->
    run start s None s
| run_return s f big s1 :
    picks s start f big -> allocated s s1 f big ->
    enough numBits hlimit s1 = true ->
    run start s (Some f) s1
| run_continue s f big s1 r s2 :
    picks s start f big -> allocated s s1 f big ->
    enough numBits hlimit s1 = false ->
    run start s1 r s2 ->
    run start s r s2.

End Run.

(** The addresses a scan appended are those of [acc'] after the first
    [length acc]. *)
Definition appended (acc acc' : list Z) : list Z := skipn (Datatypes.length acc) acc'.

End Alloc.

Module AllocSpec.
Import Bitmap Bits Alloc.

(** An allocation event: the bit it starts at and whether it is a big one. *)
Definition event : Type := (Z * bool)%type.

Definition addr_of (gid : Z) (e : event) : Z :=
  EntAddr.MakeEntAddr (u32 (fst e)) gid (snd e).

(** A big event of a scan that led from [buf] to [buf']: its 64 bits lie
    inside the bitmap, were clear in [buf] and are set in [buf']. *)
Definition big_ok (buf buf' : list Z) (e : event) : Prop :=
  snd e = true ->
  0 <= fst e /\ fst e + 64 < size buf
  /\ range_clear buf (fst e) (fst e + 64)
  /\ range_set buf' (fst e) (fst e + 64).

(** What a scan keeps: the slice stays well formed and as long as it was,
    bits only get set, [freeBits] falls by what [cnt] rises by, which is the
    number of bits that went from clear to set, and the addresses appended
    are those of events that are [big_ok]. *)
Record kept (gid : Z) (s s' : scan) : Prop := mkKept {
  k_wf : wf (s_bits s');
  k_len : Datatypes.length (s_bits s') = Datatypes.length (s_bits s);
  k_mono : forall i, bit (s_bits s) i = true -> bit (s_bits s') i = true;
  k_free : s_free s' = s_free s - (s_cnt s' - s_cnt s);
  k_count : clear_count (s_bits s') = clear_count (s_bits s) - (s_cnt s' - s_cnt s);
  k_cnt : s_cnt s <= s_cnt s';
  k_events : exists evs : list event,
      s_acc s' = s_acc s ++ map (addr_of gid) evs
      /\ Forall (big_ok (s_bits s) (s_bits s')) evs
      /\ Forall (fun e => 0 <= fst e < size (s_bits s)) evs
}.

End AllocSpec.

Module AllocCall.
Import Bitmap Bits Alloc.

(** Index of the last unit of [w] bits, as [lastPos] is left when a scan has
    run to the end of the bitmap (0 for an empty bitmap). *)
Definition last_unit (w : Z) (buf : list Z) : Z :=
  if size buf / w =? 0 then 0 else size buf / w - 1.

(** [lastPos] is 0 or the index of a unit of [w] bits of the bitmap. *)
Definition pos_ok (w : Z) (buf : list Z) (lastPos : Z) : Prop :=
  lastPos = 0 \/ 0 <= lastPos < size buf / w.

(** One call of [AllocBits] on a bitmap scanned in units of [w] bits (8 for
    [BitmapBase], 64 for [Bitmap64]): a scan from unit [lastPos] and, when
    that scan runs to the end with [lastPos <> 0] and [freeBits > 0], a
    second scan from bit 0 that starts a fresh address list. *)
Inductive call (w gid : Z) (buf : list Z) (free lastPos numBits hlimit : Z)
  (bigAlloc : bool) : list Z -> Z -> list Z -> Z -> Z -> Prop :=
| call_returned f s1 :
    run gid numBits hlimit bigAlloc (w * lastPos) (mkScan buf free [] 0) (Some f) s1 ->
    call w gid buf free lastPos numBits hlimit bigAlloc
         (s_acc s1) (s_cnt s1) (s_bits s1) (s_free s1) (f / w)
| call_exhausted s1 :
    run gid numBits hlimit bigAlloc (w * lastPos) (mkScan buf free [] 0) None s1 ->
    ~ (lastPos <> 0 /\ s_free s1 > 0) ->
    call w gid buf free lastPos numBits hlimit bigAlloc
         (s_acc s1) (s_cnt s1) (s_bits s1) (s_free s1) (last_unit w buf)
| call_wrapped s1 r2 s2 :
    run gid numBits hlimit bigAlloc (w * lastPos) (mkScan buf free [] 0) None s1 ->
    lastPos <> 0 -> s_free s1 > 0 ->
    run gid (numBits - s_cnt s1) hlimit bigAlloc 0
        (mkScan (s_bits s1) (s_free s1) [] 0) r2 s2 ->
    call w gid buf free lastPos numBits hlimit bigAlloc
         (s_acc s1 ++ s_acc s2) (s_cnt s1 + s_cnt s2) (s_bits s2) (s_free s2)
         (match r2 with Some f => f / w | None => last_unit w buf end).

End AllocCall.

(* ------------------------------------------------------------------ *)
(** ** Calls of [ClearBits] and sequences of calls *)

Module ClearSpec.
Import Bitmap Bits AddrSpec.

(** The bits an address stands for are all set, or all clear. *)
Definition addr_set (buf : list Z) (p : Z) : Prop :=
  range_set buf (EntAddr.idx_of p) (EntAddr.idx_of p + nbits p).
Definition addr_clear (buf : list Z) (p : Z) : Prop :=
  range_clear buf (EntAddr.idx_of p) (EntAddr.idx_of p + nbits p).

(** Every address of the list has its bits set at the moment the loop of
    [batchClearBits] comes to it. *)
Fixpoint cleared_while_set (gid : Z) (buf : list Z) (ptrs : list Z) : Prop :=
  match ptrs with
  | [] => True
  | p :: rest =>
      addr_set buf p
      /\ forall buf' c, batchClearBits gid buf [p] = Done (buf', c) ->
                        cleared_while_set gid buf' rest
  end.

End ClearSpec.

Module BitmapSpec.
Import Bitmap Bits AllocCall ClearSpec.

(** What the statements read off a bitmap of either implementation: the
    byte array, the group, [lastPos], and the number of bits that one step
    of its scan looks at. *)
Class Layout (T : Type) : Type := {
  bytes : T -> list Z;
  group : T -> Z;
  cursor : T -> Z;
  unit_bits : Z
}.

#[global] Instance BaseLayout : Layout Base.t := {|
  bytes := Base.bits;
  group := Base.GroupId;
  cursor := Base.lastPos;
  unit_bits := 8
|}.

#[global] Instance B64Layout : Layout B64.t := {|
  bytes := B64.buffer;
  group := B64.GroupId;
  cursor := B64.lastPos;
  unit_bits := 64
|}.

Inductive op : Type :=
| Alloc (numBits hlimit : Z) (bigAlloc : bool)
| Clear (ptrs : list Z).

Section Generic.

Context {T : Type} {B : Iface.Bitmap T} {L : Layout T}.

(** A state of a bitmap: bytes in the array, whole scan units, and
    [lastPos] at a unit of the bitmap. *)
Definition valid (b : T) : Prop :=
  wf (bytes b) /\ size (bytes b) mod unit_bits = 0
  /\ pos_ok unit_bits (bytes b) (cursor b).

(** [total_bits = free_bits + popcount(bytes)] *)
Definition accurate (b : T) : Prop :=
  Iface.TotalBits b = Iface.FreeBits b + popcount (bytes b).

(** [history b ops l]: the calls [ops], made in turn from state [b], all
    return, [l] lists the state after each of them, and every [ClearBits]
    among them clears addresses whose bits are set. *)
Inductive history : T -> list op -> list T -> Prop :=
| history_nil b : history b [] []
| history_alloc b numBits hlimit bigAlloc addrs n b' ops l :
    Iface.AllocBits b numBits hlimit bigAlloc = Some (addrs, n, b') ->
    history b' ops l ->
    history b (Alloc numBits hlimit bigAlloc :: ops) (b' :: l)
| history_clear b ptrs b' ops l :
    cleared_while_set (group b) (bytes b) ptrs ->
    Iface.ClearBits b ptrs = Done b' ->
    history b' ops l ->
    history b (Clear ptrs :: ops) (b' :: l).

(** What the two implementations have in common: [GetData(-1, 0)] is the
    byte array; [TotalBits] is its number of bits; [Init] takes the array
    as it is and counts its clear bits; a call of [AllocBits] returns and
    is a call in scan units; [ClearBits] is [batchClearBits] on the array,
    its count added to [freeBits]. *)
Record lawful : Prop := mkLawful {
  law_unit : 0 < unit_bits;
  law_data : forall b, Iface.GetData b (-1) 0 = Done (bytes b);
  law_total : forall b,
      size (bytes b) mod unit_bits = 0 -> Iface.TotalBits b = size (bytes b);
  law_init : forall gid data b,
      wf data -> Iface.Init gid data = Done b ->
      valid b /\ bytes b = data /\ group b = gid
      /\ Iface.FreeBits b = clear_count data;
  law_alloc : forall b numBits hlimit bigAlloc,
      valid b ->
      exists addrs n b',
        Iface.AllocBits b numBits hlimit bigAlloc = Some (addrs, n, b')
        /\ group b' = group b
        /\ call unit_bits (group b) (bytes b) (Iface.FreeBits b) (cursor b)
                numBits hlimit bigAlloc
                addrs n (bytes b') (Iface.FreeBits b') (cursor b');
  law_clear : forall b ptrs,
      match batchClearBits (group b) (bytes b) ptrs, Iface.ClearBits b ptrs with
      | Done (buf', c), Done b' =>
          bytes b' = buf' /\ Iface.FreeBits b' = Iface.FreeBits b + c
          /\ group b' = group b /\ cursor b' = cursor b
      | Panic, Panic => True
      | _, _ => False
      end
}.

(** What a big address among [addrs] stands for, between the bitmap [b] of
    the call and the bitmap [b'] it left: 64 bits from the index of the
    address on, inside the bitmap, clear in [b] and set in [b']. *)
Definition fresh_run (b b' : T) (a : Z) : Prop :=
  AddrSpec.nbits a = 64
  /\ 0 <= EntAddr.idx_of a
  /\ EntAddr.idx_of a + 64 < size (bytes b)
  /\ range_clear (bytes b) (EntAddr.idx_of a) (EntAddr.idx_of a + 64)
  /\ range_set (bytes b') (EntAddr.idx_of a) (EntAddr.idx_of a + 64).

End Generic.

End BitmapSpec.

(* ------------------------------------------------------------------ *)
(** ** Sequences of [AllocBits] calls on the two bitmaps *)

Module Calls.

(** The arguments of one call of [AllocBits]. *)
Record request : Type := mkRequest {
  r_numBits : Z;
  r_hlimit : Z;
  r_bigAlloc : bool
}.

(** The calls [rs] made in turn on a [BitmapBase]: what each call returned
    (the addresses and the count) and the bitmap they leave. *)
Fixpoint base_calls (b : Base.t) (rs : list request)
  : option (list (list Z * Z) * Base.t) :=
  match rs with
  | [] => Some ([], b)
  | r :: rest =>
      match Base.AllocBits b (r_numBits r) (r_hlimit r) (r_bigAlloc r) with
      | None => None
      | Some (addrs, n, b') =>
          match base_calls b' rest with
          | None => None
          | Some (outs, b'') => Some ((addrs, n) :: outs, b'')
          end
      end
  end.

(** The same on a [Bitmap64]. *)
Fixpoint b64_calls (b : B64.t) (rs : list request)
  : option (list (list Z * Z) * B64.t) :=
  match rs with
  | [] => Some ([], b)
  | r :: rest =>
      match B64.AllocBits b (r_numBits r) (r_hlimit r) (r_bigAlloc r) with
      | None => None
      | Some (addrs, n, b') =>
          match b64_calls b' rest with
          | None => None
          | Some (outs, b'') => Some ((addrs, n) :: outs, b'')
          end
      end
  end.

(** A [BitmapBase] and a [Bitmap64] that went through the same calls from
    the same bytes: same bytes, same group, [freeBits] the number of clear
    bits in both, and no clear bit before the byte, or the word, that
    [lastPos] points at. *)
Record paired (bb : Base.t) (bw : B64.t) : Prop := mkPaired {
  p_bits : Base.bits bb = B64.buffer bw;
  p_wf : Bits.wf (B64.buffer bw);
  p_words : len (B64.buffer bw) mod 8 = 0;
  p_gid : Base.GroupId bb = B64.GroupId bw;
  p_free8 : Base.freeBits bb = Bits.clear_count (B64.buffer bw);
  p_free64 : B64.freeBits bw = Bits.clear_count (B64.buffer bw);
  p_pos8 : AllocCall.pos_ok 8 (B64.buffer bw) (Base.lastPos bb);
  p_pos64 : AllocCall.pos_ok 64 (B64.buffer bw) (B64.lastPos bw);
  p_set8 : Bits.range_set (B64.buffer bw) 0 (8 * Base.lastPos bb);
  p_set64 : Bits.range_set (B64.buffer bw) 0 (64 * B64.lastPos bw)
}.

End Calls.

(* ------------------------------------------------------------------ *)
(** ** Claims on the bitmaps, as worded *)

(** Every big address that [AllocBits] returns starts at a multiple of
    64. *)
Definition big_runs_are_aligned : Prop :=
  forall b numBits hlimit bigAlloc addrs n b',
    BitmapSpec.valid b ->
    B64.AllocBits b numBits hlimit bigAlloc = Some (addrs, n, b') ->
    forall a, In a addrs -> EntAddr.big_of a > 0 -> EntAddr.idx_of a mod 64 = 0.

(* ------------------------------------------------------------------ *)
(** ** Runs of the file system *)

Module FSSpec.
Import FS.

(** The value a run returned, without the state it left. *)
Definition value {S A : Type} (r : result (A * S)) : result A :=
  match r with
  | Value (a, _) => Value a
  | Panics => Panics
  | NoFuel => NoFuel
  end.

(** A run on the file system that [MakeFileSystem(1, 1024, root, pattern,
    tpl, 0, true)] returns for an empty root directory. *)
Definition on_fresh {A : Type} (m : FSM A) : result A :=
  match MakeFileSystem 1 1024 0 true with
  | Done fs => value (m fs)
  | Panic => Panics
  end.

(** [CreateFile(name, meta)] and then [m] on the [Vfile] it returned, [m]
    being told the UID. *)
Definition created {A : Type} (name meta : list Z) (now : Z) (m : list Z -> VM A)
  : FSM (option A * option error) :=
  (r <- CreateFile name meta now ;;
   match r with
   | (Some vf, uid, None) =>
       fun fs =>
         match m uid (fs, vf) with
         | Value (a, (fs', _)) => Value ((Some a, None), fs')
         | Panics => Panics
         | NoFuel => NoFuel
         end
   | (_, _, e) => ret (None, e)
   end)%fs.

(** [OpenFile(uid)] and then [m] on the [Vfile] it returned. *)
Definition opened {A : Type} (uid : list Z) (m : VM A) : VM (option A * option error) :=
  fun s =>
    match OpenFile uid (fst s) with
    | Value ((Some vf, None), fs) =>
        match m (fs, vf) with
        | Value (a, (fs', _)) => Value ((Some a, None), (fs', snd s))
        | Panics => Panics
        | NoFuel => NoFuel
        end
    | Value ((_, e), fs) => Value ((None, e), (fs, snd s))
    | Panics => Panics
    | NoFuel => NoFuel
    end.

(** The [Write] calls for [batches], one after the other: [true] when each
    returned the length of its batch and no error. *)
Fixpoint writes (batches : list (list Z)) : VM bool :=
  match batches with
  | [] => ret true
  | b :: rest =>
      (r <- Write b ;;
       match r with
       | (n, None) => if n =? len b then writes rest else ret false
       | (_, Some _) => ret false
       end)%fs
  end.

(** [vf.Inode.FileSize] and [vf.offset.offset] *)
Definition FileSize : VM Z := (node <- inode ;; ret (Inode.FileSize node))%fs.
Definition position : VM Z := (o <- off ;; ret (offset o))%fs.

(** [CreateFile] returned a [Vfile] and no error. *)
Definition returned_file (r : result (option Vfile * list Z * option error * FileSystem))
  : bool :=
  match r with
  | Value ((Some _, _, None), _) => true
  | _ => false
  end.

(** What holds of the value and the state of a run when it returns one; a
    run that panics returns nothing. *)
Definition returns {S A : Type} (r : result (A * S)) (Q : A -> S -> Prop) : Prop :=
  match r with
  | Value (a, s) => Q a s
  | Panics | NoFuel => True
  end.

(** The file system and the [Vfile] on which [CreateFile(name, meta)], on
    the file system of [on_fresh], and then [m] left off, when
    [CreateFile] returned no error and [m] returned [true]. *)
Definition prepared (name meta : list Z) (now : Z) (m : VM bool) : option VS :=
  match MakeFileSystem 1 1024 0 true with
  | Done fs =>
      match CreateFile name meta now fs with
      | Value ((Some vf, _, None), fs1) =>
          match m (fs1, vf) with
          | Value (true, s) => Some s
          | _ => None
          end
      | _ => None
      end
  | Panic => None
  end.

(** [SeekPos(pos)] returned no error. *)
Definition seeks (pos : Z) : VM bool :=
  (r <- SeekPos pos ;; ret (match snd r with None => true | Some _ => false end))%fs.

(** C9 as worded: the encoded meta of a created file is shorter than a
    block and at most 2048 bytes long. *)
Definition encoded_meta_within_2048 : Prop :=
  forall fs name meta now vf uid fs',
    CreateFile name meta now fs = Value ((Some vf, uid, None), fs') ->
    len (FileMeta.ToBytes (FileMeta.mk name meta)) < SuperBlock.BlockSize (Smeta fs)
    /\ len (FileMeta.ToBytes (FileMeta.mk name meta)) <= 2048.

End FSSpec.

(* ================================================================== *)
(** * More specification vocabulary *)

(* ------------------------------------------------------------------ *)
(** ** File keys *)

Module KeySpec.

(** A character that [hex.DecodeString] accepts: [0-9], [a-f] or [A-F]. *)
Definition hex_char (c : Z) : Prop :=
  48 <= c <= 57 \/ 97 <= c <= 102 \/ 65 <= c <= 70.

(** The lower-case form of a character of a key. *)
Definition lower (c : Z) : Z := if (65 <=? c) && (c <=? 70) then c + 32 else c.

(** The fields of a key fit their types: [uint16] and three [uint32]. *)
Definition in_range (k : FileKey.t) : Prop :=
  0 <= FileKey.Shard k < 2 ^ 16 /\ is_u32 (FileKey.Inodeptr k)
  /\ is_u32 (FileKey.Seq k) /\ is_u32 (FileKey.Stamp k).

(** The [m] bytes of [x], the most significant first. *)
Fixpoint be_bytes (m : nat) (x : Z) : list Z :=
  match m with
  | O => []
  | S m' => Z.shiftr x (8 * Z.of_nat m') mod 256 :: be_bytes m' x
  end.

End KeySpec.

(* ------------------------------------------------------------------ *)
(** ** The cache of pointer blocks *)

Module CacheSpec.
Import Cache.

(** A [CacheLayer] as its methods keep it: one entry per block pointer (the
    map of the source has one element per key) and at most
    [BlockCacheSize] entries. *)
Definition well_formed (c : CacheLayer) : Prop :=
  NoDup (map fst c) /\ Z.of_nat (length c) <= BlockCacheSize.

(** The block pointer at the back of the list: the least recently used. *)
Definition back_key (c : CacheLayer) : option Z :=
  match c with
  | [] => None
  | e :: _ => Some (fst (last c e))
  end.

End CacheSpec.

(* ------------------------------------------------------------------ *)
(** ** What a call of [AllocBits] hands out *)

Module ExactSpec.
Import Bitmap Bits Alloc AllocSpec AddrSpec ClearSpec.

(** Bits an allocation event stands for. *)
Definition span (e : event) : Z := if snd e then 64 else 1.

Fixpoint spans (evs : list event) : Z :=
  match evs with
  | [] => 0
  | e :: t => span e + spans t
  end.

(** [fresh buf evs buf']: the allocations [evs], made one after the other
    from the bitmap [buf], lead to [buf']; each one sets its bits and no
    other, and its bits lie in the bitmap (a big one ends before the last
    bit) and were clear when it was made. *)
Inductive fresh : list Z -> list event -> list Z -> Prop :=
| fresh_nil buf : fresh buf [] buf
| fresh_cons buf e buf1 evs buf' :
    0 <= fst e -> fst e + span e <= size buf ->
    (snd e = true -> fst e + 64 < size buf) ->
    range_clear buf (fst e) (fst e + span e) ->
    sets buf buf1 (fst e) (fst e + span e) ->
    fresh buf1 evs buf' ->
    fresh buf (e :: evs) buf'.

(** Bit [i] is one of the bits of an event of the list. *)
Definition covered (evs : list event) (i : Z) : bool :=
  existsb (fun e => (fst e <=? i) && (i <? fst e + span e)) evs.

(** Bit [i] is one of the bits that the address [a], or an address of the
    list, stands for. *)
Definition in_addr (a i : Z) : bool :=
  (EntAddr.idx_of a <=? i) && (i <? EntAddr.idx_of a + nbits a).
Definition in_addrs (addrs : list Z) (i : Z) : bool :=
  existsb (fun a => in_addr a i) addrs.

(** The addresses at two places of a list stand for bits apart. *)
Definition apart (a b : Z) : Prop :=
  EntAddr.idx_of a + nbits a <= EntAddr.idx_of b
  \/ EntAddr.idx_of b + nbits b <= EntAddr.idx_of a.

Section Generic.

Context {T : Type} {B : Iface.Bitmap T} {L : BitmapSpec.Layout T}.
Import BitmapSpec.

(** A bitmap whose addresses decode: a group of at most 2047 and at most
    [2^20] bits. *)
Definition addressable (b : T) : Prop :=
  0 <= group b <= 2047 /\ size (bytes b) <= 2 ^ 20.

(** [AllocBits] hands out fresh bits and nothing else: the count is the
    number of bits of the addresses; every address is of the group of the
    bitmap, its bits lie in the bitmap, were clear before the call and are
    set after it; a bit is set after the call exactly when it was set
    before or belongs to a returned address; and the addresses stand for
    bits apart from each other. *)
Definition hands_out_fresh_bits : Prop :=
  forall b numBits hlimit bigAlloc addrs n b',
    valid b -> addressable b ->
    Iface.AllocBits b numBits hlimit bigAlloc = Some (addrs, n, b') ->
    n = total_bits addrs
    /\ Forall (fun a => EntAddr.group_of a = group b
                        /\ EntAddr.idx_of a + nbits a <= size (bytes b)
                        /\ addr_clear (bytes b) a /\ addr_set (bytes b') a) addrs
    /\ (forall i, 0 <= i < size (bytes b) ->
          bit (bytes b') i = bit (bytes b) i || in_addrs addrs i)
    /\ ForallOrdPairs apart addrs.

(** [CheckBit] on the addresses of a call: [false] before it, [true] after
    it. *)
Definition checks_what_it_hands_out : Prop :=
  forall b numBits hlimit bigAlloc addrs n b' a,
    valid b -> addressable b ->
    Iface.AllocBits b numBits hlimit bigAlloc = Some (addrs, n, b') ->
    In a addrs ->
    Iface.CheckBit b a = Done false /\ Iface.CheckBit b' a = Done true.

(** [ClearBits] on the addresses of a call undoes it: the bytes and
    [freeBits] are those from before the call. *)
Definition clear_undoes_alloc : Prop :=
  forall b numBits hlimit bigAlloc addrs n b',
    valid b -> addressable b ->
    Iface.AllocBits b numBits hlimit bigAlloc = Some (addrs, n, b') ->
    exists b'',
      Iface.ClearBits b' addrs = Done b''
      /\ bytes b'' = bytes b /\ Iface.FreeBits b'' = Iface.FreeBits b
      /\ group b'' = group b.

(** A call falls short only of a full bitmap: with [freeBits] the number
    of clear bits, a call returns the bits asked for, or as many addresses
    as the limit allows, or leaves no bit clear; and it never returns 64
    bits more than were asked for (than 1, when less was asked for). *)
Definition falls_short_only_when_full : Prop :=
  forall b numBits hlimit bigAlloc addrs n b',
    valid b -> Iface.FreeBits b = clear_count (bytes b) ->
    Iface.AllocBits b numBits hlimit bigAlloc = Some (addrs, n, b') ->
    n < Z.max numBits 1 + 64
    /\ (numBits <= n \/ hlimit <= len addrs \/ clear_count (bytes b') = 0).

(** The number of addresses of a call: at most [max(hlimit, 1)] when
    [lastPos] is 0, and at most [max(hlimit - 1, 0) + max(hlimit, 1)]
    always. *)
Definition address_count_bound : Prop :=
  forall b numBits hlimit bigAlloc addrs n b',
    valid b ->
    Iface.AllocBits b numBits hlimit bigAlloc = Some (addrs, n, b') ->
    len addrs <= Z.max (hlimit - 1) 0 + Z.max hlimit 1
    /\ (cursor b = 0 -> len addrs <= Z.max hlimit 1).

End Generic.

End ExactSpec.

(* ================================================================== *)
(** * Properties *)

(* ------------------------------------------------------------------ *)
(** ** Bits of bounded integers *)

Lemma testbit_above (n x i : Z) :
  0 <= n -> 0 <= x < 2 ^ n -> n <= i -> Z.testbit x i = false.
Proof.
  intros Hn Hx Hi.
  rewrite <- (Z.mod_small x (2 ^ n)) by lia.
  apply Z.mod_pow2_bits_high. lia.
Qed.

Lemma bounded_of_bits (n x : Z) :
  0 <= n -> 0 <= x -> (forall i, n <= i -> Z.testbit x i = false) -> x < 2 ^ n.
Proof.
  intros Hn Hx Hb.
  destruct (Z.eq_dec x 0) as [->|Hnz]; [apply Z.pow_pos_nonneg; lia|].
  assert (Hlog : Z.log2 x < n).
  { destruct (Z_lt_le_dec (Z.log2 x) n) as [|Hge]; [assumption|].
    specialize (Hb (Z.log2 x) Hge).
    rewrite Z.bit_log2 in Hb by lia. discriminate. }
  apply Z.log2_lt_pow2; lia.
Qed.

Lemma testbit_one (j : Z) : Z.testbit 1 j = (j =? 0).
Proof.
  destruct (Z.eqb_spec j 0) as [->|Hj]; [reflexivity|].
  destruct (Z_lt_le_dec j 0); [apply Z.testbit_neg_r; lia|].
  apply (testbit_above 1); lia.
Qed.


(* ------------------------------------------------------------------ *)
(** ** Entity addresses *)

Section EntAddrFacts.

Variables idx group : Z.
Hypothesis Hidx : is_u32 idx.
Hypothesis Hgroup : is_u32 group.

Lemma MakeEntAddr_u32 (big : bool) : is_u32 (EntAddr.MakeEntAddr idx group big).
Proof.
  unfold is_u32 in *. unfold EntAddr.MakeEntAddr, u32.
  assert (H0 : 0 <= Z.shiftl group 20 mod 2 ^ 32) by (apply Z.mod_pos_bound; lia).
  assert (Hlo : 0 <= Z.lor (Z.shiftl group 20 mod 2 ^ 32) idx)
    by (apply Z.lor_nonneg; lia).
  assert (Hhi : forall i, 32 <= i ->
            Z.testbit (Z.lor (Z.shiftl group 20 mod 2 ^ 32) idx) i = false).
  { intros i Hi. rewrite Z.lor_spec, Z.mod_pow2_bits_high by lia.
    rewrite (testbit_above 32 idx i) by lia. reflexivity. }
  destruct big.
  - split; [apply Z.lor_nonneg; lia|].
    apply bounded_of_bits; [lia|apply Z.lor_nonneg; lia|].
    intros i Hi. rewrite Z.lor_spec, Hhi by lia.
    apply (testbit_above 32); lia.
  - split; [lia|]. apply bounded_of_bits; [lia|lia|assumption].
Qed.

Lemma GetAddr_MakeEntAddr (big : bool) :
  group <= 2047 -> idx < 2 ^ 20 ->
  EntAddr.GetAddr (EntAddr.MakeEntAddr idx group big) = (idx, group, Z.b2z big).
Proof.
  intros Hg Hi. unfold is_u32 in *.
  unfold EntAddr.GetAddr, EntAddr.MakeEntAddr, u32.
  change 0x000FFFFF with (Z.ones 20). change 0x7FF with (Z.ones 11).
  change 0x80000000 with (Z.shiftl 1 31).
  assert (Hb1 : forall i, 20 <= i -> Z.testbit idx i = false)
    by (intros; apply (testbit_above 20); lia).
  assert (Hb2 : forall i, 11 <= i -> Z.testbit group i = false)
    by (intros; apply (testbit_above 11); lia).
  assert (Hn : forall x i, i < 0 -> Z.testbit x i = false)
    by (intros; apply Z.testbit_neg_r; lia).
  destruct big; cbn [Z.b2z]; repeat f_equal.
  all: Z.bitblast.
  all: rewrite ?testbit_one, ?Hb1, ?Hb2, ?Hn by lia.
  all: bool_cases.
Qed.

End EntAddrFacts.


(** C8, counterexample: [make(2^20, 2048, false)] is out of range in both
    fields and still returns a word, 0x80100000, which decodes as index 0 of
    group 1 with the big flag set. *)
Lemma make_out_of_range_is_packed :
  EntAddr.make 1048576 2048 false = EntAddr.Packed 0x80100000
  /\ EntAddr.GetAddr 0x80100000 = (0, 1, 1)
  /\ ~ make_fails_out_of_range.
Proof.
  split; [reflexivity|]. split; [reflexivity|].
  intros H.
  specialize (H 1048576 2048 false).
  assert (Hp : EntAddr.make 1048576 2048 false = EntAddr.DomainError).
  { apply H; unfold is_u32; lia. }
  discriminate Hp.
Qed.

(** C8, amended: packing never fails; for 32-bit operands it returns a 32-bit
    word, and when [group <= 2047] and [idx < 2^20] that word decodes back to
    the three fields it was made of. *)
Theorem make_is_total_and_exact_in_range (idx group : Z) (big : bool) :
  is_u32 idx -> is_u32 group ->
  exists w,
    EntAddr.make idx group big = EntAddr.Packed w
    /\ is_u32 w
    /\ (group <= 2047 -> idx < 2 ^ 20 ->
        EntAddr.GetAddr w = (idx, group, Z.b2z big)).
Proof.
  intros Hi Hg.
  exists (EntAddr.MakeEntAddr idx group big).
  split; [reflexivity|]. split.
  - apply MakeEntAddr_u32; assumption.
  - intros. apply GetAddr_MakeEntAddr; assumption.
Qed.

Lemma make_is_total_and_exact_in_range_witness :
  exists w,
    EntAddr.make 77 3 true = EntAddr.Packed w
    /\ is_u32 w
    /\ (3 <= 2047 -> 77 < 2 ^ 20 -> EntAddr.GetAddr w = (77, 3, Z.b2z true)).
Proof.
  apply (make_is_total_and_exact_in_range 77 3 true); unfold is_u32; lia.
Defined.

(* ------------------------------------------------------------------ *)
(** ** The segment merger *)

Module SegFacts.
Import Seg.
Import AddrSpec SegSpec.


Lemma mergeSeg_unfold (addr : list Z) :
  mergeSeg addr =
  (finish (fold_left step addr (mkAcc [] (-1) 1 0)),
   bits (fold_left step addr (mkAcc [] (-1) 1 0))).
Proof.
  unfold mergeSeg, finish.
  destruct (lastof _ >=? 0); reflexivity.
Qed.

Lemma GetAddr_fields (e : Z) :
  EntAddr.GetAddr e = (EntAddr.idx_of e, EntAddr.group_of e, EntAddr.big_of e).
Proof.
  unfold EntAddr.idx_of, EntAddr.group_of, EntAddr.big_of.
  destruct (EntAddr.GetAddr e) as [[i g] b]. reflexivity.
Qed.

Lemma idx_of_nonneg (e : Z) : 0 <= EntAddr.idx_of e.
Proof.
  unfold EntAddr.idx_of, EntAddr.GetAddr. cbn [fst].
  apply Z.land_nonneg. right. lia.
Qed.

Lemma first_byte_nonneg (e : Z) : 0 <= first_byte e.
Proof. unfold first_byte. pose proof (idx_of_nonneg e). lia. Qed.

Lemma width_pos (e : Z) : 1 <= width e.
Proof. unfold width. destruct (_ >? 0); lia. Qed.

Lemma separated_snoc (l : list Seg) (c : Seg) :
  separated l ->
  (forall s, In s l -> offset s + length s < offset c) ->
  separated (l ++ [c]).
Proof.
  induction l as [|s1 l IH]; intros Hs Hc; [exact I|].
  destruct l as [|s2 l].
  - cbn. split; [apply Hc; left; reflexivity|exact I].
  - cbn in Hs |- *. destruct Hs as [H12 Hs]. split; [exact H12|].
    apply IH; [exact Hs|]. intros s Hin. apply Hc. right. exact Hin.
Qed.

Lemma covers_snoc_old (l : list Seg) (c : Seg) (k : Z) :
  covers l k -> covers (l ++ [c]) k.
Proof.
  intros [s [Hin Hk]]. exists s. split; [apply in_or_app; left; exact Hin|exact Hk].
Qed.

Lemma covers_snoc_new (l : list Seg) (c : Seg) (k : Z) :
  offset c <= k < offset c + length c -> covers (l ++ [c]) k.
Proof.
  intros Hk. exists c. split; [apply in_or_app; right; left; reflexivity|exact Hk].
Qed.

Lemma covers_snoc_inv (l : list Seg) (c : Seg) (k : Z) :
  covers (l ++ [c]) k -> covers l k \/ offset c <= k < offset c + length c.
Proof.
  intros [s [Hin Hk]]. apply in_app_or in Hin. destruct Hin as [Hin|[<-|[]]].
  - left. exists s. split; assumption.
  - right. exact Hk.
Qed.


Lemma finish_good (a : acc) (prev : Z) :
  good a prev -> finish a = segs a ++ [mkSeg (lastof a) (lastLen a)].
Proof.
  intros G. unfold finish.
  destruct (Z.geb_spec (lastof a) 0) as [|Hlt]; [reflexivity|].
  pose proof (g_lastof _ _ G). lia.
Qed.

(** One pass of the loop keeps [good], keeps what was covered and covers
    the bytes of the address it reads. *)
Lemma step_good (a : acc) (prev e : Z) :
  good a prev ->
  EntAddr.idx_of prev <= EntAddr.idx_of e ->
  (EntAddr.big_of e > 0 -> first_byte e <= first_byte prev + width prev) ->
  good (step a e) e
  /\ bits (step a e) = bits a + nbits e
  /\ (forall k, covers (finish a) k -> covers (finish (step a e)) k)
  /\ (forall k, first_byte e <= k < first_byte e + width e ->
                covers (finish (step a e)) k).
Proof.
  intros G Hsort Hbig.
  pose proof (g_lastof _ _ G) as G1. pose proof (g_len _ _ G) as G2.
  pose proof (g_start _ _ G) as G3. pose proof (g_end _ _ G) as G4.
  pose proof (g_sep _ _ G) as G5. pose proof (g_before _ _ G) as G6.
  assert (Hfb : first_byte prev <= first_byte e) by (unfold first_byte; lia).
  pose proof (first_byte_nonneg e) as Hnn.
  assert (Hstep : exists a', step a e = a' /\ good a' e
            /\ bits a' = bits a + nbits e
            /\ (forall k, covers (segs a ++ [mkSeg (lastof a) (lastLen a)]) k ->
                          covers (segs a' ++ [mkSeg (lastof a') (lastLen a')]) k)
            /\ (forall k, first_byte e <= k < first_byte e + width e ->
                          covers (segs a' ++ [mkSeg (lastof a') (lastLen a')]) k)).
  { unfold step. rewrite GetAddr_fields.
    unfold nbits, width in *. fold (first_byte e).
    destruct (Z.ltb_spec (lastof a) 0) as [|_]; [lia|].
    destruct (Z.gtb_spec (lastof a + lastLen a) (first_byte e)) as [Hin|Hnin].
    - (* the address starts inside the open span *)
      eexists; split; [reflexivity|].
      destruct (Z.gtb_spec (EntAddr.big_of e) 0) as [Hb|Hb]; cbn [segs lastof lastLen bits].
      + split; [constructor; cbn [segs lastof lastLen]; unfold width;
                 try destruct (Z.gtb_spec (EntAddr.big_of e) 0); auto; lia|].
        split; [lia|]. split.
        * intros k Hk. apply covers_snoc_inv in Hk. destruct Hk as [Hk|Hk].
          -- apply covers_snoc_old; exact Hk.
          -- apply covers_snoc_new. cbn in *. lia.
        * intros k Hk. apply covers_snoc_new. cbn. lia.
      + split; [constructor; cbn [segs lastof lastLen]; unfold width;
                 try destruct (Z.gtb_spec (EntAddr.big_of e) 0); auto; lia|].
        split; [lia|]. split.
        * intros k Hk. exact Hk.
        * intros k Hk. apply covers_snoc_new. cbn. lia.
    - destruct (Z.eqb_spec (lastof a + lastLen a) (first_byte e)) as [Heq|Hne].
      + (* the address abuts the open span *)
        eexists; split; [reflexivity|].
        destruct (Z.gtb_spec (EntAddr.big_of e) 0) as [Hb|Hb]; cbn [segs lastof lastLen bits].
        * split; [constructor; cbn [segs lastof lastLen]; unfold width;
                   try destruct (Z.gtb_spec (EntAddr.big_of e) 0); auto; lia|].
          split; [lia|]. split.
          -- intros k Hk. apply covers_snoc_inv in Hk. destruct Hk as [Hk|Hk].
             ++ apply covers_snoc_old; exact Hk.
             ++ apply covers_snoc_new. cbn in *. lia.
          -- intros k Hk. apply covers_snoc_new. cbn. lia.
        * split; [constructor; cbn [segs lastof lastLen]; unfold width;
                   try destruct (Z.gtb_spec (EntAddr.big_of e) 0); auto; lia|].
          split; [lia|]. split.
          -- intros k Hk. apply covers_snoc_inv in Hk. destruct Hk as [Hk|Hk].
             ++ apply covers_snoc_old; exact Hk.
             ++ apply covers_snoc_new. cbn in *. lia.
          -- intros k Hk. apply covers_snoc_new. cbn. lia.
      + (* a gap: by [Hbig] the address is a single one *)
        assert (Hsingle : ~ EntAddr.big_of e > 0).
        { intros Hb. specialize (Hbig Hb).
          destruct (Z.gtb_spec (EntAddr.big_of prev) 0); lia. }
        eexists; split; [reflexivity|].
        destruct (Z.gtb_spec (EntAddr.big_of e) 0) as [Hb|Hb]; [lia|].
        cbn [segs lastof lastLen bits].
        split.
        { constructor; cbn [segs lastof lastLen]; unfold width;
            try destruct (Z.gtb_spec (EntAddr.big_of e) 0); try lia.
          - apply separated_snoc; [exact G5|]. intros s Hs. cbn. apply G6. exact Hs.
          - intros s Hs. apply in_app_or in Hs. destruct Hs as [Hs|[<-|[]]].
            + specialize (G6 s Hs). lia.
            + cbn. lia. }
        split; [lia|]. split.
        * intros k Hk. apply covers_snoc_old. exact Hk.
        * intros k Hk. apply covers_snoc_new. cbn. lia. }
  destruct Hstep as [a' [Ha' [G' [Hbits [Hold Hnew]]]]]. subst a'.
  rewrite (finish_good _ _ G), (finish_good _ _ G').
  split; [exact G'|]. split; [exact Hbits|]. split; [exact Hold|exact Hnew].
Qed.


Lemma chain_of_sorted (prev : Z) (rest : list Z) :
  sorted_by_idx (prev :: rest) -> big_follows (prev :: rest) -> chain prev rest.
Proof.
  revert prev. induction rest as [|e t IH]; intros prev Hs Hb; [exact I|].
  cbn in Hs, Hb. destruct Hs as [Hs1 Hs2]. destruct Hb as [Hb1 Hb2].
  cbn. repeat split; [exact Hs1|exact Hb1|apply IH; assumption].
Qed.

Lemma fold_good (rest : list Z) (a : acc) (prev : Z) :
  good a prev -> chain prev rest ->
  let a' := fold_left step rest a in
  separated (finish a')
  /\ bits a' = bits a + total_bits rest
  /\ (forall k, covers (finish a) k -> covers (finish a') k)
  /\ (forall e k, In e rest -> first_byte e <= k < first_byte e + width e ->
                  covers (finish a') k).
Proof.
  revert a prev. induction rest as [|e t IH]; intros a prev G Hc; cbn [fold_left].
  - repeat split.
    + rewrite (finish_good _ _ G). apply separated_snoc; [apply (g_sep _ _ G)|].
      intros s Hs. cbn. apply (g_before _ _ G). exact Hs.
    + cbn. lia.
    + auto.
    + intros e k [].
  - cbn in Hc. destruct Hc as [Hs [Hb Hc]].
    destruct (step_good a prev e G Hs Hb) as [G' [Hbits [Hold Hnew]]].
    destruct (IH (step a e) e G' Hc) as [Hsep [Hbits' [Hold' Hnew']]].
    repeat split.
    + exact Hsep.
    + rewrite Hbits', Hbits. cbn [total_bits]. lia.
    + intros k Hk. apply Hold', Hold, Hk.
    + intros e' k [<-|Hin] Hk.
      * apply Hold', Hnew, Hk.
      * apply (Hnew' e' k Hin Hk).
Qed.

Lemma first_step_good (e : Z) :
  good (step (mkAcc [] (-1) 1 0) e) e
  /\ bits (step (mkAcc [] (-1) 1 0) e) = nbits e.
Proof.
  unfold step. rewrite GetAddr_fields. cbn [lastof lastLen segs bits].
  change (-1 <? 0) with true. cbv iota. fold (first_byte e).
  pose proof (first_byte_nonneg e).
  unfold nbits.
  destruct (Z.gtb_spec (EntAddr.big_of e) 0) as [Hb|Hb].
  - split; [|reflexivity].
    constructor; cbn [segs lastof lastLen]; unfold width;
      try destruct (Z.gtb_spec (EntAddr.big_of e) 0); try lia.
    + exact I.
    + intros s [].
  - split; [|reflexivity].
    constructor; cbn [segs lastof lastLen]; unfold width;
      try destruct (Z.gtb_spec (EntAddr.big_of e) 0); try lia.
    + exact I.
    + intros s [].
Qed.

End SegFacts.


(** C7, the failing input: on a bitmap of 1024 bits of which bit 0 and the
    bits from 800 on are clear, [AllocBits(65, 2, true)] returns the
    address of bit 0 and the big address of bits 800..863, a list sorted by
    bit index.  The big address comes after a gap, and the branch of
    [mergeSeg] that opens a new span sets [lastLen = 1] without looking at
    [isBig]: the spans are byte 0 and byte 100.  The call has set all bits
    of bytes 100..107, and bytes 101..107 are in no span. *)
Lemma mergeSeg_gives_one_byte_to_big_run_after_gap :
  B64.AllocBits (B64.mk (254 :: repeat 255 99 ++ repeat 0 28) 225 1 0) 65 2 true
  = Some ([0x00100000; 0x80100320], 65, B64.mk (repeat 255 108 ++ repeat 0 20) 160 1 12)
  /\ SegSpec.sorted_by_idx [0x00100000; 0x80100320]
  /\ Seg.mergeSeg [0x00100000; 0x80100320] = ([Seg.mkSeg 0 1; Seg.mkSeg 100 1], 65)
  /\ (forall k, 101 <= k <= 107 ->
        get (254 :: repeat 255 99 ++ repeat 0 28) k = 0
        /\ get (repeat 255 108 ++ repeat 0 20) k = 255
        /\ ~ SegSpec.covers (fst (Seg.mergeSeg [0x00100000; 0x80100320])) k)
  /\ ~ mergeSeg_covers_every_bit.
Proof.
  assert (Hno : forall k, 101 <= k <= 107 ->
            ~ SegSpec.covers (fst (Seg.mergeSeg [0x00100000; 0x80100320])) k).
  { intros k Hk [s [Hin Hs]]. cbn in Hin.
    destruct Hin as [<- |[<- |[]]]; cbn in Hs; lia. }
  split; [vm_compute; reflexivity|].
  split; [cbn; lia|].
  split; [reflexivity|].
  split.
  - intros k Hk. split; [|split; [|apply Hno; exact Hk]].
    + assert (E : k = 101 \/ k = 102 \/ k = 103 \/ k = 104 \/ k = 105 \/ k = 106 \/ k = 107)
        by lia.
      destruct E as [-> |[-> |[-> |[-> |[-> |[-> | ->]]]]]]; reflexivity.
    + assert (E : k = 101 \/ k = 102 \/ k = 103 \/ k = 104 \/ k = 105 \/ k = 106 \/ k = 107)
        by lia.
      destruct E as [-> |[-> |[-> |[-> |[-> |[-> | ->]]]]]]; reflexivity.
  - intros H. apply (Hno 101); [lia|].
    change 101 with (808 / 8).
    assert (Hs : SegSpec.sorted_by_idx [0x00100000; 0x80100320]) by (cbn; lia).
    apply (H _ Hs 0x80100320 808); [right; left; reflexivity|].
    cbn. lia.
Qed.

(** A second input: a big address at bit 9 stands for bits 9..72; the
    merger returns the one span of bytes 1..8, and byte 9, which holds bit
    72, is in no span. *)
Lemma mergeSeg_misses_last_byte_of_unaligned_run :
  Seg.mergeSeg [0x80000009] = ([Seg.mkSeg 1 8], 64)
  /\ ~ SegSpec.covers (fst (Seg.mergeSeg [0x80000009])) (72 / 8)
  /\ ~ mergeSeg_covers_every_bit.
Proof.
  assert (Hno : ~ SegSpec.covers (fst (Seg.mergeSeg [0x80000009])) (72 / 8)).
  { intros [s [Hin Hk]]. cbn in Hin. destruct Hin as [<-|[]]. cbn in Hk. lia. }
  split; [reflexivity|]. split; [exact Hno|].
  intros H. apply Hno.
  apply (H [0x80000009] I 0x80000009 72); [left; reflexivity|].
  cbn. lia.
Qed.

(** What the merger does cover: for a list sorted by bit index in which no
    big address opens a span after a gap, the spans contain the byte of
    every single address and the 8 bytes from the first byte of every big
    address on, consecutive spans are at least one byte apart, and the
    count is 1 per single and 64 per big address. *)
Theorem mergeSeg_covers_reserved_bytes (addr : list Z) :
  SegSpec.sorted_by_idx addr ->
  SegSpec.big_follows addr ->
  (forall e k, In e addr ->
     SegSpec.first_byte e <= k < SegSpec.first_byte e + SegSpec.width e ->
     SegSpec.covers (fst (Seg.mergeSeg addr)) k)
  /\ SegSpec.separated (fst (Seg.mergeSeg addr))
  /\ snd (Seg.mergeSeg addr) = AddrSpec.total_bits addr.
Proof.
  intros Hs Hb. rewrite SegFacts.mergeSeg_unfold. cbn [fst snd].
  destruct addr as [|e t].
  - cbn. repeat split; auto. intros e k [].
  - cbn [fold_left].
    destruct (SegFacts.first_step_good e) as [G Hbits].
    pose proof (SegFacts.chain_of_sorted e t Hs Hb) as Hc.
    destruct (SegFacts.fold_good t _ e G Hc) as [Hsep [Hbits' [Hold Hnew]]].
    repeat split.
    + intros e' k [<-|Hin] Hk.
      * apply Hold. rewrite (SegFacts.finish_good _ _ G).
        apply SegFacts.covers_snoc_new. cbn [Seg.offset Seg.length].
        pose proof (SegSpec.g_start _ _ G). pose proof (SegSpec.g_end _ _ G). lia.
      * apply (Hnew e' k Hin Hk).
    + exact Hsep.
    + rewrite Hbits', Hbits. reflexivity.
Qed.

Lemma mergeSeg_covers_reserved_bytes_witness :
  (forall e k, In e [1; 2; 3; 0x80000004] ->
     SegSpec.first_byte e <= k < SegSpec.first_byte e + SegSpec.width e ->
     SegSpec.covers (fst (Seg.mergeSeg [1; 2; 3; 0x80000004])) k)
  /\ SegSpec.separated (fst (Seg.mergeSeg [1; 2; 3; 0x80000004]))
  /\ snd (Seg.mergeSeg [1; 2; 3; 0x80000004])
     = AddrSpec.total_bits [1; 2; 3; 0x80000004].
Proof.
  apply (mergeSeg_covers_reserved_bytes [1; 2; 3; 0x80000004]).
  - cbn. lia.
  - cbn. repeat split; try exact I; intros; lia.
Defined.

(* ------------------------------------------------------------------ *)
(** ** Slices and bits *)

Module BitFacts.
Import Bits.

Lemma len_nonneg (s : list Z) : 0 <= len s.
Proof. unfold len. lia. Qed.

Lemma set_nat_length (s : list Z) (i : nat) (v : Z) :
  length (set_nat s i v) = length s.
Proof.
  revert i. induction s as [|h t IH]; intros [|i]; cbn; auto.
Qed.

Lemma set_length (s : list Z) (i v : Z) : length (set s i v) = length s.
Proof. apply set_nat_length. Qed.

Lemma len_set (s : list Z) (i v : Z) : len (set s i v) = len s.
Proof. unfold len. rewrite set_length. reflexivity. Qed.

Lemma nth_set_nat (s : list Z) (i j : nat) (v : Z) :
  (i < length s)%nat ->
  nth j (set_nat s i v) 0 = if Nat.eqb j i then v else nth j s 0.
Proof.
  revert i j. induction s as [|h t IH]; intros i j Hi; [cbn in Hi; lia|].
  destruct i as [|i], j as [|j]; cbn; try reflexivity.
  apply IH. cbn in Hi. lia.
Qed.

Lemma get_set (s : list Z) (i j v : Z) :
  0 <= i < len s -> 0 <= j ->
  get (set s i v) j = if j =? i then v else get s j.
Proof.
  unfold get, set, len. intros Hi Hj.
  rewrite nth_set_nat by lia.
  destruct (Nat.eqb_spec (Z.to_nat j) (Z.to_nat i)), (Z.eqb_spec j i);
    try reflexivity; lia.
Qed.

Lemma get_outside (s : list Z) (i : Z) : len s <= i -> get s i = 0.
Proof.
  unfold get, len. intros H. apply nth_overflow. lia.
Qed.

Lemma get_u8 (s : list Z) (i : Z) : wf s -> is_u8 (get s i).
Proof.
  unfold get, wf. intros H.
  destruct (Nat.lt_ge_cases (Z.to_nat i) (length s)) as [Hlt|Hge].
  - rewrite Forall_forall in H. apply H. apply nth_In. exact Hlt.
  - rewrite nth_overflow by exact Hge. unfold is_u8. lia.
Qed.

Lemma set_nat_wf (s : list Z) (i : nat) (v : Z) :
  wf s -> is_u8 v -> wf (set_nat s i v).
Proof.
  unfold wf. revert i. induction s as [|h t IH]; intros i Hs Hv; [constructor|].
  inversion Hs; subst. destruct i; cbn; constructor; auto.
Qed.

Lemma set_wf (s : list Z) (i v : Z) : wf s -> is_u8 v -> wf (set s i v).
Proof. apply set_nat_wf. Qed.

Lemma bit_set (s : list Z) (k v i : Z) :
  0 <= k < len s -> 0 <= i ->
  bit (set s k v) i = if i / 8 =? k then Z.testbit v (i mod 8) else bit s i.
Proof.
  intros Hk Hi. unfold bit. rewrite get_set by lia.
  destruct (Z.leb_spec 0 i); [|lia]. cbn [andb].
  destruct (i / 8 =? k); reflexivity.
Qed.

Lemma bit_outside (s : list Z) (i : Z) : size s <= i -> bit s i = false.
Proof.
  intros H. unfold bit, size in *. pose proof (len_nonneg s).
  rewrite get_outside by lia. rewrite Z.testbit_0_l. apply andb_false_r.
Qed.

Lemma bit_below (s : list Z) (i : Z) : i < 0 -> bit s i = false.
Proof.
  intros H. unfold bit. destruct (Z.leb_spec 0 i); [lia|reflexivity].
Qed.

Lemma bit_inside (s : list Z) (i : Z) : bit s i = true -> 0 <= i < size s.
Proof.
  intros H.
  destruct (Z_lt_le_dec i 0); [rewrite bit_below in H by lia; discriminate|].
  destruct (Z_lt_le_dec i (size s)); [lia|].
  rewrite bit_outside in H by lia. discriminate.
Qed.

(** Two well-formed byte slices of one length with the same bits are
    equal. *)
Lemma bits_ext (a b : list Z) :
  length a = length b -> wf a -> wf b ->
  (forall i, 0 <= i < size a -> bit a i = bit b i) ->
  a = b.
Proof.
  intros Hl Ha Hb Hbits.
  apply (nth_ext a b 0 0 Hl). intros n Hn.
  assert (Hga := get_u8 a (Z.of_nat n) Ha).
  assert (Hgb := get_u8 b (Z.of_nat n) Hb).
  unfold get in Hga, Hgb. rewrite Nat2Z.id in Hga, Hgb.
  unfold is_u8 in *.
  apply Z.bits_inj'. intros j Hj.
  destruct (Z_lt_le_dec j 8) as [Hlt|Hge].
  - specialize (Hbits (8 * Z.of_nat n + j)).
    unfold bit, get, size, len in Hbits.
    replace ((8 * Z.of_nat n + j) / 8) with (Z.of_nat n) in Hbits by lia.
    replace ((8 * Z.of_nat n + j) mod 8) with j in Hbits by lia.
    destruct (Z.leb_spec 0 (8 * Z.of_nat n + j)); [|lia]. cbn [andb] in Hbits.
    rewrite Nat2Z.id in Hbits. apply Hbits. lia.
  - rewrite (testbit_above 8 _ j), (testbit_above 8 _ j) by lia. reflexivity.
Qed.

(** *** [math/bits] *)

Lemma tz_from_spec (w : nat) (i x : Z) :
  i <= tz_from w i x <= i + Z.of_nat w
  /\ (forall j, i <= j < tz_from w i x -> Z.testbit x j = false)
  /\ (tz_from w i x < i + Z.of_nat w -> Z.testbit x (tz_from w i x) = true).
Proof.
  revert i. induction w as [|w IH]; intros i; cbn [tz_from].
  - split; [lia|]. split; intros; lia.
  - destruct (Z.testbit x i) eqn:E.
    + split; [lia|]. split; [intros; lia|]. intros _. exact E.
    + destruct (IH (i + 1)) as [H1 [H2 H3]]. split; [lia|]. split.
      * intros j Hj. destruct (Z.eq_dec j i) as [->|]; [exact E|]. apply H2. lia.
      * intros H. apply H3. lia.
Qed.

Lemma testbit_255 (j : Z) : Z.testbit 0xFF j = (0 <=? j) && (j <? 8).
Proof. change 0xFF with (Z.ones 8). apply Z.testbit_ones. lia. Qed.

Lemma testbit_max64 (j : Z) :
  Z.testbit 0xFFFFFFFFFFFFFFFF j = (0 <=? j) && (j <? 64).
Proof. change 0xFFFFFFFFFFFFFFFF with (Z.ones 64). apply Z.testbit_ones. lia. Qed.

Lemma testbit_not8 (x j : Z) :
  Z.testbit (not8 x) j = xorb (Z.testbit x j) ((0 <=? j) && (j <? 8)).
Proof. unfold not8. rewrite Z.lxor_spec, testbit_255. reflexivity. Qed.

Lemma testbit_not64 (x j : Z) :
  Z.testbit (not64 x) j = xorb (Z.testbit x j) ((0 <=? j) && (j <? 64)).
Proof. unfold not64. rewrite Z.lxor_spec, testbit_max64. reflexivity. Qed.

(** The first clear bit of a byte, as the allocators compute it. *)
Lemma first_clear8 (x : Z) :
  let ofs := TrailingZeros8 (not8 x) in
  0 <= ofs <= 8
  /\ (forall j, 0 <= j < ofs -> Z.testbit x j = true)
  /\ (ofs < 8 -> Z.testbit x ofs = false).
Proof.
  cbv zeta. unfold TrailingZeros8.
  destruct (tz_from_spec 8 0 (not8 x)) as [H1 [H2 H3]].
  split; [lia|]. split.
  - intros j Hj. specialize (H2 j Hj). rewrite testbit_not8 in H2.
    destruct (Z.leb_spec 0 j), (Z.ltb_spec j 8); try lia.
    destruct (Z.testbit x j); [reflexivity|discriminate].
  - intros H. specialize (H3 ltac:(lia)). rewrite testbit_not8 in H3.
    destruct (Z.leb_spec 0 (tz_from 8 0 (not8 x))),
             (Z.ltb_spec (tz_from 8 0 (not8 x)) 8); try lia.
    destruct (Z.testbit x _); [discriminate|reflexivity].
Qed.

Lemma first_clear64 (x : Z) :
  let ofs := TrailingZeros64 (not64 x) in
  0 <= ofs <= 64
  /\ (forall j, 0 <= j < ofs -> Z.testbit x j = true)
  /\ (ofs < 64 -> Z.testbit x ofs = false).
Proof.
  cbv zeta. unfold TrailingZeros64.
  destruct (tz_from_spec 64 0 (not64 x)) as [H1 [H2 H3]].
  split; [lia|]. split.
  - intros j Hj. specialize (H2 j Hj). rewrite testbit_not64 in H2.
    destruct (Z.leb_spec 0 j), (Z.ltb_spec j 64); try lia.
    destruct (Z.testbit x j); [reflexivity|discriminate].
  - intros H. specialize (H3 ltac:(lia)). rewrite testbit_not64 in H3.
    destruct (Z.leb_spec 0 (tz_from 64 0 (not64 x))),
             (Z.ltb_spec (tz_from 64 0 (not64 x)) 64); try lia.
    destruct (Z.testbit x _); [discriminate|reflexivity].
Qed.

(** *** Masks *)

Lemma pow2_lt (a b : Z) : 0 <= a < b -> 0 < 2 ^ a < 2 ^ b.
Proof.
  intros H. split; [apply Z.pow_pos_nonneg; lia|apply Z.pow_lt_mono_r; lia].
Qed.

Lemma one_shl8 (ofs : Z) : 0 <= ofs < 8 -> u8 (Z.shiftl 1 ofs) = 2 ^ ofs.
Proof.
  intros H. unfold u8. rewrite Z.shiftl_1_l.
  pose proof (pow2_lt ofs 8 H). apply Z.mod_small. lia.
Qed.

Lemma one_shl64 (ofs : Z) : 0 <= ofs < 64 -> u64 (Z.shiftl 1 ofs) = 2 ^ ofs.
Proof.
  intros H. unfold u64. rewrite Z.shiftl_1_l.
  pose proof (pow2_lt ofs 64 H). apply Z.mod_small. lia.
Qed.

Lemma low_mask8 (ofs : Z) :
  0 <= ofs < 8 -> u8 (u8 (Z.shiftl 1 ofs) - 1) = Z.ones ofs.
Proof.
  intros H. rewrite one_shl8 by exact H. rewrite Z.ones_equiv. unfold u8.
  pose proof (pow2_lt ofs 8 H). apply Z.mod_small. lia.
Qed.

Lemma low_mask64 (ofs : Z) :
  0 <= ofs < 64 -> u64 (u64 (Z.shiftl 1 ofs) - 1) = Z.ones ofs.
Proof.
  intros H. rewrite one_shl64 by exact H. rewrite Z.ones_equiv. unfold u64.
  pose proof (pow2_lt ofs 64 H). apply Z.mod_small. lia.
Qed.

Lemma testbit_pow2 (ofs j : Z) : 0 <= ofs -> Z.testbit (2 ^ ofs) j = (j =? ofs).
Proof.
  intros H. destruct (Z.eqb_spec j ofs) as [->|Hne].
  - apply Z.pow2_bits_true. exact H.
  - destruct (Z_lt_le_dec j 0); [apply Z.testbit_neg_r; lia|].
    apply Z.pow2_bits_false. lia.
Qed.

Lemma ones_u (n ofs : Z) : 0 <= ofs <= n -> 0 <= Z.ones ofs < 2 ^ n.
Proof.
  intros H. rewrite Z.ones_equiv.
  assert (0 < 2 ^ ofs) by (apply Z.pow_pos_nonneg; lia).
  assert (2 ^ ofs <= 2 ^ n) by (apply Z.pow_le_mono_r; lia).
  lia.
Qed.

(** A non-negative integer is 0 exactly when all its bits are clear. *)
Lemma eqb0_bits (x : Z) :
  0 <= x -> ((x =? 0) = true <-> forall j, 0 <= j -> Z.testbit x j = false).
Proof.
  intros Hx. split.
  - intros H j Hj. apply Z.eqb_eq in H. subst. apply Z.testbit_0_l.
  - intros H. apply Z.eqb_eq. apply Z.bits_inj_0. intros j.
    destruct (Z_lt_le_dec j 0); [apply Z.testbit_neg_r; lia|apply H; lia].
Qed.

Lemma shr_eqb0 (x ofs : Z) :
  0 <= x -> 0 <= ofs ->
  ((Z.shiftr x ofs =? 0) = true <-> forall j, ofs <= j -> Z.testbit x j = false).
Proof.
  intros Hx Ho.
  rewrite eqb0_bits by (apply Z.shiftr_nonneg; exact Hx).
  split; intros H j Hj.
  - specialize (H (j - ofs) ltac:(lia)). rewrite Z.shiftr_spec in H by lia.
    replace (j - ofs + ofs) with j in H by lia. exact H.
  - rewrite Z.shiftr_spec by lia. apply H. lia.
Qed.

Lemma land_ones_eqb0 (x ofs : Z) :
  0 <= x -> 0 <= ofs ->
  ((Z.land x (Z.ones ofs) =? 0) = true
   <-> forall j, 0 <= j < ofs -> Z.testbit x j = false).
Proof.
  intros Hx Ho.
  rewrite eqb0_bits by (apply Z.land_nonneg; left; exact Hx).
  split; intros H j Hj.
  - specialize (H j ltac:(lia)). rewrite Z.land_spec, Z.testbit_ones in H by lia.
    destruct (Z.leb_spec 0 j), (Z.ltb_spec j ofs); try lia.
    rewrite andb_true_r in H. exact H.
  - rewrite Z.land_spec, Z.testbit_ones by lia.
    destruct (Z.leb_spec 0 j), (Z.ltb_spec j ofs); try lia; cbn [andb].
    + rewrite H by lia. reflexivity.
Qed.

End BitFacts.

(* ------------------------------------------------------------------ *)
(** ** The 64-bit word view of a byte slice *)

Module WordFacts.
Import Bits BitFacts.

Lemma le_combine_nonneg (l : list Z) : wf l -> 0 <= le_combine l.
Proof.
  unfold wf. induction 1 as [|b t Hb Ht IH]; cbn [le_combine]; [lia|].
  apply Z.lor_nonneg. unfold is_u8 in Hb. split; [lia|].
  apply Z.shiftl_nonneg. exact IH.
Qed.

Lemma testbit_le_combine (l : list Z) (j : Z) :
  wf l -> 0 <= j ->
  Z.testbit (le_combine l) j = Z.testbit (nth (Z.to_nat (j / 8)) l 0) (j mod 8).
Proof.
  unfold wf. intros Hl. revert j.
  induction Hl as [|b t Hb Ht IH]; intros j Hj; cbn [le_combine].
  - destruct (Z.to_nat (j / 8)); cbn; rewrite !Z.testbit_0_l; reflexivity.
  - rewrite Z.lor_spec, Z.shiftl_spec by lia.
    unfold is_u8 in Hb.
    destruct (Z_lt_le_dec j 8) as [Hlt|Hge].
    + rewrite (Z.testbit_neg_r _ (j - 8)) by lia. rewrite orb_false_r.
      replace (j / 8) with 0 by lia. replace (j mod 8) with j by lia.
      reflexivity.
    + rewrite (testbit_above 8 b j) by lia. cbn [orb].
      rewrite IH by lia.
      replace (Z.to_nat (j / 8)) with (S (Z.to_nat ((j - 8) / 8))) by lia.
      replace ((j - 8) mod 8) with (j mod 8) by lia.
      reflexivity.
Qed.

Lemma firstn_wf (n : nat) (l : list Z) : wf l -> wf (firstn n l).
Proof.
  unfold wf. intros H. rewrite <- (firstn_skipn n l) in H.
  apply Forall_app in H. apply H.
Qed.

Lemma skipn_wf (n : nat) (l : list Z) : wf l -> wf (skipn n l).
Proof.
  unfold wf. intros H. rewrite <- (firstn_skipn n l) in H.
  apply Forall_app in H. apply H.
Qed.

Lemma nth_firstn_skipn (l : list Z) (a n k : nat) :
  nth k (firstn n (skipn a l)) 0 = if (k <? n)%nat then nth (a + k) l 0 else 0.
Proof.
  destruct (Nat.ltb_spec k n) as [Hlt|Hge].
  - rewrite nth_firstn. destruct (Nat.ltb_spec k n); [|lia].
    apply nth_skipn.
  - apply nth_overflow. rewrite length_firstn. lia.
Qed.

(** Bit [j] of word [p] is bit [64p + j] of the bitmap. *)
Lemma testbit_get_word (buf : list Z) (p j : Z) :
  wf buf -> 0 <= p -> 0 <= j ->
  Z.testbit (get_word buf p) j = if j <? 64 then bit buf (64 * p + j) else false.
Proof.
  intros Hw Hp Hj. unfold get_word.
  rewrite testbit_le_combine by (try apply firstn_wf; try apply skipn_wf; auto).
  rewrite nth_firstn_skipn.
  destruct (Z.ltb_spec j 64) as [Hlt|Hge].
  - destruct (Nat.ltb_spec (Z.to_nat (j / 8)) 8) as [_|Hc]; [|lia].
    unfold bit, get.
    destruct (Z.leb_spec 0 (64 * p + j)); [|lia]. cbn [andb].
    replace ((64 * p + j) / 8) with (8 * p + j / 8) by lia.
    replace ((64 * p + j) mod 8) with (j mod 8) by lia.
    replace (Z.to_nat (8 * p + j / 8)) with (Z.to_nat (8 * p) + Z.to_nat (j / 8))%nat by lia.
    reflexivity.
  - destruct (Nat.ltb_spec (Z.to_nat (j / 8)) 8) as [Hc|_]; [lia|].
    apply Z.testbit_0_l.
Qed.

Lemma get_word_u64 (buf : list Z) (p : Z) :
  wf buf -> 0 <= p -> is_u64 (get_word buf p).
Proof.
  intros Hw Hp. unfold is_u64.
  assert (H0 : 0 <= get_word buf p).
  { unfold get_word. apply le_combine_nonneg. apply firstn_wf, skipn_wf, Hw. }
  split; [exact H0|].
  apply bounded_of_bits; [lia|exact H0|].
  intros i Hi. rewrite testbit_get_word by (auto; lia).
  destruct (Z.ltb_spec i 64); [lia|reflexivity].
Qed.

Lemma le_split_length (n : nat) (w : Z) : length (le_split n w) = n.
Proof. revert w. induction n; intros w; cbn; auto. Qed.

Lemma le_split_wf (n : nat) (w : Z) : wf (le_split n w).
Proof.
  unfold wf. revert w. induction n as [|n IH]; intros w; cbn [le_split]; constructor.
  - unfold is_u8. change 0xFF with (Z.ones 8). rewrite Z.land_ones by lia. lia.
  - apply IH.
Qed.

Lemma nth_le_split (n k : nat) (w : Z) :
  (k < n)%nat ->
  nth k (le_split n w) 0 = Z.land (Z.shiftr w (8 * Z.of_nat k)) 0xFF.
Proof.
  revert k w. induction n as [|n IH]; intros k w Hk; [lia|].
  destruct k as [|k]; cbn [le_split nth].
  - rewrite Z.shiftr_0_r. reflexivity.
  - rewrite IH by lia. rewrite Z.shiftr_shiftr by lia.
    do 2 f_equal. lia.
Qed.

Lemma set_word_length (buf : list Z) (p w : Z) :
  0 <= p -> 8 * p + 8 <= len buf -> length (set_word buf p w) = length buf.
Proof.
  unfold set_word, len. intros Hp Hl.
  rewrite !length_app, length_firstn, length_skipn, le_split_length. lia.
Qed.

Lemma set_word_wf (buf : list Z) (p w : Z) : wf buf -> wf (set_word buf p w).
Proof.
  intros Hw. unfold set_word, wf.
  apply Forall_app. split; [apply firstn_wf, Hw|].
  apply Forall_app. split; [apply le_split_wf|apply skipn_wf, Hw].
Qed.

Lemma get_set_word (buf : list Z) (p w k : Z) :
  0 <= p -> 8 * p + 8 <= len buf -> 0 <= k ->
  get (set_word buf p w) k =
  if (8 * p <=? k) && (k <? 8 * p + 8)
  then Z.land (Z.shiftr w (8 * (k - 8 * p))) 0xFF
  else get buf k.
Proof.
  unfold len. intros Hp Hl Hk. unfold get, set_word.
  destruct (Z.leb_spec (8 * p) k) as [Hge|Hlt]; cbn [andb].
  - rewrite app_nth2 by (rewrite length_firstn; lia).
    rewrite length_firstn.
    replace (Nat.min (Z.to_nat (8 * p)) (length buf)) with (Z.to_nat (8 * p)) by lia.
    destruct (Z.ltb_spec k (8 * p + 8)) as [Hin|Hout].
    + rewrite app_nth1 by (rewrite le_split_length; lia).
      rewrite nth_le_split by lia. do 2 f_equal. lia.
    + rewrite app_nth2 by (rewrite le_split_length; lia).
      rewrite le_split_length, nth_skipn. f_equal. lia.
  - rewrite app_nth1 by (rewrite length_firstn; lia).
    rewrite nth_firstn.
    destruct (Nat.ltb_spec (Z.to_nat k) (Z.to_nat (8 * p))); [reflexivity|lia].
Qed.

(** Writing word [p] changes bits [64p .. 64p+63] and no other. *)
Lemma bit_set_word (buf : list Z) (p w i : Z) :
  0 <= p -> 8 * p + 8 <= len buf -> 0 <= i ->
  bit (set_word buf p w) i =
  if (64 * p <=? i) && (i <? 64 * p + 64) then Z.testbit w (i - 64 * p)
  else bit buf i.
Proof.
  intros Hp Hl Hi. unfold bit. rewrite get_set_word by lia.
  destruct (Z.leb_spec 0 i); [|lia]. cbn [andb].
  destruct (Z.leb_spec (8 * p) (i / 8)), (Z.ltb_spec (i / 8) (8 * p + 8)),
           (Z.leb_spec (64 * p) i), (Z.ltb_spec i (64 * p + 64));
    cbn [andb]; try lia; try reflexivity.
  change 0xFF with (Z.ones 8).
  rewrite Z.land_spec, Z.shiftr_spec, Z.testbit_ones by lia.
  destruct (Z.leb_spec 0 (i mod 8)), (Z.ltb_spec (i mod 8) 8); try lia.
  cbn [andb]. rewrite andb_true_r. f_equal. lia.
Qed.

End WordFacts.

(* ------------------------------------------------------------------ *)
(** ** Counting clear bits *)

Module CountFacts.
Import Bits BitFacts.

Lemma clear_from_app (buf : list Z) (i : Z) (a b : nat) :
  clear_from buf i (a + b) = clear_from buf i a + clear_from buf (i + Z.of_nat a) b.
Proof.
  revert i. induction a as [|a IH]; intros i; cbn [clear_from Nat.add].
  - replace (i + Z.of_nat 0) with i by lia. lia.
  - rewrite IH. replace (i + 1 + Z.of_nat a) with (i + Z.of_nat (S a)) by lia. lia.
Qed.

Lemma clear_from_ext (a b : list Z) (i : Z) (n : nat) :
  (forall j, i <= j < i + Z.of_nat n -> bit a j = bit b j) ->
  clear_from a i n = clear_from b i n.
Proof.
  revert i. induction n as [|n IH]; intros i H; cbn [clear_from]; [reflexivity|].
  rewrite (H i) by lia. rewrite (IH (i + 1)); [reflexivity|].
  intros j Hj. apply H. lia.
Qed.

Lemma clear_from_set (buf : list Z) (i : Z) (n : nat) :
  range_set buf i (i + Z.of_nat n) -> clear_from buf i n = 0.
Proof.
  revert i. induction n as [|n IH]; intros i H; cbn [clear_from]; [reflexivity|].
  rewrite (H i) by lia. rewrite IH; [reflexivity|].
  intros j Hj. apply H. lia.
Qed.

Lemma clear_from_clear (buf : list Z) (i : Z) (n : nat) :
  range_clear buf i (i + Z.of_nat n) -> clear_from buf i n = Z.of_nat n.
Proof.
  revert i. induction n as [|n IH]; intros i H; cbn [clear_from]; [reflexivity|].
  rewrite (H i) by lia. rewrite IH; [lia|].
  intros j Hj. apply H. lia.
Qed.

Lemma clear_from_bounds (buf : list Z) (i : Z) (n : nat) :
  0 <= clear_from buf i n <= Z.of_nat n.
Proof.
  revert i. induction n as [|n IH]; intros i; cbn [clear_from]; [lia|].
  specialize (IH (i + 1)). destruct (bit buf i); lia.
Qed.

Lemma clear_count_bounds (buf : list Z) : 0 <= clear_count buf <= size buf.
Proof.
  unfold clear_count. pose proof (clear_from_bounds buf 0 (Z.to_nat (size buf))).
  unfold size in *. pose proof (len_nonneg buf). lia.
Qed.

(** No clear bit is counted exactly when every bit is set. *)
Lemma clear_from_zero (buf : list Z) (i : Z) (n : nat) :
  clear_from buf i n = 0 -> range_set buf i (i + Z.of_nat n).
Proof.
  revert i. induction n as [|n IH]; intros i H j Hj; [lia|].
  cbn [clear_from] in H.
  pose proof (clear_from_bounds buf (i + 1) n).
  destruct (bit buf i) eqn:E; [|lia].
  destruct (Z.eq_dec j i) as [->|]; [exact E|].
  apply (IH (i + 1)); lia.
Qed.

Lemma clear_count_split (buf : list Z) (lo n : Z) :
  0 <= lo -> 0 <= n -> lo + n <= size buf ->
  clear_count buf =
  clear_from buf 0 (Z.to_nat lo) + clear_from buf lo (Z.to_nat n)
  + clear_from buf (lo + n) (Z.to_nat (size buf - (lo + n))).
Proof.
  intros Hlo Hn Hs. unfold clear_count.
  replace (Z.to_nat (size buf))
    with (Z.to_nat lo + (Z.to_nat n + Z.to_nat (size buf - (lo + n))))%nat by lia.
  rewrite !clear_from_app.
  replace (0 + Z.of_nat (Z.to_nat lo)) with lo by lia.
  replace (lo + Z.of_nat (Z.to_nat n)) with (lo + n) by lia.
  lia.
Qed.

Lemma sets_size (buf buf' : list Z) (lo hi : Z) :
  sets buf buf' lo hi -> size buf' = size buf.
Proof. intros [Hl _]. unfold size, len. rewrite Hl. reflexivity. Qed.

Lemma clears_size (buf buf' : list Z) (lo hi : Z) :
  clears buf buf' lo hi -> size buf' = size buf.
Proof. intros [Hl _]. unfold size, len. rewrite Hl. reflexivity. Qed.

(** Setting [n] clear bits lowers the count of clear bits by [n]. *)
Lemma sets_clear_count (buf buf' : list Z) (lo n : Z) :
  0 <= lo -> 0 <= n -> lo + n <= size buf ->
  sets buf buf' lo (lo + n) -> range_clear buf lo (lo + n) ->
  clear_count buf' = clear_count buf - n.
Proof.
  intros Hlo Hn Hs Hsets Hclr.
  pose proof (sets_size _ _ _ _ Hsets) as Hsz.
  destruct Hsets as [_ [_ Hb]].
  rewrite (clear_count_split buf lo n), (clear_count_split buf' lo n) by lia.
  rewrite Hsz.
  rewrite (clear_from_ext buf' buf 0).
  2:{ intros j Hj. rewrite Hb by lia.
      destruct (Z.leb_spec lo j), (Z.ltb_spec j (lo + n)); try lia;
        cbn [andb]; try apply orb_false_r. }
  rewrite (clear_from_ext buf' buf (lo + n)).
  2:{ intros j Hj. rewrite Hb by lia.
      destruct (Z.leb_spec lo j), (Z.ltb_spec j (lo + n)); try lia;
        cbn [andb]; try apply orb_false_r. }
  rewrite (clear_from_set buf' lo).
  2:{ intros j Hj. rewrite Hb by lia.
      destruct (Z.leb_spec lo j), (Z.ltb_spec j (lo + n)); try lia;
        cbn [andb]; try apply orb_true_r. }
  rewrite (clear_from_clear buf lo).
  2:{ intros j Hj. apply Hclr. lia. }
  lia.
Qed.

(** Clearing [n] set bits raises the count of clear bits by [n]. *)
Lemma clears_clear_count (buf buf' : list Z) (lo n : Z) :
  0 <= lo -> 0 <= n -> lo + n <= size buf ->
  clears buf buf' lo (lo + n) -> range_set buf lo (lo + n) ->
  clear_count buf' = clear_count buf + n.
Proof.
  intros Hlo Hn Hs Hcl Hset.
  pose proof (clears_size _ _ _ _ Hcl) as Hsz.
  destruct Hcl as [_ [_ Hb]].
  rewrite (clear_count_split buf lo n), (clear_count_split buf' lo n) by lia.
  rewrite Hsz.
  rewrite (clear_from_ext buf' buf 0).
  2:{ intros j Hj. rewrite Hb by lia.
      destruct (Z.leb_spec lo j), (Z.ltb_spec j (lo + n)); try lia;
        cbn [andb negb]; try apply andb_true_r. }
  rewrite (clear_from_ext buf' buf (lo + n)).
  2:{ intros j Hj. rewrite Hb by lia.
      destruct (Z.leb_spec lo j), (Z.ltb_spec j (lo + n)); try lia;
        cbn [andb negb]; try apply andb_true_r. }
  rewrite (clear_from_clear buf' lo).
  2:{ intros j Hj. rewrite Hb by lia.
      destruct (Z.leb_spec lo j), (Z.ltb_spec j (lo + n)); try lia;
        cbn [andb negb]; try apply andb_false_r. }
  rewrite (clear_from_set buf lo).
  2:{ intros j Hj. apply Hset. lia. }
  lia.
Qed.

(** Clearing bits that are clear already leaves the count as it is. *)
Lemma clears_clear_count_idle (buf buf' : list Z) (lo hi : Z) :
  clears buf buf' lo hi -> range_clear buf lo hi ->
  clear_count buf' = clear_count buf.
Proof.
  intros Hcl Hclr.
  pose proof (clears_size _ _ _ _ Hcl) as Hsz.
  destruct Hcl as [_ [_ Hb]].
  unfold clear_count. rewrite Hsz.
  apply clear_from_ext. intros j Hj. rewrite Hb by lia.
  destruct (Z.leb_spec lo j), (Z.ltb_spec j hi); cbn [andb negb];
    try apply andb_true_r.
  rewrite Hclr by lia. reflexivity.
Qed.

Lemma sets_unique (buf b1 b2 : list Z) (lo hi : Z) :
  sets buf b1 lo hi -> sets buf b2 lo hi -> b1 = b2.
Proof.
  intros [L1 [W1 B1]] [L2 [W2 B2]].
  apply bits_ext; [congruence|assumption|assumption|].
  intros i Hi. unfold size, len in *. rewrite L1 in Hi.
  rewrite B1, B2 by exact Hi. reflexivity.
Qed.

End CountFacts.

(* ------------------------------------------------------------------ *)
(** ** Properties of a scan *)

Module RunFacts.
Import Bitmap Bits BitFacts CountFacts Alloc AllocSpec.

Section Run.

Variables (gid numBits hlimit : Z) (bigAlloc : bool).

Local Abbreviation run := (Alloc.run gid numBits hlimit bigAlloc).
Local Abbreviation picks := (Alloc.picks numBits bigAlloc).
Local Abbreviation allocated := (Alloc.allocated gid).

Lemma range_set_join (buf : list Z) (a b c : Z) :
  range_set buf a b -> range_set buf b c -> range_set buf a c.
Proof.
  intros H1 H2 i Hi. destruct (Z_lt_le_dec i b); [apply H1|apply H2]; lia.
Qed.

Lemma sets_mono (buf buf' : list Z) (lo hi i : Z) :
  sets buf buf' lo hi -> bit buf i = true -> bit buf' i = true.
Proof.
  intros [_ [_ Hb]] H.
  rewrite Hb by (apply bit_inside; exact H).
  rewrite H. reflexivity.
Qed.

Lemma full_no_pick (s : scan) (start f : Z) (big : bool) :
  range_set (s_bits s) start (size (s_bits s)) -> picks s start f big -> False.
Proof.
  intros Hfull [[Hr1 [Hr2 _]] _]. rewrite Hfull in Hr2 by lia. discriminate.
Qed.

Lemma first_clear_unique (buf : list Z) (start f f' : Z) :
  first_clear buf start f -> first_clear buf start f' -> f = f'.
Proof.
  intros [H1 [H2 H3]] [H1' [H2' H3']].
  destruct (Z.lt_trichotomy f f') as [Hlt|[Heq|Hgt]]; [|exact Heq|].
  - rewrite H3' in H2 by lia. discriminate.
  - rewrite H3 in H2' by lia. discriminate.
Qed.

Lemma picks_unique (s : scan) (start f f' : Z) (big big' : bool) :
  picks s start f big -> picks s start f' big' -> f = f' /\ big = big'.
Proof.
  intros [Hf Hb] [Hf' Hb'].
  assert (f = f') by (eapply first_clear_unique; eauto). subst f'.
  split; [reflexivity|].
  destruct big, big'; try reflexivity.
  - assert (true = true) as E by reflexivity. apply Hb in E. apply Hb' in E. discriminate.
  - assert (true = true) as E by reflexivity. apply Hb' in E. apply Hb in E. discriminate.
Qed.

Lemma allocated_unique (s s1 s1' : scan) (f : Z) (big : bool) :
  allocated s s1 f big -> allocated s s1' f big -> s1 = s1'.
Proof.
  intros [A1 [A2 [A3 A4]]] [B1 [B2 [B3 B4]]].
  destruct s1 as [b1 f1 a1 c1], s1' as [b2 f2 a2 c2]. cbn [s_bits s_free s_acc s_cnt] in *.
  f_equal; try congruence.
  eapply sets_unique; eauto.
Qed.

(** A scan is a function of where it starts and the state it starts in. *)
Lemma run_functional (start : Z) (s : scan) (r1 r2 : option Z) (s1 s2 : scan) :
  run start s r1 s1 -> run start s r2 s2 -> r1 = r2 /\ s1 = s2.
Proof.
  intros H1. revert r2 s2.
  induction H1 as [s Hfull|s f big s1 Hp Ha He|s f big s1 r s2' Hp Ha He Hr IH];
    intros r2 s2 H2.
  - inversion H2; subst;
      try (exfalso; eapply full_no_pick; eassumption).
    split; reflexivity.
  - inversion H2; subst;
      try (exfalso; eapply full_no_pick; eassumption).
    + match goal with
      | Hp' : Alloc.picks _ _ _ _ ?f' ?b', Ha' : Alloc.allocated _ _ ?s1' ?f' ?b' |- _ =>
          destruct (picks_unique _ _ _ _ _ _ Hp Hp') as [-> ->];
          rewrite (allocated_unique _ _ _ _ _ Ha Ha')
      end.
      split; reflexivity.
    + match goal with
      | Hp' : Alloc.picks _ _ _ _ ?f' ?b', Ha' : Alloc.allocated _ _ ?s1' ?f' ?b' |- _ =>
          destruct (picks_unique _ _ _ _ _ _ Hp Hp') as [-> ->];
          rewrite (allocated_unique _ _ _ _ _ Ha Ha') in He
      end.
      congruence.
  - inversion H2; subst;
      try (exfalso; eapply full_no_pick; eassumption).
    + match goal with
      | Hp' : Alloc.picks _ _ _ _ ?f' ?b', Ha' : Alloc.allocated _ _ ?s1' ?f' ?b' |- _ =>
          destruct (picks_unique _ _ _ _ _ _ Hp Hp') as [-> ->];
          rewrite (allocated_unique _ _ _ _ _ Ha Ha') in He
      end.
      congruence.
    + match goal with
      | Hp' : Alloc.picks _ _ _ _ ?f' ?b', Ha' : Alloc.allocated _ _ ?s1' ?f' ?b' |- _ =>
          destruct (picks_unique _ _ _ _ _ _ Hp Hp') as [-> ->];
          rewrite (allocated_unique _ _ _ _ _ Ha Ha') in IH
      end.
      apply IH. assumption.
Qed.

(** A scan may start earlier when every bit in between is set. *)
Lemma run_shift (s0 s1 : Z) (s : scan) (r : option Z) (s' : scan) :
  wf (s_bits s) -> 0 <= s0 <= s1 -> range_set (s_bits s) s0 s1 ->
  run s1 s r s' -> run s0 s r s'.
Proof.
  intros Hw Hs Hset Hrun. revert Hw Hset.
  induction Hrun as [s Hfull|s f big st Hp Ha He|s f big st r s2 Hp Ha He Hr IH];
    intros Hw Hset.
  - apply run_end. eapply range_set_join; eauto.
  - eapply run_return; eauto.
    destruct Hp as [[Hr1 [Hr2 Hr3]] Hb]. split; [|exact Hb].
    split; [lia|]. split; [exact Hr2|]. eapply range_set_join; eauto.
  - eapply run_continue; eauto.
    + destruct Hp as [[Hr1 [Hr2 Hr3]] Hb]. split; [|exact Hb].
      split; [lia|]. split; [exact Hr2|]. eapply range_set_join; eauto.
    + destruct Ha as [Hsets _]. apply IH.
      * apply Hsets.
      * intros i Hi. eapply sets_mono; eauto.
Qed.

Lemma kept_refl (s : scan) : wf (s_bits s) -> kept gid s s.
Proof.
  intros Hw. constructor; auto; try lia.
  exists (@nil event). cbn. rewrite app_nil_r. repeat split; constructor.
Qed.

Lemma big_ok_widen (b0 b1 b2 : list Z) (e : event) :
  (forall i, bit b1 i = true -> bit b2 i = true) ->
  big_ok b0 b1 e -> big_ok b0 b2 e.
Proof.
  intros Hm H Hb. destruct (H Hb) as [H1 [H2 [H3 H4]]].
  repeat split; auto. intros i Hi. apply Hm. apply H4. exact Hi.
Qed.

Lemma big_ok_later (b0 b1 b2 : list Z) (e : event) :
  Datatypes.length b1 = Datatypes.length b0 ->
  (forall i, bit b0 i = true -> bit b1 i = true) ->
  big_ok b1 b2 e -> big_ok b0 b2 e.
Proof.
  intros Hl Hm H Hb. destruct (H Hb) as [H1 [H2 [H3 H4]]].
  unfold size, len in *. rewrite Hl in H2.
  repeat split; auto. intros i Hi.
  destruct (bit b0 i) eqn:E; [|reflexivity].
  apply Hm in E. rewrite H3 in E by exact Hi. discriminate.
Qed.

Lemma kept_trans (s1 s2 s3 : scan) :
  wf (s_bits s1) -> kept gid s1 s2 -> kept gid s2 s3 -> kept gid s1 s3.
Proof.
  intros Hw K1 K2.
  destruct K1 as [W1 L1 M1 F1 C1 N1 [ev1 [A1 [B1 R1]]]].
  destruct K2 as [W2 L2 M2 F2 C2 N2 [ev2 [A2 [B2 R2]]]].
  constructor.
  - exact W2.
  - rewrite L2. exact L1.
  - intros i Hi. apply M2, M1, Hi.
  - lia.
  - lia.
  - lia.
  - exists (ev1 ++ ev2). rewrite map_app, app_assoc, <- A1, <- A2.
    split; [reflexivity|]. split.
    + apply Forall_app. split.
      * eapply Forall_impl; [|exact B1]. intros e He.
        eapply big_ok_widen; eauto.
      * eapply Forall_impl; [|exact B2]. intros e He.
        eapply big_ok_later; eauto.
    + apply Forall_app. split; [exact R1|].
      eapply Forall_impl; [|exact R2]. intros e He.
      unfold size, len in *. rewrite L1 in He. exact He.
Qed.

(** One allocation keeps what a scan keeps. *)
Lemma allocated_kept (s s1 : scan) (start f : Z) (big : bool) :
  wf (s_bits s) -> 0 <= start ->
  picks s start f big -> allocated s s1 f big -> kept gid s s1.
Proof.
  intros Hw Hs [[Hf1 [Hf2 Hf3]] Hbig] [Hsets [Hfree [Hcnt Hacc]]].
  assert (Hn : 0 <= (if big then 64 else 1)) by (destruct big; lia).
  assert (Hin : f + (if big then 64 else 1) <= size (s_bits s)).
  { destruct big; [|lia]. destruct (proj1 Hbig eq_refl) as [_ [_ [H _]]]. lia. }
  assert (Hclr : range_clear (s_bits s) f (f + (if big then 64 else 1))).
  { destruct big.
    - destruct (proj1 Hbig eq_refl) as [_ [_ [_ H]]]. exact H.
    - intros i Hi. replace i with f by lia. exact Hf2. }
  constructor.
  - apply Hsets.
  - apply Hsets.
  - intros i Hi. eapply sets_mono; eauto.
  - lia.
  - rewrite (sets_clear_count _ _ f _ ltac:(lia) Hn Hin Hsets Hclr). lia.
  - lia.
  - exists [(f, big)]. cbn [map]. split; [exact Hacc|]. split.
    + constructor; [|constructor]. intros Hb. cbn [fst snd] in *. subst big.
      destruct (proj1 Hbig eq_refl) as [_ [_ [H1 H2]]].
      split; [lia|]. split; [lia|]. split; [exact H2|].
      intros i Hi. destruct Hsets as [_ [_ Hb]]. rewrite Hb by lia.
      destruct (Z.leb_spec f i), (Z.ltb_spec i (f + 64)); try lia;
        try apply orb_true_r.
    + constructor; [|constructor]. cbn [fst]. lia.
Qed.

(** A whole scan keeps what one allocation keeps; it leaves every bit from
    its start on set when it runs to the end, and every bit from its start
    to the last allocation when it returns. *)
Lemma run_kept (start : Z) (s : scan) (r : option Z) (s' : scan) :
  wf (s_bits s) -> 0 <= start -> run start s r s' ->
  kept gid s s'
  /\ match r with
     | None => range_set (s_bits s') start (size (s_bits s'))
     | Some f => start <= f < size (s_bits s') /\ range_set (s_bits s') start (f + 1)
     end.
Proof.
  intros Hw Hs Hrun. revert Hw.
  induction Hrun as [s Hfull|s f big s1 Hp Ha He|s f big s1 r s2 Hp Ha He Hr IH];
    intros Hw.
  - split; [apply kept_refl; exact Hw|exact Hfull].
  - pose proof (allocated_kept s s1 start f big Hw Hs Hp Ha) as K.
    split; [exact K|].
    destruct Hp as [[Hf1 [Hf2 Hf3]] _]. destruct Ha as [Hsets _].
    rewrite (sets_size _ _ _ _ Hsets). split; [lia|].
    intros i Hi. destruct Hsets as [_ [_ Hb]]. rewrite Hb by lia.
    destruct (Z.eq_dec i f) as [->|Hne].
    + destruct (Z.leb_spec f f), (Z.ltb_spec f (f + (if big then 64 else 1)));
        try (destruct big; lia); try apply orb_true_r.
    + rewrite Hf3 by lia. reflexivity.
  - pose proof (allocated_kept s s1 start f big Hw Hs Hp Ha) as K.
    destruct (IH (k_wf _ _ _ K)) as [K' Hr'].
    split; [eapply kept_trans; eauto|exact Hr'].
Qed.

End Run.
End RunFacts.

(* ------------------------------------------------------------------ *)
(** ** [Bitmap64.AllocBits] is a scan *)

Module B64Facts.
Import Bitmap Bits BitFacts WordFacts CountFacts Alloc AllocSpec AllocCall RunFacts.

Section Word.

Variables (gid numBits hlimit : Z) (bigAlloc : bool) (bml : Z).

Local Abbreviation run := (Alloc.run gid numBits hlimit bigAlloc).

Lemma word_bit (buf : list Z) (pos j : Z) :
  wf buf -> 0 <= pos -> 0 <= j < 64 ->
  Z.testbit (get_word buf pos) j = bit buf (64 * pos + j).
Proof.
  intros Hw Hp Hj. rewrite testbit_get_word by (auto; lia).
  destruct (Z.ltb_spec j 64); [reflexivity|lia].
Qed.

Lemma word_high_bit (buf : list Z) (pos j : Z) :
  wf buf -> 0 <= pos -> 64 <= j -> Z.testbit (get_word buf pos) j = false.
Proof.
  intros Hw Hp Hj. rewrite testbit_get_word by (auto; lia).
  destruct (Z.ltb_spec j 64); [lia|reflexivity].
Qed.

Lemma shl6 (pos ofs : Z) : Z.shiftl pos 6 + ofs = 64 * pos + ofs.
Proof. rewrite Z.shiftl_mul_pow2 by lia. lia. Qed.

Lemma take_one_allocated (s : scan) (pos ofs : Z) :
  wf (s_bits s) -> len (s_bits s) = 8 * bml -> 0 <= pos < bml -> 0 <= ofs < 64 ->
  Alloc.allocated gid s (B64.take_one gid pos ofs s) (64 * pos + ofs) false.
Proof.
  intros Hw Hl Hp Ho. unfold Alloc.allocated, B64.take_one.
  cbn [s_bits s_free s_acc s_cnt]. rewrite shl6.
  split; [|repeat split; lia].
  split; [apply set_word_length; lia|]. split; [apply set_word_wf, Hw|].
  intros i Hi. unfold size in Hi.
  rewrite bit_set_word by lia.
  destruct (Z.leb_spec (64 * pos) i), (Z.ltb_spec i (64 * pos + 64)); cbn [andb].
  - rewrite Z.lor_spec, one_shl64, testbit_pow2 by lia.
    rewrite word_bit by (auto; lia).
    replace (64 * pos + (i - 64 * pos)) with i by lia.
    f_equal.
    destruct (Z.eqb_spec (i - 64 * pos) ofs), (Z.leb_spec (64 * pos + ofs) i),
             (Z.ltb_spec i (64 * pos + ofs + 1)); try lia; reflexivity.
  - destruct (Z.leb_spec (64 * pos + ofs) i), (Z.ltb_spec i (64 * pos + ofs + 1));
      try lia; cbn [andb]; rewrite orb_false_r; reflexivity.
  - destruct (Z.leb_spec (64 * pos + ofs) i), (Z.ltb_spec i (64 * pos + ofs + 1));
      try lia; cbn [andb]; rewrite orb_false_r; reflexivity.
  - lia.
Qed.

Lemma take_big_allocated (s : scan) (pos ofs : Z) :
  wf (s_bits s) -> len (s_bits s) = 8 * bml -> 0 <= pos -> pos + 1 < bml ->
  0 <= ofs < 64 ->
  Alloc.allocated gid s
    (B64.take_big gid pos ofs (u64 (u64 (Z.shiftl 1 ofs) - 1)) s)
    (64 * pos + ofs) true.
Proof.
  intros Hw Hl Hp Hp1 Ho. unfold Alloc.allocated, B64.take_big.
  cbn [s_bits s_free s_acc s_cnt]. rewrite shl6.
  split; [|repeat split; lia].
  rewrite low_mask64 by lia.
  set (b1 := set_word (s_bits s) pos _).
  assert (Hl1 : Datatypes.length b1 = Datatypes.length (s_bits s))
    by (apply set_word_length; lia).
  assert (Hw1 : wf b1) by (apply set_word_wf, Hw).
  assert (Hlen1 : len b1 = 8 * bml) by (unfold len in *; rewrite Hl1; exact Hl).
  split; [rewrite set_word_length by lia; exact Hl1|].
  split; [apply set_word_wf, Hw1|].
  intros i Hi. unfold size in Hi.
  rewrite bit_set_word by lia.
  destruct (Z.leb_spec (64 * (pos + 1)) i), (Z.ltb_spec i (64 * (pos + 1) + 64));
    cbn [andb].
  - (* the word after: its low [ofs] bits *)
    rewrite Z.lor_spec, Z.testbit_ones by lia.
    rewrite word_bit by (auto; lia).
    replace (64 * (pos + 1) + (i - 64 * (pos + 1))) with i by lia.
    unfold b1. rewrite bit_set_word by lia.
    destruct (Z.leb_spec (64 * pos) i), (Z.ltb_spec i (64 * pos + 64)); try lia.
    cbn [andb]. f_equal.
    destruct (Z.leb_spec 0 (i - 64 * (pos + 1))),
             (Z.ltb_spec (i - 64 * (pos + 1)) ofs),
             (Z.leb_spec (64 * pos + ofs) i),
             (Z.ltb_spec i (64 * pos + ofs + 64)); try lia; reflexivity.
  - unfold b1. rewrite bit_set_word by lia.
    destruct (Z.leb_spec (64 * pos) i), (Z.ltb_spec i (64 * pos + 64)); try lia.
    cbn [andb].
    destruct (Z.leb_spec (64 * pos + ofs) i), (Z.ltb_spec i (64 * pos + ofs + 64));
      try lia; cbn [andb]; rewrite orb_false_r; reflexivity.
  - unfold b1. rewrite bit_set_word by lia.
    destruct (Z.leb_spec (64 * pos) i), (Z.ltb_spec i (64 * pos + 64)); cbn [andb].
    + (* the word itself: its bits from [ofs] up *)
      rewrite Z.lor_spec, testbit_not64, Z.testbit_ones by lia.
      rewrite word_bit by (auto; lia).
      replace (64 * pos + (i - 64 * pos)) with i by lia.
      f_equal.
      destruct (Z.leb_spec 0 (i - 64 * pos)), (Z.ltb_spec (i - 64 * pos) ofs),
               (Z.ltb_spec (i - 64 * pos) 64),
               (Z.leb_spec (64 * pos + ofs) i),
               (Z.ltb_spec i (64 * pos + ofs + 64)); try lia; reflexivity.
    + lia.
    + destruct (Z.leb_spec (64 * pos + ofs) i), (Z.ltb_spec i (64 * pos + ofs + 64));
        try lia; cbn [andb]; rewrite orb_false_r; reflexivity.
    + lia.
  - lia.
Qed.

Lemma upper_clear (buf : list Z) (pos ofs : Z) :
  wf buf -> 0 <= pos -> 0 <= ofs < 64 ->
  ((Z.shiftr (get_word buf pos) ofs =? 0) = true
   <-> range_clear buf (64 * pos + ofs) (64 * pos + 64)).
Proof.
  intros Hw Hp Ho.
  pose proof (get_word_u64 buf pos Hw Hp) as Hu. unfold is_u64 in Hu.
  rewrite shr_eqb0 by lia. split.
  - intros H i Hi. replace i with (64 * pos + (i - 64 * pos)) by lia.
    rewrite <- word_bit by (auto; lia). apply H. lia.
  - intros H j Hj. destruct (Z_lt_le_dec j 64).
    + rewrite word_bit by (auto; lia). apply H. lia.
    + apply word_high_bit; auto.
Qed.

Lemma lower_clear (buf : list Z) (pos ofs : Z) :
  wf buf -> 0 <= pos -> 0 <= ofs < 64 ->
  ((Z.land (get_word buf pos) (u64 (u64 (Z.shiftl 1 ofs) - 1)) =? 0) = true
   <-> range_clear buf (64 * pos) (64 * pos + ofs)).
Proof.
  intros Hw Hp Ho.
  pose proof (get_word_u64 buf pos Hw Hp) as Hu. unfold is_u64 in Hu.
  rewrite low_mask64 by lia. rewrite land_ones_eqb0 by lia. split.
  - intros H i Hi. replace i with (64 * pos + (i - 64 * pos)) by lia.
    rewrite <- word_bit by (auto; lia). apply H. lia.
  - intros H j Hj. rewrite word_bit by (auto; lia). apply H. lia.
Qed.

Lemma word_first_clear (buf : list Z) (pos : Z) :
  wf buf -> len buf = 8 * bml -> 0 <= pos < bml ->
  let ofs := TrailingZeros64 (not64 (get_word buf pos)) in
  0 <= ofs <= 64
  /\ range_set buf (64 * pos) (64 * pos + ofs)
  /\ (ofs < 64 -> Alloc.first_clear buf (64 * pos) (64 * pos + ofs)).
Proof.
  intros Hw Hl Hp. cbv zeta.
  destruct (first_clear64 (get_word buf pos)) as [H1 [H2 H3]].
  set (ofs := TrailingZeros64 (not64 (get_word buf pos))) in *.
  assert (Hset : range_set buf (64 * pos) (64 * pos + ofs)).
  { intros i Hi. replace i with (64 * pos + (i - 64 * pos)) by lia.
    rewrite <- word_bit by (auto; lia). apply H2. lia. }
  split; [exact H1|]. split; [exact Hset|].
  intros Hlt. unfold Alloc.first_clear, size. rewrite Hl.
  split; [lia|]. split; [|exact Hset].
  rewrite <- word_bit by (auto; lia). apply H3. exact Hlt.
Qed.

Lemma inner_sound (fuel : nat) : forall (s : scan) (pos k : Z),
  wf (s_bits s) -> len (s_bits s) = 8 * bml -> 0 <= pos < bml ->
  0 <= k <= 64 -> range_set (s_bits s) (64 * pos) (64 * pos + k) ->
  64 < Z.of_nat fuel + k ->
  exists l s', B64.inner fuel gid numBits hlimit bigAlloc bml pos s = Some (l, s')
    /\ wf (s_bits s') /\ len (s_bits s') = 8 * bml
    /\ match l with
       | ByReturn => exists f, f / 64 = pos /\ run (64 * pos) s (Some f) s'
       | ByBreak => forall r s2, run (64 * (pos + 1)) s' r s2 -> run (64 * pos) s r s2
       end.
Proof.
  induction fuel as [|fuel IH]; intros s pos k Hw Hl Hp Hk Hset Hfuel; [lia|].
  cbn [B64.inner]. cbv zeta.
  destruct (word_first_clear (s_bits s) pos Hw Hl Hp) as [Ho [Hlow Hfc]].
  set (ofs := TrailingZeros64 (not64 (get_word (s_bits s) pos))) in *.
  destruct (Z.eqb_spec ofs 64) as [Hfull|Hnf].
  - (* the word is full *)
    exists ByBreak, s. split; [reflexivity|]. split; [exact Hw|]. split; [exact Hl|].
    intros r s2 Hr. apply (run_shift _ _ _ _ (64 * pos) (64 * (pos + 1))); auto; [lia|].
    rewrite Hfull in Hlow. replace (64 * (pos + 1)) with (64 * pos + 64) by lia.
    exact Hlow.
  - assert (Hlt : ofs < 64) by lia. specialize (Hfc Hlt).
    set (f := 64 * pos + ofs) in *.
    assert (Hok : k <= ofs).
    { destruct (Z_lt_le_dec ofs k) as [Hc|]; [|assumption].
      destruct Hfc as [_ [Hcl _]]. rewrite Hset in Hcl by (unfold f; lia). discriminate. }
    (* the single-bit path *)
    set (single := if enough numBits hlimit (B64.take_one gid pos ofs s)
                   then Some (ByReturn, B64.take_one gid pos ofs s)
                   else B64.inner fuel gid numBits hlimit bigAlloc bml pos
                          (B64.take_one gid pos ofs s)).
    assert (Hsingle : ~ Alloc.big_here numBits bigAlloc s f ->
      exists l s', single = Some (l, s')
        /\ wf (s_bits s') /\ len (s_bits s') = 8 * bml
        /\ match l with
           | ByReturn => exists f, f / 64 = pos /\ run (64 * pos) s (Some f) s'
           | ByBreak => forall r s2, run (64 * (pos + 1)) s' r s2 -> run (64 * pos) s r s2
           end).
    { intros Hnb.
      pose proof (take_one_allocated s pos ofs Hw Hl Hp ltac:(lia)) as Ha. fold f in Ha.
      assert (Hpk : Alloc.picks numBits bigAlloc s (64 * pos) f false).
      { split; [exact Hfc|]. split; [discriminate|]. intros Hb. contradiction. }
      set (s1 := B64.take_one gid pos ofs s) in *.
      assert (Hw1 : wf (s_bits s1)) by apply Ha.
      assert (Hl1 : len (s_bits s1) = 8 * bml).
      { destruct Ha as [[Hlen _] _]. unfold len in *. rewrite Hlen. exact Hl. }
      unfold single. destruct (enough numBits hlimit s1) eqn:He.
      - exists ByReturn, s1. split; [reflexivity|]. split; [exact Hw1|]. split; [exact Hl1|].
        exists f. split; [unfold f; lia|]. eapply run_return; eauto.
      - destruct (IH s1 pos (ofs + 1) Hw1 Hl1 Hp ltac:(lia)) as [l [s' [E [W' [L' P]]]]].
        + intros i Hi. destruct Ha as [[_ [_ Hb]] _].
          rewrite Hb by (unfold size; lia).
          destruct (Z.eq_dec i f) as [->|Hne].
          * destruct (Z.leb_spec f f), (Z.ltb_spec f (f + 1)); try lia;
              try apply orb_true_r.
          * rewrite Hlow by (unfold f in Hne; lia). reflexivity.
        + lia.
        + exists l, s'. split; [exact E|]. split; [exact W'|]. split; [exact L'|].
          destruct l.
          * destruct P as [f2 [Hf2 Hr2]]. exists f2. split; [exact Hf2|].
            eapply run_continue; eauto.
          * intros r s2 Hr. eapply run_continue; eauto. }
    fold single.
    destruct bigAlloc eqn:Ebig; cbn [andb];
      [|apply Hsingle; intros [Hc _]; discriminate].
    destruct (Z.geb_spec (numBits - s_cnt s) 64) as [Hwant|Hno]; cbn [andb];
      [|apply Hsingle; intros [_ [Hc _]]; lia].
    destruct (Z.shiftr (get_word (s_bits s) pos) ofs =? 0) eqn:Eup; cbn [andb].
    2:{ apply Hsingle. intros [_ [_ [_ Hc]]].
        assert (Hup : range_clear (s_bits s) (64 * pos + ofs) (64 * pos + 64)).
        { intros i Hi. apply Hc. unfold f. lia. }
        apply (upper_clear (s_bits s) pos ofs Hw) in Hup; try lia; try congruence. }
    destruct (Z.ltb_spec pos (bml - 1)) as [Hnext|Hlast].
    2:{ apply Hsingle. intros [_ [_ [Hc _]]]. unfold size in Hc. unfold f in Hc. lia. }
    destruct (Z.land (get_word (s_bits s) (pos + 1)) (u64 (u64 (Z.shiftl 1 ofs) - 1)) =? 0)
      eqn:Elow.
    2:{ apply Hsingle. intros [_ [_ [_ Hc]]].
        assert (Hlo : range_clear (s_bits s) (64 * (pos + 1)) (64 * (pos + 1) + ofs)).
        { intros i Hi. apply Hc. unfold f. lia. }
        apply (lower_clear (s_bits s) (pos + 1) ofs Hw) in Hlo; try lia; try congruence. }
    (* the big path *)
    apply (upper_clear (s_bits s) pos ofs Hw) in Eup; try lia.
    apply (lower_clear (s_bits s) (pos + 1) ofs Hw) in Elow; try lia.
    assert (Hbig : Alloc.big_here numBits true s f).
    { split; [reflexivity|]. split; [lia|]. split; [unfold size, f; lia|].
      intros i Hi. unfold f in Hi.
      destruct (Z_lt_le_dec i (64 * pos + 64)); [apply Eup|apply Elow]; lia. }
    pose proof (take_big_allocated s pos ofs Hw Hl ltac:(lia) ltac:(lia) ltac:(lia)) as Ha.
    fold f in Ha.
    assert (Hpk : Alloc.picks numBits true s (64 * pos) f true).
    { split; [exact Hfc|]. split; [intros _; exact Hbig|reflexivity]. }
    set (s1 := B64.take_big gid pos ofs _ s) in *.
    assert (Hw1 : wf (s_bits s1)) by apply Ha.
    assert (Hl1 : len (s_bits s1) = 8 * bml).
    { destruct Ha as [[Hlen _] _]. unfold len in *. rewrite Hlen. exact Hl. }
    destruct (enough numBits hlimit s1) eqn:He.
    + exists ByReturn, s1. split; [reflexivity|]. split; [exact Hw1|]. split; [exact Hl1|].
      exists f. split; [unfold f; lia|]. eapply run_return; eauto.
    + exists ByBreak, s1. split; [reflexivity|]. split; [exact Hw1|]. split; [exact Hl1|].
      intros r s2 Hr. eapply run_continue; eauto.
      apply (run_shift _ _ _ _ (64 * pos) (64 * (pos + 1))); auto; [lia|].
      intros i Hi. destruct Ha as [[_ [_ Hb]] _].
      rewrite Hb by (unfold size; lia).
      destruct (Z_lt_le_dec i f).
      * rewrite Hlow by (unfold f in *; lia). reflexivity.
      * destruct (Z.leb_spec f i), (Z.ltb_spec i (f + 64)); try (unfold f in *; lia);
          try apply orb_true_r.
Qed.

Lemma outer_sound (n : nat) : forall (s : scan) (pos lp : Z),
  wf (s_bits s) -> len (s_bits s) = 8 * bml -> 0 <= pos -> pos + Z.of_nat n = bml ->
  exists l lp' s',
    B64.outer n gid numBits hlimit bigAlloc bml pos lp s = Some (l, lp', s')
    /\ match l with
       | ByReturn => exists f, lp' = f / 64 /\ run (64 * pos) s (Some f) s'
       | ByBreak => run (64 * pos) s None s'
                    /\ lp' = (if Nat.eqb n 0 then lp else bml - 1)
       end.
Proof.
  induction n as [|n IH]; intros s pos lp Hw Hl Hp Hn; cbn [B64.outer].
  - exists ByBreak, lp, s. split; [reflexivity|]. split; [|reflexivity].
    apply run_end. intros i Hi. unfold size in Hi. lia.
  - destruct (inner_sound 65 s pos 0 Hw Hl ltac:(lia) ltac:(lia)) as [l [s1 [E [W1 [L1 P]]]]].
    + intros i Hi. lia.
    + lia.
    + rewrite E. destruct l.
      * destruct P as [f [Hf Hr]]. exists ByReturn, pos, s1.
        split; [reflexivity|]. exists f. split; [lia|exact Hr].
      * destruct (IH s1 (pos + 1) pos W1 L1 ltac:(lia) ltac:(lia)) as [l [lp' [s' [E' P']]]].
        exists l, lp', s'. split; [exact E'|].
        destruct l.
        -- destruct P' as [f [Hf Hr]]. exists f. split; [exact Hf|]. apply P. exact Hr.
        -- destruct P' as [Hr Hlp]. split; [apply P; exact Hr|].
           cbn [Nat.eqb]. destruct (Nat.eqb_spec n 0); lia.
Qed.

End Word.

Lemma words_of_size (buf : list Z) :
  len buf mod 8 = 0 -> size buf / 64 = B64.nwords buf /\ len buf = 8 * B64.nwords buf.
Proof. unfold size, B64.nwords. intros H. lia. Qed.

(** A call of [Bitmap64.AllocBits] returns, and what it returns is a call in
    units of 64 bits. *)
Lemma AllocBits64_call (b : B64.t) (numBits hlimit : Z) (bigAlloc : bool) :
  wf (B64.buffer b) -> len (B64.buffer b) mod 8 = 0 ->
  pos_ok 64 (B64.buffer b) (B64.lastPos b) ->
  exists addrs n b',
    B64.AllocBits b numBits hlimit bigAlloc = Some (addrs, n, b')
    /\ B64.GroupId b' = B64.GroupId b
    /\ call 64 (B64.GroupId b) (B64.buffer b) (B64.freeBits b) (B64.lastPos b)
            numBits hlimit bigAlloc
            addrs n (B64.buffer b') (B64.freeBits b') (B64.lastPos b').
Proof.
  intros Hw Hm Hpos.
  destruct (words_of_size _ Hm) as [Hsz Hlen].
  set (bml := B64.nwords (B64.buffer b)) in *.
  assert (Hbml : 0 <= bml) by (pose proof (len_nonneg (B64.buffer b)); lia).
  assert (Hp : 0 <= B64.lastPos b /\ B64.lastPos b
               + Z.of_nat (Z.to_nat (bml - B64.lastPos b)) = bml).
  { destruct Hpos as [Hz|Hin]; [lia|]. rewrite Hsz in Hin. lia. }
  unfold B64.AllocBits. cbn [B64.AllocBits_depth]. fold bml.
  destruct (outer_sound (B64.GroupId b) numBits hlimit bigAlloc bml
              (Z.to_nat (bml - B64.lastPos b))
              (mkScan (B64.buffer b) (B64.freeBits b) [] 0)
              (B64.lastPos b) (B64.lastPos b) Hw Hlen (proj1 Hp) (proj2 Hp))
    as [l [lp [s1 [E P]]]].
  rewrite E. destruct l.
  - destruct P as [f [Hf Hr]]. eexists _, _, _. split; [reflexivity|].
    split; [reflexivity|]. cbn [B64.buffer B64.freeBits B64.lastPos]. subst lp.
    apply call_returned. exact Hr.
  - destruct P as [Hr Hlp].
    assert (Hlast : lp = last_unit 64 (B64.buffer b)).
    { subst lp. unfold last_unit. rewrite Hsz.
      destruct (Nat.eqb_spec (Z.to_nat (bml - B64.lastPos b)) 0),
               (Z.eqb_spec bml 0); try lia.
      destruct Hpos as [Hz|Hin]; [lia|]. rewrite Hsz in Hin. lia. }
    assert (Hnn : 0 <= 64 * B64.lastPos b) by lia.
    destruct (RunFacts.run_kept _ _ _ _ _
                (mkScan (B64.buffer b) (B64.freeBits b) [] 0) _ _ Hw Hnn Hr) as [K _].
    destruct (Z.eqb_spec (B64.lastPos b) 0) as [Hz|Hnz]; cbn [negb andb].
    + eexists _, _, _. split; [reflexivity|]. split; [reflexivity|].
      cbn [B64.buffer B64.freeBits B64.lastPos]. rewrite Hlast.
      apply call_exhausted; [exact Hr|]. intros [Hc _]. contradiction.
    + destruct (Z.gtb_spec (s_free s1) 0) as [Hfree|Hnone].
      * (* the second scan, from bit 0 *)
        cbn [B64.buffer B64.freeBits B64.lastPos B64.GroupId].
        assert (Hw1 : wf (s_bits s1)) by apply K.
        assert (Hl1 : len (s_bits s1) = 8 * bml).
        { unfold len in *. rewrite (k_len _ _ _ K). exact Hlen. }
        assert (Hn1 : B64.nwords (s_bits s1) = bml).
        { unfold B64.nwords. rewrite Hl1. lia. }
        rewrite Hn1.
        destruct (outer_sound (B64.GroupId b) (numBits - s_cnt s1) hlimit bigAlloc bml
                    (Z.to_nat (bml - 0))
                    (mkScan (s_bits s1) (s_free s1) [] 0) 0 0
                    Hw1 Hl1 ltac:(lia) ltac:(lia))
          as [l2 [lp2 [s2 [E2 P2]]]].
        rewrite E2. destruct l2.
        -- destruct P2 as [f [Hf Hr2]]. eexists _, _, _. split; [reflexivity|].
           split; [reflexivity|]. cbn [B64.buffer B64.freeBits B64.lastPos]. subst lp2.
           change (64 * 0) with 0 in Hr2.
           apply (call_wrapped 64 _ _ _ _ _ _ _ s1 (Some f) s2); auto; lia.
        -- destruct P2 as [Hr2 Hlp2]. change (0 =? 0) with true. cbn [negb andb].
           eexists _, _, _. split; [reflexivity|].
           split; [reflexivity|]. cbn [B64.buffer B64.freeBits B64.lastPos].
           assert (Hlast2 : lp2 = last_unit 64 (B64.buffer b)).
           { subst lp2. unfold last_unit. rewrite Hsz. fold bml.
             destruct (Nat.eqb_spec (Z.to_nat (bml - 0)) 0), (Z.eqb_spec bml 0); try lia;
               try (destruct Hpos as [Hc|Hin]; [contradiction|]; rewrite Hsz in Hin; lia). }
           rewrite Hlast2. change (64 * 0) with 0 in Hr2.
           apply (call_wrapped 64 _ _ _ _ _ _ _ s1 None s2); auto; lia.
      * eexists _, _, _. split; [reflexivity|]. split; [reflexivity|].
        cbn [B64.buffer B64.freeBits B64.lastPos]. rewrite Hlast.
        apply call_exhausted; [exact Hr|]. intros [_ Hc]. lia.
Qed.

End B64Facts.

(* ------------------------------------------------------------------ *)
(** ** [batchClearBits] *)

Module ClearFacts.
Import Bitmap Bits BitFacts CountFacts AddrSpec ClearSpec.

Lemma idx_of_range (p : Z) : 0 <= EntAddr.idx_of p < 2 ^ 20.
Proof.
  unfold EntAddr.idx_of, EntAddr.GetAddr. cbn [fst].
  change 0x000FFFFF with (Z.ones 20). rewrite Z.land_ones by lia. lia.
Qed.

Lemma GetAddr_parts (e : Z) :
  EntAddr.GetAddr e = (EntAddr.idx_of e, EntAddr.group_of e, EntAddr.big_of e).
Proof.
  unfold EntAddr.idx_of, EntAddr.group_of, EntAddr.big_of.
  destruct (EntAddr.GetAddr e) as [[i g] b]. reflexivity.
Qed.

Lemma land_u8 (b x : Z) : is_u8 b -> is_u8 (Z.land b x).
Proof.
  unfold is_u8. intros Hb.
  assert (H0 : 0 <= Z.land b x) by (apply Z.land_nonneg; left; lia).
  split; [exact H0|]. apply bounded_of_bits; [lia|exact H0|].
  intros i Hi. rewrite Z.land_spec, (testbit_above 8 b i) by lia. reflexivity.
Qed.

(** The count [batchClearBits] returns depends on the addresses alone. *)
Lemma batchClearBits_from_count (gid : Z) (ptrs : list Z) :
  forall buf c buf' c',
    batchClearBits_from gid buf ptrs c = Done (buf', c') ->
    c' = c + total_bits ptrs.
Proof.
  induction ptrs as [|p rest IH]; intros buf c buf' c' H; cbn [batchClearBits_from] in H.
  - inversion H. cbn. lia.
  - rewrite GetAddr_parts in H. cbn [total_bits]. unfold nbits.
    destruct (negb (EntAddr.group_of p =? gid)); [discriminate|].
    destruct (EntAddr.big_of p >? 0).
    + destruct (clearBits buf _ _) as [b1|]; [|discriminate].
      apply IH in H. lia.
    + destruct (EntAddr.idx_of p / 8 <? len buf); [|discriminate].
      apply IH in H. lia.
Qed.

Lemma batchClearBits_count (gid : Z) (buf : list Z) (ptrs : list Z) (buf' : list Z) (c : Z) :
  batchClearBits gid buf ptrs = Done (buf', c) -> c = total_bits ptrs.
Proof.
  unfold batchClearBits. intros H. apply batchClearBits_from_count in H. lia.
Qed.

(** The buffer [batchClearBits] leaves does not depend on the running
    count. *)
Lemma batchClearBits_from_split (gid : Z) (ptrs : list Z) :
  forall buf c,
    batchClearBits_from gid buf ptrs c =
    match batchClearBits_from gid buf ptrs 0 with
    | Done (buf', c') => Done (buf', c + c')
    | Panic => Panic
    end.
Proof.
  induction ptrs as [|p rest IH]; intros buf c; cbn [batchClearBits_from].
  - f_equal. f_equal. lia.
  - rewrite GetAddr_parts.
    destruct (negb (EntAddr.group_of p =? gid)); [reflexivity|].
    destruct (EntAddr.big_of p >? 0).
    + destruct (clearBits buf _ _) as [b1|]; [|reflexivity].
      rewrite (IH b1 (c + 64)), (IH b1 (0 + 64)).
      destruct (batchClearBits_from gid b1 rest 0) as [[b2 c2]|]; [|reflexivity].
      f_equal. f_equal. lia.
    + destruct (EntAddr.idx_of p / 8 <? len buf); [|reflexivity].
      rewrite (IH _ (c + 1)), (IH _ (0 + 1)).
      destruct (batchClearBits_from gid _ rest 0) as [[b2 c2]|]; [|reflexivity].
      f_equal. f_equal. lia.
Qed.

(** Clearing a list is clearing its head and then its tail. *)
Lemma batchClearBits_cons (gid : Z) (buf : list Z) (p : Z) (rest : list Z)
  (buf' : list Z) (c : Z) :
  batchClearBits gid buf (p :: rest) = Done (buf', c) ->
  exists b1 c1 c2,
    batchClearBits gid buf [p] = Done (b1, c1)
    /\ batchClearBits gid b1 rest = Done (buf', c2).
Proof.
  unfold batchClearBits. cbn [batchClearBits_from]. rewrite GetAddr_parts.
  destruct (negb (EntAddr.group_of p =? gid)); [discriminate|].
  destruct (EntAddr.big_of p >? 0).
  - destruct (clearBits buf _ _) as [b1|]; [|discriminate].
    intros H. rewrite batchClearBits_from_split in H.
    destruct (batchClearBits_from gid b1 rest 0) as [[b2 c2]|] eqn:E; [|discriminate].
    inversion H; subst. exists b1, (0 + 64), c2. split; [reflexivity|exact E].
  - destruct (EntAddr.idx_of p / 8 <? len buf); [|discriminate].
    intros H. rewrite batchClearBits_from_split in H.
    match type of H with
    | context [batchClearBits_from gid ?b rest 0] =>
        destruct (batchClearBits_from gid b rest 0) as [[b2 c2]|] eqn:E; [|discriminate];
        inversion H; subst; exists b, (0 + 1), c2; split; [reflexivity|exact E]
    end.
Qed.

Lemma zero_bytes_facts (n : nat) : forall (buf : list Z) (i : Z),
  wf buf -> 0 <= i -> i + Z.of_nat n <= len buf ->
  Datatypes.length (zero_bytes buf i n) = Datatypes.length buf
  /\ wf (zero_bytes buf i n)
  /\ forall j, 0 <= j ->
       get (zero_bytes buf i n) j
       = if (i <=? j) && (j <? i + Z.of_nat n) then 0 else get buf j.
Proof.
  induction n as [|n IH]; intros buf i Hw Hi Hn; cbn [zero_bytes].
  - split; [reflexivity|]. split; [exact Hw|]. intros j Hj.
    destruct (Z.leb_spec i j), (Z.ltb_spec j (i + Z.of_nat 0)); try lia; reflexivity.
  - assert (Hw' : wf (set buf i 0)) by (apply set_wf; [exact Hw|unfold is_u8; lia]).
    destruct (IH (set buf i 0) (i + 1) Hw' ltac:(lia)) as [L [W G]].
    { rewrite len_set. lia. }
    split; [rewrite L; apply set_length|]. split; [exact W|].
    intros j Hj. rewrite G by lia. rewrite get_set by lia.
    destruct (Z.leb_spec (i + 1) j), (Z.ltb_spec j (i + 1 + Z.of_nat n)),
             (Z.leb_spec i j), (Z.ltb_spec j (i + Z.of_nat (S n))),
             (Z.eqb_spec j i); try lia; reflexivity.
Qed.

Lemma testbit_andnot8 (b m j : Z) :
  0 <= j < 8 ->
  Z.testbit (andnot8 b m) j = Z.testbit b j && negb (Z.testbit m j).
Proof.
  intros Hj. unfold andnot8. rewrite Z.land_spec, testbit_not8.
  destruct (Z.leb_spec 0 j), (Z.ltb_spec j 8); try lia.
  cbn [andb]. rewrite xorb_true_r. reflexivity.
Qed.

Lemma high_mask8 (k : Z) :
  0 <= k < 8 -> u8 (Z.shiftl 0xFF k) = Z.land (Z.shiftl 0xFF k) 0xFF.
Proof.
  intros Hk. unfold u8. change 0xFF with (Z.ones 8) at 3.
  rewrite Z.land_ones by lia. reflexivity.
Qed.

(** Clearing one address clears the bits it stands for and no other. *)
Lemma clear_one_effect (gid : Z) (buf : list Z) (p : Z) (buf' : list Z) (c : Z) :
  wf buf ->
  batchClearBits gid buf [p] = Done (buf', c) ->
  clears buf buf' (EntAddr.idx_of p) (EntAddr.idx_of p + nbits p)
  /\ EntAddr.idx_of p + nbits p <= size buf.
Proof.
  intros Hw. unfold batchClearBits. cbn [batchClearBits_from].
  rewrite GetAddr_parts. unfold nbits.
  pose proof (idx_of_range p) as Hidx.
  set (idx := EntAddr.idx_of p) in *.
  destruct (negb (EntAddr.group_of p =? gid)); [discriminate|].
  destruct (EntAddr.big_of p >? 0).
  - (* a big address *)
    unfold clearBits, u32.
    replace ((idx + 64) mod 2 ^ 32) with (idx + 64) by lia.
    replace ((idx + 64) / 8) with (idx / 8 + 8) by lia.
    replace ((idx + 64) mod 8) with (idx mod 8) by lia.
    destruct (Z.eqb_spec (idx / 8) (idx / 8 + 8)); [lia|].
    destruct (Z.ltb_spec (idx / 8) (len buf)) as [Hs|]; [|discriminate].
    rewrite len_set.
    destruct (Z.ltb_spec (idx / 8 + 8) (len buf)) as [He|]; [|discriminate].
    intros H. inversion H; subst buf' c. clear H.
    replace (Z.to_nat (idx / 8 + 8 - (idx / 8 + 1))) with 7%nat by lia.
    set (sb := idx / 8) in *. set (k := idx mod 8) in *.
    assert (Hk : 0 <= k < 8) by (unfold k; lia).
    set (b1 := set buf sb (andnot8 (get buf sb) (u8 (Z.shiftl 0xFF k)))).
    assert (W1 : wf b1).
    { apply set_wf; [exact Hw|]. apply land_u8, get_u8, Hw. }
    assert (L1 : len b1 = len buf) by apply len_set.
    set (b2 := set b1 (sb + 8) (andnot8 (get b1 (sb + 8)) (u8 (u8 (Z.shiftl 1 k) - 1)))).
    assert (W2 : wf b2).
    { apply set_wf; [exact W1|]. apply land_u8, get_u8, W1. }
    assert (L2 : len b2 = len buf) by (unfold b2; rewrite len_set; exact L1).
    destruct (zero_bytes_facts 7 b2 (sb + 1) W2 ltac:(lia) ltac:(lia)) as [L3 [W3 G3]].
    split; [|unfold size; lia].
    split.
    { rewrite L3. unfold b2, b1. rewrite !set_length. reflexivity. }
    split; [exact W3|].
    intros i Hi. unfold size in Hi. unfold bit.
    destruct (Z.leb_spec 0 i); [|lia]. cbn [andb].
    rewrite G3 by lia. unfold b2. rewrite get_set by lia.
    unfold b1. rewrite !get_set by lia.
    subst sb k.
    destruct (Z.eq_dec (i / 8) (idx / 8)) as [Es|Ns];
      [|destruct (Z.eq_dec (i / 8) (idx / 8 + 8)) as [E8|N8]].
    + (* the first byte: its bits from [idx mod 8] up *)
      destruct (Z.leb_spec (idx / 8 + 1) (i / 8)); [lia|]. cbn [andb].
      destruct (Z.eqb_spec (i / 8) (idx / 8 + 8)); [lia|].
      destruct (Z.eqb_spec (i / 8) (idx / 8)); [|lia].
      rewrite testbit_andnot8 by lia. rewrite high_mask8 by lia.
      change 0xFF with (Z.ones 8).
      rewrite Z.land_spec, Z.shiftl_spec, !Z.testbit_ones by lia.
      rewrite <- Es. f_equal. bool_cases.
    + (* the ninth byte: its bits below [idx mod 8] *)
      destruct (Z.ltb_spec (i / 8) (idx / 8 + 1 + Z.of_nat 7)); [lia|].
      rewrite andb_false_r.
      destruct (Z.eqb_spec (i / 8) (idx / 8 + 8)); [|lia].
      rewrite testbit_andnot8 by lia. rewrite low_mask8 by lia.
      rewrite Z.testbit_ones by lia.
      destruct (Z.eqb_spec (idx / 8 + 8) (idx / 8)); [lia|].
      rewrite <- E8. f_equal. bool_cases.
    + destruct (Z.eqb_spec (i / 8) (idx / 8 + 8)); [lia|].
      destruct (Z.eqb_spec (i / 8) (idx / 8)); [lia|].
      destruct (Z.leb_spec (idx / 8 + 1) (i / 8)),
               (Z.ltb_spec (i / 8) (idx / 8 + 1 + Z.of_nat 7)); cbn [andb].
      * rewrite Z.testbit_0_l. symmetry. apply andb_false_iff. right. bool_cases.
      * transitivity (Z.testbit (get buf (i / 8)) (i mod 8) && true);
          [rewrite andb_true_r; reflexivity|]. f_equal. bool_cases.
      * transitivity (Z.testbit (get buf (i / 8)) (i mod 8) && true);
          [rewrite andb_true_r; reflexivity|]. f_equal. bool_cases.
      * lia.
  - (* a single address *)
    destruct (Z.ltb_spec (idx / 8) (len buf)) as [Hs|]; [|discriminate].
    intros H. inversion H; subst buf' c. clear H.
    set (sb := idx / 8) in *. set (k := idx mod 8) in *.
    assert (Hk : 0 <= k < 8) by (unfold k; lia).
    split; [|unfold size; subst sb; lia].
    split; [apply set_length|].
    split; [apply set_wf; [exact Hw|apply land_u8, get_u8, Hw]|].
    intros i Hi. unfold size in Hi. rewrite bit_set by lia.
    subst sb k.
    destruct (Z.eqb_spec (i / 8) (idx / 8)) as [Es|Ns].
    + rewrite testbit_andnot8 by lia. rewrite one_shl8, testbit_pow2 by lia.
      unfold bit. destruct (Z.leb_spec 0 i); [|lia]. cbn [andb].
      rewrite Es. f_equal. bool_cases.
    + transitivity (bit buf i && true); [rewrite andb_true_r; reflexivity|].
      f_equal. bool_cases.
Qed.

End ClearFacts.

(* ------------------------------------------------------------------ *)
(** ** [Init] counts the clear bits *)

Module InitFacts.
Import Bitmap Bits BitFacts WordFacts CountFacts.

Lemma set_clear_from (buf : list Z) (i : Z) (n : nat) :
  set_from buf i n + clear_from buf i n = Z.of_nat n.
Proof.
  revert i. induction n as [|n IH]; intros i; cbn [set_from clear_from]; [reflexivity|].
  specialize (IH (i + 1)). destruct (bit buf i); lia.
Qed.

(** Set bits and clear bits add up to the size of the bitmap. *)
Lemma popcount_clear_count (buf : list Z) :
  popcount buf + clear_count buf = size buf.
Proof.
  unfold popcount, clear_count. rewrite set_clear_from.
  unfold size. pose proof (len_nonneg buf). lia.
Qed.

Lemma ones_from_clear (buf : list Z) (x base : Z) (w : nat) : forall i,
  (forall j, i <= j < i + Z.of_nat w -> Z.testbit x j = bit buf (base + j)) ->
  ones_from w i x = Z.of_nat w - clear_from buf (base + i) w.
Proof.
  induction w as [|w IH]; intros i H; cbn [ones_from clear_from]; [reflexivity|].
  rewrite (IH (i + 1)) by (intros j Hj; apply H; lia).
  rewrite (H i) by lia.
  replace (base + (i + 1)) with (base + i + 1) by lia.
  destruct (bit buf (base + i)); cbn [Z.b2z]; lia.
Qed.

Lemma OnesCount64_word (buf : list Z) (p : Z) :
  wf buf -> 0 <= p ->
  OnesCount64 (get_word buf p) = 64 - clear_from buf (64 * p) 64.
Proof.
  intros Hw Hp. unfold OnesCount64.
  rewrite (ones_from_clear buf _ (64 * p) 64 0).
  - replace (64 * p + 0) with (64 * p) by lia. reflexivity.
  - intros j Hj. rewrite testbit_get_word by (auto; lia).
    destruct (Z.ltb_spec j 64); [reflexivity|lia].
Qed.

Lemma OnesCount8_byte (buf : list Z) (k : Z) :
  0 <= k -> OnesCount8 (get buf k) = 8 - clear_from buf (8 * k) 8.
Proof.
  intros Hk. unfold OnesCount8.
  rewrite (ones_from_clear buf _ (8 * k) 8 0).
  - replace (8 * k + 0) with (8 * k) by lia. reflexivity.
  - intros j Hj. unfold bit.
    destruct (Z.leb_spec 0 (8 * k + j)); [|lia]. cbn [andb].
    replace ((8 * k + j) / 8) with k by lia.
    replace ((8 * k + j) mod 8) with j by lia. reflexivity.
Qed.

(** Summing, unit by unit, [w] minus the clear bits of each unit. *)
Lemma fold_units (buf : list Z) (w : nat) (g : nat -> Z) (cnt : Z -> Z) (n : nat) :
  forall a c0,
    (forall p, (a <= p < a + n)%nat ->
       cnt (g p) = Z.of_nat w - clear_from buf (Z.of_nat w * Z.of_nat p) w) ->
    fold_left (fun count v => count + cnt v) (map g (seq a n)) c0
    = c0 + (Z.of_nat w * Z.of_nat n
            - clear_from buf (Z.of_nat w * Z.of_nat a) (n * w)).
Proof.
  induction n as [|n IH]; intros a c0 H; cbn [seq map fold_left].
  - cbn [clear_from Nat.mul]. lia.
  - rewrite IH by (intros p Hp; apply H; lia).
    rewrite H by lia.
    replace (S n * w)%nat with (w + n * w)%nat by lia.
    rewrite clear_from_app.
    replace (Z.of_nat w * Z.of_nat a + Z.of_nat w) with (Z.of_nat w * Z.of_nat (S a)) by lia.
    lia.
Qed.

Lemma CountFreeBits64_clear_count (data : list Z) :
  wf data -> len data mod 8 = 0 ->
  B64.CountFreeBitsOf data = clear_count data.
Proof.
  intros Hw Hm. unfold B64.CountFreeBitsOf, B64.words.
  pose proof (len_nonneg data) as Hl.
  rewrite (fold_units data 64 _ OnesCount64).
  - unfold clear_count, size, B64.nwords.
    change (Z.of_nat 64) with 64. change (Z.of_nat 0) with 0. rewrite Z.mul_0_r.
    replace (Z.to_nat (len data / 8) * 64)%nat with (Z.to_nat (8 * len data)) by lia.
    lia.
  - intros p Hp. change (Z.of_nat 64) with 64. apply OnesCount64_word; [exact Hw|lia].
Qed.

Lemma list_as_map (l : list Z) :
  l = map (fun k => get l (Z.of_nat k)) (seq 0 (Datatypes.length l)).
Proof.
  apply (nth_ext _ _ 0 0).
  - rewrite length_map, length_seq. reflexivity.
  - intros n Hn. symmetry.
    rewrite (nth_indep (map (fun k => get l (Z.of_nat k)) (seq 0 (Datatypes.length l)))
               0 (get l (Z.of_nat 0)))
      by (rewrite length_map, length_seq; exact Hn).
    rewrite (map_nth (fun k => get l (Z.of_nat k))).
    rewrite seq_nth by exact Hn. unfold get. rewrite Nat2Z.id. reflexivity.
Qed.

Lemma CountFreeBits8_clear_count (data : list Z) :
  Base.CountFreeBitsOf data = clear_count data.
Proof.
  unfold Base.CountFreeBitsOf.
  pose proof (len_nonneg data) as Hl.
  rewrite (list_as_map data) at 2.
  rewrite (fold_units data 8 _ OnesCount8).
  - unfold clear_count, size, len in *.
    change (Z.of_nat 8) with 8. change (Z.of_nat 0) with 0. rewrite Z.mul_0_r.
    replace (Datatypes.length data * 8)%nat
      with (Z.to_nat (8 * Z.of_nat (Datatypes.length data))) by lia.
    lia.
  - intros p Hp. change (Z.of_nat 8) with 8. apply OnesCount8_byte. lia.
Qed.

End InitFacts.

(* ------------------------------------------------------------------ *)
(** ** Calls of [AllocBits] and [ClearBits] *)

Module CallFacts.
Import Bitmap Bits BitFacts CountFacts Alloc AllocSpec AllocCall RunFacts
       AddrSpec ClearSpec ClearFacts InitFacts.

(** A call keeps what its scans keep. *)
Lemma call_kept (w gid : Z) (buf : list Z) (free lastPos numBits hlimit : Z)
  (bigAlloc : bool) (addrs : list Z) (n : Z) (buf' : list Z) (free' lastPos' : Z) :
  wf buf -> 0 <= w * lastPos ->
  call w gid buf free lastPos numBits hlimit bigAlloc addrs n buf' free' lastPos' ->
  kept gid (mkScan buf free [] 0) (mkScan buf' free' addrs n).
Proof.
  intros Hw Hs Hc.
  destruct Hc as [f s1 Hr|s1 Hr Hno|s1 r2 s2 Hr Hnz Hfree Hr2].
  - destruct (run_kept _ _ _ _ _ (mkScan buf free [] 0) _ _ Hw Hs Hr) as [K _].
    destruct s1; exact K.
  - destruct (run_kept _ _ _ _ _ (mkScan buf free [] 0) _ _ Hw Hs Hr) as [K _].
    destruct s1; exact K.
  - destruct (run_kept _ _ _ _ _ (mkScan buf free [] 0) _ _ Hw Hs Hr) as [K1 _].
    assert (Hw1 : wf (s_bits s1)) by apply K1.
    destruct (run_kept _ _ _ _ _ (mkScan (s_bits s1) (s_free s1) [] 0) _ _
                Hw1 (Z.le_refl 0) Hr2) as [K2 _].
    destruct K1 as [W1 L1 M1 F1 C1 N1 [ev1 [A1 [B1 R1]]]].
    destruct K2 as [W2 L2 M2 F2 C2 N2 [ev2 [A2 [B2 R2]]]].
    cbn [s_bits s_free s_acc s_cnt] in *.
    constructor; cbn [s_bits s_free s_acc s_cnt].
    + exact W2.
    + rewrite L2. exact L1.
    + intros i Hi. apply M2, M1, Hi.
    + lia.
    + lia.
    + lia.
    + exists (ev1 ++ ev2). rewrite map_app, A1, A2. cbn [app].
      split; [reflexivity|]. split.
      * apply Forall_app. split.
        -- eapply Forall_impl; [|exact B1]. intros e He.
           eapply big_ok_widen; eauto.
        -- eapply Forall_impl; [|exact B2]. intros e He.
           eapply big_ok_later; eauto.
      * apply Forall_app. split; [exact R1|].
        eapply Forall_impl; [|exact R2]. intros e He.
        unfold size, len in *. rewrite L1 in He. exact He.
Qed.

(** Where a call leaves [lastPos]. *)
Lemma call_pos_ok (w gid : Z) (buf : list Z) (free lastPos numBits hlimit : Z)
  (bigAlloc : bool) (addrs : list Z) (n : Z) (buf' : list Z) (free' lastPos' : Z) :
  wf buf -> 0 < w -> 0 <= lastPos -> size buf mod w = 0 ->
  call w gid buf free lastPos numBits hlimit bigAlloc addrs n buf' free' lastPos' ->
  pos_ok w buf' lastPos'.
Proof.
  intros Hw Hw0 Hl Hm Hc.
  assert (Hs : 0 <= w * lastPos) by lia.
  pose proof (call_kept _ _ _ _ _ _ _ _ _ _ _ _ _ Hw Hs Hc) as K.
  assert (Hsz : size buf' = size buf).
  { pose proof (k_len _ _ _ K) as HL. cbn [s_bits] in HL.
    unfold size, len. rewrite HL. reflexivity. }
  assert (Hlast : pos_ok w buf' (last_unit w buf)).
  { unfold pos_ok, last_unit. rewrite Hsz.
    destruct (Z.eqb_spec (size buf / w) 0); [left; reflexivity|right].
    assert (0 <= size buf) by (unfold size; pose proof (len_nonneg buf); lia).
    assert (0 <= size buf / w) by (apply Z.div_pos; lia). lia. }
  assert (Hret : forall f, 0 <= f < size buf -> pos_ok w buf' (f / w)).
  { intros f Hf. right. rewrite Hsz. split; [apply Z.div_pos; lia|].
    apply Z.div_lt_upper_bound; [lia|].
    assert (size buf = w * (size buf / w)) by (apply Z.div_exact; lia). lia. }
  destruct Hc as [f s1 Hr|s1 Hr Hno|s1 r2 s2 Hr Hnz Hfree Hr2].
  - destruct (run_kept _ _ _ _ _ (mkScan buf free [] 0) _ _ Hw Hs Hr) as [K1 [Hf _]].
    apply Hret. rewrite Hsz in Hf. lia.
  - exact Hlast.
  - destruct r2 as [f|]; [|exact Hlast].
    destruct (run_kept _ _ _ _ _ (mkScan buf free [] 0) _ _ Hw Hs Hr) as [K1 _].
    assert (Hw1 : wf (s_bits s1)) by apply K1.
    destruct (run_kept _ _ _ _ _ (mkScan (s_bits s1) (s_free s1) [] 0) _ _
                Hw1 (Z.le_refl 0) Hr2) as [K2 [Hf _]].
    apply Hret. rewrite Hsz in Hf. lia.
Qed.

(** Clearing addresses whose bits are set raises the number of clear bits
    by the bits they stand for. *)
Lemma clear_set_bits (gid : Z) (ptrs : list Z) : forall buf buf' c,
  wf buf -> cleared_while_set gid buf ptrs ->
  batchClearBits gid buf ptrs = Done (buf', c) ->
  wf buf' /\ Datatypes.length buf' = Datatypes.length buf
  /\ clear_count buf' = clear_count buf + total_bits ptrs.
Proof.
  induction ptrs as [|p rest IH]; intros buf buf' c Hw Hpre H.
  - inversion H; subst. cbn [total_bits]. repeat split; auto. lia.
  - destruct (batchClearBits_cons _ _ _ _ _ _ H) as [b1 [c1 [c2 [H1 H2]]]].
    cbn [cleared_while_set] in Hpre. destruct Hpre as [Hset Hrest].
    destruct (clear_one_effect gid buf p b1 c1 Hw H1) as [Hcl Hin].
    pose proof (idx_of_range p) as Hidx.
    assert (Hn : 0 <= nbits p) by (unfold nbits; destruct (_ >? 0); lia).
    pose proof (clears_clear_count buf b1 _ _ (proj1 Hidx) Hn Hin Hcl Hset) as Hc1.
    assert (Hw1 : wf b1) by apply Hcl.
    destruct (IH b1 buf' c2 Hw1 (Hrest b1 c1 H1) H2) as [W [L C]].
    split; [exact W|]. split.
    + rewrite L. apply Hcl.
    + rewrite C, Hc1. cbn [total_bits]. lia.
Qed.

(** Clearing addresses whose bits are clear already leaves the number of
    clear bits as it is. *)
Lemma clear_clear_bits (gid : Z) (ptrs : list Z) : forall buf buf' c,
  wf buf -> (forall p, In p ptrs -> addr_clear buf p) ->
  batchClearBits gid buf ptrs = Done (buf', c) ->
  clear_count buf' = clear_count buf.
Proof.
  induction ptrs as [|p rest IH]; intros buf buf' c Hw Hpre H.
  - inversion H; subst. reflexivity.
  - destruct (batchClearBits_cons _ _ _ _ _ _ H) as [b1 [c1 [c2 [H1 H2]]]].
    destruct (clear_one_effect gid buf p b1 c1 Hw H1) as [Hcl Hin].
    pose proof (clears_clear_count_idle buf b1 _ _ Hcl (Hpre p (or_introl eq_refl))) as Hc1.
    assert (Hw1 : wf b1) by apply Hcl.
    rewrite (IH b1 buf' c2 Hw1); [exact Hc1| |exact H2].
    intros q Hq i Hi.
    pose proof (clears_size _ _ _ _ Hcl) as Hsz.
    destruct Hcl as [_ [_ Hb]].
    destruct (Z_lt_le_dec i (size buf)) as [Hlt|Hge].
    + pose proof (idx_of_range q). rewrite Hb by lia.
      rewrite (Hpre q (or_intror Hq) i Hi). reflexivity.
    + apply bit_outside. rewrite Hsz. exact Hge.
Qed.

End CallFacts.

(* ------------------------------------------------------------------ *)
(** ** [BitmapBase.AllocBits] is a scan *)

Module BaseFacts.
Import Bitmap Bits BitFacts CountFacts Alloc AllocSpec AllocCall RunFacts.

Lemma byte_bit (buf : list Z) (pos j : Z) :
  0 <= pos -> 0 <= j < 8 -> Z.testbit (get buf pos) j = bit buf (8 * pos + j).
Proof.
  intros Hp Hj. unfold bit.
  replace ((8 * pos + j) / 8) with pos by lia.
  replace ((8 * pos + j) mod 8) with j by lia.
  destruct (Z.leb_spec 0 (8 * pos + j)); [reflexivity|lia].
Qed.

Lemma byte_high_bit (buf : list Z) (pos j : Z) :
  wf buf -> 8 <= j -> Z.testbit (get buf pos) j = false.
Proof.
  intros Hw Hj. pose proof (get_u8 buf pos Hw) as Hu. unfold is_u8 in Hu.
  apply (testbit_above 8); lia.
Qed.

Lemma lor_u8 (a b : Z) : is_u8 a -> is_u8 b -> is_u8 (Z.lor a b).
Proof.
  unfold is_u8. intros Ha Hb.
  assert (H0 : 0 <= Z.lor a b) by (apply Z.lor_nonneg; lia).
  split; [exact H0|]. apply bounded_of_bits; [lia|exact H0|].
  intros i Hi. rewrite Z.lor_spec.
  rewrite (testbit_above 8 a i), (testbit_above 8 b i) by lia. reflexivity.
Qed.

(** Two changes one after the other, on ranges that abut. *)
Lemma sets_join (a b c : list Z) (lo mid hi : Z) :
  lo <= mid <= hi -> sets a b lo mid -> sets b c mid hi -> sets a c lo hi.
Proof.
  intros Hm [L1 [W1 B1]] [L2 [W2 B2]].
  split; [congruence|]. split; [exact W2|].
  intros i Hi. rewrite B2 by (unfold size, len in *; rewrite L1; exact Hi).
  rewrite B1 by exact Hi.
  destruct (bit a i); cbn [orb]; [reflexivity|].
  destruct (Z.leb_spec lo i), (Z.ltb_spec i mid), (Z.leb_spec mid i), (Z.ltb_spec i hi);
    cbn [andb orb]; try reflexivity; lia.
Qed.

Section Byte.

Variables (gid numBits hlimit : Z) (bigAlloc : bool).

Local Abbreviation run := (Alloc.run gid numBits hlimit bigAlloc).

Lemma take_one8_allocated (s : scan) (pos ofs : Z) :
  wf (s_bits s) -> 0 <= pos < len (s_bits s) -> 0 <= ofs < 8 ->
  Alloc.allocated gid s (Base.take_one gid pos ofs s) (8 * pos + ofs) false.
Proof.
  intros Hw Hp Ho. unfold Alloc.allocated, Base.take_one.
  cbn [s_bits s_free s_acc s_cnt].
  replace (pos * 8 + ofs) with (8 * pos + ofs) by lia.
  split; [|repeat split; lia].
  rewrite one_shl8 by lia.
  split; [apply set_length|]. split.
  - apply set_wf; [exact Hw|]. apply lor_u8; [apply get_u8, Hw|].
    unfold is_u8. pose proof (pow2_lt ofs 8 ltac:(lia)). lia.
  - intros i Hi. unfold size in Hi. rewrite bit_set by lia.
    destruct (Z.eqb_spec (i / 8) pos) as [E|E].
    + rewrite Z.lor_spec, testbit_pow2 by lia.
      rewrite byte_bit by lia. replace (8 * pos + i mod 8) with i by lia.
      f_equal.
      destruct (Z.eqb_spec (i mod 8) ofs), (Z.leb_spec (8 * pos + ofs) i),
               (Z.ltb_spec i (8 * pos + ofs + 1)); try lia; reflexivity.
    + destruct (Z.leb_spec (8 * pos + ofs) i), (Z.ltb_spec i (8 * pos + ofs + 1));
        try lia; cbn [andb]; rewrite orb_false_r; reflexivity.
Qed.

Lemma byte_first_clear (buf : list Z) (pos : Z) :
  wf buf -> 0 <= pos < len buf ->
  let ofs := TrailingZeros8 (not8 (get buf pos)) in
  0 <= ofs <= 8
  /\ range_set buf (8 * pos) (8 * pos + ofs)
  /\ (ofs < 8 -> Alloc.first_clear buf (8 * pos) (8 * pos + ofs)).
Proof.
  intros Hw Hp. cbv zeta.
  destruct (first_clear8 (get buf pos)) as [H1 [H2 H3]].
  set (ofs := TrailingZeros8 (not8 (get buf pos))) in *.
  assert (Hset : range_set buf (8 * pos) (8 * pos + ofs)).
  { intros i Hi. replace i with (8 * pos + (i - 8 * pos)) by lia.
    rewrite <- byte_bit by lia. apply H2. lia. }
  split; [exact H1|]. split; [exact Hset|].
  intros Hlt. unfold Alloc.first_clear, size.
  split; [lia|]. split; [|exact Hset].
  rewrite <- byte_bit by lia. apply H3. exact Hlt.
Qed.

(** *** [trySet64Bits] *)

Lemma zero_to_eight_list : Base.zero_to_eight = [0; 1; 2; 3; 4; 5; 6; 7; 8].
Proof. reflexivity. Qed.

Lemma in_zero_to_eight (k : Z) : In k Base.zero_to_eight <-> 0 <= k <= 8.
Proof.
  rewrite zero_to_eight_list. cbn [In]. lia.
Qed.

(** The test at byte [pos + k] passes when the bits of that byte that lie
    in the run of 64 bits from [8 * pos + ofs] are clear. *)
Lemma try_check_spec (buf : list Z) (pos ofs k : Z) :
  wf buf -> 0 <= pos -> 0 <= ofs < 8 -> 0 <= k <= 8 ->
  (Base.try_check buf pos ofs (Z.ones ofs) k = true
   <-> forall j, 0 <= j < 8 ->
         8 * pos + ofs <= 8 * (pos + k) + j < 8 * pos + ofs + 64 ->
         bit buf (8 * (pos + k) + j) = false).
Proof.
  intros Hw Hp Ho Hk. unfold Base.try_check.
  pose proof (get_u8 buf (pos + k) Hw) as Hu. unfold is_u8 in Hu.
  destruct (Z.eqb_spec k 0) as [->|H0].
  - rewrite shr_eqb0 by lia. split.
    + intros H j Hj Hr. rewrite <- byte_bit by lia. apply H. lia.
    + intros H j Hj. destruct (Z_lt_le_dec j 8).
      * rewrite byte_bit by lia. apply H; lia.
      * apply byte_high_bit; assumption.
  - destruct (Z.eqb_spec k 8) as [->|H8].
    + rewrite land_ones_eqb0 by lia. split.
      * intros H j Hj Hr. rewrite <- byte_bit by lia. apply H. lia.
      * intros H j Hj. rewrite byte_bit by lia. apply H; lia.
    + rewrite eqb0_bits by lia. split.
      * intros H j Hj Hr. rewrite <- byte_bit by lia. apply H. lia.
      * intros H j Hj. destruct (Z_lt_le_dec j 8).
        -- rewrite byte_bit by lia. apply H; lia.
        -- apply byte_high_bit; assumption.
Qed.

Lemma try_checks_spec (buf : list Z) (pos ofs : Z) :
  wf buf -> 0 <= pos -> 0 <= ofs < 8 ->
  (forallb (Base.try_check buf pos ofs (Z.ones ofs)) Base.zero_to_eight = true
   <-> range_clear buf (8 * pos + ofs) (8 * pos + ofs + 64)).
Proof.
  intros Hw Hp Ho. rewrite forallb_forall. split.
  - intros H i Hi.
    set (k := i / 8 - pos).
    assert (Hk : 0 <= k <= 8) by (unfold k; lia).
    pose proof (proj1 (try_check_spec buf pos ofs k Hw Hp Ho Hk)
                  (H k (proj2 (in_zero_to_eight k) Hk)) (i mod 8)) as Hb.
    replace (8 * (pos + k) + i mod 8) with i in Hb by (unfold k; lia).
    apply Hb; lia.
  - intros H k Hk. apply in_zero_to_eight in Hk.
    apply (try_check_spec buf pos ofs k Hw Hp Ho Hk).
    intros j Hj Hr. apply H. lia.
Qed.

(** One pass of the second loop sets the bits of byte [pos + k] that lie in
    the run. *)
Lemma try_set_sets (buf : list Z) (pos ofs k : Z) :
  wf buf -> 0 <= pos -> pos + 8 < len buf -> 0 <= ofs < 8 -> 0 <= k <= 8 ->
  sets buf (Base.try_set pos ofs (Z.ones ofs) buf k)
       (Z.max (8 * pos + ofs) (8 * (pos + k)))
       (Z.min (8 * pos + ofs + 64) (8 * (pos + k) + 8)).
Proof.
  intros Hw Hp Hl Ho Hk. unfold Base.try_set.
  pose proof (get_u8 buf (pos + k) Hw) as Hu.
  destruct (Z.eqb_spec k 0) as [->|H0]; [|destruct (Z.eqb_spec k 8) as [->|H8]].
  - rewrite low_mask8 by lia.
    split; [apply set_length|]. split.
    + apply set_wf; [exact Hw|]. apply lor_u8; [exact Hu|].
      unfold is_u8, not8. pose proof (ones_u 8 ofs ltac:(lia)).
      assert (0 <= Z.lxor (Z.ones ofs) 255 < 2 ^ 8); [|lia].
      assert (H0 : 0 <= Z.lxor (Z.ones ofs) 255) by (apply Z.lxor_nonneg; lia).
      split; [exact H0|]. apply bounded_of_bits; [lia|exact H0|].
      intros i Hi. rewrite Z.lxor_spec, Z.testbit_ones, testbit_255 by lia.
      destruct (Z.leb_spec 0 i), (Z.ltb_spec i ofs), (Z.ltb_spec i 8); try lia; reflexivity.
    + intros i Hi. unfold size in Hi. rewrite bit_set by lia.
      destruct (Z.eqb_spec (i / 8) (pos + 0)) as [E|E].
      * rewrite Z.lor_spec, testbit_not8, Z.testbit_ones by lia.
        rewrite byte_bit by lia. replace (8 * (pos + 0) + i mod 8) with i by lia.
        f_equal.
        destruct (Z.leb_spec 0 (i mod 8)), (Z.ltb_spec (i mod 8) ofs),
                 (Z.ltb_spec (i mod 8) 8),
                 (Z.leb_spec (Z.max (8 * pos + ofs) (8 * (pos + 0))) i),
                 (Z.ltb_spec i (Z.min (8 * pos + ofs + 64) (8 * (pos + 0) + 8)));
          try lia; reflexivity.
      * destruct (Z.leb_spec (Z.max (8 * pos + ofs) (8 * (pos + 0))) i),
                 (Z.ltb_spec i (Z.min (8 * pos + ofs + 64) (8 * (pos + 0) + 8)));
          try lia; cbn [andb]; rewrite orb_false_r; reflexivity.
  - split; [apply set_length|]. split.
    + apply set_wf; [exact Hw|]. apply lor_u8; [exact Hu|].
      unfold is_u8. pose proof (ones_u 8 ofs ltac:(lia)). lia.
    + intros i Hi. unfold size in Hi. rewrite bit_set by lia.
      destruct (Z.eqb_spec (i / 8) (pos + 8)) as [E|E].
      * rewrite Z.lor_spec, Z.testbit_ones by lia.
        rewrite byte_bit by lia. replace (8 * (pos + 8) + i mod 8) with i by lia.
        f_equal.
        destruct (Z.leb_spec 0 (i mod 8)), (Z.ltb_spec (i mod 8) ofs),
                 (Z.leb_spec (Z.max (8 * pos + ofs) (8 * (pos + 8))) i),
                 (Z.ltb_spec i (Z.min (8 * pos + ofs + 64) (8 * (pos + 8) + 8)));
          try lia; reflexivity.
      * destruct (Z.leb_spec (Z.max (8 * pos + ofs) (8 * (pos + 8))) i),
                 (Z.ltb_spec i (Z.min (8 * pos + ofs + 64) (8 * (pos + 8) + 8)));
          try lia; cbn [andb]; rewrite orb_false_r; reflexivity.
  - split; [apply set_length|]. split.
    + apply set_wf; [exact Hw|]. unfold is_u8. lia.
    + intros i Hi. unfold size in Hi. rewrite bit_set by lia.
      destruct (Z.eqb_spec (i / 8) (pos + k)) as [E|E].
      * rewrite testbit_255.
        destruct (Z.leb_spec 0 (i mod 8)), (Z.ltb_spec (i mod 8) 8),
                 (Z.leb_spec (Z.max (8 * pos + ofs) (8 * (pos + k))) i),
                 (Z.ltb_spec i (Z.min (8 * pos + ofs + 64) (8 * (pos + k) + 8)));
          try lia; cbn [andb]; rewrite orb_true_r; reflexivity.
      * destruct (Z.leb_spec (Z.max (8 * pos + ofs) (8 * (pos + k))) i),
                 (Z.ltb_spec i (Z.min (8 * pos + ofs + 64) (8 * (pos + k) + 8)));
          try lia; cbn [andb]; rewrite orb_false_r; reflexivity.
Qed.

(** The passes for bytes [pos + k], [k] in [ks], set the bits of the run up
    to the end of the last of these bytes. *)
Lemma try_sets_from (n : nat) : forall (buf : list Z) (pos ofs k : Z),
  wf buf -> 0 <= pos -> pos + 8 < len buf -> 0 <= ofs < 8 ->
  0 <= k -> k + Z.of_nat n = 9 ->
  sets buf
       (fold_left (Base.try_set pos ofs (Z.ones ofs)) (map Z.of_nat (seq (Z.to_nat k) n)) buf)
       (Z.max (8 * pos + ofs) (8 * (pos + k))) (8 * pos + ofs + 64).
Proof.
  induction n as [|n IH]; intros buf pos ofs k Hw Hp Hl Ho Hk Hn.
  - cbn [seq map fold_left]. split; [reflexivity|]. split; [exact Hw|].
    intros i Hi.
    destruct (Z.leb_spec (Z.max (8 * pos + ofs) (8 * (pos + k))) i),
             (Z.ltb_spec i (8 * pos + ofs + 64)); try lia;
      cbn [andb]; rewrite orb_false_r; reflexivity.
  - cbn [seq map fold_left]. rewrite Z2Nat.id by lia.
    pose proof (try_set_sets buf pos ofs k Hw Hp Hl Ho ltac:(lia)) as H1.
    set (b1 := Base.try_set pos ofs (Z.ones ofs) buf k) in *.
    assert (Hw1 : wf b1) by apply H1.
    assert (Hl1 : pos + 8 < len b1).
    { destruct H1 as [L _]. unfold len in *. rewrite L. exact Hl. }
    pose proof (IH b1 pos ofs (k + 1) Hw1 Hp Hl1 Ho ltac:(lia) ltac:(lia)) as H2.
    replace (Z.to_nat (k + 1)) with (S (Z.to_nat k)) in H2 by lia.
    destruct (Z.eq_dec k 8) as [->|Hk8].
    + (* the last byte: nothing is left for the passes after it *)
      assert (n = 0%nat) as -> by lia. cbn [seq map fold_left] in *.
      replace (Z.min (8 * pos + ofs + 64) (8 * (pos + 8) + 8))
        with (8 * pos + ofs + 64) in H1 by lia.
      exact H1.
    + replace (Z.min (8 * pos + ofs + 64) (8 * (pos + k) + 8))
        with (8 * (pos + k) + 8) in H1 by lia.
      replace (Z.max (8 * pos + ofs) (8 * (pos + (k + 1))))
        with (8 * (pos + k) + 8) in H2 by lia.
      eapply sets_join; [|exact H1|exact H2]. lia.
Qed.

Lemma trySet64Bits_spec (buf : list Z) (pos ofs : Z) :
  wf buf -> 0 <= pos -> 0 <= ofs < 8 ->
  match Base.trySet64Bits buf pos ofs with
  | Some buf' =>
      8 * pos + ofs + 64 < size buf
      /\ range_clear buf (8 * pos + ofs) (8 * pos + ofs + 64)
      /\ sets buf buf' (8 * pos + ofs) (8 * pos + ofs + 64)
  | None =>
      ~ (8 * pos + ofs + 64 < size buf
         /\ range_clear buf (8 * pos + ofs) (8 * pos + ofs + 64))
  end.
Proof.
  intros Hw Hp Ho. unfold Base.trySet64Bits.
  rewrite low_mask8 by lia.
  destruct (Z.geb_spec (pos + 8) (len buf)) as [Hout|Hin].
  - intros [Hc _]. unfold size in Hc. lia.
  - pose proof (try_checks_spec buf pos ofs Hw Hp Ho) as Hchk.
    destruct (forallb _ _) eqn:E.
    + split; [unfold size; lia|]. split; [apply Hchk; reflexivity|].
      pose proof (try_sets_from 9 buf pos ofs 0 Hw Hp Hin Ho ltac:(lia) ltac:(lia)) as H.
      replace (Z.max (8 * pos + ofs) (8 * (pos + 0))) with (8 * pos + ofs) in H by lia.
      exact H.
    + intros [_ Hc]. apply Hchk in Hc. discriminate.
Qed.

Lemma inner8_sound (fuel : nat) : forall (s : scan) (pos k : Z),
  wf (s_bits s) -> 0 <= pos < len (s_bits s) ->
  0 <= k <= 8 -> range_set (s_bits s) (8 * pos) (8 * pos + k) ->
  8 < Z.of_nat fuel + k ->
  exists l s', Base.inner fuel gid numBits hlimit bigAlloc pos s = Some (l, s')
    /\ wf (s_bits s') /\ len (s_bits s') = len (s_bits s)
    /\ match l with
       | ByReturn => exists f, f / 8 = pos /\ run (8 * pos) s (Some f) s'
       | ByBreak => forall r s2, run (8 * (pos + 1)) s' r s2 -> run (8 * pos) s r s2
       end.
Proof.
  induction fuel as [|fuel IH]; intros s pos k Hw Hp Hk Hset Hfuel; [lia|].
  cbn [Base.inner]. cbv zeta.
  destruct (byte_first_clear (s_bits s) pos Hw Hp) as [Ho [Hlow Hfc]].
  set (ofs := TrailingZeros8 (not8 (get (s_bits s) pos))) in *.
  destruct (Z.eqb_spec ofs 8) as [Hfull|Hnf].
  - (* the byte is full *)
    exists ByBreak, s. split; [reflexivity|]. split; [exact Hw|]. split; [reflexivity|].
    intros r s2 Hr. apply (run_shift _ _ _ _ (8 * pos) (8 * (pos + 1))); auto; [lia|].
    rewrite Hfull in Hlow. replace (8 * (pos + 1)) with (8 * pos + 8) by lia.
    exact Hlow.
  - assert (Hlt : ofs < 8) by lia. specialize (Hfc Hlt).
    set (f := 8 * pos + ofs) in *.
    assert (Hok : k <= ofs).
    { destruct (Z_lt_le_dec ofs k) as [Hc|]; [|assumption].
      destruct Hfc as [_ [Hcl _]]. rewrite Hset in Hcl by (unfold f; lia). discriminate. }
    set (single := if enough numBits hlimit (Base.take_one gid pos ofs s)
                   then Some (ByReturn, Base.take_one gid pos ofs s)
                   else Base.inner fuel gid numBits hlimit bigAlloc pos
                          (Base.take_one gid pos ofs s)).
    assert (Hsingle : ~ Alloc.big_here numBits bigAlloc s f ->
      exists l s', single = Some (l, s')
        /\ wf (s_bits s') /\ len (s_bits s') = len (s_bits s)
        /\ match l with
           | ByReturn => exists f, f / 8 = pos /\ run (8 * pos) s (Some f) s'
           | ByBreak => forall r s2, run (8 * (pos + 1)) s' r s2 -> run (8 * pos) s r s2
           end).
    { intros Hnb.
      pose proof (take_one8_allocated s pos ofs Hw Hp ltac:(lia)) as Ha. fold f in Ha.
      assert (Hpk : Alloc.picks numBits bigAlloc s (8 * pos) f false).
      { split; [exact Hfc|]. split; [discriminate|]. intros Hb. contradiction. }
      set (s1 := Base.take_one gid pos ofs s) in *.
      assert (Hw1 : wf (s_bits s1)) by apply Ha.
      assert (Hl1 : len (s_bits s1) = len (s_bits s)).
      { destruct Ha as [[Hlen _] _]. unfold len. rewrite Hlen. reflexivity. }
      unfold single. destruct (enough numBits hlimit s1) eqn:He.
      - exists ByReturn, s1. split; [reflexivity|]. split; [exact Hw1|]. split; [exact Hl1|].
        exists f. split; [unfold f; lia|]. eapply run_return; eauto.
      - destruct (IH s1 pos (ofs + 1) Hw1 ltac:(lia) ltac:(lia)) as [l [s' [E [W' [L' P]]]]].
        + intros i Hi. destruct Ha as [[_ [_ Hb]] _].
          rewrite Hb by (unfold size; lia).
          destruct (Z.eq_dec i f) as [->|Hne].
          * destruct (Z.leb_spec f f), (Z.ltb_spec f (f + 1)); try lia;
              try apply orb_true_r.
          * rewrite Hlow by (unfold f in Hne; lia). reflexivity.
        + lia.
        + exists l, s'. split; [exact E|]. split; [exact W'|]. split; [lia|].
          destruct l.
          * destruct P as [f2 [Hf2 Hr2]]. exists f2. split; [exact Hf2|].
            eapply run_continue; eauto.
          * intros r s2 Hr. eapply run_continue; eauto. }
    fold single.
    destruct bigAlloc eqn:Ebig; cbn [andb];
      [|apply Hsingle; intros [Hc _]; discriminate].
    destruct (Z.geb_spec (numBits - s_cnt s) 64) as [Hwant|Hno]; cbn [andb];
      [|apply Hsingle; intros [_ [Hc _]]; lia].
    pose proof (trySet64Bits_spec (s_bits s) pos ofs Hw ltac:(lia) ltac:(lia)) as Htry.
    fold f in Htry.
    destruct (Base.trySet64Bits (s_bits s) pos ofs) as [bits'|].
    2:{ apply Hsingle. intros [_ [_ Hc]]. apply Htry. exact Hc. }
    (* the big path *)
    destruct Htry as [Hin [Hclr Hsets]].
    assert (Hbig : Alloc.big_here numBits true s f).
    { split; [reflexivity|]. split; [lia|]. split; assumption. }
    assert (Hpk : Alloc.picks numBits true s (8 * pos) f true).
    { split; [exact Hfc|]. split; [intros _; exact Hbig|reflexivity]. }
    set (s1 := mkScan bits' _ _ _).
    assert (Ha : Alloc.allocated gid s s1 f true).
    { unfold Alloc.allocated, s1. cbn [s_bits s_free s_acc s_cnt].
      replace (pos * 8 + ofs) with f by (unfold f; lia).
      split; [exact Hsets|]. repeat split; lia. }
    assert (Hw1 : wf (s_bits s1)) by apply Hsets.
    assert (Hl1 : len (s_bits s1) = len (s_bits s)).
    { destruct Hsets as [Hlen _]. unfold len, s1. cbn [s_bits]. rewrite Hlen. reflexivity. }
    destruct (enough numBits hlimit s1) eqn:He.
    + exists ByReturn, s1. split; [reflexivity|]. split; [exact Hw1|]. split; [exact Hl1|].
      exists f. split; [unfold f; lia|]. eapply run_return; eauto.
    + exists ByBreak, s1. split; [reflexivity|]. split; [exact Hw1|]. split; [exact Hl1|].
      intros r s2 Hr. eapply run_continue; eauto.
      apply (run_shift _ _ _ _ (8 * pos) (8 * (pos + 1))); auto; [lia|].
      intros i Hi. destruct Hsets as [_ [_ Hb]]. cbn [s_bits] in *.
      rewrite Hb by (unfold size; lia).
      destruct (Z_lt_le_dec i f).
      * rewrite Hlow by (unfold f in *; lia). reflexivity.
      * destruct (Z.leb_spec f i), (Z.ltb_spec i (f + 64)); try (unfold f in *; lia);
          try apply orb_true_r.
Qed.

Lemma outer8_sound (n : nat) : forall (s : scan) (pos lp : Z),
  wf (s_bits s) -> 0 <= pos -> pos + Z.of_nat n = len (s_bits s) ->
  exists l lp' s',
    Base.outer n gid numBits hlimit bigAlloc pos lp s = Some (l, lp', s')
    /\ match l with
       | ByReturn => exists f, lp' = f / 8 /\ run (8 * pos) s (Some f) s'
       | ByBreak => run (8 * pos) s None s'
                    /\ lp' = (if Nat.eqb n 0 then lp else len (s_bits s) - 1)
       end.
Proof.
  induction n as [|n IH]; intros s pos lp Hw Hp Hn; cbn [Base.outer].
  - exists ByBreak, lp, s. split; [reflexivity|]. split; [|reflexivity].
    apply run_end. intros i Hi. unfold size in Hi. lia.
  - destruct (inner8_sound 9 s pos 0 Hw ltac:(lia) ltac:(lia)) as [l [s1 [E [W1 [L1 P]]]]].
    + intros i Hi. lia.
    + lia.
    + rewrite E. destruct l.
      * destruct P as [f [Hf Hr]]. exists ByReturn, pos, s1.
        split; [reflexivity|]. exists f. split; [lia|exact Hr].
      * destruct (IH s1 (pos + 1) pos W1 ltac:(lia) ltac:(lia)) as [l [lp' [s' [E' P']]]].
        exists l, lp', s'. split; [exact E'|].
        destruct l.
        -- destruct P' as [f [Hf Hr]]. exists f. split; [exact Hf|]. apply P. exact Hr.
        -- destruct P' as [Hr Hlp]. split; [apply P; exact Hr|].
           cbn [Nat.eqb]. destruct (Nat.eqb_spec n 0); lia.
Qed.

End Byte.

(** A call of [BitmapBase.AllocBits] returns, and what it returns is a call
    in units of 8 bits. *)
Lemma AllocBits8_call (b : Base.t) (numBits hlimit : Z) (bigAlloc : bool) :
  wf (Base.bits b) -> pos_ok 8 (Base.bits b) (Base.lastPos b) ->
  exists addrs n b',
    Base.AllocBits b numBits hlimit bigAlloc = Some (addrs, n, b')
    /\ Base.GroupId b' = Base.GroupId b
    /\ call 8 (Base.GroupId b) (Base.bits b) (Base.freeBits b) (Base.lastPos b)
            numBits hlimit bigAlloc
            addrs n (Base.bits b') (Base.freeBits b') (Base.lastPos b').
Proof.
  intros Hw Hpos.
  assert (Hsz : size (Base.bits b) / 8 = len (Base.bits b)) by (unfold size; lia).
  set (bml := len (Base.bits b)) in *.
  assert (Hbml : 0 <= bml) by apply len_nonneg.
  assert (Hp : 0 <= Base.lastPos b /\ Base.lastPos b
               + Z.of_nat (Z.to_nat (bml - Base.lastPos b)) = bml).
  { destruct Hpos as [Hz|Hin]; [lia|]. rewrite Hsz in Hin. lia. }
  unfold Base.AllocBits. cbn [Base.AllocBits_depth]. fold bml.
  destruct (outer8_sound (Base.GroupId b) numBits hlimit bigAlloc
              (Z.to_nat (bml - Base.lastPos b))
              (mkScan (Base.bits b) (Base.freeBits b) [] 0)
              (Base.lastPos b) (Base.lastPos b) Hw (proj1 Hp) (proj2 Hp))
    as [l [lp [s1 [E P]]]].
  rewrite E. cbn [s_bits] in P. fold bml in P. destruct l.
  - destruct P as [f [Hf Hr]]. eexists _, _, _. split; [reflexivity|].
    split; [reflexivity|]. cbn [Base.bits Base.freeBits Base.lastPos]. subst lp.
    apply call_returned. exact Hr.
  - destruct P as [Hr Hlp].
    assert (Hlast : lp = last_unit 8 (Base.bits b)).
    { subst lp. unfold last_unit. rewrite Hsz.
      destruct (Nat.eqb_spec (Z.to_nat (bml - Base.lastPos b)) 0),
               (Z.eqb_spec bml 0); try lia.
      destruct Hpos as [Hz|Hin]; [lia|]. rewrite Hsz in Hin. lia. }
    assert (Hnn : 0 <= 8 * Base.lastPos b) by lia.
    destruct (RunFacts.run_kept _ _ _ _ _
                (mkScan (Base.bits b) (Base.freeBits b) [] 0) _ _ Hw Hnn Hr) as [K _].
    destruct (Z.eqb_spec (Base.lastPos b) 0) as [Hz|Hnz]; cbn [negb andb].
    + eexists _, _, _. split; [reflexivity|]. split; [reflexivity|].
      cbn [Base.bits Base.freeBits Base.lastPos]. rewrite Hlast.
      apply call_exhausted; [exact Hr|]. intros [Hc _]. contradiction.
    + destruct (Z.gtb_spec (s_free s1) 0) as [Hfree|Hnone].
      * (* the second scan, from bit 0 *)
        cbn [Base.bits Base.freeBits Base.lastPos Base.GroupId].
        assert (Hw1 : wf (s_bits s1)) by apply K.
        assert (Hl1 : len (s_bits s1) = bml).
        { unfold bml, len. rewrite (k_len _ _ _ K). reflexivity. }
        rewrite Hl1.
        destruct (outer8_sound (Base.GroupId b) (numBits - s_cnt s1) hlimit bigAlloc
                    (Z.to_nat (bml - 0))
                    (mkScan (s_bits s1) (s_free s1) [] 0) 0 0
                    Hw1 ltac:(lia) ltac:(cbn [s_bits]; lia))
          as [l2 [lp2 [s2 [E2 P2]]]].
        rewrite E2. cbn [s_bits] in P2. rewrite Hl1 in P2. destruct l2.
        -- destruct P2 as [f [Hf Hr2]]. eexists _, _, _. split; [reflexivity|].
           split; [reflexivity|]. cbn [Base.bits Base.freeBits Base.lastPos]. subst lp2.
           change (8 * 0) with 0 in Hr2.
           apply (call_wrapped 8 _ _ _ _ _ _ _ s1 (Some f) s2); auto; lia.
        -- destruct P2 as [Hr2 Hlp2]. change (0 =? 0) with true. cbn [negb andb].
           eexists _, _, _. split; [reflexivity|].
           split; [reflexivity|]. cbn [Base.bits Base.freeBits Base.lastPos].
           assert (Hlast2 : lp2 = last_unit 8 (Base.bits b)).
           { subst lp2. unfold last_unit. rewrite Hsz.
             destruct (Nat.eqb_spec (Z.to_nat (bml - 0)) 0), (Z.eqb_spec bml 0); try lia;
               try (destruct Hpos as [Hc|Hin]; [contradiction|]; rewrite Hsz in Hin; lia). }
           rewrite Hlast2. change (8 * 0) with 0 in Hr2.
           apply (call_wrapped 8 _ _ _ _ _ _ _ s1 None s2); auto; lia.
      * eexists _, _, _. split; [reflexivity|]. split; [reflexivity|].
        cbn [Base.bits Base.freeBits Base.lastPos]. rewrite Hlast.
        apply call_exhausted; [exact Hr|]. intros [_ Hc]. lia.
Qed.

End BaseFacts.

(* ------------------------------------------------------------------ *)
(** ** The two bitmaps against each other *)

Module EquivFacts.
Import Bitmap Bits BitFacts CountFacts Alloc AllocSpec AllocCall RunFacts Calls.

Section OneCall.

Variables (w gid : Z) (buf : list Z) (free lastPos numBits hlimit : Z) (bigAlloc : bool).
Hypothesis Hwf : wf buf.
Hypothesis Hw : 0 < w.
Hypothesis Hunits : size buf mod w = 0.
Hypothesis Hpos : pos_ok w buf lastPos.
Hypothesis Hfree : free = clear_count buf.
Hypothesis Hset : range_set buf 0 (w * lastPos).

Lemma lastPos_nonneg : 0 <= lastPos.
Proof. destruct Hpos; lia. Qed.

Lemma lastPos_inside : w * lastPos <= size buf.
Proof.
  pose proof (len_nonneg buf) as Hn.
  pose proof (Z.mul_div_le (size buf) w Hw) as Hd.
  destruct Hpos as [Hz|Hin].
  - rewrite Hz, Z.mul_0_r. unfold size. lia.
  - assert (w * lastPos <= w * (size buf / w)); [|lia].
    apply Z.mul_le_mono_nonneg_l; lia.
Qed.

(** A scan that runs to the end from [lastPos] leaves no clear bit. *)
Lemma exhausted_is_full (s1 : scan) :
  run gid numBits hlimit bigAlloc (w * lastPos) (mkScan buf free [] 0) None s1 ->
  s_free s1 = 0.
Proof.
  intros Hr. pose proof lastPos_nonneg as Hl.
  assert (Hs : 0 <= w * lastPos) by lia.
  destruct (run_kept _ _ _ _ _ (mkScan buf free [] 0) _ _ Hwf Hs Hr) as [K Hfull].
  pose proof (k_free _ _ _ K) as F. pose proof (k_count _ _ _ K) as C.
  cbn [s_bits s_free s_cnt] in F, C.
  assert (Hall : range_set (s_bits s1) 0 (0 + Z.of_nat (Z.to_nat (size (s_bits s1))))).
  { intros i Hi. destruct (Z_lt_le_dec i (w * lastPos)).
    - apply (k_mono _ _ _ K). cbn [s_bits]. apply Hset. lia.
    - apply Hfull. lia. }
  apply clear_from_set in Hall. unfold clear_count in C at 1. lia.
Qed.

(** Under the pairing invariant a call is one scan from bit 0. *)
Lemma call_is_scan_from_zero (addrs : list Z) (n : Z) (buf' : list Z) (free' lastPos' : Z) :
  call w gid buf free lastPos numBits hlimit bigAlloc addrs n buf' free' lastPos' ->
  exists r s1,
    run gid numBits hlimit bigAlloc 0 (mkScan buf free [] 0) r s1
    /\ addrs = s_acc s1 /\ n = s_cnt s1 /\ buf' = s_bits s1 /\ free' = s_free s1
    /\ lastPos' = match r with Some f => f / w | None => last_unit w buf end.
Proof.
  pose proof lastPos_nonneg as Hl.
  intros Hc. destruct Hc as [f s1 Hr|s1 Hr Hno|s1 r2 s2 Hr Hnz Hpos1 Hr2].
  - exists (Some f), s1. split; [|repeat split].
    apply (run_shift _ _ _ _ 0 (w * lastPos)); auto. lia.
  - exists None, s1. split; [|repeat split].
    apply (run_shift _ _ _ _ 0 (w * lastPos)); auto. lia.
  - pose proof (exhausted_is_full s1 Hr). lia.
Qed.

(** What the call leaves has the invariant again. *)
Lemma call_keeps_pairing (addrs : list Z) (n : Z) (buf' : list Z) (free' lastPos' : Z) :
  call w gid buf free lastPos numBits hlimit bigAlloc addrs n buf' free' lastPos' ->
  wf buf' /\ Datatypes.length buf' = Datatypes.length buf
  /\ free' = clear_count buf'
  /\ pos_ok w buf' lastPos'
  /\ range_set buf' 0 (w * lastPos').
Proof.
  intros Hc. pose proof lastPos_nonneg as Hl.
  pose proof (CallFacts.call_pos_ok _ _ _ _ _ _ _ _ _ _ _ _ _ Hwf Hw Hl Hunits Hc) as Hp'.
  destruct (call_is_scan_from_zero _ _ _ _ _ Hc) as [r [s1 [Hr [-> [-> [-> [-> Hlp]]]]]]].
  destruct (run_kept _ _ _ _ _ (mkScan buf free [] 0) _ _ Hwf (Z.le_refl 0) Hr) as [K Hfull].
  pose proof (k_free _ _ _ K) as F. pose proof (k_count _ _ _ K) as C.
  pose proof (k_len _ _ _ K) as L.
  cbn [s_bits s_free s_cnt] in F, C, L.
  split; [apply (k_wf _ _ _ K)|]. split; [exact L|]. split; [lia|].
  split; [exact Hp'|].
  assert (Hsz : size (s_bits s1) = size buf) by (unfold size, len; rewrite L; reflexivity).
  intros i Hi. destruct r as [f|].
  - apply Hfull. subst lastPos'.
    pose proof (Z.mul_div_le f w Hw). lia.
  - apply Hfull. subst lastPos'. rewrite Hsz. unfold last_unit in Hi.
    pose proof (Z.mul_div_le (size buf) w Hw) as Hd.
    destruct (Z.eqb_spec (size buf / w) 0) as [Hz|Hz]; [lia|].
    assert (w * (size buf / w - 1) <= w * (size buf / w)); [|lia].
    apply Z.mul_le_mono_nonneg_l; lia.
Qed.

End OneCall.

(** One call on each of a pair: the same addresses, the same count, and a
    pair again. *)
Lemma paired_step (bb : Base.t) (bw : B64.t) (numBits hlimit : Z) (bigAlloc : bool) :
  paired bb bw ->
  exists addrs n bb' bw',
    Base.AllocBits bb numBits hlimit bigAlloc = Some (addrs, n, bb')
    /\ B64.AllocBits bw numBits hlimit bigAlloc = Some (addrs, n, bw')
    /\ paired bb' bw'.
Proof.
  intros [Hb Hwf Hm Hg F8 F64 P8 P64 S8 S64].
  assert (Hwf8 : wf (Base.bits bb)) by (rewrite Hb; exact Hwf).
  assert (P8' : pos_ok 8 (Base.bits bb) (Base.lastPos bb)) by (rewrite Hb; exact P8).
  destruct (BaseFacts.AllocBits8_call bb numBits hlimit bigAlloc Hwf8 P8')
    as [a8 [n8 [bb' [E8 [G8 C8]]]]].
  destruct (B64Facts.AllocBits64_call bw numBits hlimit bigAlloc Hwf Hm P64)
    as [a64 [n64 [bw' [E64 [G64 C64]]]]].
  rewrite Hb, Hg, F8 in C8. rewrite F64 in C64.
  set (buf := B64.buffer bw) in *.
  assert (U8 : size buf mod 8 = 0) by (unfold size; lia).
  assert (U64 : size buf mod 64 = 0) by (unfold size; lia).
  assert (H8 : 0 < 8) by lia. assert (H64 : 0 < 64) by lia.
  destruct (call_is_scan_from_zero 8 _ buf _ _ _ _ _ Hwf H8 P8 eq_refl S8 _ _ _ _ _ C8)
    as [r8 [s8 [R8 [A8 [N8 [B8 [Fr8 L8]]]]]]].
  destruct (call_is_scan_from_zero 64 _ buf _ _ _ _ _ Hwf H64 P64 eq_refl S64 _ _ _ _ _ C64)
    as [r64 [s64 [R64 [A64 [N64 [B64' [Fr64 L64]]]]]]].
  destruct (run_functional _ _ _ _ _ _ _ _ _ _ R8 R64) as [Er Es]. subst r64 s64.
  destruct (call_keeps_pairing 8 _ buf _ _ _ _ _ Hwf H8 U8 P8 eq_refl S8 _ _ _ _ _ C8)
    as [W8 [Len8 [K8 [Q8 T8]]]].
  destruct (call_keeps_pairing 64 _ buf _ _ _ _ _ Hwf H64 U64 P64 eq_refl S64
              _ _ _ _ _ C64)
    as [W64 [Len64 [K64 [Q64 T64]]]].
  exists a8, n8, bb', bw'. split; [exact E8|]. split; [rewrite E64; congruence|].
  assert (Hbits : Base.bits bb' = B64.buffer bw') by congruence.
  constructor.
  - exact Hbits.
  - exact W64.
  - unfold len in *. rewrite Len64. exact Hm.
  - congruence.
  - rewrite <- Hbits. exact K8.
  - exact K64.
  - rewrite <- Hbits. exact Q8.
  - exact Q64.
  - rewrite <- Hbits. exact T8.
  - exact T64.
Qed.

Lemma paired_calls (rs : list request) : forall (bb : Base.t) (bw : B64.t),
  paired bb bw ->
  exists outs bb' bw',
    base_calls bb rs = Some (outs, bb')
    /\ b64_calls bw rs = Some (outs, bw')
    /\ paired bb' bw'.
Proof.
  induction rs as [|r rest IH]; intros bb bw HP.
  - exists [], bb, bw. split; [reflexivity|]. split; [reflexivity|exact HP].
  - destruct (paired_step bb bw (r_numBits r) (r_hlimit r) (r_bigAlloc r) HP)
      as [addrs [n [bb1 [bw1 [E8 [E64 HP1]]]]]].
    destruct (IH bb1 bw1 HP1) as [outs [bb' [bw' [F8 [F64 HP']]]]].
    exists ((addrs, n) :: outs), bb', bw'.
    cbn [base_calls b64_calls]. rewrite E8, E64, F8, F64.
    split; [reflexivity|]. split; [reflexivity|exact HP'].
Qed.

Lemma Init_paired (gid : Z) (data : list Z) (bw : B64.t) :
  wf data -> B64.Init gid data = Done bw -> paired (Base.Init gid data) bw.
Proof.
  intros Hwf. unfold B64.Init.
  destruct (Z.eqb_spec (len data mod 8) 0) as [Hm|]; [|discriminate].
  cbn [negb]. intros H. inversion H; subst bw. clear H.
  unfold Base.Init. constructor;
    cbn [Base.bits Base.freeBits Base.GroupId Base.lastPos
         B64.buffer B64.freeBits B64.GroupId B64.lastPos].
  - reflexivity.
  - exact Hwf.
  - exact Hm.
  - reflexivity.
  - apply InitFacts.CountFreeBits8_clear_count; assumption.
  - apply InitFacts.CountFreeBits64_clear_count; assumption.
  - left; reflexivity.
  - left; reflexivity.
  - intros i Hi. lia.
  - intros i Hi. lia.
Qed.

End EquivFacts.

(** C3: from identical copies of a byte array (whole words, so that
    [Bitmap64.Init] takes it), every sequence of [AllocBits] calls returns
    on both the byte-at-a-time and the word-at-a-time bitmap, with the same
    addresses and counts call by call, and leaves the same bytes and the
    same [freeBits]. *)
Theorem base_and_word_bitmaps_agree
  (gid : Z) (data : list Z) (bw : B64.t) (rs : list Calls.request) :
  Bits.wf data ->
  B64.Init gid data = Done bw ->
  exists outs bb' bw',
    Calls.base_calls (Base.Init gid data) rs = Some (outs, bb')
    /\ Calls.b64_calls bw rs = Some (outs, bw')
    /\ Base.bits bb' = B64.buffer bw'
    /\ Base.freeBits bb' = B64.freeBits bw'.
Proof.
  intros Hwf Hi.
  destruct (EquivFacts.paired_calls rs _ _ (EquivFacts.Init_paired gid data bw Hwf Hi))
    as [outs [bb' [bw' [E8 [E64 HP]]]]].
  exists outs, bb', bw'. split; [exact E8|]. split; [exact E64|].
  split; [apply HP|].
  rewrite (Calls.p_free8 _ _ HP), (Calls.p_free64 _ _ HP). reflexivity.
Qed.

Lemma base_and_word_bitmaps_agree_witness :
  exists outs bb' bw',
    Calls.base_calls (Base.Init 1 (5 :: repeat 0 23))
      [Calls.mkRequest 3 3 false; Calls.mkRequest 64 1 true; Calls.mkRequest 200 100 true]
    = Some (outs, bb')
    /\ Calls.b64_calls (B64.mk (5 :: repeat 0 23) 190 1 0)
         [Calls.mkRequest 3 3 false; Calls.mkRequest 64 1 true; Calls.mkRequest 200 100 true]
       = Some (outs, bw')
    /\ Base.bits bb' = B64.buffer bw'
    /\ Base.freeBits bb' = B64.freeBits bw'.
Proof.
  apply (base_and_word_bitmaps_agree 1 (5 :: repeat 0 23)).
  - repeat constructor; unfold is_u8; lia.
  - vm_compute. reflexivity.
Defined.

(* ------------------------------------------------------------------ *)
(** ** What a big address stands for *)

Module BigFacts.
Import Bitmap Bits BitFacts Alloc AllocSpec AddrSpec.

(** Decoding the address of an event of a bitmap of at most [2^20] bits. *)
Lemma addr_of_decode (gid : Z) (e : event) :
  0 <= gid <= 2047 -> 0 <= fst e < 2 ^ 20 ->
  EntAddr.idx_of (addr_of gid e) = fst e
  /\ EntAddr.group_of (addr_of gid e) = gid
  /\ EntAddr.big_of (addr_of gid e) = Z.b2z (snd e).
Proof.
  intros Hg Hf. unfold addr_of, EntAddr.idx_of, EntAddr.group_of, EntAddr.big_of.
  assert (Hu : u32 (fst e) = fst e) by (unfold u32; lia).
  rewrite Hu, GetAddr_MakeEntAddr by (unfold is_u32; lia).
  repeat split.
Qed.

(** The big addresses among those a scan appended. *)
Lemma kept_big (gid : Z) (s s' : scan) (a : Z) :
  0 <= gid <= 2047 -> size (s_bits s) <= 2 ^ 20 ->
  kept gid s s' -> s_acc s = [] ->
  In a (s_acc s') -> EntAddr.big_of a > 0 ->
  nbits a = 64
  /\ 0 <= EntAddr.idx_of a
  /\ EntAddr.idx_of a + 64 < size (s_bits s)
  /\ range_clear (s_bits s) (EntAddr.idx_of a) (EntAddr.idx_of a + 64)
  /\ range_set (s_bits s') (EntAddr.idx_of a) (EntAddr.idx_of a + 64).
Proof.
  intros Hg Hsz K Hnil Hin Hbig.
  destruct (k_events _ _ _ K) as [evs [Hacc [Hok Hrng]]].
  rewrite Hnil in Hacc. cbn [app] in Hacc. rewrite Hacc in Hin.
  apply in_map_iff in Hin. destruct Hin as [e [<- He]].
  rewrite Forall_forall in Hok, Hrng.
  specialize (Hok e He). specialize (Hrng e He). cbn beta in Hrng.
  destruct (addr_of_decode gid e Hg) as [Hi [_ Hb]]; [lia|].
  split.
  - unfold nbits. destruct (Z.gtb_spec (EntAddr.big_of (addr_of gid e)) 0); [reflexivity|lia].
  - rewrite Hi. rewrite Hb in Hbig.
    destruct (snd e) eqn:Es; [|cbn in Hbig; lia].
    destruct (Hok Es) as [H0 [H1 [H2 H3]]]. auto.
Qed.

End BigFacts.

(* ------------------------------------------------------------------ *)
(** ** Both implementations of [Bitmap] *)

Module LawFacts.
Import Bitmap Bits BitFacts CountFacts Alloc AllocSpec AllocCall RunFacts
       AddrSpec ClearSpec ClearFacts InitFacts CallFacts BitmapSpec.

(** Unfolds the methods of the two instances. *)
Ltac methods :=
  cbn [Iface.Init Iface.GetData Iface.FreeBits Iface.TotalBits Iface.AllocBits
       Iface.ClearBits Iface.CheckBit Iface.Bitmap64 Iface.BitmapBase
       bytes group cursor unit_bits B64Layout BaseLayout] in *.

Lemma Bitmap64_lawful : lawful (T := B64.t).
Proof.
  constructor.
  - methods. lia.
  - intros b. reflexivity.
  - intros b Hm. methods. unfold B64.TotalBits, B64.nwords, size in *. lia.
  - intros gid data b Hw. methods. unfold B64.Init.
    destruct (Z.eqb_spec (len data mod 8) 0) as [Hm|]; [|discriminate].
    cbn [negb]. intros H. inversion H; subst b. clear H.
    unfold valid. methods. unfold B64.FreeBits.
    cbn [B64.freeBits B64.buffer B64.GroupId B64.lastPos].
    split; [|split; [reflexivity|split; [reflexivity|]]].
    + split; [exact Hw|]. split; [unfold size; lia|left; reflexivity].
    + apply CountFreeBits64_clear_count; assumption.
  - intros b numBits hlimit bigAlloc [Hw [Hm Hp]]. methods.
    apply B64Facts.AllocBits64_call; [exact Hw|unfold size in Hm; lia|exact Hp].
  - intros b ptrs. methods. unfold B64.ClearBits.
    destruct (batchClearBits (B64.GroupId b) (B64.buffer b) ptrs) as [[buf' c]|];
      [|exact I].
    cbn [B64.buffer B64.freeBits B64.GroupId B64.lastPos B64.FreeBits].
    unfold B64.FreeBits. cbn [B64.freeBits]. repeat split.
Qed.

Lemma BitmapBase_lawful : lawful (T := Base.t).
Proof.
  constructor.
  - methods. lia.
  - intros b. reflexivity.
  - intros b _. methods. unfold Base.TotalBits, size. lia.
  - intros gid data b Hw. methods. intros H. inversion H; subst b. clear H.
    unfold valid, Base.Init. methods. unfold Base.FreeBits.
    cbn [Base.freeBits Base.bits Base.GroupId Base.lastPos].
    split; [|split; [reflexivity|split; [reflexivity|]]].
    + split; [exact Hw|]. split; [unfold size; lia|left; reflexivity].
    + apply CountFreeBits8_clear_count; assumption.
  - intros b numBits hlimit bigAlloc [Hw [Hm Hp]]. methods.
    apply BaseFacts.AllocBits8_call; assumption.
  - intros b ptrs. methods. unfold Base.ClearBits.
    destruct (batchClearBits (Base.GroupId b) (Base.bits b) ptrs) as [[buf' c]|];
      [|exact I].
    unfold Base.FreeBits. cbn [Base.bits Base.freeBits Base.GroupId Base.lastPos].
    repeat split.
Qed.

Section Lawful.

Context {T : Type} {B : Iface.Bitmap T} {L : Layout T}.
Hypothesis Law : lawful (T := T).

Lemma accurate_iff (b : T) :
  valid b -> (accurate b <-> Iface.FreeBits b = clear_count (bytes b)).
Proof.
  intros [_ [Hm _]]. unfold accurate. rewrite (law_total Law b Hm).
  pose proof (popcount_clear_count (bytes b)). lia.
Qed.

Lemma Init_valid_accurate (gid : Z) (data : list Z) (b : T) :
  wf data -> Iface.Init gid data = Done b -> valid b /\ accurate b.
Proof.
  intros Hw Hi. destruct (law_init Law gid data b Hw Hi) as [Hv [Hb [_ Hf]]].
  split; [exact Hv|]. apply accurate_iff; [exact Hv|]. rewrite Hb. exact Hf.
Qed.

(** What one call of [AllocBits] keeps. *)
Lemma AllocBits_step (b : T) (numBits hlimit : Z) (bigAlloc : bool)
  (addrs : list Z) (n : Z) (b' : T) :
  valid b ->
  Iface.AllocBits b numBits hlimit bigAlloc = Some (addrs, n, b') ->
  valid b'
  /\ group b' = group b
  /\ kept (group b) (mkScan (bytes b) (Iface.FreeBits b) [] 0)
          (mkScan (bytes b') (Iface.FreeBits b') addrs n).
Proof.
  intros Hv H. pose proof Hv as [Hw [Hm Hp]].
  destruct (law_alloc Law b numBits hlimit bigAlloc Hv)
    as [addrs0 [n0 [b0 [E [Hg Hc]]]]].
  rewrite E in H. inversion H; subst addrs0 n0 b0. clear H.
  pose proof (law_unit Law) as Hu.
  assert (Hl : 0 <= cursor b) by (destruct Hp; lia).
  assert (Hs : 0 <= unit_bits * cursor b) by (apply Z.mul_nonneg_nonneg; lia).
  assert (K := call_kept _ _ _ _ _ _ _ _ _ _ _ _ _ Hw Hs Hc).
  split; [|split; [exact Hg|exact K]].
  pose proof (k_len _ _ _ K) as HL. cbn [s_bits] in HL.
  split; [apply (k_wf _ _ _ K)|]. split.
  - unfold size, len in *. rewrite HL. exact Hm.
  - exact (call_pos_ok _ _ _ _ _ _ _ _ _ _ _ _ _ Hw Hu Hl Hm Hc).
Qed.

Lemma AllocBits_accurate (b : T) (numBits hlimit : Z) (bigAlloc : bool)
  (addrs : list Z) (n : Z) (b' : T) :
  valid b -> accurate b ->
  Iface.AllocBits b numBits hlimit bigAlloc = Some (addrs, n, b') ->
  valid b' /\ accurate b'.
Proof.
  intros Hv Ha H.
  destruct (AllocBits_step _ _ _ _ _ _ _ Hv H) as [Hv' [_ K]].
  split; [exact Hv'|]. apply accurate_iff; [exact Hv'|].
  apply (accurate_iff b Hv) in Ha.
  pose proof (k_free _ _ _ K) as F. pose proof (k_count _ _ _ K) as C.
  cbn [s_bits s_free s_cnt] in F, C. lia.
Qed.

Lemma ClearBits_accurate (b : T) (ptrs : list Z) (b' : T) :
  valid b -> accurate b ->
  cleared_while_set (group b) (bytes b) ptrs ->
  Iface.ClearBits b ptrs = Done b' ->
  valid b' /\ accurate b'.
Proof.
  intros Hv Ha Hpre H. pose proof Hv as [Hw [Hm Hp]].
  pose proof (law_clear Law b ptrs) as Hc. rewrite H in Hc.
  destruct (batchClearBits (group b) (bytes b) ptrs) as [[buf' c]|] eqn:E;
    [|contradiction].
  destruct Hc as [Hb [Hf [Hg Hl]]].
  destruct (clear_set_bits _ _ _ _ _ Hw Hpre E) as [W [Len C]].
  pose proof (batchClearBits_count _ _ _ _ _ E) as Hcnt.
  assert (Hv' : valid b').
  { unfold valid. rewrite Hb, Hl. split; [exact W|].
    unfold pos_ok, size, len in *. rewrite Len. split; assumption. }
  split; [exact Hv'|]. apply accurate_iff; [exact Hv'|].
  apply (accurate_iff b Hv) in Ha. rewrite Hb. lia.
Qed.

Lemma history_accurate (b : T) (ops : list op) (l : list T) :
  history b ops l -> valid b -> accurate b -> Forall accurate l.
Proof.
  induction 1 as [b|b nb hl big addrs n b' ops l Ha Hh IH|b ptrs b' ops l Hpre Hc Hh IH];
    intros Hv Hacc.
  - constructor.
  - destruct (AllocBits_accurate _ _ _ _ _ _ _ Hv Hacc Ha) as [Hv' Ha'].
    constructor; [exact Ha'|apply IH; assumption].
  - destruct (ClearBits_accurate _ _ _ Hv Hacc Hpre Hc) as [Hv' Ha'].
    constructor; [exact Ha'|apply IH; assumption].
Qed.

Lemma Init_history_accurate (gid : Z) (data : list Z) (b0 : T) (ops : list op) (l : list T) :
  wf data -> Iface.Init gid data = Done b0 -> history b0 ops l ->
  accurate b0 /\ Forall accurate l.
Proof.
  intros Hw Hi Hh. destruct (Init_valid_accurate gid data b0 Hw Hi) as [Hv Ha].
  split; [exact Ha|]. eapply history_accurate; eauto.
Qed.

(** The big addresses that a call returns. *)
Lemma AllocBits_big (b : T) (numBits hlimit : Z) (bigAlloc : bool)
  (addrs : list Z) (n : Z) (b' : T) (a : Z) :
  valid b -> 0 <= group b <= 2047 -> size (bytes b) <= 2 ^ 20 ->
  Iface.AllocBits b numBits hlimit bigAlloc = Some (addrs, n, b') ->
  In a addrs -> EntAddr.big_of a > 0 ->
  fresh_run b b' a.
Proof.
  intros Hv Hg Hsz H Hin Hbig.
  destruct (AllocBits_step _ _ _ _ _ _ _ Hv H) as [_ [_ K]].
  exact (BigFacts.kept_big _
           (mkScan (bytes b) (Iface.FreeBits b) [] 0)
           (mkScan (bytes b') (Iface.FreeBits b') addrs n)
           a Hg Hsz K eq_refl Hin Hbig).
Qed.

(** A call of [AllocBits] on a valid bitmap returns, and what it returns. *)
Lemma AllocBits_total (b : T) (numBits hlimit : Z) (bigAlloc : bool) :
  valid b ->
  exists addrs n b',
    Iface.AllocBits b numBits hlimit bigAlloc = Some (addrs, n, b')
    /\ valid b'
    /\ group b' = group b
    /\ Datatypes.length (bytes b') = Datatypes.length (bytes b)
    /\ (forall i, bit (bytes b) i = true -> bit (bytes b') i = true)
    /\ 0 <= n
    /\ Iface.FreeBits b' = Iface.FreeBits b - n
    /\ clear_count (bytes b') = clear_count (bytes b) - n.
Proof.
  intros Hv.
  destruct (law_alloc Law b numBits hlimit bigAlloc Hv) as [addrs [n [b' [E _]]]].
  exists addrs, n, b'. split; [exact E|].
  destruct (AllocBits_step _ _ _ _ _ _ _ Hv E) as [Hv' [Hg K]].
  pose proof (k_len _ _ _ K) as HL. pose proof (k_mono _ _ _ K) as HM.
  pose proof (k_cnt _ _ _ K) as HC. pose proof (k_free _ _ _ K) as HF.
  pose proof (k_count _ _ _ K) as HN.
  cbn [s_bits s_free s_cnt] in HL, HM, HC, HF, HN.
  repeat (split; [assumption || lia|]). lia.
Qed.

End Lawful.

(** Every bit of an array of zero bytes is clear. *)
Lemma zeros_clear (n : nat) (lo hi : Z) : range_clear (repeat 0 n) lo hi.
Proof.
  intros i _. unfold bit, get.
  assert (E : nth (Z.to_nat (i / 8)) (repeat 0 n) 0 = 0).
  { destruct (Nat.lt_ge_cases (Z.to_nat (i / 8)) n) as [Hlt|Hge].
    - apply nth_repeat_lt. exact Hlt.
    - apply nth_overflow. rewrite repeat_length. exact Hge. }
  rewrite E, Z.testbit_0_l. apply andb_false_r.
Qed.

End LawFacts.

(** C4: after [Init] on a byte array, and after every call of a sequence of
    [AllocBits] and [ClearBits] calls in which [ClearBits] only clears
    addresses whose bits are set, [total_bits = free_bits + popcount], for
    [Bitmap64] and for [BitmapBase]. *)
Theorem free_bits_plus_popcount_is_total (gid : Z) (data : list Z) :
  Bits.wf data ->
  (forall (b0 : B64.t) (ops : list BitmapSpec.op) (l : list B64.t),
      B64.Init gid data = Done b0 ->
      BitmapSpec.history b0 ops l ->
      BitmapSpec.accurate b0 /\ Forall BitmapSpec.accurate l)
  /\ (forall (ops : list BitmapSpec.op) (l : list Base.t),
      BitmapSpec.history (Base.Init gid data) ops l ->
      BitmapSpec.accurate (Base.Init gid data) /\ Forall BitmapSpec.accurate l).
Proof.
  intros Hw. split.
  - intros b0 ops l Hi Hh.
    exact (LawFacts.Init_history_accurate LawFacts.Bitmap64_lawful gid data b0 ops l Hw Hi Hh).
  - intros ops l Hh.
    exact (LawFacts.Init_history_accurate LawFacts.BitmapBase_lawful gid data _ ops l Hw
             eq_refl Hh).
Qed.

Lemma free_bits_plus_popcount_is_total_witness :
  (exists (b0 : B64.t) (l : list B64.t),
      B64.Init 1 (repeat 0 16) = Done b0
      /\ BitmapSpec.history b0
           [BitmapSpec.Alloc 3 3 false; BitmapSpec.Clear [0x00100001];
            BitmapSpec.Alloc 64 1 true] l
      /\ BitmapSpec.accurate b0 /\ Forall BitmapSpec.accurate l)
  /\ (exists l : list Base.t,
      BitmapSpec.history (Base.Init 1 (repeat 0 16))
        [BitmapSpec.Alloc 3 3 false; BitmapSpec.Clear [0x00100001];
         BitmapSpec.Alloc 64 1 true] l
      /\ BitmapSpec.accurate (Base.Init 1 (repeat 0 16))
      /\ Forall BitmapSpec.accurate l).
Proof.
  assert (Hw : Bits.wf (repeat 0 16)).
  { repeat constructor; unfold is_u8; lia. }
  assert (Hset : forall buf : list Z,
             Bits.bit buf 1 = true ->
             ClearSpec.cleared_while_set 1 buf [0x00100001]).
  { intros buf Hb. cbn [ClearSpec.cleared_while_set]. split; [|intros; exact I].
    unfold ClearSpec.addr_set, Bits.range_set. intros i.
    change (EntAddr.idx_of 1048577) with 1. change (AddrSpec.nbits 1048577) with 1.
    intros Hi. assert (i = 1) as -> by lia. exact Hb. }
  destruct (free_bits_plus_popcount_is_total 1 (repeat 0 16) Hw) as [T64 T8].
  split.
  - assert (Hh : exists l, BitmapSpec.history (B64.mk (repeat 0 16) 128 1 0)
           [BitmapSpec.Alloc 3 3 false; BitmapSpec.Clear [0x00100001];
            BitmapSpec.Alloc 64 1 true] l).
    { eexists.
      eapply BitmapSpec.history_alloc; [vm_compute; reflexivity|].
      eapply BitmapSpec.history_clear;
        [apply Hset; vm_compute; reflexivity|vm_compute; reflexivity|].
      eapply BitmapSpec.history_alloc; [vm_compute; reflexivity|].
      apply BitmapSpec.history_nil. }
    destruct Hh as [l Hh].
    exists (B64.mk (repeat 0 16) 128 1 0), l.
    split; [reflexivity|]. split; [exact Hh|].
    exact (T64 _ _ l eq_refl Hh).
  - assert (Hh : exists l, BitmapSpec.history (Base.Init 1 (repeat 0 16))
           [BitmapSpec.Alloc 3 3 false; BitmapSpec.Clear [0x00100001];
            BitmapSpec.Alloc 64 1 true] l).
    { eexists.
      eapply BitmapSpec.history_alloc; [vm_compute; reflexivity|].
      eapply BitmapSpec.history_clear;
        [apply Hset; vm_compute; reflexivity|vm_compute; reflexivity|].
      eapply BitmapSpec.history_alloc; [vm_compute; reflexivity|].
      apply BitmapSpec.history_nil. }
    destruct Hh as [l Hh].
    exists l. split; [exact Hh|]. exact (T8 _ l Hh).
Defined.

(** C5, the run of a big address starts at a multiple of 64: refuted. From
    a bitmap whose only set bit is bit 0, [AllocBits(64, 1, true)] returns
    one big address, and its run starts at bit 1. *)
Lemma big_run_starts_at_first_free_bit :
  exists b b',
    B64.Init 1 (1 :: repeat 0 23) = Done b
    /\ B64.AllocBits b 64 1 true = Some ([0x80100001], 64, b')
    /\ EntAddr.GetAddr 0x80100001 = (1, 1, 1)
    /\ ~ big_runs_are_aligned.
Proof.
  exists (B64.mk (1 :: repeat 0 23) 191 1 0).
  eexists. split; [vm_compute; reflexivity|].
  split; [vm_compute; reflexivity|]. split; [reflexivity|].
  intros H.
  assert (Hv : BitmapSpec.valid (B64.mk (1 :: repeat 0 23) 191 1 0)).
  { split; [|split; [reflexivity|left; reflexivity]].
    repeat constructor; unfold is_u8; lia. }
  specialize (H _ 64 1 true _ _ _ Hv eq_refl 0x80100001 (or_introl eq_refl)).
  vm_compute in H. specialize (H eq_refl). discriminate.
Qed.

(** C5, as the code has it: in a bitmap of at most [2^20] bits of a group
    [<= 2047], every address with the big flag that [AllocBits] returns
    stands for 64 bits; they start at the index the address carries, were
    all clear before the call, are all set after it, and end before the
    last bit of the bitmap.  This holds for [Bitmap64] and for [BitmapBase]
    (with its [trySet64Bits]); nothing makes the index a multiple of 64. *)
Theorem big_address_is_a_fresh_run_inside :
  (forall (b : B64.t) (numBits hlimit : Z) (bigAlloc : bool)
          (addrs : list Z) (n : Z) (b' : B64.t) (a : Z),
      BitmapSpec.valid b ->
      0 <= B64.GroupId b <= 2047 ->
      Bits.size (B64.buffer b) <= 2 ^ 20 ->
      B64.AllocBits b numBits hlimit bigAlloc = Some (addrs, n, b') ->
      In a addrs -> EntAddr.big_of a > 0 ->
      BitmapSpec.fresh_run b b' a)
  /\ (forall (b : Base.t) (numBits hlimit : Z) (bigAlloc : bool)
             (addrs : list Z) (n : Z) (b' : Base.t) (a : Z),
      BitmapSpec.valid b ->
      0 <= Base.GroupId b <= 2047 ->
      Bits.size (Base.bits b) <= 2 ^ 20 ->
      Base.AllocBits b numBits hlimit bigAlloc = Some (addrs, n, b') ->
      In a addrs -> EntAddr.big_of a > 0 ->
      BitmapSpec.fresh_run b b' a).
Proof.
  split; intros b numBits hlimit bigAlloc addrs n b' a Hv Hg Hsz H Hin Hbig.
  - exact (LawFacts.AllocBits_big LawFacts.Bitmap64_lawful b numBits hlimit bigAlloc
             addrs n b' a Hv Hg Hsz H Hin Hbig).
  - exact (LawFacts.AllocBits_big LawFacts.BitmapBase_lawful b numBits hlimit bigAlloc
             addrs n b' a Hv Hg Hsz H Hin Hbig).
Qed.

Lemma big_address_is_a_fresh_run_inside_witness :
  BitmapSpec.fresh_run
    (B64.mk (1 :: repeat 0 23) 191 1 0)
    (B64.mk (255 :: repeat 255 7 ++ 1 :: repeat 0 15) 127 1 0) 0x80100001
  /\ BitmapSpec.fresh_run
       (Base.mk (1 :: repeat 0 23) 191 1 0)
       (Base.mk (255 :: repeat 255 7 ++ 1 :: repeat 0 15) 127 1 0) 0x80100001.
Proof.
  assert (Hw : Bits.wf (1 :: repeat 0 23)).
  { repeat constructor; unfold is_u8; lia. }
  destruct big_address_is_a_fresh_run_inside as [T64 T8].
  split.
  - refine (T64 (B64.mk (1 :: repeat 0 23) 191 1 0) 64 1 true [0x80100001] 64
              (B64.mk (255 :: repeat 255 7 ++ 1 :: repeat 0 15) 127 1 0) 0x80100001
              _ _ _ _ (or_introl eq_refl) _).
    + split; [exact Hw|]. split; [reflexivity|left; reflexivity].
    + cbn. lia.
    + vm_compute. discriminate.
    + vm_compute. reflexivity.
    + vm_compute. reflexivity.
  - refine (T8 (Base.mk (1 :: repeat 0 23) 191 1 0) 64 1 true [0x80100001] 64
              (Base.mk (255 :: repeat 255 7 ++ 1 :: repeat 0 15) 127 1 0) 0x80100001
              _ _ _ _ (or_introl eq_refl) _).
    + split; [exact Hw|]. split; [reflexivity|left; reflexivity].
    + cbn. lia.
    + vm_compute. discriminate.
    + vm_compute. reflexivity.
    + vm_compute. reflexivity.
Defined.

Lemma total_bits_nonneg (ptrs : list Z) : 0 <= AddrSpec.total_bits ptrs.
Proof.
  induction ptrs as [|p rest IH]; cbn [AddrSpec.total_bits]; [lia|].
  unfold AddrSpec.nbits. destruct (EntAddr.big_of p >? 0); lia.
Qed.

Lemma total_bits_pos (ptrs : list Z) : ptrs <> [] -> 0 < AddrSpec.total_bits ptrs.
Proof.
  destruct ptrs as [|p rest]; [congruence|]. intros _. cbn [AddrSpec.total_bits].
  pose proof (total_bits_nonneg rest).
  unfold AddrSpec.nbits. destruct (EntAddr.big_of p >? 0); lia.
Qed.

(** C10: a call of [ClearBits] that returns has added to [freeBits] the
    number of bits its addresses stand for, 1 for a single address and 64
    for a big one, whatever those bits were, in both bitmaps.  When
    [freeBits] was the number of clear bits and the bits of every address
    were clear already, the number of clear bits stays as it was, so that
    [freeBits] is above it afterwards. *)
Theorem ClearBits_counts_addresses_not_bits
  (gid : Z) (buf : list Z) (free lastPos : Z) (ptrs : list Z)
  (buf' : list Z) (c : Z) :
  Bitmap.batchClearBits gid buf ptrs = Done (buf', c) ->
  c = AddrSpec.total_bits ptrs
  /\ Base.ClearBits (Base.mk buf free gid lastPos) ptrs
     = Done (Base.mk buf' (free + AddrSpec.total_bits ptrs) gid lastPos)
  /\ B64.ClearBits (B64.mk buf free gid lastPos) ptrs
     = Done (B64.mk buf' (free + AddrSpec.total_bits ptrs) gid lastPos)
  /\ (Bits.wf buf ->
      (forall p, In p ptrs -> ClearSpec.addr_clear buf p) ->
      free = Bits.clear_count buf ->
      Bits.clear_count buf' = Bits.clear_count buf
      /\ (ptrs <> [] -> free + AddrSpec.total_bits ptrs > Bits.clear_count buf')).
Proof.
  intros H. pose proof (ClearFacts.batchClearBits_count _ _ _ _ _ H) as Hc.
  split; [exact Hc|]. subst c.
  unfold Base.ClearBits, B64.ClearBits.
  cbn [Base.GroupId Base.bits Base.freeBits Base.lastPos
       B64.GroupId B64.buffer B64.freeBits B64.lastPos].
  rewrite H. split; [reflexivity|]. split; [reflexivity|].
  intros Hw Hpre Hf.
  pose proof (CallFacts.clear_clear_bits gid ptrs buf buf' _ Hw Hpre H) as E.
  split; [exact E|]. intros Hne. pose proof (total_bits_pos ptrs Hne). lia.
Qed.

Lemma ClearBits_counts_addresses_not_bits_witness :
  65 = AddrSpec.total_bits [0x00100003; 0x80100008]
  /\ Base.ClearBits (Base.mk (repeat 0 24) 192 1 0) [0x00100003; 0x80100008]
     = Done (Base.mk (repeat 0 24)
               (192 + AddrSpec.total_bits [0x00100003; 0x80100008]) 1 0)
  /\ B64.ClearBits (B64.mk (repeat 0 24) 192 1 0) [0x00100003; 0x80100008]
     = Done (B64.mk (repeat 0 24)
               (192 + AddrSpec.total_bits [0x00100003; 0x80100008]) 1 0)
  /\ Bits.clear_count (repeat 0 24) = Bits.clear_count (repeat 0 24)
  /\ ([0x00100003; 0x80100008] <> [] ->
      192 + AddrSpec.total_bits [0x00100003; 0x80100008]
      > Bits.clear_count (repeat 0 24)).
Proof.
  destruct (ClearBits_counts_addresses_not_bits 1 (repeat 0 24) 192 0
              [0x00100003; 0x80100008] (repeat 0 24) 65) as [A [B [C D]]].
  - vm_compute. reflexivity.
  - split; [exact A|]. split; [exact B|]. split; [exact C|].
    apply D.
    + repeat constructor; unfold is_u8; lia.
    + intros p _. apply LawFacts.zeros_clear.
    + vm_compute. reflexivity.
Defined.

(** X3, [AllocBits] returns, and only sets bits: on a bitmap whose array is
    made of bytes and of whole scan units, with [lastPos] at one of them,
    every call of [AllocBits], of [Bitmap64] and of [BitmapBase], returns;
    the bitmap it leaves is such a bitmap again, of the same group and with
    as many bytes; no bit that was set is clear afterwards; and the count
    the call returns is not negative and is what [freeBits] and the number
    of clear bits of the array fall by. *)
Theorem AllocBits_returns_and_only_sets_bits
  (numBits hlimit : Z) (bigAlloc : bool) :
  (forall b : B64.t,
      BitmapSpec.valid b ->
      exists addrs n b',
        B64.AllocBits b numBits hlimit bigAlloc = Some (addrs, n, b')
        /\ BitmapSpec.valid b'
        /\ B64.GroupId b' = B64.GroupId b
        /\ Datatypes.length (B64.buffer b') = Datatypes.length (B64.buffer b)
        /\ (forall i, Bits.bit (B64.buffer b) i = true
                      -> Bits.bit (B64.buffer b') i = true)
        /\ 0 <= n
        /\ B64.freeBits b' = B64.freeBits b - n
        /\ Bits.clear_count (B64.buffer b') = Bits.clear_count (B64.buffer b) - n)
  /\ (forall b : Base.t,
      BitmapSpec.valid b ->
      exists addrs n b',
        Base.AllocBits b numBits hlimit bigAlloc = Some (addrs, n, b')
        /\ BitmapSpec.valid b'
        /\ Base.GroupId b' = Base.GroupId b
        /\ Datatypes.length (Base.bits b') = Datatypes.length (Base.bits b)
        /\ (forall i, Bits.bit (Base.bits b) i = true
                      -> Bits.bit (Base.bits b') i = true)
        /\ 0 <= n
        /\ Base.freeBits b' = Base.freeBits b - n
        /\ Bits.clear_count (Base.bits b') = Bits.clear_count (Base.bits b) - n).
Proof.
  split; intros b Hv.
  - exact (LawFacts.AllocBits_total LawFacts.Bitmap64_lawful b numBits hlimit bigAlloc Hv).
  - exact (LawFacts.AllocBits_total LawFacts.BitmapBase_lawful b numBits hlimit bigAlloc Hv).
Qed.

Lemma AllocBits_returns_and_only_sets_bits_witness :
  (exists addrs n b',
      B64.AllocBits (B64.mk (1 :: repeat 0 23) 191 1 0) 64 1 true = Some (addrs, n, b')
      /\ 0 <= n /\ B64.freeBits b' = 191 - n)
  /\ (exists addrs n b',
      Base.AllocBits (Base.mk (1 :: repeat 0 23) 191 1 0) 64 1 true = Some (addrs, n, b')
      /\ 0 <= n /\ Base.freeBits b' = 191 - n).
Proof.
  assert (Hw : Bits.wf (1 :: repeat 0 23)).
  { repeat constructor; unfold is_u8; lia. }
  destruct (AllocBits_returns_and_only_sets_bits 64 1 true) as [T64 T8].
  split.
  - destruct (T64 (B64.mk (1 :: repeat 0 23) 191 1 0))
      as (addrs & n & b' & E & _ & _ & _ & _ & Hn & Hf & _).
    + split; [exact Hw|]. split; [reflexivity|left; reflexivity].
    + exists addrs, n, b'. split; [exact E|]. split; [exact Hn|exact Hf].
  - destruct (T8 (Base.mk (1 :: repeat 0 23) 191 1 0))
      as (addrs & n & b' & E & _ & _ & _ & _ & Hn & Hf & _).
    + split; [exact Hw|]. split; [reflexivity|left; reflexivity].
    + exists addrs, n, b'. split; [exact E|]. split; [exact Hn|exact Hf].
Defined.

(** The handle limit bounds each scan, not the call: the second scan of a
    call that wraps around gets [hlimit] as it was.  On a bitmap of 128
    bits of which bits 0, 1, 2 and 127 are clear and [lastPos] is at the
    last unit, [AllocBits(3, 2, false)] returns three addresses: that of bit
    127, and those of bits 0 and 1 from the second scan. *)
Lemma AllocBits_after_wrap_exceeds_hlimit :
  (exists b1 b2 b3,
      B64.Init 1 (repeat 0 16) = Done b1
      /\ B64.AllocBits b1 127 200 false
         = Some (map (fun i => EntAddr.MakeEntAddr i 1 false)
                     (map Z.of_nat (seq 0 127)), 127, b2)
      /\ B64.lastPos b2 = 1
      /\ B64.ClearBits b2 [0x00100000; 0x00100001; 0x00100002] = Done b3
      /\ exists b4,
           B64.AllocBits b3 3 2 false
           = Some ([0x0010007F; 0x00100000; 0x00100001], 3, b4))
  /\ (exists b2 b3,
      Base.AllocBits (Base.Init 1 (repeat 0 16)) 127 200 false
      = Some (map (fun i => EntAddr.MakeEntAddr i 1 false)
                  (map Z.of_nat (seq 0 127)), 127, b2)
      /\ Base.lastPos b2 = 15
      /\ Base.ClearBits b2 [0x00100000; 0x00100001; 0x00100002] = Done b3
      /\ exists b4,
           Base.AllocBits b3 3 2 false
           = Some ([0x0010007F; 0x00100000; 0x00100001], 3, b4)).
Proof.
  split.
  - eexists _, _, _. split; [vm_compute; reflexivity|].
    split; [vm_compute; reflexivity|]. split; [reflexivity|].
    split; [vm_compute; reflexivity|]. eexists. vm_compute. reflexivity.
  - eexists _, _. split; [vm_compute; reflexivity|]. split; [reflexivity|].
    split; [vm_compute; reflexivity|]. eexists. vm_compute. reflexivity.
Qed.
(* ------------------------------------------------------------------ *)
(** ** The file system: running [SeekPos] and [Write] on a stream *)

Module SeekFacts.
Import FS.

(** *** Running the state monad *)

Lemma run_bind {S A B : Type} (m : M S A) (k : A -> M S B) (s : S) (a : A) (s' : S) :
  m s = Value (a, s') -> bind m k s = k a s'.
Proof. unfold bind. intros ->. reflexivity. Qed.

Lemma bind_assoc {S A B C : Type} (m : M S A) (f : A -> M S B) (g : B -> M S C) (s : S) :
  bind (bind m f) g s = bind m (fun a => bind (f a) g) s.
Proof. unfold bind. destruct (m s) as [[a s']| |]; reflexivity. Qed.

Ltac step := repeat rewrite bind_assoc; erewrite run_bind by reflexivity.

Lemma inode_at (fs : FileSystem) (vf : Vfile) (node : Inode.t) :
  Inode_ vf = Some node -> inode (fs, vf) = Value (node, (fs, vf)).
Proof. unfold inode, bind, gets. cbn [snd]. intros ->. reflexivity. Qed.

Lemma index_head {S A : Type} (a : A) (rest : list A) (s : S) :
  index (a :: rest) 0 s = Value (a, s).
Proof.
  unfold index. cbn [length]. rewrite Nat2Z.inj_succ.
  destruct (Z.ltb_spec 0 (Z.succ (Z.of_nat (length rest)))); [|lia].
  reflexivity.
Qed.

Lemma blksize_small (bs p : Z) : EntAddr.big_of p = 0 -> blksize_of bs p = bs.
Proof.
  unfold blksize_of, EntAddr.big_of.
  destruct (EntAddr.GetAddr p) as [[i g] big]. cbn [snd]. intros ->. reflexivity.
Qed.

Lemma seek_first_block (fs : FileSystem) (vf : Vfile) (node : Inode.t)
  (p : Z) (rest : list Z) (pos : Z) :
  Inode_ vf = Some node ->
  Inode.DirectPointers node = p :: rest ->
  p <> 0 -> EntAddr.big_of p = 0 ->
  0 < Inode.MetaSize node < SuperBlock.BlockSize (Smeta fs) ->
  0 <= pos < SuperBlock.BlockSize (Smeta fs) - Inode.MetaSize node ->
  SeekPos pos (fs, vf)
  = Value (mkOffset pos 0 (Inode.MetaSize node + pos), None,
           (fs, mkVfile (FileId vf) (Meta vf) (Inodeptr vf) (Some node)
                  (mkOffset pos 0 (Inode.MetaSize node + pos)))).
Proof.
  intros Hn Hd Hp Hbig Hm Hpos.
  destruct vf as [fid meta iptr ino o]. cbn [Inode_] in Hn. subst ino.
  unfold SeekPos.
  erewrite run_bind by (apply inode_at; reflexivity).
  erewrite run_bind by reflexivity.
  set (bs := SuperBlock.BlockSize (Smeta fs)) in *.
  assert (Hclamp : exists o', 
    (if pos >=? Inode.FileSize node
     then if bs =? 0 then panic
          else set_off (fun _ => mkOffset (Inode.FileSize node)
                                   (u32 (Inode.Blocks node - 1))
                                   (Inode.DataSize node mod bs))
     else ret tt) (fs, mkVfile fid meta iptr (Some node) o)
    = Value (tt, (fs, mkVfile fid meta iptr (Some node) o'))).
  { destruct (pos >=? Inode.FileSize node).
    - destruct (Z.eqb_spec bs 0); [lia|]. eexists. reflexivity.
    - eexists. reflexivity. }
  destruct Hclamp as [o' Hclamp].
  erewrite run_bind by exact Hclamp.
  erewrite run_bind by reflexivity.
  erewrite run_bind by reflexivity.
  erewrite run_bind by reflexivity.
  cbn [fst snd FileId Meta Inodeptr Inode_ offset_ with_blkRemOffset with_offset
       with_blockIdx offset blockIdx blkRemOffset].
  change (Z.to_nat DirectBlocks) with 8%nat. cbn [seek_direct].
  rewrite !bind_assoc.
  erewrite run_bind by (apply inode_at; reflexivity).
  rewrite Hd. rewrite !bind_assoc.
  erewrite run_bind by apply index_head.
  destruct (Z.eqb_spec p 0) as [|_]; [contradiction|].
  step. step. step.
  cbn [fst snd FileId Meta Inodeptr Inode_ offset_ with_blkRemOffset with_offset
       with_blockIdx offset blockIdx blkRemOffset].
  rewrite blksize_small by exact Hbig.
  fold bs.
  destruct (Z.eqb_spec (Inode.MetaSize node) 0) as [|_]; [lia|]. cbn [negb].
  destruct (Z.gtb_spec (0 + (bs - Inode.MetaSize node)) pos) as [_|]; [|lia].
  step. step. step.
  unfold ret.
  cbn [fst snd FileId Meta Inodeptr Inode_ offset_ with_blkRemOffset with_offset
       with_blockIdx offset blockIdx blkRemOffset].
  rewrite Z.sub_0_r. reflexivity.
Qed.
End SeekFacts.

Module WriteFacts.
Import FS.
Import SeekFacts.

Lemma returns_bind {S A B : Type} (m : M S A) (k : A -> M S B) (s : S)
  (Q : B -> S -> Prop) :
  FSSpec.returns (m s) (fun a s' => FSSpec.returns (k a s') Q) ->
  FSSpec.returns (bind m k s) Q.
Proof. unfold bind. destruct (m s) as [[a s']| |]; cbn; auto. Qed.

Lemma returns_weaken {S A : Type} (r : result (A * S)) (P Q : A -> S -> Prop) :
  FSSpec.returns r P -> (forall a s, P a s -> Q a s) -> FSSpec.returns r Q.
Proof. destruct r as [[a s]| |]; cbn; auto. Qed.

Lemma returns_lift {A : Type} (m : FSM A) (fs : FileSystem) (vf : Vfile)
  (Q : A -> VS -> Prop) :
  FSSpec.returns (m fs) (fun a fs' => Q a (fs', vf)) ->
  FSSpec.returns (lift m (fs, vf)) Q.
Proof. unfold lift. cbn [fst snd]. destruct (m fs) as [[a s']| |]; cbn; auto. Qed.

Lemma returns_any {S A : Type} (r : result (A * S)) :
  FSSpec.returns r (fun _ _ => True).
Proof. destruct r as [[a s]| |]; cbn; auto. Qed.

Lemma index_nth {S A : Type} (l : list A) (i : Z) (a : A) (s : S) :
  0 <= i -> nth_error l (Z.to_nat i) = Some a -> index l i s = Value (a, s).
Proof.
  intros Hi Hn. unfold index.
  assert (Z.to_nat i < length l)%nat by (apply nth_error_Some; congruence).
  destruct (Z.leb_spec 0 i); [|lia].
  destruct (Z.ltb_spec i (Z.of_nat (length l))); [|lia].
  cbn [andb]. rewrite Hn. reflexivity.
Qed.

Lemma slice_all (data : list Z) : slice data 0 (len data) = data.
Proof.
  unfold slice, len. rewrite Z.sub_0_r, Nat2Z.id. cbn [Z.to_nat skipn].
  apply firstn_all.
Qed.

Lemma from_all (data : list Z) : from data (len data) = [].
Proof. unfold from, len. rewrite Nat2Z.id. apply skipn_all. Qed.

(** [writeBlock] with data that ends before the end of the block: all of
    the data is written, and the offset in the block moves on by its
    length. *)
Lemma writeBlock_inside (p : Z) (data : list Z) (r : Z) (fs : FileSystem) :
  0 <= r ->
  r + len data < blksize_of (SuperBlock.BlockSize (Smeta fs)) p ->
  FSSpec.returns (writeBlock p data r fs)
    (fun res _ => snd res = None ->
                  fst (fst res) = len data /\ snd (fst res) = r + len data).
Proof.
  intros Hr Hlen. unfold writeBlock, blksize_of in *.
  destruct (EntAddr.GetAddr p) as [[idx group] isBig].
  erewrite run_bind by reflexivity.
  set (size := if isBig >? 0 then 64 * SuperBlock.BlockSize (Smeta fs)
               else SuperBlock.BlockSize (Smeta fs)) in *.
  pose proof (BitFacts.len_nonneg data) as Hd.
  destruct (Z.geb_spec r size); [lia|].
  destruct (Z.geb_spec (len data) (size - r)); [lia|].
  erewrite run_bind by reflexivity.
  apply returns_bind.
  eapply returns_weaken; [apply returns_any|]. intros [e|] fs1 _.
  - cbn. discriminate.
  - destruct (Z.ltb_spec (len data) 0); [lia|].
    apply returns_bind. rewrite slice_all.
    unfold file_WriteAt. apply returns_bind.
    eapply returns_weaken; [apply returns_any|]. intros v fs2 _.
    destruct (Volume.file v) as [f|]; [|cbn; discriminate].
    destruct (_ <? 0); [cbn; discriminate|].
    cbn. auto.
Qed.

Section InBlock.
Variables (fs : FileSystem) (vf : Vfile) (node : Inode.t) (p : Z) (data : list Z).
Hypothesis Hnode : Inode_ vf = Some node.
Hypothesis Hidx : 0 <= blockIdx (offset_ vf) < DirectBlocks.
Hypothesis Hptr :
  nth_error (Inode.DirectPointers node) (Z.to_nat (blockIdx (offset_ vf))) = Some p.
Hypothesis Hp : p <> 0.
Hypothesis Hrem : 0 <= blkRemOffset (offset_ vf).
Hypothesis Hlen :
  blkRemOffset (offset_ vf) + len data < blksize_of (SuperBlock.BlockSize (Smeta fs)) p.

(** [vf.Inode] after [vf.Inode.FileSize += uint64(wtn)] for all of [data] *)
Let grown : Inode.t :=
  Inode.with_FileSize node (u64 (Inode.FileSize node + len data)).

Lemma write_direct_inside (fuel : nat) :
  FSSpec.returns (write_direct (S fuel) data 0 (fs, vf))
    (fun res s' =>
       exists n e, snd res = Some (n, e)
                   /\ (e = None -> n = len data /\ Inode_ (snd s') = Some grown)).
Proof.
  destruct vf as [fid meta iptr ino o]. cbn [Inode_ offset_] in *. subst ino.
  cbn [write_direct].
  erewrite run_bind by reflexivity. cbn [snd offset_].
  destruct (Z.ltb_spec (blockIdx o) DirectBlocks); [|lia].
  erewrite run_bind by (apply inode_at; reflexivity).
  erewrite run_bind by (apply index_nth; [lia|exact Hptr]).
  destruct (Z.eqb_spec p 0) as [|_]; [contradiction|]. cbn [negb].
  rewrite !bind_assoc. apply returns_bind. apply returns_lift.
  eapply returns_weaken; [apply writeBlock_inside; assumption|].
  intros [[wtn broff] [e|]] fs1 HW; cbn [fst snd] in HW.
  - step. cbn. eexists _, _. split; [reflexivity|discriminate].
  - destruct (HW eq_refl) as [-> ->]. clear HW.
    rewrite !bind_assoc. step. rewrite !bind_assoc. step.
    unfold sync. rewrite !bind_assoc.
    erewrite run_bind by (apply inode_at; reflexivity).
    step. apply returns_bind. apply returns_lift.
    eapply returns_weaken; [apply returns_any|]. intros [e|] fs2 _.
    + step. cbn. eexists _, _. split; [reflexivity|discriminate].
    + step. rewrite from_all. change (len [] =? 0) with true. cbn.
      eexists _, _. split; [reflexivity|]. intros _. split; [lia|reflexivity].
Qed.

Lemma Write_inside :
  FSSpec.returns (Write data (fs, vf))
    (fun res s' =>
       snd res = None -> fst res = len data /\ Inode_ (snd s') = Some grown).
Proof.
  unfold Write. erewrite run_bind by reflexivity. cbn [snd]. rewrite Hnode.
  change 16%nat with (S 15). apply returns_bind.
  eapply returns_weaken; [apply write_direct_inside|].
  intros [[d t] r] s' (n & e & Hr & H). cbn [snd] in Hr. subst r.
  cbn. exact H.
Qed.

End InBlock.

End WriteFacts.

(* ------------------------------------------------------------------ *)
(** ** The file system: files, sizes and positions *)

Module FSFacts.
Import FS.

Lemma len_app (a b : list Z) : len (a ++ b) = len a + len b.
Proof. unfold len. rewrite length_app. lia. Qed.

Lemma len_repeat (x : Z) (n : nat) : len (repeat x n) = Z.of_nat n.
Proof. unfold len. rewrite repeat_length. reflexivity. Qed.

(** The encoding of a file meta is a whole number of 16-byte units. *)
Lemma ToBytes_aligned (m : FileMeta.t) : len (FileMeta.ToBytes m) mod 16 = 0.
Proof.
  unfold FileMeta.ToBytes, FileMetaAlign. cbv zeta.
  match goal with |- context [16 - len ?b mod 16] => set (buf := b) end.
  destruct (Z.eqb_spec (16 - len buf mod 16) 16) as [E|E]; cbn [negb].
  - lia.
  - rewrite len_app, len_repeat. pose proof (BitFacts.len_nonneg buf). lia.
Qed.

(** What [CreateFile] has checked when it returns a [Vfile]. *)
Lemma CreateFile_guards (fs : FileSystem) (name meta : list Z) (now : Z)
  (r : option Vfile * list Z * option error) (fs' : FileSystem) :
  CreateFile name meta now fs = Value (r, fs') ->
  snd r = None ->
  len meta <= MaxFileMetaSize
  /\ len (FileMeta.ToBytes (FileMeta.mk name meta)) < SuperBlock.BlockSize (Smeta fs).
Proof.
  unfold CreateFile. intros H Hr.
  destruct (Z.gtb_spec (len meta) MaxFileMetaSize) as [Hbig|Hok].
  - inversion H; subst r. discriminate.
  - split; [exact Hok|].
    unfold bind at 1 in H. unfold BlockSize, gets in H.
    destruct (Z.geb_spec (len (FileMeta.ToBytes (FileMeta.mk name meta)))
                (SuperBlock.BlockSize (Smeta fs))) as [Hlong|Hshort].
    + inversion H; subst r. discriminate.
    + lia.
Qed.

End FSFacts.

(** C9, at most 2048 bytes: refuted. With an empty name and 2048 bytes of
    meta [CreateFile] returns a [Vfile], and the encoded meta has 2064
    bytes, which is also the [MetaSize] of the inode. *)
Lemma encoded_meta_of_2064_bytes :
  FSSpec.on_fresh
    (FSSpec.created [] (repeat 5 2048) 1700000000
       (fun _ => node <- FS.inode ;; ret (Inode.MetaSize node))%fs)
  = Value (Some 2064, None)
  /\ len (FileMeta.ToBytes (FileMeta.mk [] (repeat 5 2048))) = 2064
  /\ ~ FSSpec.encoded_meta_within_2048.
Proof.
  split; [vm_compute; reflexivity|]. split; [vm_compute; reflexivity|].
  intros H.
  assert (Hc : match FS.MakeFileSystem 1 1024 0 true with
               | Done fs0 =>
                   FSSpec.returned_file (FS.CreateFile [] (repeat 5 2048) 1700000000 fs0)
               | Panic => false
               end = true) by (vm_compute; reflexivity).
  destruct (FS.MakeFileSystem 1 1024 0 true) as [fs0|]; [|discriminate].
  destruct (FS.CreateFile [] (repeat 5 2048) 1700000000 fs0)
    as [[[[[vf|] uid] [e|]] fs1]| |] eqn:E1; try discriminate.
  destruct (H _ _ _ _ _ _ _ E1) as [_ Hle].
  vm_compute in Hle. apply Hle. reflexivity.
Qed.

(** C9, as the code has it: when [CreateFile] returns a [Vfile], the meta
    has at most 2048 bytes, and the encoded [FileMeta] is a whole number of
    16-byte units and shorter than one block. *)
Theorem created_meta_fits_in_a_block
  (fs : FS.FileSystem) (name meta : list Z) (now : Z)
  (vf : FS.Vfile) (uid : list Z) (fs' : FS.FileSystem) :
  FS.CreateFile name meta now fs = Value ((Some vf, uid, None), fs') ->
  len meta <= 2048
  /\ len (FileMeta.ToBytes (FileMeta.mk name meta)) mod 16 = 0
  /\ len (FileMeta.ToBytes (FileMeta.mk name meta)) < SuperBlock.BlockSize (FS.Smeta fs).
Proof.
  intros H.
  destruct (FSFacts.CreateFile_guards fs name meta now _ fs' H eq_refl) as [H1 H2].
  split; [exact H1|]. split; [apply FSFacts.ToBytes_aligned|exact H2].
Qed.

Lemma created_meta_fits_in_a_block_witness :
  match FS.MakeFileSystem 1 1024 0 true with
  | Done fs0 =>
      len [1; 2; 3] <= 2048
      /\ len (FileMeta.ToBytes (FileMeta.mk [116] [1; 2; 3])) mod 16 = 0
      /\ len (FileMeta.ToBytes (FileMeta.mk [116] [1; 2; 3]))
         < SuperBlock.BlockSize (FS.Smeta fs0)
  | Panic => True
  end.
Proof.
  assert (Hc : match FS.MakeFileSystem 1 1024 0 true with
               | Done fs0 =>
                   FSSpec.returned_file (FS.CreateFile [116] [1; 2; 3] 1700000000 fs0)
               | Panic => false
               end = true) by (vm_compute; reflexivity).
  destruct (FS.MakeFileSystem 1 1024 0 true) as [fs0|]; [|exact I].
  destruct (FS.CreateFile [116] [1; 2; 3] 1700000000 fs0)
    as [[[[[vf|] uid] [e|]] fs1]| |] eqn:E1; try discriminate.
  exact (created_meta_fits_in_a_block fs0 [116] [1; 2; 3] 1700000000 vf uid fs1 E1).
Defined.

(** C2, a write inside the file leaves [FileSize] as it is: not so in the
    direct blocks.  A file of 10 bytes, [SeekPos(2)], [Write] of 3 bytes:
    the write returns 3 and no error, and [FileSize] is 13. *)
Theorem overwrite_inside_file_adds_to_FileSize :
  FSSpec.on_fresh
    (FSSpec.created [116] [] 1700000000
       (fun _ =>
          ok <- FSSpec.writes [[10; 11; 12; 13; 14; 15; 16; 17; 18; 19]] ;;
          before <- FSSpec.FileSize ;;
          sought <- FS.SeekPos 2 ;;
          written <- FS.Write [90; 91; 92] ;;
          after <- FSSpec.FileSize ;;
          ret (ok, before, snd sought, written, after))%fs)
  = Value (Some (true, 10, None, (3, None), 13), None).
Proof. vm_compute. reflexivity. Qed.

(** C6, [SeekPos] clamps to [FileSize]: not so.  On a file of 4 bytes
    [SeekPos(100)] returns the offset 100, in block 0 at byte 116 (the meta
    takes 16), and that is where the stream stands afterwards. *)
Theorem SeekPos_past_the_end_is_not_clamped :
  FSSpec.on_fresh
    (FSSpec.created [116] [] 1700000000
       (fun _ =>
          ok <- FSSpec.writes [[1; 2; 3; 4]] ;;
          size <- FSSpec.FileSize ;;
          sought <- FS.SeekPos 100 ;;
          pos <- FSSpec.position ;;
          ret (ok, size, sought, pos))%fs)
  = Value (Some (true, 4, (FS.mkOffset 100 0 116, None), 100), None).
Proof. vm_compute. reflexivity. Qed.

(** C1, what was written is read back: not always.  A file whose name has
    2048 bytes is created and written, and [OpenFile] on its UID returns an
    error; and after the writes of 8176 bytes (to the end of block 0), of no
    byte, and of the bytes 2 and 3, the file has 8178 bytes and reads back
    with two zeros at its end. *)
Theorem written_is_not_always_read_back :
  FSSpec.on_fresh
    (FSSpec.created (repeat 97 2048) [] 1700000000
       (fun uid =>
          ok <- FSSpec.writes [[7]] ;;
          r <- FSSpec.opened uid (FS.Read 1) ;;
          ret (ok, r))%fs)
  = Value (Some (true, (None, Some Bad_File_name_len)), None)
  /\ FSSpec.on_fresh
       (FSSpec.created [] [] 1700000000
          (fun uid =>
             ok <- FSSpec.writes [repeat 1 (Z.to_nat 8176); []; [2; 3]] ;;
             size <- FSSpec.FileSize ;;
             r <- FSSpec.opened uid (FS.Read 8178) ;;
             ret (ok, size, r))%fs)
     = Value (Some (true, 8178, (Some (repeat 1 (Z.to_nat 8176) ++ [0; 0], 8178, None), None)), None).
Proof. split; vm_compute; reflexivity. Qed.

(** X1, [SeekPos] inside the first block of a file, whatever the size of the
    file: for a [pos] before the end of the data part of the first direct
    block (a single block, the meta in front), [SeekPos(pos)] returns the
    offset [pos] in block 0, at byte [MetaSize + pos] of the block, with no
    error, and leaves the stream there; the file system is not touched. *)
Theorem SeekPos_in_first_block_goes_to_pos
  (fs : FS.FileSystem) (vf : FS.Vfile) (node : Inode.t)
  (p : Z) (rest : list Z) (pos : Z) :
  FS.Inode_ vf = Some node ->
  Inode.DirectPointers node = p :: rest ->
  p <> 0 -> EntAddr.big_of p = 0 ->
  0 < Inode.MetaSize node < SuperBlock.BlockSize (FS.Smeta fs) ->
  0 <= pos < SuperBlock.BlockSize (FS.Smeta fs) - Inode.MetaSize node ->
  exists vf',
    FS.SeekPos pos (fs, vf)
    = Value (FS.mkOffset pos 0 (Inode.MetaSize node + pos), None, (fs, vf'))
    /\ FS.offset_ vf' = FS.mkOffset pos 0 (Inode.MetaSize node + pos)
    /\ FS.Inode_ vf' = Some node.
Proof.
  intros Hn Hd Hp Hbig Hm Hpos. eexists. split.
  - apply (SeekFacts.seek_first_block fs vf node p rest pos); assumption.
  - split; reflexivity.
Qed.

Lemma SeekPos_in_first_block_goes_to_pos_witness :
  match FSSpec.prepared [116] [] 1700000000 (FSSpec.writes [[1; 2; 3; 4]]) with
  | Some s =>
      option_map Inode.FileSize (FS.Inode_ (snd s)) = Some 4
      /\ exists vf',
           FS.SeekPos 100 s = Value (FS.mkOffset 100 0 116, None, (fst s, vf'))
           /\ FS.offset_ vf' = FS.mkOffset 100 0 116
  | None => False
  end.
Proof.
  assert (Hc : match FSSpec.prepared [116] [] 1700000000
                       (FSSpec.writes [[1; 2; 3; 4]]) with
               | Some (fs, vf) =>
                   match FS.Inode_ vf with
                   | Some node =>
                       match Inode.DirectPointers node with
                       | p :: _ =>
                           negb (p =? 0) && (EntAddr.big_of p =? 0)
                           && (Inode.MetaSize node =? 16)
                           && (SuperBlock.BlockSize (FS.Smeta fs) =? 8192)
                           && (Inode.FileSize node =? 4)
                       | [] => false
                       end
                   | None => false
                   end
               | None => false
               end = true) by (vm_compute; reflexivity).
  destruct (FSSpec.prepared [116] [] 1700000000 (FSSpec.writes [[1; 2; 3; 4]]))
    as [[fs vf]|]; [|discriminate].
  destruct (FS.Inode_ vf) as [node|] eqn:En; [|discriminate].
  destruct (Inode.DirectPointers node) as [|p rest] eqn:Ed; [discriminate|].
  repeat (apply andb_true_iff in Hc; destruct Hc as [Hc ?]).
  apply negb_true_iff in Hc.
  cbn [snd fst]. rewrite En. split; [cbn; f_equal; lia|].
  destruct (SeekPos_in_first_block_goes_to_pos fs vf node p rest 100 En Ed)
    as (vf' & Hs & Ho & _); try lia.
  exists vf'. replace (Inode.MetaSize node) with 16 in Hs, Ho by lia.
  split; [exact Hs|exact Ho].
Defined.

(** X2, [Write] in a direct block that is allocated: when the stream stands in
    direct block [blockIdx], that block is allocated, and [data] ends
    before the end of the block, a [Write(data)] that returns no error
    returns [len(data)] and leaves [FileSize + len(data)] (as a [uint64])
    in [vf.Inode.FileSize], wherever in the file the stream stood. *)
Theorem Write_in_direct_block_adds_to_FileSize
  (fs : FS.FileSystem) (vf : FS.Vfile) (node : Inode.t) (p : Z) (data : list Z)
  (n : Z) (s' : FS.VS) :
  FS.Inode_ vf = Some node ->
  0 <= FS.blockIdx (FS.offset_ vf) < DirectBlocks ->
  nth_error (Inode.DirectPointers node) (Z.to_nat (FS.blockIdx (FS.offset_ vf)))
  = Some p ->
  p <> 0 ->
  0 <= FS.blkRemOffset (FS.offset_ vf) ->
  FS.blkRemOffset (FS.offset_ vf) + len data
  < FS.blksize_of (SuperBlock.BlockSize (FS.Smeta fs)) p ->
  FS.Write data (fs, vf) = Value (n, None, s') ->
  n = len data
  /\ FS.Inode_ (snd s')
     = Some (Inode.with_FileSize node (u64 (Inode.FileSize node + len data))).
Proof.
  intros Hn Hi Hptr Hp Hr Hlen HW.
  pose proof (WriteFacts.Write_inside fs vf node p data Hn Hi Hptr Hp Hr Hlen) as H.
  rewrite HW in H. exact (H eq_refl).
Qed.

Lemma Write_in_direct_block_adds_to_FileSize_witness :
  match FSSpec.prepared [116] [] 1700000000
          (ok <- FSSpec.writes [[10; 11; 12; 13; 14; 15; 16; 17; 18; 19]] ;;
           sought <- FSSpec.seeks 2 ;;
           ret (ok && sought))%fs with
  | Some s =>
      match FS.Write [90; 91; 92] s with
      | Value (n, None, s') =>
          option_map Inode.FileSize (FS.Inode_ (snd s)) = Some 10
          /\ FS.offset (FS.offset_ (snd s)) = 2
          /\ n = 3
          /\ option_map Inode.FileSize (FS.Inode_ (snd s')) = Some 13
      | _ => False
      end
  | None => False
  end.
Proof.
  assert (Hc : match FSSpec.prepared [116] [] 1700000000
                       (ok <- FSSpec.writes [[10; 11; 12; 13; 14; 15; 16; 17; 18; 19]] ;;
                        sought <- FSSpec.seeks 2 ;;
                        ret (ok && sought))%fs with
               | Some (fs, vf) =>
                   match FS.Inode_ vf with
                   | Some node =>
                       match Inode.DirectPointers node with
                       | p :: _ =>
                           negb (p =? 0)
                           && (FS.blksize_of (SuperBlock.BlockSize (FS.Smeta fs)) p =? 8192)
                           && (FS.blockIdx (FS.offset_ vf) =? 0)
                           && (FS.blkRemOffset (FS.offset_ vf) =? 18)
                           && (FS.offset (FS.offset_ vf) =? 2)
                           && (Inode.FileSize node =? 10)
                           && match FS.Write [90; 91; 92] (fs, vf) with
                              | Value (_, None, _) => true
                              | _ => false
                              end
                       | [] => false
                       end
                   | None => false
                   end
               | None => false
               end = true) by (vm_compute; reflexivity).
  destruct (FSSpec.prepared _ _ _ _) as [[fs vf]|]; [|discriminate].
  destruct (FS.Inode_ vf) as [node|] eqn:En; [|discriminate].
  destruct (Inode.DirectPointers node) as [|p rest] eqn:Ed; [discriminate|].
  repeat (apply andb_true_iff in Hc; destruct Hc as [Hc ?]).
  apply negb_true_iff in Hc.
  destruct (FS.Write [90; 91; 92] (fs, vf)) as [[[n [e|]] s']| |] eqn:EW;
    try discriminate.
  assert (Hidx : FS.blockIdx (FS.offset_ vf) = 0) by lia.
  destruct (Write_in_direct_block_adds_to_FileSize fs vf node p [90; 91; 92] n s' En)
    as [Hlen Hs']; try assumption.
  - rewrite Hidx. unfold DirectBlocks. lia.
  - rewrite Hidx, Ed. reflexivity.
  - lia.
  - lia.
  - change (len [90; 91; 92]) with 3. lia.
  - cbn [snd]. rewrite En, Hs'. cbn [option_map Inode.with_FileSize Inode.FileSize].
    change (len [90; 91; 92]) with 3 in *.
    replace (Inode.FileSize node) with 10 by lia.
    repeat split; try reflexivity; lia.
Defined.

(* ------------------------------------------------------------------ *)
(** ** [encoding/binary], little-endian: what is written is read back *)

Module CodecFacts.
Import Bits WordFacts.

(** The [n] bytes of [w] combine to the low [8n] bits of [w]. *)
Lemma le_combine_le_split (n : nat) (w : Z) :
  le_combine (le_split n w) = w mod 2 ^ (8 * Z.of_nat n).
Proof.
  apply Z.bits_inj'. intros j Hj.
  rewrite testbit_le_combine by (try apply le_split_wf; lia).
  assert (Hdm : j = 8 * (j / 8) + j mod 8) by (apply Z.div_mod; lia).
  assert (Hm : 0 <= j mod 8 < 8) by (apply Z.mod_pos_bound; lia).
  assert (Hd : 0 <= j / 8) by (apply Z.div_pos; lia).
  destruct (Z_lt_le_dec (j / 8) (Z.of_nat n)) as [Hlt|Hge].
  - rewrite nth_le_split by lia. rewrite Z2Nat.id by lia.
    change 0xFF with (Z.ones 8). rewrite Z.land_spec, Z.shiftr_spec by lia.
    rewrite Z.ones_spec_low by lia. rewrite andb_true_r.
    rewrite Z.mod_pow2_bits_low by lia. f_equal. lia.
  - rewrite nth_overflow by (rewrite le_split_length; lia).
    rewrite Z.testbit_0_l. symmetry. apply Z.mod_pow2_bits_high. lia.
Qed.

Lemma le_combine_le_split_small (n : nat) (w : Z) :
  0 <= w < 2 ^ (8 * Z.of_nat n) -> le_combine (le_split n w) = w.
Proof. intros H. rewrite le_combine_le_split. apply Z.mod_small. exact H. Qed.

Lemma len_of_app (a b : list Z) : len (a ++ b) = len a + len b.
Proof. unfold len. rewrite length_app. lia. Qed.

Lemma len_of_le_split (n : nat) (w : Z) : len (le_split n w) = Z.of_nat n.
Proof. unfold len. rewrite le_split_length. reflexivity. Qed.

Lemma len_of_repeat (x : Z) (n : nat) : len (repeat x n) = Z.of_nat n.
Proof. unfold len. rewrite repeat_length. reflexivity. Qed.

Lemma firstn_len_app (a b : list Z) : firstn (Z.to_nat (len a)) (a ++ b) = a.
Proof.
  unfold len. rewrite Nat2Z.id, firstn_app, Nat.sub_diag, firstn_all. cbn. apply app_nil_r.
Qed.

Lemma skipn_len_app (a b : list Z) : skipn (Z.to_nat (len a)) (a ++ b) = b.
Proof.
  unfold len. rewrite Nat2Z.id, skipn_app, Nat.sub_diag, skipn_all. reflexivity.
Qed.

End CodecFacts.

(* ================================================================== *)
(** * More of the code: properties read off the sources *)

(* ------------------------------------------------------------------ *)
(** ** ent.go: every 32-bit word is the packing of its fields *)

Module EntFacts.

Lemma shiftr_31_small (a : Z) : 0 <= a < 2 ^ 32 -> Z.shiftr a 31 = 0 \/ Z.shiftr a 31 = 1.
Proof.
  intros H. rewrite Z.shiftr_div_pow2 by lia.
  assert (0 <= a / 2 ^ 31 < 2) by (split; [apply Z.div_pos; lia|apply Z.div_lt_upper_bound; lia]).
  lia.
Qed.

Lemma fields_in_range (a : Z) :
  0 <= a ->
  0 <= Z.land a 0x000FFFFF < 2 ^ 20
  /\ 0 <= Z.land (Z.shiftr a 20) 0x7FF <= 2047.
Proof.
  intros Ha.
  change 0x000FFFFF with (Z.ones 20). change 0x7FF with (Z.ones 11).
  rewrite !Z.land_ones by lia.
  assert (H20 : 0 < 2 ^ 20) by lia. assert (H11 : 0 < 2 ^ 11) by lia.
  pose proof (Z.mod_pos_bound a (2 ^ 20) H20).
  pose proof (Z.mod_pos_bound (Z.shiftr a 20) (2 ^ 11) H11).
  change (Z.ones 11) with 2047. lia.
Qed.

End EntFacts.

(** X5, decoding and packing again: for every 32-bit word [a],
    [GetAddr] returns an index below [2^20], a group of at most 2047 and a
    big flag that is 0 or 1 and is what [IsBigBlock] returns; and
    [MakeEntAddr] on these three gives [a] back. *)
Theorem MakeEntAddr_of_GetAddr (a idx group big : Z) :
  is_u32 a ->
  EntAddr.GetAddr a = (idx, group, big) ->
  EntAddr.MakeEntAddr idx group (big >? 0) = a
  /\ 0 <= idx < 2 ^ 20
  /\ 0 <= group <= 2047
  /\ (big = 0 \/ big = 1)
  /\ EntAddr.IsBigBlock a = big.
Proof.
  intros Ha E. unfold is_u32 in Ha. unfold EntAddr.GetAddr in E.
  inversion E; subst idx group big; clear E.
  destruct (EntFacts.fields_in_range a) as [Hi Hg]; [lia|].
  assert (Hn : forall x i, i < 0 -> Z.testbit x i = false)
    by (intros; apply Z.testbit_neg_r; lia).
  assert (Hhi : forall i, 32 <= i -> Z.testbit a i = false)
    by (intros; apply (testbit_above 32); lia).
  assert (Hbig : Z.shiftr (Z.shiftr a 20) 11 = Z.shiftr a 31)
    by (rewrite Z.shiftr_shiftr by lia; reflexivity).
  rewrite Hbig.
  split; [|split; [exact Hi|split; [exact Hg|split; [apply EntFacts.shiftr_31_small; lia|]]]].
  - unfold EntAddr.MakeEntAddr, u32.
    change 0x000FFFFF with (Z.ones 20). change 0x7FF with (Z.ones 11).
    change 0x80000000 with (Z.shiftl 1 31).
    assert (Hb : Z.testbit a 31 = (Z.shiftr a 31 >? 0)).
    { destruct (EntFacts.shiftr_31_small a Ha) as [E0|E1].
      - rewrite E0. rewrite <- (Z.add_0_l 31), <- Z.shiftr_spec, E0 by lia. reflexivity.
      - rewrite E1. rewrite <- (Z.add_0_l 31), <- Z.shiftr_spec, E1 by lia. reflexivity. }
    destruct (Z.shiftr a 31 >? 0).
    + Z.bitblast; rewrite ?testbit_one, ?Hn, ?Hhi by lia; bool_cases;
        match goal with
        | |- context [Z.testbit a ?l] =>
            replace l with 31 by lia; rewrite Hb; reflexivity
        end.
    + Z.bitblast; rewrite ?testbit_one, ?Hn, ?Hhi by lia; bool_cases;
        match goal with
        | |- context [Z.testbit a ?l] =>
            replace l with 31 by lia; rewrite Hb; reflexivity
        end.
  - unfold EntAddr.IsBigBlock. change 0x80000000 with (Z.shiftl 1 31).
    Z.bitblast; rewrite ?testbit_one, ?Hn, ?Hhi by lia; bool_cases.
    symmetry. apply Hhi. lia.
Qed.

Lemma MakeEntAddr_of_GetAddr_witness :
  EntAddr.MakeEntAddr 5 3 (1 >? 0) = 0x80300005
  /\ 0 <= 5 < 2 ^ 20 /\ 0 <= 3 <= 2047 /\ (1 = 0 \/ 1 = 1)
  /\ EntAddr.IsBigBlock 0x80300005 = 1.
Proof.
  apply (MakeEntAddr_of_GetAddr 0x80300005 5 3 1); [unfold is_u32; lia|reflexivity].
Defined.

(* ------------------------------------------------------------------ *)
(** ** file_key.go: printing and parsing a key *)

Module KeyFacts.
Import FileKey KeySpec.

Lemma fromHexChar_digit (d : Z) :
  0 <= d < 16 -> fromHexChar (SuperBlock.digit d) = Some d.
Proof.
  intros Hd. unfold SuperBlock.digit, fromHexChar.
  destruct (Z.ltb_spec d 10).
  - destruct (Z.leb_spec 48 (48 + d)); [|lia].
    destruct (Z.leb_spec (48 + d) 57); [|lia].
    cbn [andb]. f_equal. lia.
  - destruct (Z.leb_spec 48 (87 + d)); [|lia].
    destruct (Z.leb_spec (87 + d) 57); [lia|].
    destruct (Z.leb_spec 97 (87 + d)); [|lia].
    destruct (Z.leb_spec (87 + d) 102); [|lia].
    cbn [andb]. f_equal. lia.
Qed.

Lemma hex_length (n : nat) (x : Z) : Datatypes.length (hex n x) = n.
Proof. induction n as [|n IH]; cbn [hex Datatypes.length]; congruence. Qed.

Lemma be_bytes_length (m : nat) (x : Z) : Datatypes.length (be_bytes m x) = m.
Proof. induction m as [|m IH]; cbn [be_bytes Datatypes.length]; congruence. Qed.

Lemma hex_two_more (n : nat) (x : Z) :
  hex (S (S n)) x
  = SuperBlock.digit (Z.shiftr x (4 * Z.of_nat (S n)) mod 16)
    :: SuperBlock.digit (Z.shiftr x (4 * Z.of_nat n) mod 16) :: hex n x.
Proof. reflexivity. Qed.

Lemma DecodeString_two (a b : Z) (rest : list Z) :
  DecodeString (a :: b :: rest)
  = match fromHexChar a, fromHexChar b, DecodeString rest with
    | Some x, Some y, Some r => Some (x * 16 + y :: r)
    | _, _, _ => None
    end.
Proof. reflexivity. Qed.

(** Two digits make one byte. *)
Lemma nibbles (y : Z) : (y / 16) mod 16 * 16 + y mod 16 = y mod 256.
Proof. lia. Qed.

(** [hex.DecodeString] on what [%0(2m)x] printed, followed by [t]. *)
Lemma decode_hex (m : nat) (x : Z) (t : list Z) :
  DecodeString (hex (2 * m) x ++ t)
  = match DecodeString t with
    | Some r => Some (be_bytes m x ++ r)
    | None => None
    end.
Proof.
  induction m as [|m IH].
  - cbn [Nat.mul Nat.add hex app be_bytes]. destruct (DecodeString t); reflexivity.
  - replace (2 * S m)%nat with (S (S (2 * m))) by lia.
    rewrite hex_two_more. cbn [app]. rewrite DecodeString_two, IH.
    assert (Hm : forall k, 0 <= k -> 0 <= Z.shiftr x k mod 16 < 16)
      by (intros; apply Z.mod_pos_bound; lia).
    rewrite !fromHexChar_digit by (apply Hm; lia).
    destruct (DecodeString t) as [r|]; [|reflexivity].
    cbn [be_bytes app]. do 2 f_equal.
    replace (4 * Z.of_nat (S (2 * m))) with (8 * Z.of_nat m + 4) by lia.
    replace (4 * Z.of_nat (2 * m)) with (8 * Z.of_nat m) by lia.
    rewrite <- (Z.shiftr_shiftr x (8 * Z.of_nat m) 4) by lia.
    rewrite (Z.shiftr_div_pow2 _ 4) by lia. apply nibbles.
Qed.

Lemma be_combine_from (l : list Z) (acc : Z) :
  fold_left (fun a b => a * 256 + b) l acc
  = acc * 256 ^ Z.of_nat (Datatypes.length l) + be_combine l.
Proof.
  unfold be_combine. revert acc.
  induction l as [|b l IH]; intros acc.
  - cbn. lia.
  - cbn [fold_left Datatypes.length]. rewrite IH, (IH (0 * 256 + b)).
    rewrite Nat2Z.inj_succ, Z.pow_succ_r by lia. ring.
Qed.

Lemma be_combine_cons (b : Z) (l : list Z) :
  be_combine (b :: l) = b * 256 ^ Z.of_nat (Datatypes.length l) + be_combine l.
Proof. unfold be_combine at 1. cbn [fold_left]. rewrite be_combine_from. ring. Qed.

(** [binary.BigEndian] reads back what the bytes of [x] say. *)
Lemma be_combine_be_bytes (m : nat) (x : Z) :
  be_combine (be_bytes m x) = x mod 256 ^ Z.of_nat m.
Proof.
  induction m as [|m IH].
  - cbn. rewrite Z.mod_1_r. reflexivity.
  - cbn [be_bytes]. rewrite be_combine_cons, be_bytes_length, IH.
    rewrite Nat2Z.inj_succ, Z.pow_succ_r by lia.
    rewrite Z.shiftr_div_pow2 by lia.
    replace (2 ^ (8 * Z.of_nat m)) with (256 ^ Z.of_nat m)
      by (change 256 with (2 ^ 8); rewrite <- Z.pow_mul_r by lia; reflexivity).
    assert (Hp : 0 < 256 ^ Z.of_nat m) by (apply Z.pow_pos_nonneg; lia).
    rewrite (Z.mul_comm 256), Z.rem_mul_r by lia. ring.
Qed.

Lemma ToString_length (k : t) : len (ToString k) = 28.
Proof.
  unfold ToString, len. rewrite !length_app, !hex_length. reflexivity.
Qed.

Lemma pair_induction {A : Type} (P : list A -> Prop) :
  P [] -> (forall a, P [a]) -> (forall a b l, P l -> P (a :: b :: l)) ->
  forall l, P l.
Proof.
  intros H0 H1 H2.
  assert (H : forall l, P l /\ forall a, P (a :: l)).
  { induction l as [|b l [IH1 IH2]].
    - split; [exact H0|exact H1].
    - split; [apply IH2|]. intros a. apply H2. exact IH1. }
  intros l. apply H.
Qed.

Lemma fromHexChar_some (c : Z) :
  hex_char c <-> exists d, fromHexChar c = Some d.
Proof.
  unfold hex_char, fromHexChar. split.
  - intros H.
    destruct (Z.leb_spec 48 c), (Z.leb_spec c 57), (Z.leb_spec 97 c),
             (Z.leb_spec c 102), (Z.leb_spec 65 c), (Z.leb_spec c 70);
      cbn [andb]; eauto; lia.
  - intros [d H].
    destruct (Z.leb_spec 48 c), (Z.leb_spec c 57), (Z.leb_spec 97 c),
             (Z.leb_spec c 102), (Z.leb_spec 65 c), (Z.leb_spec c 70);
      cbn [andb] in H; try discriminate; lia.
Qed.

(** [hex.DecodeString] returns the bytes exactly for the strings of an even
    number of hexadecimal digits. *)
Lemma DecodeString_some (s : list Z) :
  (exists bs, DecodeString s = Some bs)
  <-> Nat.even (Datatypes.length s) = true /\ Forall hex_char s.
Proof.
  induction s as [|a|a b l IH] using pair_induction.
  - split; [intros _; split; [reflexivity|constructor]|intros _; eexists; reflexivity].
  - split; [intros [bs H]; discriminate|intros [H _]; discriminate].
  - rewrite DecodeString_two. cbn [Datatypes.length Nat.even]. split.
    + intros [bs H].
      destruct (fromHexChar a) as [x|] eqn:Ea; [|discriminate].
      destruct (fromHexChar b) as [y|] eqn:Eb; [|discriminate].
      destruct (DecodeString l) as [r|] eqn:El; [|discriminate].
      destruct (proj1 IH (ex_intro _ r eq_refl)) as [He Hl].
      split; [exact He|].
      constructor; [apply fromHexChar_some; eauto|].
      constructor; [apply fromHexChar_some; eauto|exact Hl].
    + intros [He Hl]. inversion Hl as [|? ? Ha Hl1]; subst.
      inversion Hl1 as [|? ? Hb Hl2]; subst.
      apply fromHexChar_some in Ha, Hb. destruct Ha as [x ->], Hb as [y ->].
      destruct (proj2 IH (conj He Hl2)) as [r ->]. eexists. reflexivity.
Qed.

Lemma digit_lower_hex (d : Z) :
  0 <= d < 16 ->
  48 <= SuperBlock.digit d <= 57 \/ 97 <= SuperBlock.digit d <= 102.
Proof. intros H. unfold SuperBlock.digit. destruct (Z.ltb_spec d 10); lia. Qed.

Lemma hex_lower (n : nat) (x : Z) :
  Forall (fun c => 48 <= c <= 57 \/ 97 <= c <= 102) (hex n x).
Proof.
  induction n as [|n IH]; cbn [hex]; constructor; [|exact IH].
  apply digit_lower_hex. apply Z.mod_pos_bound. lia.
Qed.

End KeyFacts.

(** X6, a printed key parses back: for a key whose fields fit their types,
    [ParseKey] on what [ToString] printed returns no error and the fields
    of the key. *)
Theorem ParseKey_of_ToString (k : FileKey.t) :
  KeySpec.in_range k ->
  FileKey.ParseKey (FileKey.ToString k) = (k, None).
Proof.
  intros (Hs & Hi & Hq & Ht). unfold is_u32 in *.
  unfold FileKey.ParseKey. rewrite KeyFacts.ToString_length. cbn [Z.eqb Pos.eqb negb].
  unfold FileKey.ToString.
  change (FileKey.hex 4 (FileKey.Shard k)) with (FileKey.hex (2 * 2) (FileKey.Shard k)).
  change (FileKey.hex 8) with (FileKey.hex (2 * 4)).
  rewrite <- (app_nil_r (FileKey.hex (2 * 4) (FileKey.Stamp k))).
  rewrite !KeyFacts.decode_hex. cbn [FileKey.DecodeString]. rewrite app_nil_r.
  assert (S2 : forall a b t, slice ([a; b] ++ t) 0 2 = [a; b]) by reflexivity.
  assert (S4 : forall a b c d e f t,
             slice ([a; b] ++ [c; d; e; f] ++ t) 2 6 = [c; d; e; f]) by reflexivity.
  assert (S8 : forall a b c d e f g h i j u,
             slice ([a; b] ++ [c; d; e; f] ++ [g; h; i; j] ++ u) 6 10 = [g; h; i; j])
    by reflexivity.
  assert (S12 : forall a b c d e f g h i j x y z w,
             slice ([a; b] ++ [c; d; e; f] ++ [g; h; i; j] ++ [x; y; z; w]) 10 14
             = [x; y; z; w]) by reflexivity.
  cbn [KeySpec.be_bytes]. rewrite S2, S4, S8, S12.
  change [Z.shiftr (FileKey.Shard k) (8 * Z.of_nat 1) mod 256;
          Z.shiftr (FileKey.Shard k) (8 * Z.of_nat 0) mod 256]
    with (KeySpec.be_bytes 2 (FileKey.Shard k)).
  repeat match goal with
         | |- context [[Z.shiftr ?x (8 * Z.of_nat 3) mod 256;
                        Z.shiftr ?x (8 * Z.of_nat 2) mod 256;
                        Z.shiftr ?x (8 * Z.of_nat 1) mod 256;
                        Z.shiftr ?x (8 * Z.of_nat 0) mod 256]] =>
             change [Z.shiftr x (8 * Z.of_nat 3) mod 256;
                     Z.shiftr x (8 * Z.of_nat 2) mod 256;
                     Z.shiftr x (8 * Z.of_nat 1) mod 256;
                     Z.shiftr x (8 * Z.of_nat 0) mod 256]
               with (KeySpec.be_bytes 4 x)
         end.
  rewrite !KeyFacts.be_combine_be_bytes.
  change (256 ^ Z.of_nat 2) with (2 ^ 16). change (256 ^ Z.of_nat 4) with (2 ^ 32).
  rewrite !Z.mod_small by lia.
  destruct k; reflexivity.
Qed.

Lemma ParseKey_of_ToString_witness :
  FileKey.ParseKey (FileKey.ToString (FileKey.mk 7 0x00100003 2 1700000000))
  = (FileKey.mk 7 0x00100003 2 1700000000, None).
Proof.
  apply ParseKey_of_ToString. unfold KeySpec.in_range, is_u32. cbn. lia.
Defined.

(** X7, which keys parse: [ParseKey] returns no error exactly for the keys
    of 28 characters that are all hexadecimal digits, of either case; for
    another length the error is that of the length check, and for a key of
    28 characters with another character it is that of [hex.DecodeString]. *)
Theorem ParseKey_accepts_the_hex_keys (key : list Z) :
  (snd (FileKey.ParseKey key) = None
   <-> len key = 28 /\ Forall KeySpec.hex_char key)
  /\ (len key <> 28 -> snd (FileKey.ParseKey key) = Some invalid_key_length)
  /\ (len key = 28 -> ~ Forall KeySpec.hex_char key ->
      snd (FileKey.ParseKey key) = Some hex_InvalidByte).
Proof.
  unfold FileKey.ParseKey.
  destruct (Z.eqb_spec (len key) 28) as [E|E]; cbn [negb].
  - assert (Hev : Nat.even (Datatypes.length key) = true).
    { unfold len in E. replace (Datatypes.length key) with 28%nat by lia. reflexivity. }
    pose proof (KeyFacts.DecodeString_some key) as D.
    destruct (FileKey.DecodeString key) as [bs|]; cbn [snd].
    + destruct (proj1 D (ex_intro _ bs eq_refl)) as [_ Hh].
      split; [split; auto|]. split; [intros; contradiction|].
      intros _ Hn. contradiction.
    + assert (Hn : ~ Forall KeySpec.hex_char key).
      { intros Hh. destruct (proj2 D (conj Hev Hh)) as [bs Hbs]. discriminate. }
      split; [split; [discriminate|intros [_ Hh]; contradiction]|].
      split; [intros; contradiction|reflexivity].
  - cbn [snd]. split; [split; [discriminate|intros [H _]; contradiction]|].
    split; [reflexivity|intros; contradiction].
Qed.

(* ------------------------------------------------------------------ *)
(** ** meta.go: signing and checking a super block *)

Module MetaFacts.
Import SuperBlock SuperBlockOps.

(** [Checksum] does not read [Crc], and [Sign] sets [Magic] before it takes
    the checksum. *)
Lemma Checksum_Sign (s : t) : Checksum (Sign s) = Crc (Sign s).
Proof. reflexivity. Qed.

Lemma Sign_fields (s : t) :
  BlockSize (Sign s) = BlockSize s /\ TotalGroups (Sign s) = TotalGroups s
  /\ BlocksInGroup (Sign s) = BlocksInGroup s /\ InodesRatio (Sign s) = InodesRatio s
  /\ ShardId (Sign s) = ShardId s /\ Attr (Sign s) = Attr s
  /\ Magic (Sign s) = SuperBlockMagic.
Proof. repeat split. Qed.

(** What [Verify] has checked when it returns [nil]. *)
Lemma Verify_nil (s : t) :
  Verify s = Done None <->
  Magic s = SuperBlockMagic /\ BlockSize s mod 4096 = 0
  /\ BlocksInGroup s mod 1024 = 0 /\ InodesRatio s mod 4 = 0
  /\ InodesRatio s <> 0 /\ (BlocksInGroup s / InodesRatio s) mod 64 = 0
  /\ Crc s = Checksum s.
Proof.
  unfold Verify, DefaultInodesRatio.
  destruct (Z.eqb_spec (Magic s) SuperBlockMagic); cbn [negb];
    [|split; [discriminate|tauto]].
  destruct (Z.eqb_spec (BlockSize s mod 4096) 0); cbn [negb];
    [|split; [discriminate|tauto]].
  destruct (Z.eqb_spec (BlocksInGroup s mod 1024) 0); cbn [negb];
    [|split; [discriminate|tauto]].
  destruct (Z.eqb_spec (InodesRatio s mod 4) 0); cbn [negb];
    [|split; [discriminate|tauto]].
  destruct (Z.eqb_spec (InodesRatio s) 0);
    [split; [discriminate|tauto]|].
  destruct (Z.eqb_spec ((BlocksInGroup s / InodesRatio s) mod 64) 0); cbn [negb];
    [|split; [discriminate|tauto]].
  destruct (Z.eqb_spec (Crc s) (Checksum s)); cbn [negb];
    [|split; [discriminate|tauto]].
  tauto.
Qed.

(** On a super block with the magic number and its own checksum, [Verify]
    reports neither of the two. *)
Lemma Verify_signed (s : t) :
  Magic s = SuperBlockMagic -> Crc s = Checksum s ->
  Verify s <> Done (Some Bad_magic) /\ Verify s <> Done (Some Bad_Crc).
Proof.
  intros Hm Hc. unfold Verify. rewrite Hm, Hc, !Z.eqb_refl. cbn [negb].
  repeat match goal with
         | |- context [if ?c then _ else _] => destruct c
         end; split; discriminate.
Qed.

End MetaFacts.

(** X8, signing and checking a super block: [Sign] sets the magic number
    and the checksum, so [Verify] on a signed super block depends on its
    sizes only.  It returns nil exactly when [BlockSize] is a multiple of
    4096, [BlocksInGroup] a multiple of 1024, [InodesRatio] a multiple of 4
    other than 0 and [BlocksInGroup / InodesRatio] a multiple of 64, and it
    never returns the errors "Bad magic" and "Bad Crc"; with the default
    block size 8192 and inode ratio 4 it returns nil exactly when
    [BlocksInGroup] is a multiple of 1024.  A super block that [Verify]
    accepts is one that [Sign] leaves as it is. *)
Theorem signed_super_block_verifies (s : SuperBlock.t) :
  (SuperBlockOps.Verify (SuperBlock.Sign s) = Done None
   <-> SuperBlock.BlockSize s mod 4096 = 0
       /\ SuperBlock.BlocksInGroup s mod 1024 = 0
       /\ SuperBlock.InodesRatio s mod 4 = 0 /\ SuperBlock.InodesRatio s <> 0
       /\ (SuperBlock.BlocksInGroup s / SuperBlock.InodesRatio s) mod 64 = 0)
  /\ SuperBlockOps.Verify (SuperBlock.Sign s) <> Done (Some SuperBlockOps.Bad_magic)
  /\ SuperBlockOps.Verify (SuperBlock.Sign s) <> Done (Some SuperBlockOps.Bad_Crc)
  /\ (SuperBlock.BlockSize s = SuperBlock.DefaultBlockSize ->
      SuperBlock.InodesRatio s = SuperBlock.DefaultInodesRatio ->
      (SuperBlockOps.Verify (SuperBlock.Sign s) = Done None
       <-> SuperBlock.BlocksInGroup s mod 1024 = 0))
  /\ (SuperBlockOps.Verify s = Done None -> SuperBlock.Sign s = s).
Proof.
  assert (Hiff : SuperBlockOps.Verify (SuperBlock.Sign s) = Done None
     <-> SuperBlock.BlockSize s mod 4096 = 0
         /\ SuperBlock.BlocksInGroup s mod 1024 = 0
         /\ SuperBlock.InodesRatio s mod 4 = 0 /\ SuperBlock.InodesRatio s <> 0
         /\ (SuperBlock.BlocksInGroup s / SuperBlock.InodesRatio s) mod 64 = 0).
  { rewrite MetaFacts.Verify_nil.
    destruct (MetaFacts.Sign_fields s) as (-> & _ & -> & -> & _ & _ & ->).
    rewrite MetaFacts.Checksum_Sign. tauto. }
  destruct (MetaFacts.Verify_signed (SuperBlock.Sign s) eq_refl
              (eq_sym (MetaFacts.Checksum_Sign s))) as [Hm Hc].
  split; [exact Hiff|]. split; [exact Hm|]. split; [exact Hc|]. split.
  - intros Hb Hr. rewrite Hiff, Hb, Hr.
    unfold SuperBlock.DefaultBlockSize, SuperBlock.DefaultInodesRatio.
    split; [tauto|]. intros H1024.
    repeat split; try reflexivity; try lia.
  - intros Hs. apply MetaFacts.Verify_nil in Hs.
    destruct Hs as (Hmg & _ & _ & _ & _ & _ & Hcr).
    destruct s as [bs tg bg ir sh at_ mg crc]. cbn in Hmg, Hcr. subst mg.
    unfold SuperBlock.Sign. cbn [SuperBlock.BlockSize SuperBlock.TotalGroups
      SuperBlock.BlocksInGroup SuperBlock.InodesRatio SuperBlock.ShardId
      SuperBlock.Attr SuperBlock.Magic SuperBlock.Crc].
    f_equal. symmetry. exact Hcr.
Qed.

(* ------------------------------------------------------------------ *)
(** ** fs.go: the encoding of a file meta *)

Module MetaCodec.
Import FileMeta CodecFacts.

Lemma firstn_exact (k : nat) (a b : list Z) :
  Datatypes.length a = k -> firstn k (a ++ b) = a.
Proof.
  intros <-. rewrite firstn_app, Nat.sub_diag, firstn_all. cbn. apply app_nil_r.
Qed.

Lemma skipn_exact (k : nat) (a b : list Z) :
  Datatypes.length a = k -> skipn k (a ++ b) = b.
Proof. intros <-. rewrite skipn_app, Nat.sub_diag, skipn_all. reflexivity. Qed.

Lemma i32_small (n : Z) : 0 <= n < 2 ^ 31 -> i32 n = n.
Proof. intros H. unfold i32. rewrite Z.mod_small by lia. lia. Qed.

(** [binary.Read] of the [int32] that [binary.Write] wrote. *)
Lemma read_i32_written (n : Z) (rest : list Z) :
  0 <= n < 2 ^ 31 ->
  read_i32 (le_split 4 n ++ rest) = (Some (n, rest), None).
Proof.
  intros Hn. unfold read_i32. rewrite len_of_app, len_of_le_split.
  pose proof (BitFacts.len_nonneg rest) as Hr.
  destruct (Z.eqb_spec (Z.of_nat 4 + len rest) 0); [lia|].
  destruct (Z.ltb_spec (Z.of_nat 4 + len rest) 4); [lia|].
  rewrite firstn_exact, skipn_exact by apply WordFacts.le_split_length.
  rewrite le_combine_le_split_small by (change (2 ^ (8 * Z.of_nat 4)) with (2 ^ 32); lia).
  rewrite i32_small by exact Hn. reflexivity.
Qed.

(** [buf.Read(p)] of bytes that are there. *)
Lemma read_n_written (a rest : list Z) :
  0 < len a -> read_n (a ++ rest) (len a) = (Some (a, rest), None).
Proof.
  intros Ha. unfold read_n. rewrite len_of_app.
  pose proof (BitFacts.len_nonneg rest) as Hr.
  destruct (Z.eqb_spec (len a + len rest) 0); [lia|].
  rewrite firstn_len_app, skipn_len_app, Z.sub_diag. cbn [Z.to_nat repeat].
  rewrite app_nil_r. reflexivity.
Qed.

(** The bytes that [ToBytes] lays out: the two lengths, each before its
    bytes, and the padding. *)
Lemma ToBytes_layout (m : t) :
  len (Name m) < 2 ^ 31 -> len (ExtMetas m) < 2 ^ 31 ->
  exists pad : nat,
    ToBytes m = le_split 4 (len (Name m)) ++ Name m
                ++ le_split 4 (len (ExtMetas m)) ++ ExtMetas m ++ repeat 0 pad
    /\ (Z.of_nat pad < 16)
    /\ (8 + len (Name m) + len (ExtMetas m) + Z.of_nat pad) mod 16 = 0.
Proof.
  intros Hn He.
  pose proof (BitFacts.len_nonneg (Name m)) as Hn0.
  pose proof (BitFacts.len_nonneg (ExtMetas m)) as He0.
  unfold ToBytes, FileMetaAlign. rewrite !i32_small by lia. cbv zeta.
  assert (E1 : (if len (Name m) >? 0 then le_split 4 (len (Name m)) ++ Name m
                else le_split 4 (len (Name m)))
               = le_split 4 (len (Name m)) ++ Name m).
  { destruct (Z.gtb_spec (len (Name m)) 0); [reflexivity|].
    destruct (Name m); [rewrite app_nil_r; reflexivity|].
    unfold len in *. cbn [Datatypes.length] in *. lia. }
  rewrite E1.
  set (b1 := (le_split 4 (len (Name m)) ++ Name m) ++ le_split 4 (len (ExtMetas m))).
  assert (E2 : (if len (ExtMetas m) >? 0 then b1 ++ ExtMetas m else b1)
               = b1 ++ ExtMetas m).
  { destruct (Z.gtb_spec (len (ExtMetas m)) 0); [reflexivity|].
    destruct (ExtMetas m); [rewrite app_nil_r; reflexivity|].
    unfold len in *. cbn [Datatypes.length] in *. lia. }
  rewrite E2.
  assert (L : len (b1 ++ ExtMetas m) = 8 + len (Name m) + len (ExtMetas m)).
  { subst b1. rewrite !len_of_app, !len_of_le_split. lia. }
  rewrite L.
  set (total := 8 + len (Name m) + len (ExtMetas m)) in *.
  destruct (Z.eqb_spec (16 - total mod 16) 16) as [E|E]; cbn [negb].
  - exists 0%nat. cbn [repeat]. subst b1. rewrite app_nil_r, <- !app_assoc.
    split; [reflexivity|]. split; lia.
  - exists (Z.to_nat (16 - total mod 16)). subst b1. rewrite <- !app_assoc.
    split; [reflexivity|]. split; lia.
Qed.

End MetaCodec.

(** X9, a file meta is read back from its encoding, unless the name is
    long: for a name and a meta of less than [2^31] bytes each,
    [FromBytes] on what [ToBytes] returned gives the name and the meta
    back with no error when the name has less than 2048 bytes, and
    returns the error of the name length check otherwise (leaving an
    empty [FileMeta]). *)
Theorem FromBytes_of_ToBytes (m : FileMeta.t) :
  len (FileMeta.Name m) < 2 ^ 31 -> len (FileMeta.ExtMetas m) < 2 ^ 31 ->
  FileMeta.FromBytes (FileMeta.ToBytes m)
  = if len (FileMeta.Name m) <? MaxFileMetaSize then (m, None)
    else (FileMeta.mk [] [], Some Bad_File_name_len).
Proof.
  intros Hn He.
  pose proof (BitFacts.len_nonneg (FileMeta.Name m)) as Hn0.
  pose proof (BitFacts.len_nonneg (FileMeta.ExtMetas m)) as He0.
  destruct (MetaCodec.ToBytes_layout m Hn He) as (pad & -> & _ & _).
  unfold FileMeta.FromBytes.
  rewrite MetaCodec.read_i32_written by lia.
  destruct (Z.geb_spec (len (FileMeta.Name m)) MaxFileMetaSize) as [Hlong|Hshort];
    destruct (Z.ltb_spec (len (FileMeta.Name m)) MaxFileMetaSize); try lia;
    [reflexivity|].
  destruct m as [name ext]. cbn [FileMeta.Name FileMeta.ExtMetas] in *.
  destruct (Z.gtb_spec (len name) 0) as [Hpos|Hzero].
  - rewrite MetaCodec.read_n_written by lia.
    rewrite MetaCodec.read_i32_written by lia.
    destruct (Z.gtb_spec (len ext) 0) as [Hpe|Hze].
    + rewrite MetaCodec.read_n_written by lia. reflexivity.
    + destruct ext; [reflexivity|unfold len in *; cbn [Datatypes.length] in *; lia].
  - destruct name; [|unfold len in *; cbn [Datatypes.length] in *; lia].
    cbn [app]. rewrite MetaCodec.read_i32_written by lia.
    destruct (Z.gtb_spec (len ext) 0) as [Hpe|Hze].
    + rewrite MetaCodec.read_n_written by lia. reflexivity.
    + destruct ext; [reflexivity|unfold len in *; cbn [Datatypes.length] in *; lia].
Qed.

Lemma FromBytes_of_ToBytes_witness :
  FileMeta.FromBytes (FileMeta.ToBytes (FileMeta.mk [116; 120; 116] [1; 2]))
  = (if len [116; 120; 116] <? MaxFileMetaSize
     then (FileMeta.mk [116; 120; 116] [1; 2], None)
     else (FileMeta.mk [] [], Some Bad_File_name_len)).
Proof.
  apply (FromBytes_of_ToBytes (FileMeta.mk [116; 120; 116] [1; 2])); cbn; lia.
Defined.

(** X10, the length of an encoded file meta: for a name and a meta of less
    than [2^31] bytes each, [ToBytes] returns the two length words, the
    name and the meta, padded with zeros to the next multiple of 16:
    [16 * ceil((8 + len(name) + len(meta)) / 16)] bytes. *)
Theorem ToBytes_length (m : FileMeta.t) :
  len (FileMeta.Name m) < 2 ^ 31 -> len (FileMeta.ExtMetas m) < 2 ^ 31 ->
  len (FileMeta.ToBytes m)
  = 16 * ((8 + len (FileMeta.Name m) + len (FileMeta.ExtMetas m) + 15) / 16).
Proof.
  intros Hn He.
  pose proof (BitFacts.len_nonneg (FileMeta.Name m)) as Hn0.
  pose proof (BitFacts.len_nonneg (FileMeta.ExtMetas m)) as He0.
  destruct (MetaCodec.ToBytes_layout m Hn He) as (pad & -> & Hp & Hm).
  rewrite !CodecFacts.len_of_app, !CodecFacts.len_of_le_split, CodecFacts.len_of_repeat.
  lia.
Qed.

Lemma ToBytes_length_witness :
  len (FileMeta.ToBytes (FileMeta.mk [116; 120; 116] [1; 2]))
  = 16 * ((8 + len [116; 120; 116] + len [1; 2] + 15) / 16).
Proof.
  apply (ToBytes_length (FileMeta.mk [116; 120; 116] [1; 2])); cbn; lia.
Defined.

(* ------------------------------------------------------------------ *)
(** ** cache.go: a [CacheLayer] is a bounded map *)

Module CacheFacts.
Import Cache CacheSpec.

Lemma find_remove_same (c : CacheLayer) (k : Z) : find (remove c k) k = None.
Proof.
  induction c as [|[p d] c IH]; [reflexivity|].
  unfold remove in *. cbn [filter fst].
  destruct (Z.eqb_spec p k) as [->|Hne]; cbn [negb]; [exact IH|].
  cbn [find]. destruct (Z.eqb_spec p k); [contradiction|exact IH].
Qed.

Lemma find_remove_other (c : CacheLayer) (k k' : Z) :
  k' <> k -> find (remove c k) k' = find c k'.
Proof.
  intros Hne. induction c as [|[p d] c IH]; [reflexivity|].
  unfold remove in *. cbn [filter fst].
  destruct (Z.eqb_spec p k) as [->|Hpk]; cbn [negb find].
  - destruct (Z.eqb_spec k k'); [congruence|exact IH].
  - rewrite IH. reflexivity.
Qed.

Lemma keys_remove (c : CacheLayer) (k x : Z) :
  In x (map fst (remove c k)) -> In x (map fst c).
Proof.
  unfold remove. rewrite !in_map_iff. intros [e [He Hin]].
  apply filter_In in Hin. exists e. tauto.
Qed.

Lemma NoDup_remove (c : CacheLayer) (k : Z) :
  NoDup (map fst c) -> NoDup (map fst (remove c k)).
Proof.
  induction c as [|[p d] c IH]; intros H; [constructor|].
  inversion H as [|? ? Hnin Hnd]; subst.
  unfold remove in *. cbn [filter fst].
  destruct (Z.eqb_spec p k); cbn [negb]; [apply IH; exact Hnd|].
  cbn [map fst]. constructor; [|apply IH; exact Hnd].
  intros Hin. apply Hnin. eapply keys_remove. exact Hin.
Qed.

Lemma length_remove (c : CacheLayer) (k : Z) :
  (Datatypes.length (remove c k) <= Datatypes.length c)%nat.
Proof. unfold remove. apply filter_length_le. Qed.

Lemma length_remove_found (c : CacheLayer) (k : Z) (d : list Z) :
  find c k = Some d -> (Datatypes.length (remove c k) < Datatypes.length c)%nat.
Proof.
  induction c as [|[p e] c IH]; [discriminate|].
  unfold remove in *. cbn [find filter fst Datatypes.length].
  destruct (Z.eqb_spec p k); cbn [negb].
  - intros _. pose proof (filter_length_le (fun e => negb (fst e =? k)) c). lia.
  - intros H. specialize (IH H). cbn [Datatypes.length]. lia.
Qed.

Lemma find_none_keys (c : CacheLayer) (k : Z) :
  find c k = None <-> ~ In k (map fst c).
Proof.
  induction c as [|[p d] c IH]; cbn [find map fst In]; [tauto|].
  destruct (Z.eqb_spec p k); [split; [discriminate|tauto]|].
  rewrite IH. tauto.
Qed.

Lemma find_app (a b : CacheLayer) (k : Z) :
  find (a ++ b) k = match find a k with Some d => Some d | None => find b k end.
Proof.
  induction a as [|[p d] a IH]; [reflexivity|].
  cbn [app find]. destruct (p =? k); [reflexivity|exact IH].
Qed.

(** A list that is not empty is what [removelast] leaves, then its last
    entry. *)
Lemma split_last (c : CacheLayer) (e : Z * list Z) :
  c <> [] -> c = removelast c ++ [last c e].
Proof. intros H. apply app_removelast_last. exact H. Qed.

Lemma find_removelast (c : CacheLayer) (e : Z * list Z) (k' : Z) :
  NoDup (map fst c) -> c <> [] ->
  find (removelast c) k' = if fst (last c e) =? k' then None else find c k'.
Proof.
  intros Hnd Hne. pose proof (split_last c e Hne) as Hs.
  set (l := removelast c) in *. set (x := last c e) in *.
  rewrite Hs in Hnd. rewrite map_app in Hnd. cbn [map] in Hnd.
  apply NoDup_remove_2 in Hnd. rewrite app_nil_r in Hnd.
  rewrite Hs. rewrite find_app. destruct x as [kl dl]. cbn [fst find] in *.
  destruct (Z.eqb_spec kl k') as [<-|Hd].
  - apply find_none_keys. exact Hnd.
  - destruct (find l k'); reflexivity.
Qed.

Lemma NoDup_removelast (c : CacheLayer) :
  NoDup (map fst c) -> NoDup (map fst (removelast c)).
Proof.
  intros H. destruct c as [|e c]; [exact H|].
  rewrite (split_last (e :: c) e) in H by discriminate.
  rewrite map_app in H. apply NoDup_app_remove_r in H. exact H.
Qed.

Lemma keys_removelast (c : CacheLayer) (x : Z) :
  In x (map fst (removelast c)) -> In x (map fst c).
Proof.
  destruct c as [|e c]; [tauto|]. intros H.
  rewrite (split_last (e :: c) e) by discriminate.
  rewrite map_app. apply in_or_app. left. exact H.
Qed.

Lemma length_removelast (c : CacheLayer) :
  c <> [] -> Datatypes.length (removelast c) = (Datatypes.length c - 1)%nat.
Proof.
  intros H. destruct c as [|e c]; [contradiction|].
  pose proof (f_equal (@Datatypes.length _) (split_last (e :: c) e H)) as L.
  rewrite length_app in L. cbn [Datatypes.length] in *. lia.
Qed.

End CacheFacts.

(** X11, a cache layer is a bounded map in order of use: on a layer with
    one entry per block pointer and at most 128 entries, [Put] leaves
    such a layer in which the pointer is bound to the data and is at the
    front; every other pointer keeps its data, but for the pointer at the
    back of a full layer when the pointer put is new, which is dropped.
    [Get] returns the data of the pointer and leaves such a layer with
    the same data for every pointer. *)
Theorem CacheLayer_is_a_bounded_map (c : Cache.CacheLayer) (k : Z) (v : list Z) :
  CacheSpec.well_formed c ->
  (CacheSpec.well_formed (Cache.Put c k v)
   /\ Cache.find (Cache.Put c k v) k = Some v
   /\ (exists rest, Cache.Put c k v = (k, v) :: rest)
   /\ forall k', k' <> k ->
        Cache.find (Cache.Put c k v) k'
        = if match Cache.find c k with Some _ => false | None => true end
             && (Z.of_nat (length c) =? BlockCacheSize)
             && match CacheSpec.back_key c with
                | Some b => b =? k'
                | None => false
                end
          then None else Cache.find c k')
  /\ (fst (Cache.Get c k) = Cache.find c k
      /\ CacheSpec.well_formed (snd (Cache.Get c k))
      /\ forall k', Cache.find (snd (Cache.Get c k)) k' = Cache.find c k').
Proof.
  intros [Hnd Hlen]. unfold CacheSpec.well_formed, BlockCacheSize in *. split.
  - unfold Cache.Put, BlockCacheSize. destruct (Cache.find c k) as [d|] eqn:Ef.
    + split; [|split; [|split]].
      * split.
        -- cbn [map fst]. constructor; [|apply CacheFacts.NoDup_remove; exact Hnd].
           apply CacheFacts.find_none_keys. apply CacheFacts.find_remove_same.
        -- pose proof (CacheFacts.length_remove_found c k d Ef).
           cbn [Datatypes.length]. lia.
      * cbn [Cache.find]. rewrite Z.eqb_refl. reflexivity.
      * eexists. reflexivity.
      * intros k' Hne. cbn [Cache.find andb].
        destruct (Z.eqb_spec k k'); [congruence|].
        apply CacheFacts.find_remove_other. exact Hne.
    + destruct (Z.eqb_spec (Z.of_nat (Datatypes.length c)) 128) as [Hfull|Hroom].
      * assert (Hne : c <> []) by (intros ->; cbn in Hfull; lia).
        split; [|split; [|split]].
        -- split.
           ++ cbn [map fst]. constructor; [|apply CacheFacts.NoDup_removelast; exact Hnd].
              intros Hin. apply CacheFacts.keys_removelast in Hin.
              apply CacheFacts.find_none_keys in Ef. contradiction.
           ++ cbn [Datatypes.length]. rewrite CacheFacts.length_removelast by exact Hne. lia.
        -- cbn [Cache.find]. rewrite Z.eqb_refl. reflexivity.
        -- eexists. reflexivity.
        -- intros k' Hk. cbn [Cache.find andb].
           destruct (Z.eqb_spec k k'); [congruence|].
           destruct c as [|e c']; [contradiction|].
           cbn [CacheSpec.back_key].
           apply (CacheFacts.find_removelast (e :: c') e k' Hnd Hne).
      * split; [|split; [|split]].
        -- split.
           ++ cbn [map fst]. constructor; [|exact Hnd].
              apply CacheFacts.find_none_keys. exact Ef.
           ++ cbn [Datatypes.length]. lia.
        -- cbn [Cache.find]. rewrite Z.eqb_refl. reflexivity.
        -- eexists. reflexivity.
        -- intros k' Hk. cbn [Cache.find andb].
           destruct (Z.eqb_spec k k'); [congruence|reflexivity].
  - unfold Cache.Get. destruct (Cache.find c k) as [d|] eqn:Ef; cbn [fst snd].
    + split; [reflexivity|]. split.
      * split.
        -- cbn [map fst]. constructor; [|apply CacheFacts.NoDup_remove; exact Hnd].
           apply CacheFacts.find_none_keys. apply CacheFacts.find_remove_same.
        -- pose proof (CacheFacts.length_remove_found c k d Ef).
           cbn [Datatypes.length]. lia.
      * intros k'. cbn [Cache.find].
        destruct (Z.eqb_spec k k') as [<-|Hne]; [symmetry; exact Ef|].
        apply CacheFacts.find_remove_other. congruence.
    + split; [reflexivity|]. split; [split; assumption|reflexivity].
Qed.

Lemma CacheLayer_is_a_bounded_map_witness :
  Cache.find (Cache.Put [(7, [1]); (9, [2])] 9 [3]) 9 = Some [3]
  /\ Cache.find (Cache.Put [(7, [1]); (9, [2])] 9 [3]) 7 = Some [1].
Proof.
  assert (W : CacheSpec.well_formed [(7, [1]); (9, [2])]).
  { split; [|cbn; unfold BlockCacheSize; lia].
    cbn. repeat constructor; cbn; intuition lia. }
  destruct (CacheLayer_is_a_bounded_map [(7, [1]); (9, [2])] 9 [3] W)
    as [(_ & H1 & _ & H2) _].
  split; [exact H1|]. rewrite (H2 7) by lia. reflexivity.
Defined.

(* ------------------------------------------------------------------ *)
(** ** volume.go: [align] rounds up to a power of two *)

Module AlignFacts.

Lemma i64_small (x : Z) : - 2 ^ 63 <= x < 2 ^ 63 -> i64 x = x.
Proof. intros H. unfold i64. rewrite Z.mod_small by lia. lia. Qed.

Lemma pow2_bounds (k : Z) : 0 <= k <= 62 -> 0 < 2 ^ k <= 2 ^ 62.
Proof.
  intros H. split; [apply Z.pow_pos_nonneg; lia|].
  apply Z.pow_le_mono_r; lia.
Qed.

(** [x & (x - 1)] of a power of two. *)
Lemma land_pred_pow2 (k : Z) : 0 <= k -> Z.land (2 ^ k) (2 ^ k - 1) = 0.
Proof.
  intros Hk. replace (2 ^ k - 1) with (Z.ones k) by (rewrite Z.ones_equiv; lia).
  rewrite Z.land_ones by lia. apply Z.mod_same. apply Z.pow_nonzero; lia.
Qed.

(** [x & (x - 1)] is 0 for no other positive [x]. *)
Lemma land_pred_zero (a : Z) : 0 < a -> Z.land a (a - 1) = 0 -> a = 2 ^ Z.log2 a.
Proof.
  intros Ha Hl. destruct (Z.log2_spec a Ha) as [Hlo Hhi].
  destruct (Z.eq_dec a (2 ^ Z.log2 a)) as [|Hne]; [assumption|exfalso].
  assert (Hk : 0 <= Z.log2 a) by apply Z.log2_nonneg.
  assert (Hp : 0 < 2 ^ Z.log2 a) by (apply Z.pow_pos_nonneg; lia).
  assert (L : Z.log2 (a - 1) = Z.log2 a).
  { apply Z.log2_unique; [exact Hk|]. lia. }
  assert (B1 : Z.testbit a (Z.log2 a) = true) by (apply Z.bit_log2; lia).
  assert (B2 : Z.testbit (a - 1) (Z.log2 a) = true).
  { rewrite <- L. apply Z.bit_log2. lia. }
  pose proof (f_equal (fun x => Z.testbit x (Z.log2 a)) Hl) as Hb. cbn beta in Hb.
  rewrite Z.land_spec, B1, B2, Z.testbit_0_l in Hb. discriminate.
Qed.

(** Clearing the low [k] bits. *)
Lemma land_lnot_ones (x k : Z) :
  0 <= k -> Z.land x (Z.lnot (2 ^ k - 1)) = 2 ^ k * (x / 2 ^ k).
Proof.
  intros Hk. replace (2 ^ k - 1) with (Z.ones k) by (rewrite Z.ones_equiv; lia).
  rewrite <- Z.ldiff_land, Z.ldiff_ones_r by lia.
  rewrite Z.shiftl_mul_pow2, Z.shiftr_div_pow2 by lia. ring.
Qed.

End AlignFacts.

(** X12, [align] rounds up: for an alignment [2^k] ([k <= 62]) and a value
    that is not negative, when the sum does not leave [int64], [align]
    returns the least multiple of the alignment that is not less than the
    value; and for a positive alignment it panics exactly when the
    alignment is not a power of two, as it does for the alignment 0. *)
Theorem align_rounds_up (value k : Z) :
  0 <= k <= 62 -> 0 <= value -> value + 2 ^ k <= 2 ^ 63 ->
  (exists r, VolumeOps.align value (2 ^ k) = Done r
             /\ r mod 2 ^ k = 0 /\ value <= r < value + 2 ^ k)
  /\ VolumeOps.align value 0 = Panic
  /\ forall a, 0 < a < 2 ^ 63 ->
       (VolumeOps.align value a = Panic <-> ~ exists j, 0 <= j /\ a = 2 ^ j).
Proof.
  intros Hk Hv Hs. pose proof (AlignFacts.pow2_bounds k Hk) as Hp.
  split; [|split; [reflexivity|]].
  - unfold VolumeOps.align.
    rewrite !AlignFacts.i64_small by lia.
    rewrite AlignFacts.land_pred_pow2 by lia.
    destruct (Z.eqb_spec (2 ^ k) 0); [lia|]. cbn [Z.eqb negb orb].
    rewrite AlignFacts.land_lnot_ones by lia.
    eexists. split; [reflexivity|]. split.
    + rewrite Z.mul_comm. apply Z.mod_mul. lia.
    + pose proof (Z.div_mod (value + (2 ^ k - 1)) (2 ^ k) ltac:(lia)) as E.
      pose proof (Z.mod_pos_bound (value + (2 ^ k - 1)) (2 ^ k) ltac:(lia)) as B.
      lia.
  - intros a Ha. unfold VolumeOps.align.
    rewrite (AlignFacts.i64_small (a - 1)) by lia.
    destruct (Z.eqb_spec a 0); [lia|]. cbn [orb].
    destruct (Z.eqb_spec (Z.land a (a - 1)) 0) as [E|E]; cbn [negb].
    + split; [discriminate|]. intros Hn. exfalso. apply Hn.
      exists (Z.log2 a). split; [apply Z.log2_nonneg|].
      apply AlignFacts.land_pred_zero; [lia|exact E].
    + split; [|reflexivity]. intros _ [j [Hj ->]]. apply E.
      apply AlignFacts.land_pred_pow2. exact Hj.
Qed.

Lemma align_rounds_up_witness :
  exists r, VolumeOps.align 36 (2 ^ 3) = Done r
            /\ r mod 2 ^ 3 = 0 /\ 36 <= r < 36 + 2 ^ 3.
Proof.
  apply (align_rounds_up 36 3); lia.
Defined.

(* ------------------------------------------------------------------ *)
(** ** [AddUnique] keeps a list without repeats *)

Module UniqueFacts.
Import Util.

Lemma seen_spec (v : list Z) (x : Z) (i : nat) :
  seen v i x = true <-> exists j, (j < i)%nat /\ nth j v 0 = x.
Proof.
  induction i as [|i IH]; cbn [seen].
  - split; [discriminate|intros [j [H _]]; lia].
  - destruct (Z.eqb_spec (nth i v 0) x) as [E|E].
    + split; [intros _; exists i; split; [lia|exact E]|reflexivity].
    + rewrite IH. split.
      * intros [j [Hj Hn]]. exists j. split; [lia|exact Hn].
      * intros [j [Hj Hn]]. exists j. split; [|exact Hn].
        destruct (Nat.eq_dec j i) as [->|]; [contradiction|lia].
Qed.

Lemma seen_In (v : list Z) (x : Z) : seen v (length v) x = true <-> In x v.
Proof.
  rewrite seen_spec. split.
  - intros [j [Hj <-]]. apply nth_In. exact Hj.
  - intros H. destruct (In_nth v x 0 H) as [j [Hj Hn]]. exists j. auto.
Qed.

Lemma AddUnique_there (array : list Z) (x : Z) :
  In x array -> AddUnique array x = array.
Proof.
  intros H. unfold AddUnique. rewrite (proj2 (seen_In array x) H). reflexivity.
Qed.

Lemma AddUnique_new (array : list Z) (x : Z) :
  ~ In x array -> AddUnique array x = array ++ [x].
Proof.
  intros H. unfold AddUnique.
  destruct (seen array (length array) x) eqn:E; [|reflexivity].
  apply seen_In in E. contradiction.
Qed.

End UniqueFacts.

(** X13, [AddUnique] adds a value once: the slice afterwards holds the
    value and what it held before, and nothing else; a value that is there
    leaves the slice as it is, another one is appended; a slice without
    repeats stays one; and a second call with the same value changes
    nothing. *)
Theorem AddUnique_adds_once (array : list Z) (newElem : Z) :
  (forall y, In y (Util.AddUnique array newElem) <-> In y array \/ y = newElem)
  /\ (In newElem array -> Util.AddUnique array newElem = array)
  /\ (~ In newElem array -> Util.AddUnique array newElem = array ++ [newElem])
  /\ (NoDup array -> NoDup (Util.AddUnique array newElem))
  /\ Util.AddUnique (Util.AddUnique array newElem) newElem
     = Util.AddUnique array newElem.
Proof.
  destruct (in_dec Z.eq_dec newElem array) as [H|H].
  - rewrite !(UniqueFacts.AddUnique_there array newElem H). repeat split; auto.
    + intros [Hy| ->]; assumption.
    + intros; contradiction.
  - rewrite !(UniqueFacts.AddUnique_new array newElem H).
    split; [|split; [|split; [|split]]].
    + intros y. rewrite in_app_iff. cbn [In]. intuition congruence.
    + intros; contradiction.
    + reflexivity.
    + intros Hnd. apply NoDup_app; [exact Hnd|repeat constructor; intros []|].
      intros y Hy [<- |[]]. contradiction.
    + apply UniqueFacts.AddUnique_there. apply in_or_app. right. left. reflexivity.
Qed.

(* ------------------------------------------------------------------ *)
(** ** bitmap.go: what a call of [AllocBits] hands out *)

Module ExactFacts.
Import Bitmap Bits BitFacts CountFacts Alloc AllocSpec AllocCall RunFacts
       AddrSpec ClearSpec ClearFacts ExactSpec.

Lemma span_pos (e : event) : 1 <= span e <= 64.
Proof. unfold span. destruct (snd e); lia. Qed.

Lemma spans_nonneg (evs : list event) : 0 <= spans evs.
Proof.
  induction evs as [|e t IH]; cbn [spans]; [lia|].
  pose proof (span_pos e). lia.
Qed.

Lemma spans_app (a b : list event) : spans (a ++ b) = spans a + spans b.
Proof. induction a as [|e t IH]; cbn [app spans]; lia. Qed.

Lemma covered_app (a b : list event) (i : Z) :
  covered (a ++ b) i = covered a i || covered b i.
Proof. unfold covered. apply existsb_app. Qed.

(** *** Sequences of fresh allocations *)

Lemma fresh_app (a b c : list Z) (e1 e2 : list event) :
  fresh a e1 b -> fresh b e2 c -> fresh a (e1 ++ e2) c.
Proof.
  induction 1 as [buf|buf e buf1 evs buf' H0 H1 Hb H2 H3 H4 IH]; intros H5.
  - exact H5.
  - cbn [app]. econstructor; eauto.
Qed.

Lemma fresh_shape (buf buf' : list Z) (evs : list event) :
  fresh buf evs buf' -> wf buf ->
  wf buf' /\ Datatypes.length buf' = Datatypes.length buf.
Proof.
  induction 1 as [buf|buf e buf1 evs buf' H0 H1 Hb H2 H3 H4 IH]; intros Hw.
  - split; [exact Hw|reflexivity].
  - destruct H3 as [L [W _]]. destruct (IH W) as [W' L'].
    split; [exact W'|congruence].
Qed.

Lemma fresh_size (buf buf' : list Z) (evs : list event) :
  fresh buf evs buf' -> wf buf -> size buf' = size buf.
Proof.
  intros H Hw. destruct (fresh_shape _ _ _ H Hw) as [_ L].
  unfold size, len. rewrite L. reflexivity.
Qed.

(** A bit is set afterwards exactly when it was set or belongs to an
    event. *)
Lemma fresh_bits (buf buf' : list Z) (evs : list event) :
  fresh buf evs buf' -> wf buf ->
  forall i, 0 <= i < size buf -> bit buf' i = bit buf i || covered evs i.
Proof.
  induction 1 as [buf|buf e buf1 evs buf' H0 H1 Hb H2 H3 H4 IH]; intros Hw i Hi.
  - cbn. rewrite orb_false_r. reflexivity.
  - pose proof (sets_size _ _ _ _ H3) as Hs.
    destruct H3 as [L [W Hbits]].
    rewrite IH by (try exact W; lia). rewrite Hbits by lia.
    unfold covered. cbn [existsb]. rewrite orb_assoc. reflexivity.
Qed.

(** The bits of every event were clear at the start, and lie in the
    bitmap. *)
Lemma fresh_clear (buf buf' : list Z) (evs : list event) :
  fresh buf evs buf' -> wf buf ->
  Forall (fun e => 0 <= fst e /\ fst e + span e <= size buf
                   /\ (snd e = true -> fst e + 64 < size buf)
                   /\ range_clear buf (fst e) (fst e + span e)) evs.
Proof.
  induction 1 as [buf|buf e buf1 evs buf' H0 H1 Hb H2 H3 H4 IH]; intros Hw.
  - constructor.
  - pose proof (sets_size _ _ _ _ H3) as Hs.
    constructor; [auto|].
    assert (W : wf buf1) by apply H3.
    eapply Forall_impl; [|exact (IH W)].
    intros e' (E0 & E1 & Eb & E2). rewrite Hs in E1, Eb.
    repeat split; auto. intros i Hi.
    destruct (bit buf i) eqn:E; [|reflexivity].
    apply (sets_mono _ _ _ _ _ H3) in E. rewrite E2 in E by exact Hi. discriminate.
Qed.

(** The bits of every event are set at the end. *)
Lemma fresh_set (buf buf' : list Z) (evs : list event) :
  fresh buf evs buf' -> wf buf ->
  Forall (fun e => range_set buf' (fst e) (fst e + span e)) evs.
Proof.
  intros H Hw. pose proof (fresh_bits _ _ _ H Hw) as Hb.
  pose proof (fresh_clear _ _ _ H Hw) as Hc.
  rewrite Forall_forall in *. intros e He i Hi.
  destruct (Hc e He) as (E0 & E1 & _).
  rewrite Hb by lia. apply orb_true_iff. right.
  unfold covered. apply existsb_exists. exists e. split; [exact He|].
  apply andb_true_iff. split; [apply Z.leb_le|apply Z.ltb_lt]; lia.
Qed.

(** Events of one sequence stand for bits apart. *)
Lemma fresh_apart (buf buf' : list Z) (evs : list event) :
  fresh buf evs buf' -> wf buf ->
  ForallOrdPairs (fun e1 e2 => fst e1 + span e1 <= fst e2
                               \/ fst e2 + span e2 <= fst e1) evs.
Proof.
  induction 1 as [buf|buf e buf1 evs buf' H0 H1 Hb H2 H3 H4 IH]; intros Hw.
  - constructor.
  - assert (W : wf buf1) by apply H3.
    constructor; [|exact (IH W)].
    pose proof (fresh_clear _ _ _ H4 W) as Hc.
    eapply Forall_impl; [|exact Hc].
    intros e' (E0 & E1 & _ & E2).
    pose proof (span_pos e). pose proof (span_pos e').
    destruct (Z_le_gt_dec (fst e + span e) (fst e')) as [|Hgt]; [left; assumption|].
    destruct (Z_le_gt_dec (fst e' + span e') (fst e)) as [|Hgt']; [right; assumption|].
    exfalso.
    set (i := Z.max (fst e) (fst e')).
    assert (Hi1 : fst e <= i < fst e + span e) by lia.
    assert (Hi2 : fst e' <= i < fst e' + span e') by lia.
    specialize (E2 i Hi2).
    destruct H3 as [_ [_ Hbits]]. rewrite Hbits in E2 by lia.
    apply orb_false_iff in E2. destruct E2 as [_ E2].
    apply andb_false_iff in E2. destruct E2 as [E2|E2].
    + apply Z.leb_gt in E2. lia.
    + apply Z.ltb_ge in E2. lia.
Qed.

(** The clear bits that the events took. *)
Lemma fresh_count (buf buf' : list Z) (evs : list event) :
  fresh buf evs buf' -> wf buf ->
  clear_count buf' = clear_count buf - spans evs.
Proof.
  induction 1 as [buf|buf e buf1 evs buf' H0 H1 Hb H2 H3 H4 IH]; intros Hw.
  - cbn [spans]. lia.
  - assert (W : wf buf1) by apply H3. rewrite (IH W). cbn [spans].
    pose proof (span_pos e).
    rewrite (sets_clear_count buf buf1 (fst e) (span e)) by (auto; lia). lia.
Qed.

(** *** Scans and calls *)

Section Run.

Variables (gid numBits hlimit : Z) (bigAlloc : bool).

Lemma allocated_fresh (s s1 : scan) (start f : Z) (big : bool) :
  0 <= start ->
  picks numBits bigAlloc s start f big -> allocated gid s s1 f big ->
  fresh (s_bits s) [(f, big)] (s_bits s1)
  /\ s_cnt s1 = s_cnt s + span (f, big)
  /\ s_free s1 = s_free s - span (f, big)
  /\ s_acc s1 = s_acc s ++ [addr_of gid (f, big)].
Proof.
  intros Hs [[Hf1 [Hf2 Hf3]] Hbig] [Hsets [Hfree [Hcnt Hacc]]].
  unfold span. cbn [fst snd]. split; [|split; [exact Hcnt|split; [exact Hfree|]]].
  - econstructor; cbn [fst snd]; unfold span; cbn [fst snd].
    + lia.
    + destruct big; [|lia]. destruct (proj1 Hbig eq_refl) as [_ [_ [H _]]]. lia.
    + intros ->. destruct (proj1 Hbig eq_refl) as [_ [_ [H _]]]. exact H.
    + destruct big.
      * destruct (proj1 Hbig eq_refl) as [_ [_ [_ H]]]. exact H.
      * intros i Hi. replace i with f by lia. exact Hf2.
    + exact Hsets.
    + constructor.
  - unfold addr_of. cbn [fst snd]. exact Hacc.
Qed.

(** A scan is a sequence of fresh allocations. *)
Lemma run_fresh (start : Z) (s : scan) (r : option Z) (s' : scan) :
  0 <= start -> run gid numBits hlimit bigAlloc start s r s' ->
  exists evs,
    s_acc s' = s_acc s ++ map (addr_of gid) evs
    /\ s_cnt s' = s_cnt s + spans evs
    /\ s_free s' = s_free s - spans evs
    /\ fresh (s_bits s) evs (s_bits s').
Proof.
  intros Hs Hrun.
  induction Hrun as [s Hfull|s f big s1 Hp Ha He|s f big s1 r s2 Hp Ha He Hr IH].
  - exists []. cbn [map spans]. rewrite app_nil_r.
    repeat split; try lia. constructor.
  - destruct (allocated_fresh s s1 start f big Hs Hp Ha) as (F & C & Fr & A).
    exists [(f, big)]. cbn [map spans]. rewrite Z.add_0_r. auto.
  - destruct (allocated_fresh s s1 start f big Hs Hp Ha) as (F & C & Fr & A).
    destruct IH as (evs & A' & C' & Fr' & F').
    exists ((f, big) :: evs). cbn [map spans].
    split; [rewrite A', A, <- app_assoc; reflexivity|].
    split; [lia|]. split; [lia|].
    exact (fresh_app _ _ _ [(f, big)] evs F F').
Qed.

(** How far a scan goes: it makes no allocation, or its count stays below
    64 more than what was asked for, and its list within the limit; and a
    scan that runs to the end has made no allocation or has not had
    enough. *)
Lemma run_bounds (start : Z) (s : scan) (r : option Z) (s' : scan) :
  run gid numBits hlimit bigAlloc start s r s' ->
  (s' = s
   \/ (s_cnt s' < Z.max numBits (s_cnt s + 1) + 64
       /\ len (s_acc s') <= Z.max hlimit (len (s_acc s) + 1)))
  /\ match r with
     | Some _ => enough numBits hlimit s' = true
     | None => s' = s \/ enough numBits hlimit s' = false
     end.
Proof.
  induction 1 as [s Hfull|s f big s1 Hp Ha He|s f big s1 r s2 Hp Ha He Hr IH].
  - split; left; reflexivity.
  - split; [|exact He]. right.
    destruct Ha as (_ & _ & Hc & Hacc). rewrite Hc, Hacc.
    unfold len. rewrite length_app. cbn [Datatypes.length].
    destruct big; lia.
  - destruct Ha as (_ & _ & Hc & Hacc).
    assert (Hl : len (s_acc s1) = len (s_acc s) + 1).
    { rewrite Hacc. unfold len. rewrite length_app. cbn [Datatypes.length]. lia. }
    unfold enough in He. apply orb_false_iff in He. destruct He as [He1 He2].
    rewrite Z.geb_leb in He1, He2. apply Z.leb_gt in He1, He2.
    destruct IH as [[->|[B1 B2]] Hr'].
    + split.
      * right. split; [destruct big; lia|lia].
      * destruct r; [exact Hr'|]. right. unfold enough.
        apply orb_false_iff. split; rewrite Z.geb_leb; apply Z.leb_gt; lia.
    + split; [right; split; lia|].
      destruct r; [exact Hr'|]. destruct Hr' as [->|Hr']; [|right; exact Hr'].
      right. unfold enough. apply orb_false_iff. split; rewrite Z.geb_leb; apply Z.leb_gt; lia.
Qed.

End Run.

(** A call is a sequence of fresh allocations. *)
Lemma call_fresh (w gid : Z) (buf : list Z) (free lastPos numBits hlimit : Z)
  (bigAlloc : bool) (addrs : list Z) (n : Z) (buf' : list Z) (free' lastPos' : Z) :
  0 <= w * lastPos ->
  call w gid buf free lastPos numBits hlimit bigAlloc addrs n buf' free' lastPos' ->
  exists evs,
    addrs = map (addr_of gid) evs /\ n = spans evs /\ free' = free - spans evs
    /\ fresh buf evs buf'.
Proof.
  intros Hs Hc.
  destruct Hc as [f s1 Hr|s1 Hr Hno|s1 r2 s2 Hr Hnz Hfree Hr2].
  - destruct (run_fresh _ _ _ _ _ _ _ _ Hs Hr) as (evs & A & C & F & Fr).
    cbn [s_acc s_cnt s_free s_bits app] in *. exists evs. auto.
  - destruct (run_fresh _ _ _ _ _ _ _ _ Hs Hr) as (evs & A & C & F & Fr).
    cbn [s_acc s_cnt s_free s_bits app] in *. exists evs. auto.
  - destruct (run_fresh _ _ _ _ _ _ _ _ Hs Hr) as (ev1 & A1 & C1 & F1 & Fr1).
    destruct (run_fresh _ _ _ _ _ _ _ _ (Z.le_refl 0) Hr2) as (ev2 & A2 & C2 & F2 & Fr2).
    cbn [s_acc s_cnt s_free s_bits app] in *.
    exists (ev1 ++ ev2). rewrite map_app, spans_app, A1, A2.
    split; [reflexivity|]. split; [lia|]. split; [lia|].
    exact (fresh_app _ _ _ _ _ Fr1 Fr2).
Qed.

End ExactFacts.

Module AddrFacts.
Import Bitmap Bits BitFacts CountFacts Alloc AllocSpec AllocCall RunFacts
       AddrSpec ClearSpec ClearFacts ExactSpec ExactFacts.

(** The address of an event of a bitmap of at most [2^20] bits. *)
Lemma decode (gid : Z) (e : event) :
  0 <= gid <= 2047 -> 0 <= fst e < 2 ^ 20 ->
  EntAddr.idx_of (addr_of gid e) = fst e
  /\ EntAddr.group_of (addr_of gid e) = gid
  /\ EntAddr.big_of (addr_of gid e) = Z.b2z (snd e)
  /\ nbits (addr_of gid e) = span e.
Proof.
  intros Hg Hf. destruct (BigFacts.addr_of_decode gid e Hg Hf) as (Hi & Hgr & Hb).
  repeat split; auto. unfold nbits, span. rewrite Hb. destruct (snd e); reflexivity.
Qed.

Section Decoded.

Variables (gid : Z) (bound : Z).
Hypothesis Hgid : 0 <= gid <= 2047.
Hypothesis Hbound : bound <= 2 ^ 20.

(** Events of a bitmap of [bound] bits. *)
Let inside (e : event) : Prop := 0 <= fst e /\ fst e + span e <= bound.

Lemma inside_decode (e : event) :
  inside e ->
  EntAddr.idx_of (addr_of gid e) = fst e
  /\ EntAddr.group_of (addr_of gid e) = gid
  /\ EntAddr.big_of (addr_of gid e) = Z.b2z (snd e)
  /\ nbits (addr_of gid e) = span e.
Proof.
  intros [H0 H1]. pose proof (span_pos e). apply decode; [exact Hgid|lia].
Qed.

Lemma total_bits_events (evs : list event) :
  Forall inside evs -> total_bits (map (addr_of gid) evs) = spans evs.
Proof.
  induction 1 as [|e t He Ht IH]; cbn [map total_bits spans]; [reflexivity|].
  destruct (inside_decode e He) as (_ & _ & _ & ->). rewrite IH. reflexivity.
Qed.

Lemma in_addrs_events (evs : list event) (i : Z) :
  Forall inside evs -> in_addrs (map (addr_of gid) evs) i = covered evs i.
Proof.
  unfold in_addrs, covered.
  induction 1 as [|e t He Ht IH]; cbn [map existsb]; [reflexivity|].
  rewrite IH. f_equal. unfold in_addr.
  destruct (inside_decode e He) as (-> & _ & _ & ->). reflexivity.
Qed.

Lemma apart_events (evs : list event) :
  Forall inside evs ->
  ForallOrdPairs (fun e1 e2 => fst e1 + span e1 <= fst e2
                               \/ fst e2 + span e2 <= fst e1) evs ->
  ForallOrdPairs apart (map (addr_of gid) evs).
Proof.
  intros Hin H. induction H as [|e t He Ht IH]; cbn [map]; [constructor|].
  inversion Hin as [|? ? Hie Hit]; subst.
  constructor; [|apply IH; exact Hit].
  rewrite Forall_map. rewrite Forall_forall in *. intros e' He'.
  unfold apart.
  destruct (inside_decode e Hie) as (-> & _ & _ & ->).
  destruct (inside_decode e' (Hit e' He')) as (-> & _ & _ & ->).
  apply He. exact He'.
Qed.

End Decoded.

(** *** [checkBit] reads the bit of the index *)

Lemma land_pow2_eqb0 (x k : Z) :
  0 <= x -> 0 <= k -> (Z.land x (2 ^ k) =? 0) = negb (Z.testbit x k).
Proof.
  intros Hx Hk. destruct (Z.testbit x k) eqn:E; cbn [negb].
  - apply Z.eqb_neq. intros H.
    pose proof (f_equal (fun y => Z.testbit y k) H) as Hb. cbn beta in Hb.
    rewrite Z.land_spec, E, testbit_pow2, Z.eqb_refl, Z.testbit_0_l in Hb by lia.
    discriminate.
  - apply Z.eqb_eq. apply Z.bits_inj'. intros j Hj.
    rewrite Z.land_spec, testbit_pow2, Z.testbit_0_l by lia.
    destruct (Z.eqb_spec j k) as [->|]; [rewrite E; reflexivity|apply andb_false_r].
Qed.

Lemma checkBit_bit (gid : Z) (buf : list Z) (p : Z) :
  wf buf -> EntAddr.group_of p = gid -> EntAddr.idx_of p < size buf ->
  checkBit gid buf p = Done (bit buf (EntAddr.idx_of p)).
Proof.
  intros Hw Hg Hi. unfold checkBit. rewrite GetAddr_parts.
  pose proof (idx_of_range p) as Hr. set (idx := EntAddr.idx_of p) in *.
  rewrite Hg, Z.eqb_refl. cbn [negb].
  unfold size in Hi. destruct (Z.ltb_spec (idx / 8) (len buf)); [|lia].
  f_equal. unfold bit. destruct (Z.leb_spec 0 idx); [|lia]. cbn [andb].
  rewrite one_shl8 by lia.
  rewrite land_pow2_eqb0 by (try apply get_u8; auto; lia).
  apply negb_involutive.
Qed.

(** *** [batchClearBits] on the addresses of events *)

(** Clearing the head and then the tail is clearing the list. *)
Lemma batchClearBits_join (gid : Z) (buf : list Z) (p : Z) (rest : list Z)
  (b1 b2 : list Z) (c1 c2 : Z) :
  batchClearBits gid buf [p] = Done (b1, c1) ->
  batchClearBits gid b1 rest = Done (b2, c2) ->
  batchClearBits gid buf (p :: rest) = Done (b2, c1 + c2).
Proof.
  unfold batchClearBits. cbn [batchClearBits_from]. rewrite GetAddr_parts.
  destruct (negb (EntAddr.group_of p =? gid)); [discriminate|].
  destruct (EntAddr.big_of p >? 0).
  - destruct (clearBits buf _ _) as [b|]; [|discriminate].
    intros H1 H2. inversion H1; subst b1 c1.
    rewrite batchClearBits_from_split, H2. reflexivity.
  - destruct (EntAddr.idx_of p / 8 <? len buf); [|discriminate].
    intros H1 H2. inversion H1; subst b1 c1.
    rewrite batchClearBits_from_split, H2. reflexivity.
Qed.

(** [batchClearBits] returns for an address of the group whose bits lie in
    the bitmap, a big one ending before the last bit. *)
Lemma clear_one_returns (gid : Z) (buf : list Z) (p : Z) :
  EntAddr.group_of p = gid ->
  EntAddr.idx_of p + nbits p <= size buf ->
  (EntAddr.big_of p > 0 -> EntAddr.idx_of p + 64 < size buf) ->
  exists buf', batchClearBits gid buf [p] = Done (buf', nbits p).
Proof.
  intros Hg Hin Hbig. unfold batchClearBits. cbn [batchClearBits_from].
  rewrite GetAddr_parts. pose proof (idx_of_range p) as Hr.
  set (idx := EntAddr.idx_of p) in *. unfold nbits in *.
  rewrite Hg, Z.eqb_refl. cbn [negb]. unfold size in *.
  destruct (Z.gtb_spec (EntAddr.big_of p) 0) as [Hb|Hb].
  - specialize (Hbig ltac:(lia)).
    unfold clearBits, u32.
    replace ((idx + 64) mod 2 ^ 32) with (idx + 64) by lia.
    replace ((idx + 64) / 8) with (idx / 8 + 8) by lia.
    destruct (Z.eqb_spec (idx / 8) (idx / 8 + 8)); [lia|].
    destruct (Z.ltb_spec (idx / 8) (len buf)); [|lia].
    rewrite len_set.
    destruct (Z.ltb_spec (idx / 8 + 8) (len buf)); [|lia].
    eexists. reflexivity.
  - destruct (Z.ltb_spec (idx / 8) (len buf)); [|lia].
    eexists. reflexivity.
Qed.

Section Cleared.

Variable gid : Z.
Hypothesis Hgid : 0 <= gid <= 2047.

(** Clearing the addresses of events that lie in the bitmap clears their
    bits and no other. *)
Lemma clear_events (evs : list event) : forall buf,
  wf buf -> size buf <= 2 ^ 20 ->
  Forall (fun e => 0 <= fst e /\ fst e + span e <= size buf
                   /\ (snd e = true -> fst e + 64 < size buf)) evs ->
  exists buf',
    batchClearBits gid buf (map (addr_of gid) evs) = Done (buf', spans evs)
    /\ wf buf' /\ Datatypes.length buf' = Datatypes.length buf
    /\ forall i, 0 <= i < size buf ->
         bit buf' i = bit buf i && negb (covered evs i).
Proof.
  induction evs as [|e t IH]; intros buf Hw Hsz Hall.
  - exists buf. cbn [map spans covered existsb negb].
    split; [reflexivity|]. split; [exact Hw|]. split; [reflexivity|].
    intros i _. rewrite andb_true_r. reflexivity.
  - inversion Hall as [|? ? (E0 & E1 & Eb) Ht]; subst.
    pose proof (span_pos e) as Hsp.
    destruct (decode gid e Hgid ltac:(lia)) as (Di & Dg & Db & Dn).
    destruct (clear_one_returns gid buf (addr_of gid e)) as [b1 H1].
    { exact Dg. }
    { rewrite Di, Dn. exact E1. }
    { rewrite Di, Db. intros Hb. apply Eb. destruct (snd e); [reflexivity|cbn in Hb; lia]. }
    destruct (clear_one_effect gid buf _ b1 _ Hw H1) as [[L1 [W1 B1]] _].
    rewrite Di, Dn in B1.
    assert (S1 : size b1 = size buf) by (unfold size, len; rewrite L1; reflexivity).
    destruct (IH b1 W1 ltac:(lia)) as (b2 & H2 & W2 & L2 & B2).
    { eapply Forall_impl; [|exact Ht]. intros e' H'. rewrite S1. exact H'. }
    exists b2. cbn [map spans].
    split; [|split; [exact W2|split; [congruence|]]].
    + rewrite <- Dn. apply (batchClearBits_join gid buf _ _ b1 b2); assumption.
    + intros i Hi. rewrite B2 by lia. rewrite B1 by lia.
      unfold covered. cbn [existsb]. rewrite negb_orb, andb_assoc. reflexivity.
Qed.

(** Clearing the addresses of a sequence of fresh allocations gives the
    bitmap from before them. *)
Lemma clear_fresh (buf buf' : list Z) (evs : list event) :
  wf buf -> size buf <= 2 ^ 20 -> fresh buf evs buf' ->
  batchClearBits gid buf' (map (addr_of gid) evs) = Done (buf, spans evs).
Proof.
  intros Hw Hsz Hf.
  destruct (fresh_shape _ _ _ Hf Hw) as [W' L'].
  pose proof (fresh_size _ _ _ Hf Hw) as S'.
  pose proof (fresh_clear _ _ _ Hf Hw) as Hc.
  pose proof (fresh_bits _ _ _ Hf Hw) as Hb.
  destruct (clear_events evs buf' W' ltac:(lia)) as (b2 & H2 & W2 & L2 & B2).
  { eapply Forall_impl; [|exact Hc]. intros e (E0 & E1 & Eb & _).
    rewrite S'. auto. }
  rewrite H2. f_equal. f_equal.
  apply bits_ext; [congruence|exact W2|exact Hw|].
  intros i Hi. assert (Hi' : 0 <= i < size buf).
  { unfold size, len in *. rewrite L2, L' in Hi. exact Hi. }
  rewrite B2 by lia. rewrite Hb by exact Hi'.
  destruct (covered evs i) eqn:Ec; cbn [negb].
  - rewrite andb_false_r. symmetry.
    unfold covered in Ec. apply existsb_exists in Ec. destruct Ec as [e [He Hr]].
    rewrite Forall_forall in Hc. destruct (Hc e He) as (_ & _ & _ & Hcl).
    apply andb_true_iff in Hr. destruct Hr as [R1 R2].
    apply Z.leb_le in R1. apply Z.ltb_lt in R2. apply Hcl. lia.
  - rewrite orb_false_r, andb_true_r. reflexivity.
Qed.

End Cleared.

End AddrFacts.

Module HandOutFacts.
Import Bitmap Bits BitFacts CountFacts Alloc AllocSpec AllocCall RunFacts
       AddrSpec ClearSpec ClearFacts BitmapSpec ExactSpec ExactFacts AddrFacts.

Section Lawful.

Context {T : Type} {B : Iface.Bitmap T} {L : Layout T}.
Hypothesis Law : lawful (T := T).

(** The events of a call. *)
Lemma AllocBits_events (b : T) (numBits hlimit : Z) (bigAlloc : bool)
  (addrs : list Z) (n : Z) (b' : T) :
  valid b ->
  Iface.AllocBits b numBits hlimit bigAlloc = Some (addrs, n, b') ->
  group b' = group b
  /\ exists evs,
       addrs = map (addr_of (group b)) evs /\ n = spans evs
       /\ Iface.FreeBits b' = Iface.FreeBits b - spans evs
       /\ fresh (bytes b) evs (bytes b').
Proof.
  intros Hv H. pose proof Hv as [Hw [Hm Hp]].
  destruct (law_alloc Law b numBits hlimit bigAlloc Hv)
    as [addrs0 [n0 [b0 [E [Hg Hc]]]]].
  rewrite E in H. inversion H; subst addrs0 n0 b0. clear H.
  split; [exact Hg|].
  pose proof (law_unit Law) as Hu.
  assert (Hs : 0 <= unit_bits * cursor b).
  { apply Z.mul_nonneg_nonneg; [lia|]. destruct Hp; lia. }
  exact (call_fresh _ _ _ _ _ _ _ _ _ _ _ _ _ Hs Hc).
Qed.

Lemma events_inside (b : T) (evs : list event) (buf' : list Z) :
  valid b -> fresh (bytes b) evs buf' ->
  Forall (fun e => 0 <= fst e /\ fst e + span e <= size (bytes b)) evs.
Proof.
  intros [Hw _] Hf. eapply Forall_impl; [|exact (fresh_clear _ _ _ Hf Hw)].
  intros e (E0 & E1 & _). auto.
Qed.

Lemma AllocBits_hands_out : hands_out_fresh_bits (T := T).
Proof.
  intros b numBits hlimit bigAlloc addrs n b' Hv [Hg Hsz] H.
  destruct (AllocBits_events b _ _ _ _ _ _ Hv H) as (Hgr & evs & -> & -> & Hfree & Hf).
  pose proof Hv as [Hw _].
  pose proof (events_inside b evs _ Hv Hf) as Hin.
  pose proof (fresh_clear _ _ _ Hf Hw) as Hc.
  pose proof (fresh_set _ _ _ Hf Hw) as Hs.
  split; [|split; [|split]].
  - symmetry. exact (total_bits_events (group b) _ Hg Hsz evs Hin).
  - rewrite Forall_map. rewrite Forall_forall in *. intros e He.
    destruct (Hc e He) as (E0 & E1 & _ & Ecl).
    destruct (inside_decode (group b) _ Hg Hsz e (Hin e He)) as (Di & Dg & _ & Dn).
    unfold addr_clear, addr_set. rewrite Di, Dn.
    split; [exact Dg|]. split; [exact E1|]. split; [exact Ecl|exact (Hs e He)].
  - intros i Hi. rewrite (in_addrs_events (group b) _ Hg Hsz evs i Hin).
    exact (fresh_bits _ _ _ Hf Hw i Hi).
  - apply (apart_events (group b) _ Hg Hsz evs Hin).
    exact (fresh_apart _ _ _ Hf Hw).
Qed.

Lemma ClearBits_undoes : clear_undoes_alloc (T := T).
Proof.
  intros b numBits hlimit bigAlloc addrs n b' Hv [Hg Hsz] H.
  destruct (AllocBits_events b _ _ _ _ _ _ Hv H) as (Hgr & evs & -> & -> & Hfree & Hf).
  pose proof Hv as [Hw _].
  pose proof (clear_fresh (group b) Hg _ _ _ Hw Hsz Hf) as Hc.
  pose proof (law_clear Law b' (map (addr_of (group b)) evs)) as Hl.
  rewrite Hgr, Hc in Hl.
  destruct (Iface.ClearBits b' (map (addr_of (group b)) evs)) as [b''|];
    [|contradiction].
  destruct Hl as (Hb & Hfr & Hg' & _).
  exists b''. split; [reflexivity|]. split; [exact Hb|]. split; [lia|congruence].
Qed.

Lemma AllocBits_falls_short : falls_short_only_when_full (T := T).
Proof.
  intros b numBits hlimit bigAlloc addrs n b' Hv Hacc H.
  pose proof Hv as [Hw [Hm Hp]].
  destruct (law_alloc Law b numBits hlimit bigAlloc Hv)
    as [addrs0 [n0 [b0 [E [Hg Hc]]]]].
  rewrite E in H. inversion H; subst addrs0 n0 b0. clear H.
  pose proof (law_unit Law) as Hu.
  assert (Hs : 0 <= unit_bits * cursor b).
  { apply Z.mul_nonneg_nonneg; [lia|]. destruct Hp; lia. }
  set (s0 := mkScan (bytes b) (Iface.FreeBits b) [] 0) in *.
  assert (Hfull : forall buf, range_set buf 0 (size buf) -> clear_count buf = 0).
  { intros buf Hr. unfold clear_count. apply clear_from_set.
    intros i Hi. apply Hr. pose proof (len_nonneg buf). unfold size in *. lia. }
  inversion Hc as [f s1 Hr|s1 Hr Hno|s1 r2 s2 Hr Hnz Hfree Hr2]; subst.
  - destruct (run_bounds _ _ _ _ _ _ _ _ Hr) as [Hb He].
    unfold enough in He. apply orb_true_iff in He.
    rewrite !Z.geb_leb, !Z.leb_le in He.
    split; [|destruct He; [left; lia|right; left; lia]].
    destruct Hb as [->|[B1 _]]; cbn [s_cnt s0] in *; lia.
  - destruct (run_bounds _ _ _ _ _ _ _ _ Hr) as [Hb He].
    destruct (run_kept _ _ _ _ _ s0 _ _ Hw Hs Hr) as [K Hset].
    split; [destruct Hb as [->|[B1 _]]; cbn [s_cnt s0] in *; lia|].
    right. right.
    pose proof (k_free _ _ _ K) as F. pose proof (k_count _ _ _ K) as C.
    cbn [s_bits s_free s_cnt s0] in F, C.
    destruct (Z.eq_dec (cursor b) 0) as [E0|N0].
    + apply Hfull. rewrite E0, Z.mul_0_r in Hset. exact Hset.
    + assert (s_free s1 <= 0) by (destruct (Z_le_gt_dec (s_free s1) 0); [lia|tauto]).
      pose proof (clear_count_bounds (s_bits s1)). lia.
  - destruct (run_bounds _ _ _ _ _ _ _ _ Hr) as [Hb1 He1].
    destruct (run_bounds _ _ _ _ _ _ _ _ Hr2) as [Hb2 He2].
    destruct (run_kept _ _ _ _ _ s0 _ _ Hw Hs Hr) as [K1 _].
    assert (W1 : wf (s_bits s1)) by apply K1.
    destruct (run_kept _ _ _ _ _ (mkScan (s_bits s1) (s_free s1) [] 0) _ _
                W1 (Z.le_refl 0) Hr2) as [K2 Hset2].
    pose proof (k_cnt _ _ _ K1) as N1. pose proof (k_cnt _ _ _ K2) as N2.
    cbn [s_cnt s_acc s0] in *.
    assert (C1 : s_cnt s1 = 0 \/ s_cnt s1 < numBits).
    { destruct He1 as [->|He1]; [left; reflexivity|right].
      unfold enough in He1. apply orb_false_iff in He1. destruct He1 as [He1 _].
      rewrite Z.geb_leb in He1. apply Z.leb_gt in He1. exact He1. }
    split.
    + destruct Hb2 as [->|[B2 _]]; cbn [s_cnt] in *; lia.
    + destruct r2 as [f|].
      * unfold enough in He2. apply orb_true_iff in He2.
        rewrite !Z.geb_leb, !Z.leb_le in He2.
        destruct He2 as [He2|He2]; [left; lia|right; left].
        unfold len in *. rewrite length_app. lia.
      * right. right. apply Hfull. exact Hset2.
Qed.

Lemma AllocBits_count_bound : address_count_bound (T := T).
Proof.
  intros b numBits hlimit bigAlloc addrs n b' Hv H.
  destruct (law_alloc Law b numBits hlimit bigAlloc Hv)
    as [addrs0 [n0 [b0 [E [Hg Hc]]]]].
  rewrite E in H. inversion H; subst addrs0 n0 b0. clear H.
  set (s0 := mkScan (bytes b) (Iface.FreeBits b) [] 0) in *.
  inversion Hc as [f s1 Hr|s1 Hr Hno|s1 r2 s2 Hr Hnz Hfree Hr2]; subst.
  - destruct (run_bounds _ _ _ _ _ _ _ _ Hr) as [[->|[_ Bd]] _];
      cbn [s_acc s0 len Datatypes.length] in *; unfold len in *;
      cbn [Datatypes.length] in *; lia.
  - destruct (run_bounds _ _ _ _ _ _ _ _ Hr) as [[->|[_ Bd]] _];
      cbn [s_acc s0 len Datatypes.length] in *; unfold len in *;
      cbn [Datatypes.length] in *; lia.
  - split; [|intros; contradiction].
    destruct (run_bounds _ _ _ _ _ _ _ _ Hr) as [_ He1].
    destruct (run_bounds _ _ _ _ _ _ _ _ Hr2) as [Hb2 _].
    assert (L1 : len (s_acc s1) <= Z.max (hlimit - 1) 0).
    { destruct He1 as [->|He1]; [cbn; lia|].
      unfold enough in He1. apply orb_false_iff in He1. destruct He1 as [_ He1].
      rewrite Z.geb_leb in He1. apply Z.leb_gt in He1. lia. }
    assert (L2 : len (s_acc s2) <= Z.max hlimit 1).
    { destruct Hb2 as [->|[_ Bd]]; cbn [s_acc len Datatypes.length] in *;
        unfold len in *; cbn [Datatypes.length] in *; lia. }
    unfold len in *. rewrite length_app. lia.
Qed.

End Lawful.

(** [CheckBit] of either implementation is [checkBit] on its bytes. *)
Lemma checks (gid : Z) (buf buf' : list Z) (evs : list event) (e : event) :
  wf buf -> 0 <= gid <= 2047 -> size buf <= 2 ^ 20 ->
  fresh buf evs buf' -> In e evs ->
  checkBit gid buf (addr_of gid e) = Done false
  /\ checkBit gid buf' (addr_of gid e) = Done true.
Proof.
  intros Hw Hg Hsz Hf He.
  pose proof (fresh_clear _ _ _ Hf Hw) as Hc.
  pose proof (fresh_set _ _ _ Hf Hw) as Hs.
  destruct (fresh_shape _ _ _ Hf Hw) as [W' _].
  pose proof (fresh_size _ _ _ Hf Hw) as S'.
  rewrite Forall_forall in *.
  destruct (Hc e He) as (E0 & E1 & _ & Ecl). specialize (Hs e He).
  pose proof (span_pos e) as Hp.
  destruct (decode gid e Hg ltac:(lia)) as (Di & Dg & _ & _).
  rewrite !checkBit_bit by (auto; rewrite Di; lia).
  rewrite Di. rewrite Ecl by lia. rewrite Hs by lia. split; reflexivity.
Qed.

End HandOutFacts.

(** X14, [AllocBits] hands out fresh bits and nothing else, for [Bitmap64]
    and for [BitmapBase]: on a bitmap of whole scan units, of a group of at
    most 2047 and of at most [2^20] bits, the count that a call returns is
    the number of bits of the addresses it returns (64 for a big one, 1
    otherwise); each address carries the group of the bitmap, and its bits
    lie in the bitmap, were clear before the call and are set after it; a
    bit is set after the call exactly when it was set before or belongs to
    a returned address; and no two of the addresses share a bit. *)
Theorem AllocBits_hands_out_fresh_bits :
  ExactSpec.hands_out_fresh_bits (T := B64.t)
  /\ ExactSpec.hands_out_fresh_bits (T := Base.t).
Proof.
  split.
  - exact (HandOutFacts.AllocBits_hands_out LawFacts.Bitmap64_lawful).
  - exact (HandOutFacts.AllocBits_hands_out LawFacts.BitmapBase_lawful).
Qed.

Lemma AllocBits_hands_out_fresh_bits_witness :
  64 = AddrSpec.total_bits [0x80100001]
  /\ (forall i, 0 <= i < 192 ->
        Bits.bit (255 :: repeat 255 7 ++ 1 :: repeat 0 15) i
        = Bits.bit (1 :: repeat 0 23) i || ExactSpec.in_addrs [0x80100001] i).
Proof.
  assert (Hw : Bits.wf (1 :: repeat 0 23)).
  { repeat constructor; unfold is_u8; lia. }
  destruct AllocBits_hands_out_fresh_bits as [T64 _].
  destruct (T64 (B64.mk (1 :: repeat 0 23) 191 1 0) 64 1 true [0x80100001] 64
              (B64.mk (255 :: repeat 255 7 ++ 1 :: repeat 0 15) 127 1 0))
    as (Hn & _ & Hb & _).
  - split; [exact Hw|]. split; [reflexivity|left; reflexivity].
  - split; cbn; lia.
  - vm_compute. reflexivity.
  - split; [exact Hn|exact Hb].
Defined.

(** X15, [CheckBit] tells what [AllocBits] hands out, for [Bitmap64] and
    for [BitmapBase]: on such a bitmap, [CheckBit] on an address that a
    call returns is [false] on the bitmap before the call and [true] on
    the bitmap after it, and does not panic. *)
Theorem CheckBit_tells_what_AllocBits_hands_out :
  ExactSpec.checks_what_it_hands_out (T := B64.t)
  /\ ExactSpec.checks_what_it_hands_out (T := Base.t).
Proof.
  split.
  - intros b numBits hlimit bigAlloc addrs n b' a Hv [Hg Hsz] H Hin.
    destruct (HandOutFacts.AllocBits_events LawFacts.Bitmap64_lawful b _ _ _ _ _ _ Hv H)
      as (Hgr & evs & -> & _ & _ & Hf).
    apply in_map_iff in Hin. destruct Hin as [e [<- He]].
    change (Iface.CheckBit b (AllocSpec.addr_of (BitmapSpec.group b) e))
      with (Bitmap.checkBit (BitmapSpec.group b) (BitmapSpec.bytes b)
              (AllocSpec.addr_of (BitmapSpec.group b) e)).
    change (Iface.CheckBit b' (AllocSpec.addr_of (BitmapSpec.group b) e))
      with (Bitmap.checkBit (BitmapSpec.group b') (BitmapSpec.bytes b')
              (AllocSpec.addr_of (BitmapSpec.group b) e)).
    rewrite Hgr. destruct Hv as [Hw _].
    exact (HandOutFacts.checks _ _ _ evs e Hw Hg Hsz Hf He).
  - intros b numBits hlimit bigAlloc addrs n b' a Hv [Hg Hsz] H Hin.
    destruct (HandOutFacts.AllocBits_events LawFacts.BitmapBase_lawful b _ _ _ _ _ _ Hv H)
      as (Hgr & evs & -> & _ & _ & Hf).
    apply in_map_iff in Hin. destruct Hin as [e [<- He]].
    change (Iface.CheckBit b (AllocSpec.addr_of (BitmapSpec.group b) e))
      with (Bitmap.checkBit (BitmapSpec.group b) (BitmapSpec.bytes b)
              (AllocSpec.addr_of (BitmapSpec.group b) e)).
    change (Iface.CheckBit b' (AllocSpec.addr_of (BitmapSpec.group b) e))
      with (Bitmap.checkBit (BitmapSpec.group b') (BitmapSpec.bytes b')
              (AllocSpec.addr_of (BitmapSpec.group b) e)).
    rewrite Hgr. destruct Hv as [Hw _].
    exact (HandOutFacts.checks _ _ _ evs e Hw Hg Hsz Hf He).
Qed.

Lemma CheckBit_tells_what_AllocBits_hands_out_witness :
  B64.CheckBit (B64.mk (1 :: repeat 0 23) 191 1 0) 0x80100001 = Done false
  /\ B64.CheckBit (B64.mk (255 :: repeat 255 7 ++ 1 :: repeat 0 15) 127 1 0) 0x80100001
     = Done true.
Proof.
  assert (Hw : Bits.wf (1 :: repeat 0 23)).
  { repeat constructor; unfold is_u8; lia. }
  destruct CheckBit_tells_what_AllocBits_hands_out as [T64 _].
  apply (T64 (B64.mk (1 :: repeat 0 23) 191 1 0) 64 1 true [0x80100001] 64
             (B64.mk (255 :: repeat 255 7 ++ 1 :: repeat 0 15) 127 1 0) 0x80100001).
  - split; [exact Hw|]. split; [reflexivity|left; reflexivity].
  - split; cbn; lia.
  - vm_compute. reflexivity.
  - left. reflexivity.
Defined.

(** X16, [ClearBits] undoes [AllocBits], for [Bitmap64] and for
    [BitmapBase]: on such a bitmap, [ClearBits] on the addresses that a
    call of [AllocBits] returned does not panic and leaves the bytes and
    [freeBits] that the bitmap had before the call. *)
Theorem ClearBits_undoes_AllocBits :
  ExactSpec.clear_undoes_alloc (T := B64.t)
  /\ ExactSpec.clear_undoes_alloc (T := Base.t).
Proof.
  split.
  - exact (HandOutFacts.ClearBits_undoes LawFacts.Bitmap64_lawful).
  - exact (HandOutFacts.ClearBits_undoes LawFacts.BitmapBase_lawful).
Qed.

Lemma ClearBits_undoes_AllocBits_witness :
  exists b'',
    B64.ClearBits (B64.mk (255 :: repeat 255 7 ++ 1 :: repeat 0 15) 127 1 0) [0x80100001]
    = Done b''
    /\ B64.buffer b'' = 1 :: repeat 0 23 /\ B64.freeBits b'' = 191.
Proof.
  assert (Hw : Bits.wf (1 :: repeat 0 23)).
  { repeat constructor; unfold is_u8; lia. }
  destruct ClearBits_undoes_AllocBits as [T64 _].
  destruct (T64 (B64.mk (1 :: repeat 0 23) 191 1 0) 64 1 true [0x80100001] 64
              (B64.mk (255 :: repeat 255 7 ++ 1 :: repeat 0 15) 127 1 0))
    as (b'' & Hc & Hb & Hf & _).
  - split; [exact Hw|]. split; [reflexivity|left; reflexivity].
  - split; cbn; lia.
  - vm_compute. reflexivity.
  - exists b''. split; [exact Hc|]. split; [exact Hb|exact Hf].
Defined.

(** X17, [AllocBits] falls short only of a full bitmap, for [Bitmap64] and
    for [BitmapBase]: on a bitmap of whole scan units whose [freeBits] is
    the number of its clear bits, a call returns at least [numBits] bits,
    or at least [hlimit] addresses, or leaves no clear bit in the bitmap;
    and the count it returns is less than [max(numBits, 1) + 64]. *)
Theorem AllocBits_falls_short_only_when_full :
  ExactSpec.falls_short_only_when_full (T := B64.t)
  /\ ExactSpec.falls_short_only_when_full (T := Base.t).
Proof.
  split.
  - exact (HandOutFacts.AllocBits_falls_short LawFacts.Bitmap64_lawful).
  - exact (HandOutFacts.AllocBits_falls_short LawFacts.BitmapBase_lawful).
Qed.

Lemma AllocBits_falls_short_only_when_full_witness :
  4 < Z.max 5 1 + 64
  /\ (5 <= 4 \/ 200 <= len [0x0010007F; 0x00100000; 0x00100001; 0x00100002]
      \/ Bits.clear_count (repeat 255 16) = 0).
Proof.
  assert (Hw : Bits.wf (248 :: repeat 255 14 ++ [127])).
  { repeat constructor; unfold is_u8; lia. }
  destruct AllocBits_falls_short_only_when_full as [T64 _].
  apply (T64 (B64.mk (248 :: repeat 255 14 ++ [127]) 4 1 1) 5 200 false
             [0x0010007F; 0x00100000; 0x00100001; 0x00100002] 4
             (B64.mk (repeat 255 16) 0 1 1)).
  - split; [exact Hw|]. split; [reflexivity|right; cbn; lia].
  - vm_compute. reflexivity.
  - vm_compute. reflexivity.
Defined.

(** X4, how many addresses a call of [AllocBits] returns, for [Bitmap64]
    and for [BitmapBase]: at most [max(hlimit, 1)] when [lastPos] is 0,
    and at most [max(hlimit - 1, 0) + max(hlimit, 1)] in any case: the
    scan after the wrap-around is given [hlimit] as it was, so a call can
    return up to [2 * hlimit - 1] addresses. *)
Theorem AllocBits_address_count :
  ExactSpec.address_count_bound (T := B64.t)
  /\ ExactSpec.address_count_bound (T := Base.t).
Proof.
  split.
  - exact (HandOutFacts.AllocBits_count_bound LawFacts.Bitmap64_lawful).
  - exact (HandOutFacts.AllocBits_count_bound LawFacts.BitmapBase_lawful).
Qed.

Lemma AllocBits_address_count_witness :
  len [0x0010007F; 0x00100000; 0x00100001] <= Z.max (2 - 1) 0 + Z.max 2 1
  /\ (1 = 0 -> len [0x0010007F; 0x00100000; 0x00100001] <= Z.max 2 1).
Proof.
  assert (Hw : Bits.wf (248 :: repeat 255 14 ++ [127])).
  { repeat constructor; unfold is_u8; lia. }
  destruct AllocBits_address_count as [T64 _].
  apply (T64 (B64.mk (248 :: repeat 255 14 ++ [127]) 4 1 1) 3 2 false
             [0x0010007F; 0x00100000; 0x00100001] 3
             (B64.mk (251 :: repeat 255 15) 1 1 0)).
  - split; [exact Hw|]. split; [reflexivity|right; cbn; lia].
  - vm_compute. reflexivity.
Defined.
